(** * rhash: a Robin-Hood hash set / map with iterative two-table rehashing

    A shallow embedding of [rhash.c] (clump).  Machine integers are [Z] with
    their wrap-around written out, the slot array of a table is a function
    from slot numbers to optional entries (a NULL key marks an empty slot),
    and [assert] failures are the [None] of an error monad. *)

From Stdlib Require Import ZArith List Bool Lia.
From Stdlib Require Import Strings.Byte.
Import ListNotations.
Open Scope Z_scope.

(** ** Machine integers *)

Definition u32 (z : Z) : Z := z mod 2 ^ 32.
Definition u16 (z : Z) : Z := z mod 2 ^ 16.

(** Conversion of a [uint32_t] to [int] (two's complement). *)
Definition int_of_u32 (z : Z) : Z :=
  if z <? 2 ^ 31 then z else z - 2 ^ 32.

(** ** Keys, values and entries *)

(** A key is a non-NULL pointer: its address and the bytes stored there.
    Where the list ends the memory holds a zero byte. *)
Record key : Type := mkKey { kaddr : Z; kbytes : list byte }.

(** A value is an opaque pointer; [0] is NULL. *)
Definition value : Type := Z.

(** One occupied slot: the key word and the value word (maps only; the value
    word of a set is kept at [0]). *)
Definition entry : Type := (key * value)%type.

Definition byte_val (b : byte) : Z := Z.of_N (Byte.to_N b).

Definition deref (p : list byte) : byte :=
  match p with
  | [] => x00
  | b :: _ => b
  end.

(** ** Hash functions *)

Definition hash_step (hash c : Z) : Z :=
  u32 (u32 (u32 (Z.shiftl hash 5) + hash) + c).

Fixpoint hash_str_loop (str : list byte) (hash : Z) : Z :=
  match str with
  | [] => hash
  | b :: str' =>
      let c := byte_val b in
      if c =? 0 then hash else hash_str_loop str' (hash_step hash c)
  end.

Definition cl_rhash_table_hash_str (k : key) : Z :=
  hash_str_loop (kbytes k) 5381.

Fixpoint hash_fixed_loop (n : nat) (ptr : list byte) (hash : Z) : Z :=
  match n with
  | O => hash
  | S n' =>
      let c := byte_val (deref ptr) in
      hash_fixed_loop n' (tl ptr) (hash_step hash c)
  end.

Definition cl_rhash_table_hash_fixed (k : key) (key_bytes : Z) : Z :=
  hash_fixed_loop (Z.to_nat key_bytes) (kbytes k) 5381.

(** [strcmp(a, b) == 0] *)
Fixpoint strcmp_eq (a b : list byte) : bool :=
  let x := deref a in
  let y := deref b in
  if Byte.eqb x y then
    if Byte.eqb x x00 then true
    else
      match a with
      | [] => true
      | _ :: a' => strcmp_eq a' (tl b)
      end
  else false.

(** [memcmp(a, b, n) == 0] *)
Fixpoint memcmp_eq (n : nat) (a b : list byte) : bool :=
  match n with
  | O => true
  | S n' =>
      if Byte.eqb (deref a) (deref b) then memcmp_eq n' (tl a) (tl b)
      else false
  end.

(** ** The bytes a key stands for *)

(** The bytes before the terminator. *)
Fixpoint cstring (p : list byte) : list byte :=
  match p with
  | [] => []
  | b :: p' => if Byte.eqb b x00 then [] else b :: cstring p'
  end.

(** Exactly [n] bytes. *)
Fixpoint block (n : nat) (p : list byte) : list byte :=
  match n with
  | O => []
  | S n' => deref p :: block n' (tl p)
  end.

Definition key_content (key_bytes : Z) (k : key) : list byte :=
  if key_bytes =? 0 then cstring (kbytes k)
  else block (Z.to_nat key_bytes) (kbytes k).

(** The recurrence [h := h * 33 + byte] modulo [2^32]. *)
Definition hash33 (bs : list byte) : Z :=
  fold_left (fun h b => (h * 33 + byte_val b) mod 2 ^ 32) bs 5381.

(** ** Probe tables *)

Record cl_rhash_table : Type := mkTable {
  table : Z -> option entry;
  n_entries : Z;
  n_peek : Z;
  n_bytes : Z;
  order : Z;
  key_bytes : Z
}.

Definition CL_HASH_MIN_ORDER : Z := 6.
Definition CL_HASH_MAX_ORDER : Z := 31.

(** [sizeof(void ** )] *)
Definition ptr_bytes : Z := 8.

Definition cl_rhash_table_size (tbl : cl_rhash_table) : Z :=
  u32 (Z.shiftl 1 (order tbl)).

(** The byte offset of a slot, a [uint32_t]. *)
Definition cl_rhash_table_offset (tbl : cl_rhash_table) (slot : Z) : Z :=
  u32 (slot * n_bytes tbl).

(** The byte offsets of the slots of a table do not wrap around: the
    entries have a positive width and the slot array takes at most [2^32]
    bytes.  Then the offset of a slot below the table size is
    [slot * n_bytes], and distinct slots are distinct entries. *)
Definition offsets_exact (tbl : cl_rhash_table) : Prop :=
  0 < n_bytes tbl /\ cl_rhash_table_size tbl * n_bytes tbl <= 2 ^ 32.

(** The entry at a slot.  The slot array is addressed by slot number.  That
    is what the code does for a slot below the table size
    ([assert(slot < size)]) of a table with [offsets_exact]; in a larger
    table the byte offset of the code wraps around, so that two slots are
    one entry, which this model does not follow. *)
Definition cl_rhash_table_ptr (tbl : cl_rhash_table) (slot : Z) : option entry :=
  table tbl slot.

Definition cl_rhash_table_hash (tbl : cl_rhash_table) (k : key) : Z :=
  if negb (key_bytes tbl =? 0)
  then cl_rhash_table_hash_fixed k (key_bytes tbl)
  else cl_rhash_table_hash_str k.

Definition cl_rhash_table_slot (tbl : cl_rhash_table) (hcode pr : Z) : Z :=
  let mask := u32 (cl_rhash_table_size tbl - 1) in
  Z.land (u32 (hcode + pr)) mask.

Definition cl_rhash_table_cost_slot (tbl : cl_rhash_table) (slot o_slot : Z) : Z :=
  if slot >=? o_slot
  then u32 (slot - o_slot)
  else u32 (cl_rhash_table_size tbl + slot - o_slot).

Definition cl_rhash_table_key_equals (tbl : cl_rhash_table) (key1 key2 : key) : bool :=
  if negb (key_bytes tbl =? 0)
  then memcmp_eq (Z.to_nat (key_bytes tbl)) (kbytes key1) (kbytes key2)
  else strcmp_eq (kbytes key1) (kbytes key2).

Definition cl_rhash_table_cost (tbl : cl_rhash_table) (slot : Z) : Z :=
  match cl_rhash_table_ptr tbl slot with
  | Some ent =>
      let hcode := cl_rhash_table_hash tbl (fst ent) in
      let o_slot := cl_rhash_table_slot tbl hcode 0 in
      cl_rhash_table_cost_slot tbl slot o_slot
  | None => 0
  end.

(** Writing the slot array and the bookkeeping fields. *)
Definition set_slot (tbl : cl_rhash_table) (slot : Z) (v : option entry) : cl_rhash_table :=
  mkTable (fun s => if s =? slot then v else table tbl s)
          (n_entries tbl) (n_peek tbl) (n_bytes tbl) (order tbl) (key_bytes tbl).

Definition set_n_entries (tbl : cl_rhash_table) (n : Z) : cl_rhash_table :=
  mkTable (table tbl) n (n_peek tbl) (n_bytes tbl) (order tbl) (key_bytes tbl).

Definition set_n_peek (tbl : cl_rhash_table) (n : Z) : cl_rhash_table :=
  mkTable (table tbl) (n_entries tbl) n (n_bytes tbl) (order tbl) (key_bytes tbl).

Definition set_order (tbl : cl_rhash_table) (o : Z) : cl_rhash_table :=
  mkTable (table tbl) (n_entries tbl) (n_peek tbl) (n_bytes tbl) o (key_bytes tbl).

(** [memset(tbl->table, 0, ...)] and [calloc]: every slot empty. *)
Definition cl_rhash_table_zero (tbl : cl_rhash_table) : cl_rhash_table :=
  mkTable (fun _ => None)
          (n_entries tbl) (n_peek tbl) (n_bytes tbl) (order tbl) (key_bytes tbl).

Definition cl_rhash_table_alloc (tbl : cl_rhash_table) : cl_rhash_table :=
  mkTable (fun _ => None)
          (n_entries tbl) (n_peek tbl) (n_bytes tbl) (order tbl) (key_bytes tbl).

Definition cl_rhash_table_init (key_bytes n_bytes : Z) : cl_rhash_table :=
  let tbl := mkTable (fun _ => None) 0 0 n_bytes CL_HASH_MIN_ORDER key_bytes in
  cl_rhash_table_alloc (set_n_peek tbl (cl_rhash_table_size tbl)).

(** The assertion of [cl_rhash_table_clone] fails on a destination that
    still holds entries. *)
Definition cl_rhash_table_clone (tbl src : cl_rhash_table) : option cl_rhash_table :=
  if n_entries tbl =? 0 then Some src else None.

Definition cl_rhash_table_entry_update (tbl : cl_rhash_table) (slot : Z) : cl_rhash_table :=
  if slot <? n_peek tbl then set_n_peek tbl slot else tbl.

Definition cl_rhash_table_clear (tbl : cl_rhash_table) : cl_rhash_table :=
  let tbl := set_n_entries tbl 0 in
  let tbl := set_n_peek tbl (cl_rhash_table_size tbl) in
  if negb (order tbl =? CL_HASH_MIN_ORDER)
  then cl_rhash_table_alloc (set_order tbl CL_HASH_MIN_ORDER)
  else cl_rhash_table_zero tbl.

Definition cl_rhash_table_slimit (tbl : cl_rhash_table) : Z :=
  if order tbl >? CL_HASH_MIN_ORDER
  then cl_rhash_table_size tbl / 4
  else 0.

Definition cl_rhash_table_limit (tbl : cl_rhash_table) : Z :=
  let n_size := cl_rhash_table_size tbl in
  u32 (n_size - n_size / 4).

Definition cl_rhash_table_entry_exists (e : option entry) : bool :=
  match e with Some _ => true | None => false end.

(** [memcpy(dst, src, tbl->n_bytes)] between entries: one word for a set,
    two for a map. *)
Definition cl_rhash_table_entry_copy (tbl : cl_rhash_table) (src : entry) : entry :=
  if n_bytes tbl =? 2 * ptr_bytes then src else (fst src, 0).

Definition slot_copy (tbl : cl_rhash_table) (src : option entry) : option entry :=
  match src with
  | Some e => Some (cl_rhash_table_entry_copy tbl e)
  | None => None
  end.

(** The loops below run on the number of iterations that are left. *)
Fixpoint peek_entry_loop (fuel : nat) (tbl : cl_rhash_table) (pr : Z)
  : cl_rhash_table * option Z :=
  match fuel with
  | O => (tbl, None)
  | S fuel' =>
      if cl_rhash_table_entry_exists (cl_rhash_table_ptr tbl pr)
      then (set_n_peek tbl pr, Some pr)
      else peek_entry_loop fuel' tbl (pr + 1)
  end.

Definition cl_rhash_table_peek_entry (tbl : cl_rhash_table) : cl_rhash_table * option Z :=
  let n_size := cl_rhash_table_size tbl in
  peek_entry_loop (Z.to_nat (n_size - n_peek tbl)) tbl (n_peek tbl).

Definition cl_rhash_table_peek (tbl : cl_rhash_table) : cl_rhash_table * option Z :=
  if n_entries tbl >? 0 then cl_rhash_table_peek_entry tbl else (tbl, None).

Fixpoint entry_loop (fuel : nat) (tbl : cl_rhash_table) (k : key) (hcode pr : Z)
  : option Z :=
  match fuel with
  | O => None
  | S fuel' =>
      let slot := cl_rhash_table_slot tbl hcode pr in
      match cl_rhash_table_ptr tbl slot with
      | None => None
      | Some e =>
          if cl_rhash_table_key_equals tbl k (fst e) then Some slot
          else if pr >? cl_rhash_table_cost tbl slot then None
          else entry_loop fuel' tbl k hcode (pr + 1)
      end
  end.

(** Lookup: the slot of the entry found, if any. *)
Definition cl_rhash_table_entry (tbl : cl_rhash_table) (k : key) : option Z :=
  let n_size := cl_rhash_table_size tbl in
  let hcode := cl_rhash_table_hash tbl k in
  entry_loop (Z.to_nat n_size) tbl k hcode 0.

Definition cl_rhash_table_contains (tbl : cl_rhash_table) (k : key) : bool :=
  match cl_rhash_table_entry tbl k with Some _ => true | None => false end.

Fixpoint find_empty_loop (fuel : nat) (tbl : cl_rhash_table) (hcode pr : Z) : Z :=
  match fuel with
  | O => 0
  | S fuel' =>
      let slot := cl_rhash_table_slot tbl hcode pr in
      if cl_rhash_table_entry_exists (cl_rhash_table_ptr tbl slot)
      then find_empty_loop fuel' tbl hcode (pr + 1)
      else pr
  end.

Definition cl_rhash_table_find_empty (tbl : cl_rhash_table) (hcode ipr : Z) : Z :=
  let n_size := cl_rhash_table_size tbl in
  find_empty_loop (Z.to_nat (n_size - ipr)) tbl hcode ipr.

Fixpoint shift_forward_loop (fuel : nat) (tbl : cl_rhash_table) (hcode pr : Z)
    (p_ent : option Z) : cl_rhash_table :=
  match fuel with
  | O => tbl
  | S fuel' =>
      let slot := cl_rhash_table_slot tbl hcode pr in
      let tbl :=
        match p_ent with
        | Some p => set_slot tbl p (slot_copy tbl (cl_rhash_table_ptr tbl slot))
        | None => tbl
        end in
      let tbl := cl_rhash_table_entry_update tbl slot in
      shift_forward_loop fuel' tbl hcode (u32 (pr - 1)) (Some slot)
  end.

(** The loop runs from [shift] down to [ipr]; it is only entered with
    [ipr >= 1] (the caller has [pr > cost]). *)
Definition cl_rhash_table_shift_forward (tbl : cl_rhash_table) (hcode ipr : Z)
  : cl_rhash_table :=
  let shift := cl_rhash_table_find_empty tbl hcode ipr in
  shift_forward_loop (Z.to_nat (shift - ipr + 1)) tbl hcode shift None.

(** The three ways the insertion loop stores the new entry. *)
Definition insert_at_empty (tbl : cl_rhash_table) (slot : Z) (ent : entry)
  : cl_rhash_table :=
  let tbl := set_slot tbl slot (Some (cl_rhash_table_entry_copy tbl ent)) in
  let tbl := set_n_entries tbl (u32 (n_entries tbl + 1)) in
  cl_rhash_table_entry_update tbl slot.

Definition insert_at_equal (tbl : cl_rhash_table) (slot : Z) (ent : entry)
  : cl_rhash_table :=
  let tbl := set_slot tbl slot (Some (cl_rhash_table_entry_copy tbl ent)) in
  cl_rhash_table_entry_update tbl slot.

Definition insert_at_richer (tbl : cl_rhash_table) (hcode pr slot : Z) (ent : entry)
  : cl_rhash_table :=
  let tbl := cl_rhash_table_shift_forward tbl hcode pr in
  let tbl := set_slot tbl slot (Some (cl_rhash_table_entry_copy tbl ent)) in
  let tbl := set_n_entries tbl (u32 (n_entries tbl + 1)) in
  cl_rhash_table_entry_update tbl slot.

(** [None] when the loop falls through to [assert(false)]. *)
Fixpoint insert_loop (fuel : nat) (tbl : cl_rhash_table) (ent : entry) (hcode pr : Z)
  : option (cl_rhash_table * option key) :=
  match fuel with
  | O => None
  | S fuel' =>
      let slot := cl_rhash_table_slot tbl hcode pr in
      match cl_rhash_table_ptr tbl slot with
      | None => Some (insert_at_empty tbl slot ent, None)
      | Some e =>
          if cl_rhash_table_key_equals tbl (fst ent) (fst e)
          then Some (insert_at_equal tbl slot ent, Some (fst e))
          else if pr >? cl_rhash_table_cost tbl slot
          then Some (insert_at_richer tbl hcode pr slot ent, None)
          else insert_loop fuel' tbl ent hcode (pr + 1)
      end
  end.

(** Insert an entry: the new table and the previous equal key, if any. *)
Definition cl_rhash_table_insert (tbl : cl_rhash_table) (ent : entry)
  : option (cl_rhash_table * option key) :=
  let n_size := cl_rhash_table_size tbl in
  let hcode := cl_rhash_table_hash tbl (fst ent) in
  if n_entries tbl <? n_size
  then insert_loop (Z.to_nat n_size) tbl ent hcode 0
  else None.

Fixpoint shift_backward_loop (fuel : nat) (tbl : cl_rhash_table) (hcode pr ent : Z)
  : cl_rhash_table :=
  match fuel with
  | O => set_slot tbl ent None
  | S fuel' =>
      let slot := cl_rhash_table_slot tbl hcode pr in
      match cl_rhash_table_ptr tbl slot with
      | None => set_slot tbl ent None
      | Some e =>
          if cl_rhash_table_cost tbl slot =? 0 then set_slot tbl ent None
          else
            let tbl := set_slot tbl ent (Some (cl_rhash_table_entry_copy tbl e)) in
            shift_backward_loop fuel' tbl hcode (pr + 1) slot
      end
  end.

(** [ent] is the slot of an existing entry. *)
Definition cl_rhash_table_shift_backward (tbl : cl_rhash_table) (ent ipr : Z)
  : cl_rhash_table :=
  let n_size := cl_rhash_table_size tbl in
  let hcode :=
    match cl_rhash_table_ptr tbl ent with
    | Some e => cl_rhash_table_hash tbl (fst e)
    | None => 0
    end in
  shift_backward_loop (Z.to_nat (n_size - (ipr + 1))) tbl hcode (ipr + 1) ent.

Fixpoint remove_loop (fuel : nat) (tbl : cl_rhash_table) (k : key) (hcode pr : Z)
  : cl_rhash_table * option key :=
  match fuel with
  | O => (tbl, None)
  | S fuel' =>
      let slot := cl_rhash_table_slot tbl hcode pr in
      match cl_rhash_table_ptr tbl slot with
      | None => (tbl, None)
      | Some e =>
          if cl_rhash_table_key_equals tbl k (fst e)
          then
            let tbl1 := set_n_entries tbl (u32 (n_entries tbl - 1)) in
            let tbl2 := cl_rhash_table_shift_backward tbl1 slot pr in
            (cl_rhash_table_entry_update tbl2 slot, Some (fst e))
          else remove_loop fuel' tbl k hcode (pr + 1)
      end
  end.

(** Remove the entry of a key: the new table and the key removed, if any. *)
Definition cl_rhash_table_remove (tbl : cl_rhash_table) (k : key)
  : cl_rhash_table * option key :=
  if n_entries tbl =? 0 then (tbl, None)
  else
    let n_size := cl_rhash_table_size tbl in
    let hcode := cl_rhash_table_hash tbl k in
    remove_loop (Z.to_nat n_size) tbl k hcode 0.

(** ** The hash set / map *)

Inductive cl_rhash_table_num : Type :=
| CL_RHASH_TABLE_LO
| CL_RHASH_TABLE_HI
| CL_RHASH_TABLE_NONE.

Record cl_rhash : Type := mkHash {
  h_lo : cl_rhash_table;
  h_hi : cl_rhash_table;
  is_map : bool;
  n_edit : Z
}.

Record cl_rhash_iterator : Type := mkIter {
  n_table : cl_rhash_table_num;
  n_slot : Z;
  it_edit : Z
}.

Definition set_lo (hash : cl_rhash) (t : cl_rhash_table) : cl_rhash :=
  mkHash t (h_hi hash) (is_map hash) (n_edit hash).

Definition set_hi (hash : cl_rhash) (t : cl_rhash_table) : cl_rhash :=
  mkHash (h_lo hash) t (is_map hash) (n_edit hash).

Definition cl_rhash_create (key_bytes : Z) (is_map : bool) : cl_rhash :=
  let n_bytes := if is_map then ptr_bytes * 2 else ptr_bytes in
  mkHash (cl_rhash_table_init key_bytes n_bytes)
         (cl_rhash_table_init key_bytes n_bytes)
         is_map 0.

Definition cl_rhash_create_set (key_bytes : Z) : cl_rhash :=
  cl_rhash_create key_bytes false.

Definition cl_rhash_create_map (key_bytes : Z) : cl_rhash :=
  cl_rhash_create key_bytes true.

(** [None] when the assertion on the entry widths fails. *)
Definition cl_rhash_is_map (hash : cl_rhash) : option bool :=
  if n_bytes (h_lo hash) =? n_bytes (h_hi hash)
  then Some (is_map hash)
  else None.

Definition cl_rhash_edit (hash : cl_rhash) : cl_rhash :=
  mkHash (h_lo hash) (h_hi hash) (is_map hash) (u32 (n_edit hash + 1)).

Definition cl_rhash_count (hash : cl_rhash) : Z :=
  u32 (n_entries (h_lo hash) + n_entries (h_hi hash)).

Definition cl_rhash_contains (hash : cl_rhash) (k : key) : bool :=
  cl_rhash_table_contains (h_lo hash) k || cl_rhash_table_contains (h_hi hash) k.

Definition slot_key (tbl : cl_rhash_table) (slot : option Z) : option key :=
  match slot with
  | Some s => option_map fst (cl_rhash_table_ptr tbl s)
  | None => None
  end.

Definition cl_rhash_peek (hash : cl_rhash) : cl_rhash * option key :=
  let '(lo, ent) := cl_rhash_table_peek (h_lo hash) in
  let hash := set_lo hash lo in
  match ent with
  | Some _ => (hash, slot_key lo ent)
  | None =>
      let '(hi, ent) := cl_rhash_table_peek (h_hi hash) in
      (set_hi hash hi, slot_key hi ent)
  end.

Definition slot_value (tbl : cl_rhash_table) (slot : Z) : value :=
  match cl_rhash_table_ptr tbl slot with
  | Some e => snd e
  | None => 0
  end.

(** The value of a key, NULL ([0]) when there is none. *)
Definition cl_rhash_get (hash : cl_rhash) (k : key) : option value :=
  match cl_rhash_is_map hash with
  | None => None
  | Some false => Some 0
  | Some true =>
      match cl_rhash_table_entry (h_lo hash) k with
      | Some ent => Some (slot_value (h_lo hash) ent)
      | None =>
          match cl_rhash_table_entry (h_hi hash) k with
          | Some ent => Some (slot_value (h_hi hash) ent)
          | None => Some 0
          end
      end
  end.

Definition cl_rhash_should_move_higher (hash : cl_rhash) : bool :=
  let n_lo := int_of_u32 (n_entries (h_lo hash)) in
  let n_hi := int_of_u32 (n_entries (h_hi hash)) in
  let n_thresh := int_of_u32 (cl_rhash_table_limit (h_hi hash)) in
  (n_lo >? 0) && (n_hi >=? n_thresh - n_lo * 2).

Definition cl_rhash_move_higher (hash : cl_rhash) : option cl_rhash :=
  let '(lo, ent) := cl_rhash_table_peek (h_lo hash) in
  let hash := set_lo hash lo in
  match ent with
  | Some s =>
      match cl_rhash_table_ptr lo s with
      | Some e =>
          let tent := cl_rhash_table_entry_copy lo e in
          let '(lo', k) := cl_rhash_table_remove lo (fst e) in
          let hash := set_lo hash lo' in
          match k with
          | Some _ =>
              match cl_rhash_table_insert (h_hi hash) tent with
              | Some (hi', _) => Some (set_hi hash hi')
              | None => None
              end
          | None => Some hash
          end
      | None => Some hash
      end
  | None => Some hash
  end.

Definition cl_rhash_check_move_higher (hash : cl_rhash) : option cl_rhash :=
  if cl_rhash_should_move_higher hash then cl_rhash_move_higher hash
  else Some hash.

Definition cl_rhash_should_expand (hash : cl_rhash) : bool :=
  (order (h_hi hash) <? CL_HASH_MAX_ORDER) &&
  (n_entries (h_lo hash) =? 0) &&
  (n_entries (h_hi hash) >=? cl_rhash_table_limit (h_hi hash)).

Definition cl_rhash_expand (hash : cl_rhash) : option cl_rhash :=
  match cl_rhash_table_clone (h_lo hash) (h_hi hash) with
  | None => None
  | Some lo =>
      let hi := set_order (h_hi hash) (u16 (order (h_hi hash) + 1)) in
      let hi := set_n_entries hi 0 in
      let hi := set_n_peek hi (cl_rhash_table_size hi) in
      let hi := cl_rhash_table_alloc hi in
      Some (mkHash lo hi (is_map hash) (n_edit hash))
  end.

Definition cl_rhash_check_expand (hash : cl_rhash) : option cl_rhash :=
  if cl_rhash_should_expand hash then cl_rhash_expand hash else Some hash.

Definition cl_rhash_insert (hash : cl_rhash) (ent : entry)
  : option (cl_rhash * option key) :=
  match cl_rhash_table_insert (h_hi hash) ent with
  | None => None
  | Some (hi, Some k) => Some (cl_rhash_edit (set_hi hash hi), Some k)
  | Some (hi, None) =>
      let hash := set_hi hash hi in
      let '(lo, k) := cl_rhash_table_remove (h_lo hash) (fst ent) in
      let hash := set_lo hash lo in
      match k with
      | Some _ => Some (cl_rhash_edit hash, k)
      | None =>
          match cl_rhash_check_move_higher hash with
          | None => None
          | Some hash =>
              match cl_rhash_check_expand hash with
              | None => None
              | Some hash => Some (cl_rhash_edit hash, None)
              end
          end
      end
  end.

Definition cl_rhash_add (hash : cl_rhash) (k : key)
  : option (cl_rhash * option key) :=
  match cl_rhash_is_map hash with
  | None => None
  | Some true => Some (hash, Some k)
  | Some false => cl_rhash_insert hash (k, 0)
  end.

Definition cl_rhash_put (hash : cl_rhash) (k : key) (v : value)
  : option (cl_rhash * option key) :=
  match cl_rhash_is_map hash with
  | None => None
  | Some false => Some (hash, None)
  | Some true => cl_rhash_insert hash (k, v)
  end.

Definition cl_rhash_should_move_lower (hash : cl_rhash) : bool :=
  let n_hi := int_of_u32 (n_entries (h_hi hash)) in
  let n_thresh := int_of_u32 (cl_rhash_table_slimit (h_hi hash)) in
  (n_hi >? 0) && (n_thresh >? 0).

Definition cl_rhash_move_lower (hash : cl_rhash) : option cl_rhash :=
  let '(hi, ent) := cl_rhash_table_peek (h_hi hash) in
  let hash := set_hi hash hi in
  match ent with
  | Some s =>
      match cl_rhash_table_ptr hi s with
      | Some e =>
          let tent := cl_rhash_table_entry_copy hi e in
          let '(hi', k) := cl_rhash_table_remove hi (fst e) in
          let hash := set_hi hash hi' in
          match k with
          | Some _ =>
              match cl_rhash_table_insert (h_lo hash) tent with
              | Some (lo', _) => Some (set_lo hash lo')
              | None => None
              end
          | None => Some hash
          end
      | None => Some hash
      end
  | None => Some hash
  end.

Definition cl_rhash_check_move_lower (hash : cl_rhash) : option cl_rhash :=
  if cl_rhash_should_move_lower hash then cl_rhash_move_lower hash
  else Some hash.

Definition cl_rhash_should_shrink (hash : cl_rhash) : bool :=
  (order (h_hi hash) >? CL_HASH_MIN_ORDER) &&
  (n_entries (h_hi hash) =? 0) &&
  (n_entries (h_lo hash) <=? cl_rhash_table_slimit (h_hi hash)).

Definition cl_rhash_shrink (hash : cl_rhash) : option cl_rhash :=
  match cl_rhash_table_clone (h_hi hash) (h_lo hash) with
  | None => None
  | Some hi =>
      let lo := set_order (h_lo hash) (u16 (order (h_lo hash) - 1)) in
      let lo := set_n_entries lo 0 in
      let lo := set_n_peek lo (cl_rhash_table_size lo) in
      let lo := cl_rhash_table_alloc lo in
      Some (mkHash lo hi (is_map hash) (n_edit hash))
  end.

Definition cl_rhash_check_shrink (hash : cl_rhash) : option cl_rhash :=
  if cl_rhash_should_shrink hash then cl_rhash_shrink hash else Some hash.

(** Remove a key: the new hash and the key removed; NULL and the hash as
    it was when the key is not found. *)
Definition cl_rhash_remove (hash : cl_rhash) (k : key)
  : option (cl_rhash * option key) :=
  let '(lo, pkey) := cl_rhash_table_remove (h_lo hash) k in
  let '(hash1, pkey) :=
    match pkey with
    | Some _ => (set_lo hash lo, pkey)
    | None =>
        let '(hi, pkey) := cl_rhash_table_remove (h_hi hash) k in
        (set_hi (set_lo hash lo) hi, pkey)
    end in
  match pkey with
  | Some _ =>
      match cl_rhash_check_move_lower hash1 with
      | None => None
      | Some hash2 =>
          match cl_rhash_check_shrink hash2 with
          | None => None
          | Some hash3 => Some (cl_rhash_edit hash3, pkey)
          end
      end
  | None => Some (hash1, None)
  end.

(** The pool of the hash, which [cl_rhash_clear] clears as well, holds the
    iterators: an iterator made before a clear is released by it, and is not
    a value to pass to the functions below. *)
Definition cl_rhash_clear (hash : cl_rhash) : cl_rhash :=
  let hash := set_lo hash (cl_rhash_table_clear (h_lo hash)) in
  let hash := set_hi hash (cl_rhash_table_clear (h_hi hash)) in
  cl_rhash_edit hash.

(** ** Iterators *)

Definition cl_rhash_iterator_create (hash : cl_rhash) : cl_rhash_iterator :=
  mkIter CL_RHASH_TABLE_LO (u32 (n_peek (h_lo hash) - 1)) (n_edit hash).

Definition cl_rhash_iterator_check (hash : cl_rhash) (it : cl_rhash_iterator) : bool :=
  n_edit hash =? it_edit it.

Definition cl_rhash_iterator_done (it : cl_rhash_iterator) : bool :=
  match n_table it with
  | CL_RHASH_TABLE_NONE => true
  | _ => false
  end.

Definition cl_rhash_iterator_table (hash : cl_rhash) (it : cl_rhash_iterator)
  : option cl_rhash_table :=
  match n_table it with
  | CL_RHASH_TABLE_LO => Some (h_lo hash)
  | CL_RHASH_TABLE_HI => Some (h_hi hash)
  | CL_RHASH_TABLE_NONE => None
  end.

Definition cl_rhash_iterator_table_done (hash : cl_rhash) (it : cl_rhash_iterator) : bool :=
  match cl_rhash_iterator_table hash it with
  | Some tbl => n_slot it >=? cl_rhash_table_size tbl
  | None => false
  end.

Definition cl_rhash_iterator_next_table (hash : cl_rhash) (it : cl_rhash_iterator)
  : cl_rhash_iterator :=
  match n_table it with
  | CL_RHASH_TABLE_LO => mkIter CL_RHASH_TABLE_HI (n_peek (h_hi hash)) (it_edit it)
  | _ => mkIter CL_RHASH_TABLE_NONE 0 (it_edit it)
  end.

(** The [while] of [cl_rhash_iterator_next_slot]: at most two table changes. *)
Fixpoint next_table_loop (fuel : nat) (hash : cl_rhash) (it : cl_rhash_iterator)
  : cl_rhash_iterator :=
  match fuel with
  | O => it
  | S fuel' =>
      if cl_rhash_iterator_table_done hash it
      then next_table_loop fuel' hash (cl_rhash_iterator_next_table hash it)
      else it
  end.

Definition cl_rhash_iterator_next_slot (hash : cl_rhash) (it : cl_rhash_iterator)
  : cl_rhash_iterator :=
  let it := mkIter (n_table it) (u32 (n_slot it + 1)) (it_edit it) in
  next_table_loop 3 hash it.

Definition cl_rhash_iterator_entry (hash : cl_rhash) (it : cl_rhash_iterator)
  : option entry :=
  match cl_rhash_iterator_table hash it with
  | Some tbl => cl_rhash_table_ptr tbl (n_slot it)
  | None => None
  end.

Fixpoint iterator_next_loop (fuel : nat) (hash : cl_rhash) (it : cl_rhash_iterator)
  : cl_rhash_iterator * option key :=
  match fuel with
  | O => (it, None)
  | S fuel' =>
      if cl_rhash_iterator_done it then (it, None)
      else
        let it := cl_rhash_iterator_next_slot hash it in
        match cl_rhash_iterator_entry hash it with
        | Some ent => (it, Some (fst ent))
        | None => iterator_next_loop fuel' hash it
        end
  end.

(** The next key, NULL when done; [None] when the hash was edited since the
    iterator was created.  The loop visits each slot of the two tables at
    most once. *)
Definition cl_rhash_iterator_next (hash : cl_rhash) (it : cl_rhash_iterator)
  : option (cl_rhash_iterator * option key) :=
  if cl_rhash_iterator_check hash it
  then
    let fuel := Z.to_nat (cl_rhash_table_size (h_lo hash)
                          + cl_rhash_table_size (h_hi hash) + 2) in
    Some (iterator_next_loop fuel hash it)
  else None.

(** The value of the most recent key.  [cl_rhash_table_ptr] asserts that
    the slot is below the table size: the assertion fails for an iterator
    that was not advanced yet when the peek slot of the low table is 0 (its
    slot is [2^32 - 1] then). *)
Definition cl_rhash_iterator_value (hash : cl_rhash) (it : cl_rhash_iterator)
  : option value :=
  if cl_rhash_iterator_check hash it
  then
    match cl_rhash_is_map hash with
    | None => None
    | Some true =>
        match cl_rhash_iterator_table hash it with
        | Some tbl =>
            if n_slot it <? cl_rhash_table_size tbl
            then Some (slot_value tbl (n_slot it))
            else None
        | None => Some 0
        end
    | Some false => Some 0
    end
  else None.

(** ** Notions used to state the properties *)

(** The slot at probe length [q] from hash code [b], in a table of [N] slots. *)
Definition sl (N b q : Z) : Z := (b + q) mod N.

(** Probe distance of slot [s] from the home slot of hash code [h]. *)
Definition dist (N h s : Z) : Z := (s - h) mod N.

(** A slot array with one slot rewritten. *)
Definition upd (f : Z -> option entry) (s : Z) (v : option entry) : Z -> option entry :=
  fun x => if x =? s then v else f x.

(** The Robin-Hood order of a slot array: an entry that is not in its home
    slot has an occupied predecessor that is at most one step richer. *)
Definition RH (N : Z) (hs : entry -> Z) (f : Z -> option entry) : Prop :=
  forall s e, 0 <= s < N -> f s = Some e -> 0 < dist N (hs e) s ->
    exists e', f ((s - 1) mod N) = Some e' /\
               dist N (hs e) s <= dist N (hs e') ((s - 1) mod N) + 1.

(** No two slots hold equal keys. *)
Definition ND (N : Z) (keq : entry -> entry -> Prop) (f : Z -> option entry) : Prop :=
  forall s1 s2 e1 e2, 0 <= s1 < N -> 0 <= s2 < N ->
    f s1 = Some e1 -> f s2 = Some e2 -> keq e1 e2 -> s1 = s2.

(** An entry is stored in some slot. *)
Definition has (N : Z) (f : Z -> option entry) (e : entry) : Prop :=
  exists s, 0 <= s < N /\ f s = Some e.

Definition occ (v : option entry) : Z :=
  match v with Some _ => 1 | None => 0 end.

(** The number of occupied slots among the first [n]. *)
Fixpoint occupied (f : Z -> option entry) (n : nat) : Z :=
  match n with
  | O => 0
  | S n' => occupied f n' + occ (f (Z.of_nat n'))
  end.

(** The slot array after an insertion that shifted the entries at probe
    lengths [pr .. sh - 1] one slot forward into the empty slot at [sh]. *)
Definition shifted_in (N : Z) (f f' : Z -> option entry) (b pr sh : Z) (K : entry) : Prop :=
  forall q, 0 <= q < N ->
    f' (sl N b q) =
      if q =? pr then Some K
      else if (pr <? q) && (q <=? sh) then f (sl N b (q - 1))
      else f (sl N b q).

(** The slot array after a removal at probe length [r] that shifted the
    entries at probe lengths [r + 1 .. te - 1] one slot backward. *)
Definition shifted_out (N : Z) (f f' : Z -> option entry) (b r te : Z) : Prop :=
  forall q, 0 <= q < N ->
    f' (sl N b q) =
      if (r <=? q) && (q <? te - 1) then f (sl N b (q + 1))
      else if q =? te - 1 then None
      else f (sl N b q).

Ltac zbool :=
  repeat match goal with
  | H : context [?a =? ?b] |- _ => destruct (Z.eqb_spec a b); simpl in H
  | H : context [?a <? ?b] |- _ => destruct (Z.ltb_spec a b); simpl in H
  | H : context [?a <=? ?b] |- _ => destruct (Z.leb_spec a b); simpl in H
  | |- context [?a =? ?b] => destruct (Z.eqb_spec a b); simpl
  | |- context [?a <? ?b] => destruct (Z.ltb_spec a b); simpl
  | |- context [?a <=? ?b] => destruct (Z.leb_spec a b); simpl
  end.

(** The content of the key of an entry, and the relations it induces. *)
Definition kc (kb : Z) (e : entry) : list byte := key_content kb (fst e).

Definition keqc (kb : Z) (e1 e2 : entry) : Prop := kc kb e1 = kc kb e2.

Definition hsc (kb : Z) (e : entry) : Z := hash33 (kc kb e).

(** A well-formed probe table. *)
Record WFt (t : cl_rhash_table) : Prop := mkWFt {
  wf_order : 0 <= order t <= 31;
  wf_rh : RH (cl_rhash_table_size t) (hsc (key_bytes t)) (table t);
  wf_nd : ND (cl_rhash_table_size t) (keqc (key_bytes t)) (table t);
  wf_count : n_entries t = occupied (table t) (Z.to_nat (cl_rhash_table_size t));
  wf_peek : forall s, 0 <= s < cl_rhash_table_size t -> s < n_peek t ->
                      table t s = None;
  wf_peek_range : 0 <= n_peek t <= 2 ^ 31;
  wf_canon : forall s e, 0 <= s < cl_rhash_table_size t -> table t s = Some e ->
                         cl_rhash_table_entry_copy t e = e
}.

(** Two tables with the same shape (all but the slots and the counters). *)
Definition same_shape (t t' : cl_rhash_table) : Prop :=
  order t' = order t /\ key_bytes t' = key_bytes t /\ n_bytes t' = n_bytes t.

(** A table holds an entry, a key. *)
Definition holds (t : cl_rhash_table) (e : entry) : Prop :=
  has (cl_rhash_table_size t) (table t) e.

Definition present (t : cl_rhash_table) (k : key) : Prop :=
  exists e, holds t e /\ key_content (key_bytes t) k = kc (key_bytes t) e.

(** Every stored entry is as wide as the table's entries. *)
Definition canon (t : cl_rhash_table) : Prop :=
  forall s e, 0 <= s < cl_rhash_table_size t -> table t s = Some e ->
              cl_rhash_table_entry_copy t e = e.

(** The probe path of an insertion: the slots at probe lengths below [pr]
    hold other keys, none richer than its probe length. *)
Definition path (t : cl_rhash_table) (ent : entry) (pr : Z) : Prop :=
  forall j, 0 <= j < pr ->
    exists e,
      table t (sl (cl_rhash_table_size t) (cl_rhash_table_hash t (fst ent)) j) = Some e /\
      kc (key_bytes t) e <> kc (key_bytes t) ent /\
      j <= dist (cl_rhash_table_size t) (hsc (key_bytes t) e)
             (sl (cl_rhash_table_size t) (cl_rhash_table_hash t (fst ent)) j).

(** What an insertion into a table guarantees: [r] is the previous equal
    key, if there was one. *)
Definition insert_post (t : cl_rhash_table) (ent : entry) (t' : cl_rhash_table)
    (r : option key) : Prop :=
  same_shape t t' /\ WFt t' /\
  match r with
  | None =>
      (forall e, holds t e -> kc (key_bytes t) e <> kc (key_bytes t) ent) /\
      n_entries t' = n_entries t + 1 /\
      (forall e, holds t' e <-> e = cl_rhash_table_entry_copy t ent \/ holds t e)
  | Some k0 =>
      (exists v0, holds t (k0, v0) /\ kc (key_bytes t) (k0, v0) = kc (key_bytes t) ent) /\
      n_entries t' = n_entries t /\
      (forall e, holds t' e <->
                 e = cl_rhash_table_entry_copy t ent \/
                 (holds t e /\ kc (key_bytes t) e <> kc (key_bytes t) ent))
  end.

(** The probe path of a removal: the slots at probe lengths below [pr] hold
    other keys. *)
Definition rpath (t : cl_rhash_table) (k : key) (pr : Z) : Prop :=
  forall j, 0 <= j < pr ->
    exists e,
      table t (sl (cl_rhash_table_size t) (cl_rhash_table_hash t k) j) = Some e /\
      kc (key_bytes t) e <> key_content (key_bytes t) k.

(** What a removal from a table guarantees: [r] is the key removed, if the
    table held one. *)
Definition remove_post (t : cl_rhash_table) (k : key) (t' : cl_rhash_table)
    (r : option key) : Prop :=
  match r with
  | None =>
      t' = t /\
      (forall e, holds t e -> kc (key_bytes t) e <> key_content (key_bytes t) k)
  | Some k0 =>
      same_shape t t' /\ WFt t' /\
      (exists v0, holds t (k0, v0) /\
                  kc (key_bytes t) (k0, v0) = key_content (key_bytes t) k) /\
      n_entries t' = n_entries t - 1 /\
      (forall e, holds t' e <->
                 holds t e /\ kc (key_bytes t) e <> key_content (key_bytes t) k)
  end.

(** ** Sequences of public operations *)

Inductive op : Type :=
| OpAdd (k : key)
| OpPut (k : key) (v : value)
| OpRemove (k : key)
| OpClear
| OpPeek.

(** One public call; [None] when an assertion fails. *)
Definition step (hash : cl_rhash) (o : op) : option cl_rhash :=
  match o with
  | OpAdd k => option_map fst (cl_rhash_add hash k)
  | OpPut k v => option_map fst (cl_rhash_put hash k v)
  | OpRemove k => option_map fst (cl_rhash_remove hash k)
  | OpClear => Some (cl_rhash_clear hash)
  | OpPeek => Some (fst (cl_rhash_peek hash))
  end.

Fixpoint run (hash : cl_rhash) (ops : list op) : option cl_rhash :=
  match ops with
  | [] => Some hash
  | o :: ops' =>
      match step hash o with
      | Some hash' => run hash' ops'
      | None => None
      end
  end.

(** An entry is stored in one of the two tables. *)
Definition stored (hash : cl_rhash) (e : entry) : Prop :=
  holds (h_lo hash) e \/ holds (h_hi hash) e.

(** The structure of a well-formed hash. *)
Record Core (hash : cl_rhash) : Prop := mkCore {
  core_lo : WFt (h_lo hash);
  core_hi : WFt (h_hi hash);
  core_kb : key_bytes (h_lo hash) = key_bytes (h_hi hash);
  core_nb : n_bytes (h_lo hash) = n_bytes (h_hi hash);
  core_map : n_bytes (h_hi hash) = if is_map hash then ptr_bytes * 2 else ptr_bytes;
  core_disj : forall e1 e2, holds (h_lo hash) e1 -> holds (h_hi hash) e2 ->
                kc (key_bytes (h_hi hash)) e1 <> kc (key_bytes (h_hi hash)) e2;
  core_ord : (order (h_hi hash) = order (h_lo hash) + 1 /\ 5 <= order (h_lo hash)) \/
             (order (h_hi hash) = CL_HASH_MIN_ORDER /\
              order (h_lo hash) = CL_HASH_MIN_ORDER /\ n_entries (h_lo hash) = 0);
  core_hi_ord : CL_HASH_MIN_ORDER <= order (h_hi hash) <= CL_HASH_MAX_ORDER;
  core_edit : 0 <= n_edit hash < 2 ^ 32
}.

(** The load of the two tables, below the maximum order. *)
Record Load (hash : cl_rhash) : Prop := mkLoad {
  load_sum : n_entries (h_hi hash) + 2 * n_entries (h_lo hash)
             <= cl_rhash_table_limit (h_hi hash);
  load_lo0 : n_entries (h_lo hash) = 0 ->
             n_entries (h_hi hash) < cl_rhash_table_limit (h_hi hash)
}.

(** After [n] operations the hash holds at most [n] entries and its high
    table has at most [8 n / 3] slots (64 at least). *)
Definition Pot (n : Z) (hash : cl_rhash) : Prop :=
  n_entries (h_lo hash) + n_entries (h_hi hash) <= n /\
  3 * cl_rhash_table_size (h_hi hash) <= Z.max 192 (8 * n).

Ltac hsimpl :=
  cbn [set_hi set_lo cl_rhash_edit h_lo h_hi is_map n_edit fst snd] in *.

Ltac tsimpl :=
  cbn [table n_entries n_peek n_bytes order key_bytes cl_rhash_table_alloc
       cl_rhash_table_zero set_slot set_n_peek set_n_entries set_order].

Ltac splits := repeat match goal with |- _ /\ _ => split end.

(** ** The reference behaviour of a sequence of operations *)

Definition bytes_eqb (a b : list byte) : bool :=
  if list_eq_dec Byte.byte_eq_dec a b then true else false.

(** The entry a key content is mapped to after a sequence of operations,
    given most recent first: decided by the most recent operation on that
    content.  [add] does nothing on a map and [put] nothing on a set. *)
Fixpoint recent (kb : Z) (im : bool) (rops : list op) (c : list byte) : option entry :=
  match rops with
  | [] => None
  | OpClear :: _ => None
  | OpPeek :: r => recent kb im r c
  | OpRemove k :: r =>
      if bytes_eqb (key_content kb k) c then None else recent kb im r c
  | OpAdd k :: r =>
      if im then recent kb im r c
      else if bytes_eqb (key_content kb k) c then Some (k, 0)
      else recent kb im r c
  | OpPut k v :: r =>
      if im then
        if bytes_eqb (key_content kb k) c then Some (k, v)
        else recent kb im r c
      else recent kb im r c
  end.

(** The entry of a key after the operations [ops], in the order of the calls. *)
Definition final_entry (kb : Z) (im : bool) (ops : list op) (k : key) : option entry :=
  recent kb im (rev ops) (key_content kb k).

(** The stored entries are those of a reference map. *)
Definition Agree (kb : Z) (hash : cl_rhash) (m : list byte -> option entry) : Prop :=
  forall x, stored hash x <-> m (kc kb x) = Some x.

(** The invariant of a hash created with key width [kb] and mode [im],
    after [n] operations. *)
Definition Inv (kb : Z) (im : bool) (n : Z) (hash : cl_rhash) : Prop :=
  Core hash /\ Load hash /\ Pot n hash /\ 0 <= n /\
  is_map hash = im /\ key_bytes (h_hi hash) = kb.

(** The number of operations the properties below are proved for.  Up to it
    the high table stays below the maximum order, and the 32-bit byte offset
    of every slot is exact (see [offset_exact]). *)
Definition MAX_OPS : Z := 2 ^ 26.

(** ** Sample keys *)

Definition byte_of (n : Z) : byte :=
  match Byte.of_N (Z.to_N n) with
  | Some b => b
  | None => x00
  end.

(** The one-character string whose character has code [n + 1]. *)
Definition sample_key (n : Z) : key :=
  mkKey (4096 + 16 * n) [byte_of (n + 1); x00].

Definition sample_keys (n : nat) : list key :=
  map (fun i => sample_key (Z.of_nat i)) (seq 0 n).

(** No two of the contents are equal. *)
Fixpoint distinctb (l : list (list byte)) : bool :=
  match l with
  | [] => true
  | x :: r => negb (existsb (bytes_eqb x) r) && distinctb r
  end.

(** ** A full iteration *)

(** Call [cl_rhash_iterator_next] until it returns NULL, at most [fuel]
    times: the keys returned, in order.  [None] when an assertion fails or
    the iterator is not exhausted after [fuel] calls. *)
Fixpoint iterate (fuel : nat) (hash : cl_rhash) (it : cl_rhash_iterator)
  : option (list key) :=
  match fuel with
  | O => None
  | S fuel' =>
      match cl_rhash_iterator_next hash it with
      | None => None
      | Some (_, None) => Some []
      | Some (it', Some k) =>
          match iterate fuel' hash it' with
          | Some ks => Some (k :: ks)
          | None => None
          end
      end
  end.

(** A new iterator, advanced until it is exhausted. *)
Definition cl_rhash_iterate (hash : cl_rhash) : option (list key) :=
  iterate (S (Z.to_nat (cl_rhash_count hash))) hash (cl_rhash_iterator_create hash).

(** The keys of the occupied slots [start .. start + len - 1]. *)
Fixpoint keys_from (f : Z -> option entry) (start : Z) (len : nat) : list key :=
  match len with
  | O => []
  | S len' =>
      match f start with
      | Some e => fst e :: keys_from f (start + 1) len'
      | None => keys_from f (start + 1) len'
      end
  end.

(** The keys found by enumerating the slots of a table directly. *)
Definition slot_keys (t : cl_rhash_table) : list key :=
  keys_from (table t) 0 (Z.to_nat (cl_rhash_table_size t)).

(** The keys an iterator has still to return. *)
Definition remaining (hash : cl_rhash) (it : cl_rhash_iterator) : list key :=
  let nxt := u32 (n_slot it + 1) in
  match n_table it with
  | CL_RHASH_TABLE_LO =>
      keys_from (table (h_lo hash)) nxt
        (Z.to_nat (cl_rhash_table_size (h_lo hash) - nxt)) ++
      keys_from (table (h_hi hash)) (n_peek (h_hi hash))
        (Z.to_nat (cl_rhash_table_size (h_hi hash) - n_peek (h_hi hash)))
  | CL_RHASH_TABLE_HI =>
      keys_from (table (h_hi hash)) nxt
        (Z.to_nat (cl_rhash_table_size (h_hi hash) - nxt))
  | CL_RHASH_TABLE_NONE => []
  end.

(** The iterations [cl_rhash_iterator_next] needs to return. *)
Definition iter_measure (hash : cl_rhash) (it : cl_rhash_iterator) : Z :=
  let nxt := u32 (n_slot it + 1) in
  match n_table it with
  | CL_RHASH_TABLE_LO =>
      Z.max 0 (cl_rhash_table_size (h_lo hash) - nxt) +
      Z.max 0 (cl_rhash_table_size (h_hi hash) - n_peek (h_hi hash)) + 2
  | CL_RHASH_TABLE_HI => Z.max 0 (cl_rhash_table_size (h_hi hash) - nxt) + 2
  | CL_RHASH_TABLE_NONE => 1
  end.


(** ** A sample table *)

(** The table of a new set after one insertion. *)
Definition sample_table : cl_rhash_table :=
  match cl_rhash_table_insert (cl_rhash_table_init 0 ptr_bytes) (sample_key 0, 0) with
  | Some (t, _) => t
  | None => cl_rhash_table_init 0 ptr_bytes
  end.

(** ** The keys that are in the hash after a sequence of operations *)

Definition op_key (o : op) : option key :=
  match o with
  | OpAdd k => Some k
  | OpPut k _ => Some k
  | OpRemove k => Some k
  | OpClear => None
  | OpPeek => None
  end.

(** The contents of the keys the operations name. *)
Fixpoint op_contents (kb : Z) (ops : list op) : list (list byte) :=
  match ops with
  | [] => []
  | o :: r =>
      match op_key o with
      | Some k => key_content kb k :: op_contents kb r
      | None => op_contents kb r
      end
  end.

(** The most recent operation on a key content has inserted it. *)
Definition is_live (kb : Z) (im : bool) (ops : list op) (c : list byte) : bool :=
  match recent kb im (rev ops) c with
  | Some _ => true
  | None => false
  end.

(** The different key contents that are in the hash after [ops]. *)
Definition live_keys (kb : Z) (im : bool) (ops : list op) : list (list byte) :=
  nodup (list_eq_dec Byte.byte_eq_dec) (filter (is_live kb im ops) (op_contents kb ops)).

(** ** A full iteration with values *)

(** Call [cl_rhash_iterator_next] until it returns NULL, at most [fuel]
    times, and [cl_rhash_iterator_value] after every key: the keys with
    their values, in order.  [None] when an assertion fails or the iterator
    is not exhausted after [fuel] calls. *)
Fixpoint iterate_values (fuel : nat) (hash : cl_rhash) (it : cl_rhash_iterator)
  : option (list (key * value)) :=
  match fuel with
  | O => None
  | S fuel' =>
      match cl_rhash_iterator_next hash it with
      | None => None
      | Some (_, None) => Some []
      | Some (it', Some k) =>
          match cl_rhash_iterator_value hash it' with
          | None => None
          | Some v =>
              match iterate_values fuel' hash it' with
              | Some kvs => Some ((k, v) :: kvs)
              | None => None
              end
          end
      end
  end.

Definition cl_rhash_iterate_values (hash : cl_rhash) : option (list (key * value)) :=
  iterate_values (S (Z.to_nat (cl_rhash_count hash))) hash
    (cl_rhash_iterator_create hash).

(** ** Keys with a chosen hash code *)

(** Seven bytes whose hash code is [v]: the seven base-33 digits, most
    significant first, of [(v - 5381 * 33 ^ 7) mod 2 ^ 32]. *)
Definition hash_digits (v : Z) : list byte :=
  let w := (v - 5381 * 33 ^ 7) mod 2 ^ 32 in
  map (fun i => byte_of ((w / 33 ^ i) mod 33)) [6; 5; 4; 3; 2; 1; 0].

(** A key of width 7 with these bytes, stored at an address of its own. *)
Definition hash_key (v : Z) : key := mkKey (65536 + 8 * v) (hash_digits v).

(** The keys with the hash codes [from], [from + 1], ... *)
Definition hash_keys (from n : nat) : list key :=
  map (fun i => hash_key (Z.of_nat i)) (seq from n).

Definition hash_adds (from n : nat) : list op := map OpAdd (hash_keys from n).

(** The key contents that [n] additions of [hash_adds] store. *)
Definition holds_hash_keys (n : nat) (h : cl_rhash) : Prop :=
  forall c, (exists x, stored h x /\ kc 7 x = c) <->
            (exists i, (i < n)%nat /\ c = hash_digits (Z.of_nat i)).

(** ** The orders of the two tables *)

(** The orders as every public operation leaves them: the high table
    between the minimum and the maximum order, and one order above the low
    table unless both have the minimum order. *)
Definition orders_ok (h : cl_rhash) : Prop :=
  CL_HASH_MIN_ORDER <= order (h_hi h) <= CL_HASH_MAX_ORDER /\
  (order (h_hi h) = order (h_lo h) + 1 \/
   (order (h_hi h) = CL_HASH_MIN_ORDER /\ order (h_lo h) = CL_HASH_MIN_ORDER)).

(** * Properties *)

(** ** Keys: hashing and comparison by content *)

Lemma byte_val_zero (b : byte) : (byte_val b =? 0) = Byte.eqb b x00.
Proof. destruct b; reflexivity. Qed.

Lemma byte_eqb_refl (b : byte) : Byte.eqb b b = true.
Proof. apply Byte.byte_dec_lb; reflexivity. Qed.

Lemma byte_eqb_eq (a b : byte) : Byte.eqb a b = true <-> a = b.
Proof.
  split; [apply Byte.byte_dec_bl | apply Byte.byte_dec_lb].
Qed.

Lemma hash_step_33 (h c : Z) : hash_step h c = (h * 33 + c) mod 2 ^ 32.
Proof.
  unfold hash_step, u32. rewrite Z.shiftl_mul_pow2 by lia.
  rewrite Zplus_mod_idemp_l, <- Z.add_assoc, Zplus_mod_idemp_l.
  f_equal. change (2 ^ 5) with 32. lia.
Qed.

Lemma hash_str_loop_fold (p : list byte) (h : Z) :
  hash_str_loop p h =
  fold_left (fun h b => (h * 33 + byte_val b) mod 2 ^ 32) (cstring p) h.
Proof.
  revert h. induction p as [|b p IH]; intros h; simpl; [reflexivity|].
  rewrite byte_val_zero. destruct (Byte.eqb b x00); simpl; [reflexivity|].
  rewrite IH, hash_step_33. reflexivity.
Qed.

Lemma hash_fixed_loop_fold (n : nat) (p : list byte) (h : Z) :
  hash_fixed_loop n p h =
  fold_left (fun h b => (h * 33 + byte_val b) mod 2 ^ 32) (block n p) h.
Proof.
  revert p h. induction n as [|n IH]; intros p h; simpl; [reflexivity|].
  rewrite IH, hash_step_33. reflexivity.
Qed.

Lemma table_hash_content (tbl : cl_rhash_table) (k : key) :
  cl_rhash_table_hash tbl k = hash33 (key_content (key_bytes tbl) k).
Proof.
  unfold cl_rhash_table_hash, key_content, hash33,
    cl_rhash_table_hash_fixed, cl_rhash_table_hash_str.
  destruct (key_bytes tbl =? 0); simpl.
  - apply hash_str_loop_fold.
  - apply hash_fixed_loop_fold.
Qed.

Lemma hash33_range_from (bs : list byte) (h : Z) :
  0 <= h < 2 ^ 32 ->
  0 <= fold_left (fun h b => (h * 33 + byte_val b) mod 2 ^ 32) bs h < 2 ^ 32.
Proof.
  revert h. induction bs as [|b bs IH]; intros h Hh; simpl; [exact Hh|].
  apply IH. apply Z.mod_pos_bound. lia.
Qed.

Lemma table_hash_range (tbl : cl_rhash_table) (k : key) :
  0 <= cl_rhash_table_hash tbl k < 2 ^ 32.
Proof.
  rewrite table_hash_content. unfold hash33. apply hash33_range_from. lia.
Qed.

Lemma strcmp_eq_cstring (a b : list byte) :
  strcmp_eq a b = true <-> cstring a = cstring b.
Proof.
  revert b. induction a as [|x a IH]; intros b.
  - destruct b as [|y b]; simpl; [tauto|].
    destruct (Byte.eqb x00 y) eqn:E.
    + apply byte_eqb_eq in E. subst y. simpl. tauto.
    + assert (Byte.eqb y x00 = false) as ->.
      { destruct (Byte.eqb y x00) eqn:E'; [|reflexivity].
        apply byte_eqb_eq in E'. subst y. discriminate E. }
      split; discriminate.
  - destruct b as [|y b]; simpl.
    + destruct (Byte.eqb x x00) eqn:E; [tauto|]. split; discriminate.
    + destruct (Byte.eqb x y) eqn:E.
      * apply byte_eqb_eq in E. subst y.
        destruct (Byte.eqb x x00); [tauto|].
        rewrite IH. split; [intros ->; reflexivity|intros H; inversion H; reflexivity].
      * destruct (Byte.eqb x x00) eqn:Ex, (Byte.eqb y x00) eqn:Ey;
          try (split; [discriminate|]).
        -- apply byte_eqb_eq in Ex, Ey. subst. rewrite byte_eqb_refl in E. discriminate.
        -- discriminate.
        -- discriminate.
        -- intros H. inversion H. subst. rewrite byte_eqb_refl in E. discriminate.
Qed.

Lemma memcmp_eq_block (n : nat) (a b : list byte) :
  memcmp_eq n a b = true <-> block n a = block n b.
Proof.
  revert a b. induction n as [|n IH]; intros a b; simpl; [tauto|].
  destruct (Byte.eqb (deref a) (deref b)) eqn:E.
  - apply byte_eqb_eq in E. rewrite E, IH.
    split; [intros ->; reflexivity|intros H; inversion H; reflexivity].
  - split; [discriminate|]. intros H. inversion H as [[H1 H2]].
    rewrite H1, byte_eqb_refl in E. discriminate.
Qed.

Lemma key_equals_content (tbl : cl_rhash_table) (k1 k2 : key) :
  cl_rhash_table_key_equals tbl k1 k2 = true <->
  key_content (key_bytes tbl) k1 = key_content (key_bytes tbl) k2.
Proof.
  unfold cl_rhash_table_key_equals, key_content.
  destruct (key_bytes tbl =? 0); simpl.
  - apply strcmp_eq_cstring.
  - apply memcmp_eq_block.
Qed.

(** C9: the hash of a key is the recurrence [h := h * 33 + byte] from seed
    5381, modulo [2^32], over the content of the key: the bytes before the
    terminator when the key width is 0, exactly [key_bytes] bytes otherwise;
    the result is a 32-bit number. *)
Theorem C9_hash_is_times33_fold (tbl : cl_rhash_table) (k : key) :
  cl_rhash_table_hash tbl k =
    fold_left (fun h b => (h * 33 + byte_val b) mod 2 ^ 32)
      (if key_bytes tbl =? 0 then cstring (kbytes k)
       else block (Z.to_nat (key_bytes tbl)) (kbytes k))
      5381
  /\ 0 <= cl_rhash_table_hash tbl k < 2 ^ 32.
Proof.
  split; [apply table_hash_content | apply table_hash_range].
Qed.

(** ** Slots on a ring of [N] positions *)

Section Ring.

Variable N : Z.
Hypothesis HN : 0 < N.


Lemma sl_range b q : 0 <= sl N b q < N.
Proof. unfold sl. apply Z.mod_pos_bound. exact HN. Qed.

Lemma index_sl b q : 0 <= q < N -> (sl N b q - b) mod N = q.
Proof.
  intros Hq. unfold sl. rewrite Zminus_mod_idemp_l.
  replace (b + q - b) with q by lia. apply Z.mod_small. exact Hq.
Qed.

Lemma sl_index b s : 0 <= s < N -> sl N b ((s - b) mod N) = s.
Proof.
  intros Hs. unfold sl. rewrite Zplus_mod_idemp_r.
  replace (b + (s - b)) with s by lia. apply Z.mod_small. exact Hs.
Qed.

Lemma sl_inj b q1 q2 :
  0 <= q1 < N -> 0 <= q2 < N -> sl N b q1 = sl N b q2 -> q1 = q2.
Proof.
  intros H1 H2 E. rewrite <- (index_sl b q1 H1), <- (index_sl b q2 H2), E.
  reflexivity.
Qed.

Lemma sl_pred b q : (sl N b q - 1) mod N = sl N b (q - 1).
Proof.
  unfold sl. rewrite Zminus_mod_idemp_l. f_equal. lia.
Qed.

Lemma sl_wrap b q : sl N b (q + N) = sl N b q.
Proof.
  unfold sl. replace (b + (q + N)) with (b + q + 1 * N) by lia.
  apply Z.mod_add. lia.
Qed.

Lemma sl_pred0 b : (sl N b 0 - 1) mod N = sl N b (N - 1).
Proof.
  rewrite sl_pred. rewrite <- (sl_wrap b (0 - 1)). f_equal. lia.
Qed.

Lemma dist_range h s : 0 <= dist N h s < N.
Proof. unfold dist. apply Z.mod_pos_bound. exact HN. Qed.

Lemma dist_sl_same h q : 0 <= q < N -> dist N h (sl N h q) = q.
Proof. intros Hq. unfold dist. apply index_sl. exact Hq. Qed.

Lemma dist_succ h b q :
  dist N h (sl N b (q + 1)) =
  if dist N h (sl N b q) =? N - 1 then 0 else dist N h (sl N b q) + 1.
Proof.
  unfold dist, sl. rewrite !Zminus_mod_idemp_l.
  replace (b + (q + 1) - h) with ((b + q - h) + 1) by lia.
  set (x := b + q - h).
  pose proof (Z.mod_pos_bound x N HN) as Hx.
  destruct (Z.eqb_spec (x mod N) (N - 1)) as [E|E].
  - rewrite <- Zplus_mod_idemp_l, E.
    replace (N - 1 + 1) with (1 * N) by lia. apply Z_mod_mult.
  - rewrite <- Zplus_mod_idemp_l. apply Z.mod_small. lia.
Qed.

Lemma dist_pred h b q :
  dist N h (sl N b (q - 1)) =
  if dist N h (sl N b q) =? 0 then N - 1 else dist N h (sl N b q) - 1.
Proof.
  pose proof (dist_succ h b (q - 1)) as H.
  replace (q - 1 + 1) with q in H by lia.
  pose proof (dist_range h (sl N b (q - 1))) as R.
  destruct (Z.eqb_spec (dist N h (sl N b (q - 1))) (N - 1)) as [E|E].
  - rewrite H, E. reflexivity.
  - rewrite H. destruct (Z.eqb_spec (dist N h (sl N b (q - 1)) + 1) 0); lia.
Qed.

Lemma dist_mod h s : dist N (h mod N) s = dist N h s.
Proof. unfold dist. apply Zminus_mod_idemp_r. Qed.

End Ring.

(** ** The Robin-Hood order of a slot array *)

Section Storage.

Variable N : Z.
Hypothesis HN : 0 < N.
Variable hs : entry -> Z.

Lemma probe_index b s :
  0 <= s < N -> exists q, 0 <= q < N /\ s = sl N b q.
Proof.
  intros Hs. exists ((s - b) mod N). split.
  - apply Z.mod_pos_bound. exact HN.
  - symmetry. apply sl_index; assumption.
Qed.

Lemma upd_same f s v : upd f s v s = v.
Proof. unfold upd. rewrite Z.eqb_refl. reflexivity. Qed.

Lemma upd_other f s v x : x <> s -> upd f s v x = f x.
Proof.
  intros H. unfold upd. destruct (Z.eqb_spec x s); [contradiction|reflexivity].
Qed.

(** All the slots between the home slot of an entry and the entry are
    occupied, each by an entry at least as poor as its distance from that
    home slot. *)
Lemma RH_run f s e :
  RH N hs f -> 0 <= s < N -> f s = Some e ->
  forall j, 0 <= j -> j <= dist N (hs e) s ->
    exists e', f ((s - j) mod N) = Some e' /\
               dist N (hs e) s - j <= dist N (hs e') ((s - j) mod N).
Proof.
  intros HR Hs He j Hj. pattern j. apply natlike_ind; [| |exact Hj].
  - intros _. exists e. rewrite Z.sub_0_r, Z.mod_small by exact Hs.
    split; [exact He|lia].
  - intros x Hx IH Hle. destruct IH as [e' [He' Hc]]; [lia|].
    assert (Hr : 0 <= (s - x) mod N < N) by (apply Z.mod_pos_bound; exact HN).
    destruct (HR _ _ Hr He') as [e'' [He'' Hc'']]; [lia|].
    replace ((s - Z.succ x) mod N) with (((s - x) mod N - 1) mod N).
    + exists e''. split; [exact He''|lia].
    + rewrite Zminus_mod_idemp_l. f_equal. lia.
Qed.

(** An empty slot bounds the cost of every entry. *)
Lemma RH_gap f s e z :
  RH N hs f -> 0 <= s < N -> f s = Some e -> 0 <= z < N -> f z = None ->
  dist N (hs e) s < dist N z s.
Proof.
  intros HR Hs He Hz Hn.
  destruct (Z.lt_ge_cases (dist N (hs e) s) (dist N z s)) as [H|H]; [exact H|].
  pose proof (dist_range N HN z s) as Hd.
  destruct (RH_run f s e HR Hs He (dist N z s)) as [e' [He' _]]; [lia|lia|].
  replace ((s - dist N z s) mod N) with z in He'.
  - congruence.
  - unfold dist. rewrite Zminus_mod_idemp_r.
    replace (s - (s - z)) with z by lia. symmetry. apply Z.mod_small. exact Hz.
Qed.

Lemma RH_gap_probe f b q sh e :
  RH N hs f -> 0 <= q -> q < sh -> sh < N ->
  f (sl N b q) = Some e -> f (sl N b sh) = None ->
  dist N (hs e) (sl N b q) < N - (sh - q).
Proof.
  intros HR Hq Hlt Hsh He Hn.
  pose proof (RH_gap f (sl N b q) e (sl N b sh) HR (sl_range N HN b q) He
                (sl_range N HN b sh) Hn) as H.
  replace (dist N (sl N b sh) (sl N b q)) with (N - (sh - q)) in H; [exact H|].
  unfold dist, sl. rewrite Zminus_mod_idemp_l, Zminus_mod_idemp_r.
  replace (b + q - (b + sh)) with ((N - (sh - q)) + (-1) * N) by lia.
  rewrite Z.mod_add by lia. symmetry. apply Z.mod_small. lia.
Qed.

(** Storing into an empty slot. *)
Lemma RH_store_empty f p K :
  RH N hs f -> 0 <= p < N -> f p = None ->
  (0 < dist N (hs K) p ->
   exists e', f ((p - 1) mod N) = Some e' /\
              dist N (hs K) p <= dist N (hs e') ((p - 1) mod N) + 1) ->
  RH N hs (upd f p (Some K)).
Proof.
  intros HR Hp Hn Hpred s e Hs He Hc.
  destruct (Z.eq_dec s p) as [->|Hsp].
  - rewrite upd_same in He. inversion He; subst e.
    destruct (Hpred Hc) as [e' [He' Hd]].
    exists e'. split; [|exact Hd].
    rewrite upd_other; [exact He'|]. intros E. rewrite E in He'. congruence.
  - rewrite upd_other in He by exact Hsp.
    destruct (HR s e Hs He Hc) as [e' [He' Hd]].
    exists e'. split; [|exact Hd].
    rewrite upd_other; [exact He'|]. intros E. rewrite E in He'. congruence.
Qed.

(** Overwriting an entry by one with the same hash code. *)
Lemma RH_store_same f p K e0 :
  RH N hs f -> f p = Some e0 -> hs K = hs e0 ->
  RH N hs (upd f p (Some K)).
Proof.
  intros HR Hp Hh s e Hs He Hc.
  assert (Hget : forall x e1, f x = Some e1 ->
            exists e2, upd f p (Some K) x = Some e2 /\ hs e2 = hs e1).
  { intros x e1 Hx. destruct (Z.eq_dec x p) as [->|Hxp].
    - rewrite upd_same. exists K. split; [reflexivity|congruence].
    - rewrite upd_other by exact Hxp. exists e1. split; [exact Hx|reflexivity]. }
  assert (Hold : exists e1, f s = Some e1 /\ hs e1 = hs e).
  { destruct (Z.eq_dec s p) as [->|Hsp].
    - rewrite upd_same in He. inversion He; subst e.
      exists e0. split; [exact Hp|congruence].
    - rewrite upd_other in He by exact Hsp. exists e. split; [exact He|reflexivity]. }
  destruct Hold as [e1 [He1 Hh1]].
  destruct (HR s e1 Hs He1) as [e' [He' Hd]]; [rewrite Hh1; exact Hc|].
  destruct (Hget _ _ He') as [e2 [He2 Hh2]].
  exists e2. split; [exact He2|]. rewrite Hh2, <- Hh1. exact Hd.
Qed.

Lemma shifted_cost f b q sh e :
  RH N hs f -> 0 <= q -> q < sh -> sh < N ->
  f (sl N b q) = Some e -> f (sl N b sh) = None ->
  dist N (hs e) (sl N b (q + 1)) = dist N (hs e) (sl N b q) + 1.
Proof.
  intros HR Hq Hlt Hsh He Hn.
  pose proof (RH_gap_probe f b q sh e HR Hq Hlt Hsh He Hn) as Hg.
  rewrite dist_succ by exact HN.
  destruct (Z.eqb_spec (dist N (hs e) (sl N b q)) (N - 1)); lia.
Qed.

Lemma RH_shift_insert f f' b pr sh K F :
  RH N hs f ->
  0 < pr -> pr < sh -> sh < N ->
  dist N (hs K) (sl N b pr) = pr ->
  (forall q, pr <= q < sh -> f (sl N b q) <> None) ->
  f (sl N b sh) = None ->
  f (sl N b pr) = Some F -> dist N (hs F) (sl N b pr) < pr ->
  (exists e', f (sl N b (pr - 1)) = Some e' /\
              pr - 1 <= dist N (hs e') (sl N b (pr - 1))) ->
  shifted_in N f f' b pr sh K ->
  RH N hs f'.
Proof.
  intros HR Hpr Hlt Hsh HK Hocc Hemp HF HcF Hprev Hf' s e Hs He Hc.
  destruct (probe_index b s Hs) as [q [Hq ->]].
  rewrite Hf' in He by exact Hq.
  rewrite sl_pred in *.
  destruct (Z.eq_dec q pr) as [->|Hqpr].
  - (* the new entry *)
    rewrite Z.eqb_refl in He. inversion He; subst e.
    destruct Hprev as [e' [He' Hd]].
    exists e'. split; [|lia].
    rewrite Hf' by lia. zbool; try lia. exact He'.
  - destruct (Z.eqb_spec q pr) as [|_]; [contradiction|].
    destruct (Z.ltb_spec pr q) as [Hgt|Hle]; simpl in He;
      [destruct (Z.leb_spec q sh) as [Hqs|Hqs]; simpl in He|].
    + (* a shifted entry *)
      assert (Hce : dist N (hs e) (sl N b q) = dist N (hs e) (sl N b (q - 1)) + 1).
      { replace q with (q - 1 + 1) at 1 by lia.
        apply (shifted_cost f b (q - 1) sh e); try assumption; lia. }
      destruct (Z.eq_dec (q - 1) pr) as [E|E].
      * exists K. split.
        -- rewrite Hf' by lia. rewrite E, Z.eqb_refl. reflexivity.
        -- rewrite E in *. rewrite HF in He. inversion He; subst e. lia.
      * destruct (f (sl N b (q - 1 - 1))) as [e2|] eqn:He2;
          [|exfalso; apply (Hocc (q - 1 - 1)); [lia|exact He2]].
        exists e2. split.
        -- rewrite Hf' by lia. zbool; try lia. exact He2.
        -- assert (Hc2 : dist N (hs e2) (sl N b (q - 1)) =
                          dist N (hs e2) (sl N b (q - 1 - 1)) + 1).
           { replace (q - 1) with (q - 1 - 1 + 1) at 1 by lia.
             apply (shifted_cost f b (q - 1 - 1) sh e2); try assumption; lia. }
           rewrite Hce, Hc2.
           pose proof (dist_range N HN (hs e2) (sl N b (q - 1 - 1))) as R2.
           destruct (Z.eq_dec (dist N (hs e) (sl N b (q - 1))) 0) as [Z0|NZ0]; [lia|].
           pose proof (dist_range N HN (hs e) (sl N b (q - 1))) as R1.
           destruct (HR _ _ (sl_range N HN b (q - 1)) He) as [e3 [He3 Hd3]]; [lia|].
           rewrite sl_pred in He3, Hd3. rewrite He2 in He3. inversion He3; subst e3. lia.
    + (* beyond the shifted run *)
      destruct (HR _ _ (sl_range N HN b q) He Hc) as [e' [He' Hd]].
      rewrite sl_pred in He', Hd.
      exists e'. split; [|exact Hd].
      destruct (Z.eq_dec (q - 1) sh) as [E|E]; [rewrite E in He'; congruence|].
      rewrite Hf' by lia. zbool; try lia. exact He'.
    + (* before the insertion point *)
      destruct (HR _ _ (sl_range N HN b q) He Hc) as [e' [He' Hd]].
      rewrite sl_pred in He', Hd.
      exists e'. split; [|exact Hd].
      destruct (Z.eq_dec q 0) as [->|Hq0].
      * rewrite <- (sl_wrap N HN b (0 - 1)) in *.
        replace (0 - 1 + N) with (N - 1) in * by lia.
        destruct (Z.eq_dec (N - 1) sh) as [E|E]; [rewrite E in He'; congruence|].
        rewrite Hf' by lia. zbool; try lia. exact He'.
      * rewrite Hf' by lia. zbool; try lia. exact He'.
Qed.

Lemma RH_remove_shift f f' b r te :
  RH N hs f ->
  0 <= r -> r < te -> te < N ->
  (forall q, r < q < te ->
     exists e, f (sl N b q) = Some e /\ 0 < dist N (hs e) (sl N b q)) ->
  (f (sl N b te) = None \/
   exists e, f (sl N b te) = Some e /\ dist N (hs e) (sl N b te) = 0) ->
  shifted_out N f f' b r te ->
  RH N hs f'.
Proof.
  intros HR Hr Hlt Hte Hchain Hend Hf' s e Hs He Hc.
  destruct (probe_index b s Hs) as [q [Hq ->]].
  rewrite Hf' in He by exact Hq.
  rewrite sl_pred in *.
  destruct (Z.leb_spec r q) as [Hrq|Hrq]; simpl in He;
    [destruct (Z.ltb_spec q (te - 1)) as [Hqt|Hqt]; simpl in He|].
  - (* a shifted entry *)
    destruct (Hchain (q + 1)) as [e0 [He0 Hc0]]; [lia|].
    rewrite He in He0. inversion He0; subst e0.
    pose proof (dist_pred N HN (hs e) b (q + 1)) as Hp.
    replace (q + 1 - 1) with q in Hp by lia.
    destruct (Z.eqb_spec (dist N (hs e) (sl N b (q + 1))) 0) as [|_]; [lia|].
    destruct (HR _ _ (sl_range N HN b (q + 1)) He Hc0) as [e1 [He1 Hd1]].
    rewrite sl_pred in He1, Hd1. replace (q + 1 - 1) with q in He1, Hd1 by lia.
    pose proof (dist_pred N HN (hs e1) b q) as Hp1.
    destruct (Z.eqb_spec (dist N (hs e1) (sl N b q)) 0) as [|_]; [lia|].
    destruct (Z.eq_dec q r) as [->|Hqr].
    + destruct (HR _ _ (sl_range N HN b r) He1) as [e2 [He2 Hd2]]; [lia|].
      rewrite sl_pred in He2, Hd2.
      exists e2. split; [|lia].
      destruct (Z.eq_dec r 0) as [->|Hr0].
      * rewrite <- (sl_wrap N HN b (0 - 1)) in *.
        replace (0 - 1 + N) with (N - 1) in * by lia.
        rewrite Hf' by lia. zbool; try lia. exact He2.
      * rewrite Hf' by lia. zbool; try lia. exact He2.
    + exists e1. split; [|lia].
      rewrite Hf' by lia. zbool; try lia.
      replace (q - 1 + 1) with q by lia. exact He1.
  - destruct (Z.eqb_spec q (te - 1)) as [|Hne]; [discriminate|].
    (* after the shifted run *)
    destruct (Z.eq_dec q te) as [->|Hqte].
    + destruct Hend as [Hn|[e0 [He0 Hz]]]; [congruence|].
      rewrite He in He0. inversion He0; subst e0. lia.
    + destruct (HR _ _ (sl_range N HN b q) He Hc) as [e' [He' Hd]].
      rewrite sl_pred in He', Hd.
      exists e'. split; [|exact Hd].
      rewrite Hf' by lia. zbool; try lia. exact He'.
  - destruct (Z.eqb_spec q (te - 1)) as [|Hne]; [lia|].
    (* before the removed entry *)
    destruct (HR _ _ (sl_range N HN b q) He Hc) as [e' [He' Hd]].
    rewrite sl_pred in He', Hd.
    exists e'. split; [|exact Hd].
    destruct (Z.eq_dec q 0) as [->|Hq0].
    + rewrite <- (sl_wrap N HN b (0 - 1)) in *.
      replace (0 - 1 + N) with (N - 1) in * by lia.
      rewrite Hf' by lia. zbool; try lia. exact He'.
    + rewrite Hf' by lia. zbool; try lia. exact He'.
Qed.

Variable keq : entry -> entry -> Prop.
Hypothesis keq_refl : forall e, keq e e.
Hypothesis keq_sym : forall e1 e2, keq e1 e2 -> keq e2 e1.
Hypothesis keq_trans : forall e1 e2 e3, keq e1 e2 -> keq e2 e3 -> keq e1 e3.

Lemma has_probe f b e :
  has N f e <-> exists q, 0 <= q < N /\ f (sl N b q) = Some e.
Proof.
  split.
  - intros [s [Hs He]]. destruct (probe_index b s Hs) as [q [Hq ->]].
    exists q. split; assumption.
  - intros [q [Hq He]]. exists (sl N b q). split; [apply sl_range; exact HN|exact He].
Qed.

Lemma ND_probe f b :
  ND N keq f <->
  forall q1 q2 e1 e2, 0 <= q1 < N -> 0 <= q2 < N ->
    f (sl N b q1) = Some e1 -> f (sl N b q2) = Some e2 -> keq e1 e2 -> q1 = q2.
Proof.
  split.
  - intros H q1 q2 e1 e2 H1 H2 E1 E2 Hk.
    apply (sl_inj N b); try assumption.
    apply (H _ _ e1 e2); try assumption; apply sl_range; exact HN.
  - intros H s1 s2 e1 e2 H1 H2 E1 E2 Hk.
    destruct (probe_index b s1 H1) as [q1 [Hq1 ->]].
    destruct (probe_index b s2 H2) as [q2 [Hq2 ->]].
    f_equal. apply (H q1 q2 e1 e2); assumption.
Qed.

Lemma has_shifted_in f f' b pr sh K :
  0 <= pr -> pr <= sh -> sh < N -> f (sl N b sh) = None ->
  shifted_in N f f' b pr sh K ->
  forall e, has N f' e <-> e = K \/ has N f e.
Proof.
  intros Hpr Hle Hsh Hemp Hf' e. rewrite !(has_probe _ b). split.
  - intros [q [Hq He]]. rewrite Hf' in He by exact Hq.
    destruct (Z.eqb_spec q pr) as [|Hne]; [left; congruence|].
    right. destruct ((pr <? q) && (q <=? sh)) eqn:E.
    + apply andb_true_iff in E. destruct E as [E1 E2].
      apply Z.ltb_lt in E1. apply Z.leb_le in E2.
      exists (q - 1). split; [lia|exact He].
    + exists q. split; assumption.
  - intros [->|[q [Hq He]]].
    + exists pr. split; [lia|]. rewrite Hf' by lia. rewrite Z.eqb_refl. reflexivity.
    + destruct (Z.eq_dec q sh) as [->|Hqs]; [congruence|].
      destruct (Z_lt_le_dec q pr) as [Hlt|Hge].
      * exists q. split; [lia|]. rewrite Hf' by lia. zbool; try lia. exact He.
      * destruct (Z_lt_le_dec q sh) as [Hlt2|Hge2].
        -- exists (q + 1). split; [lia|]. rewrite Hf' by lia. zbool; try lia.
           replace (q + 1 - 1) with q by lia. exact He.
        -- exists q. split; [lia|]. rewrite Hf' by lia. zbool; try lia. exact He.
Qed.

Lemma ND_shifted_in f f' b pr sh K :
  0 <= pr -> pr <= sh -> sh < N ->
  ND N keq f ->
  (forall e, has N f e -> ~ keq K e) ->
  shifted_in N f f' b pr sh K ->
  ND N keq f'.
Proof.
  intros Hpr Hle Hsh HND Hfresh Hf'.
  pose proof (proj1 (ND_probe f b) HND) as HND'. clear HND. rename HND' into HND.
  apply (proj2 (ND_probe f' b)).
  assert (Hsrc : forall q e, 0 <= q < N -> q <> pr -> f' (sl N b q) = Some e ->
            exists q', 0 <= q' < N /\ f (sl N b q') = Some e /\
              q' = (if (pr <? q) && (q <=? sh) then q - 1 else q)).
  { intros q e Hq Hne He. rewrite Hf' in He by exact Hq.
    destruct (Z.eqb_spec q pr) as [|_]; [contradiction|].
    destruct ((pr <? q) && (q <=? sh)) eqn:E.
    - apply andb_true_iff in E. destruct E as [E1 E2].
      apply Z.ltb_lt in E1. exists (q - 1). split; [lia|]. split; [exact He|reflexivity].
    - exists q. split; [exact Hq|]. split; [exact He|reflexivity]. }
  assert (HK : forall q, 0 <= q < N -> f' (sl N b pr) = Some K).
  { intros q _. rewrite Hf' by lia. rewrite Z.eqb_refl. reflexivity. }
  intros q1 q2 e1 e2 H1 H2 E1 E2 Hk.
  destruct (Z.eq_dec q1 pr) as [->|N1]; destruct (Z.eq_dec q2 pr) as [->|N2].
  - reflexivity.
  - exfalso. rewrite (HK pr H1) in E1. inversion E1; subst e1.
    destruct (Hsrc q2 e2 H2 N2 E2) as [q' [Hq' [He' _]]].
    apply (Hfresh e2); [|exact Hk]. apply (has_probe _ b). exists q'. split; assumption.
  - exfalso. rewrite (HK pr H2) in E2. inversion E2; subst e2.
    destruct (Hsrc q1 e1 H1 N1 E1) as [q' [Hq' [He' _]]].
    apply (Hfresh e1); [|apply keq_sym; exact Hk].
    apply (has_probe _ b). exists q'. split; assumption.
  - destruct (Hsrc q1 e1 H1 N1 E1) as [q1' [Hq1' [He1' D1]]].
    destruct (Hsrc q2 e2 H2 N2 E2) as [q2' [Hq2' [He2' D2]]].
    pose proof (HND q1' q2' e1 e2 Hq1' Hq2' He1' He2' Hk) as E.
    revert D1 D2. zbool; lia.
Qed.

Lemma has_shifted_out f f' b r te :
  0 <= r -> r < te -> te <= N ->
  shifted_out N f f' b r te ->
  forall e, has N f' e <->
            exists q, 0 <= q < N /\ q <> r /\ f (sl N b q) = Some e.
Proof.
  intros Hr Hlt Hte Hf' e. rewrite (has_probe _ b). split.
  - intros [q [Hq He]]. rewrite Hf' in He by exact Hq.
    destruct ((r <=? q) && (q <? te - 1)) eqn:E.
    + apply andb_true_iff in E. destruct E as [E1 E2].
      apply Z.leb_le in E1. apply Z.ltb_lt in E2.
      exists (q + 1). split; [lia|]. split; [lia|exact He].
    + destruct (Z.eqb_spec q (te - 1)) as [|Hne]; [discriminate|].
      exists q. split; [exact Hq|]. split; [|exact He].
      intros ->. rewrite (proj2 (Z.leb_le r r)) in E by lia. simpl in E.
      apply Z.ltb_ge in E. lia.
  - intros [q [Hq [Hne He]]].
    destruct (Z_lt_le_dec q r) as [Hl|Hg].
    + exists q. split; [lia|]. rewrite Hf' by lia. zbool; try lia. exact He.
    + destruct (Z_lt_le_dec q te) as [Hl2|Hg2].
      * exists (q - 1). split; [lia|]. rewrite Hf' by lia. zbool; try lia.
        replace (q - 1 + 1) with q by lia. exact He.
      * exists q. split; [lia|]. rewrite Hf' by lia. zbool; try lia. exact He.
Qed.

Lemma ND_shifted_out f f' b r te :
  0 <= r -> r < te -> te <= N ->
  ND N keq f ->
  shifted_out N f f' b r te ->
  ND N keq f'.
Proof.
  intros Hr Hlt Hte HND Hf'.
  pose proof (proj1 (ND_probe f b) HND) as HND'. clear HND. rename HND' into HND.
  apply (proj2 (ND_probe f' b)).
  assert (Hsrc : forall q e, 0 <= q < N -> f' (sl N b q) = Some e ->
            exists q', 0 <= q' < N /\ f (sl N b q') = Some e /\ q <> te - 1 /\
              q' = (if (r <=? q) && (q <? te - 1) then q + 1 else q)).
  { intros q e Hq He. rewrite Hf' in He by exact Hq.
    destruct ((r <=? q) && (q <? te - 1)) eqn:E.
    - apply andb_true_iff in E. destruct E as [E1 E2].
      apply Z.ltb_lt in E2. exists (q + 1). split; [lia|].
      split; [exact He|]. split; [lia|reflexivity].
    - destruct (Z.eqb_spec q (te - 1)) as [|Hne]; [discriminate|].
      exists q. split; [exact Hq|]. split; [exact He|]. split; [exact Hne|reflexivity]. }
  intros q1 q2 e1 e2 H1 H2 E1 E2 Hk.
  destruct (Hsrc q1 e1 H1 E1) as [q1' [Hq1' [He1' [T1 D1]]]].
  destruct (Hsrc q2 e2 H2 E2) as [q2' [Hq2' [He2' [T2 D2]]]].
  pose proof (HND q1' q2' e1 e2 Hq1' Hq2' He1' He2' Hk) as E.
  revert D1 D2. zbool; lia.
Qed.

End Storage.

(** ** Counting occupied slots *)

Lemma occ_range v : 0 <= occ v <= 1.
Proof. destruct v; simpl; lia. Qed.

Lemma occupied_ext f g n :
  (forall s, 0 <= s < Z.of_nat n -> f s = g s) -> occupied f n = occupied g n.
Proof.
  induction n as [|n IH]; intros H; simpl; [reflexivity|].
  rewrite IH by (intros s Hs; apply H; lia). rewrite H by lia. reflexivity.
Qed.

Lemma occupied_range f n : 0 <= occupied f n <= Z.of_nat n.
Proof.
  induction n as [|n IH]; simpl; [lia|].
  pose proof (occ_range (f (Z.of_nat n))). lia.
Qed.

Lemma occupied_upd f n s v :
  occupied (upd f s v) n =
  if (0 <=? s) && (s <? Z.of_nat n) then occupied f n - occ (f s) + occ v
  else occupied f n.
Proof.
  induction n as [|n IH].
  - simpl. destruct (Z.leb_spec 0 s); simpl; [|reflexivity].
    destruct (Z.ltb_spec s 0); [lia|reflexivity].
  - cbn [occupied]. rewrite IH. unfold upd at 1.
    destruct (Z.eqb_spec (Z.of_nat n) s) as [E|E].
    + subst s. zbool; try lia.
    + zbool; lia.
Qed.

Lemma occupied_full f n :
  (forall s, 0 <= s < Z.of_nat n -> f s <> None) -> occupied f n = Z.of_nat n.
Proof.
  induction n as [|n IH]; intros H; simpl; [reflexivity|].
  rewrite IH by (intros s Hs; apply H; lia).
  specialize (H (Z.of_nat n)). destruct (f (Z.of_nat n)); simpl; [lia|].
  exfalso. apply H; [lia|reflexivity].
Qed.

Lemma occupied_none f n :
  occupied f n = 0 -> forall s, 0 <= s < Z.of_nat n -> f s = None.
Proof.
  induction n as [|n IH]; intros H s Hs; [simpl in Hs; lia|].
  simpl in H. pose proof (occupied_range f n). pose proof (occ_range (f (Z.of_nat n))).
  destruct (Z.eq_dec s (Z.of_nat n)) as [->|Hne].
  - destruct (f (Z.of_nat n)); simpl in *; [lia|reflexivity].
  - apply IH; lia.
Qed.

Lemma occupied_empty n : occupied (fun _ => None) n = 0.
Proof. induction n as [|n IH]; simpl; lia. Qed.

(** A table that is not full has an empty slot. *)
Lemma occupied_gap f n :
  occupied f n < Z.of_nat n -> exists s, 0 <= s < Z.of_nat n /\ f s = None.
Proof.
  induction n as [|n IH]; intros H; simpl in H; [lia|].
  destruct (f (Z.of_nat n)) eqn:E.
  - simpl in H. destruct IH as [s [Hs Hn]]; [lia|]. exists s. split; [lia|exact Hn].
  - exists (Z.of_nat n). split; [lia|exact E].
Qed.

(** A table that counts an entry has an occupied slot. *)
Lemma occupied_some f n :
  0 < occupied f n -> exists s, 0 <= s < Z.of_nat n /\ f s <> None.
Proof.
  induction n as [|n IH]; intros H; simpl in H; [lia|].
  destruct (f (Z.of_nat n)) eqn:E.
  - exists (Z.of_nat n). split; [lia|congruence].
  - simpl in H. destruct IH as [s [Hs Hn]]; [lia|]. exists s. split; [lia|exact Hn].
Qed.

(** ** Table arithmetic *)

Lemma size_pow t : 0 <= order t <= 31 -> cl_rhash_table_size t = 2 ^ order t.
Proof.
  intros H. unfold cl_rhash_table_size, u32.
  rewrite Z.shiftl_1_l. apply Z.mod_small. split; [apply Z.pow_nonneg; lia|].
  apply Z.pow_lt_mono_r; lia.
Qed.

Lemma size_bounds t : 0 <= order t <= 31 -> 1 <= cl_rhash_table_size t <= 2 ^ 31.
Proof.
  intros H. rewrite size_pow by exact H. split.
  - pose proof (Z.pow_pos_nonneg 2 (order t)). lia.
  - apply Z.pow_le_mono_r; lia.
Qed.

Lemma slot_sl t h pr :
  0 <= order t <= 31 ->
  cl_rhash_table_slot t h pr = sl (cl_rhash_table_size t) h pr.
Proof.
  intros H. unfold cl_rhash_table_slot, sl.
  pose proof (size_bounds t H) as Hb.
  assert (E : u32 (cl_rhash_table_size t - 1) = Z.ones (order t)).
  { unfold u32. rewrite Z.mod_small by lia. rewrite Z.ones_equiv, size_pow by exact H. lia. }
  rewrite E, Z.land_ones by lia. unfold u32.
  rewrite (size_pow t H).
  apply Z.mod_mod_divide.
  exists (2 ^ (32 - order t)). rewrite <- Z.pow_add_r by lia. f_equal. lia.
Qed.

Lemma cost_slot_dist t s o :
  0 <= order t <= 31 ->
  0 <= s < cl_rhash_table_size t -> 0 <= o < cl_rhash_table_size t ->
  cl_rhash_table_cost_slot t s o = dist (cl_rhash_table_size t) o s.
Proof.
  intros H Hs Ho. pose proof (size_bounds t H) as Hb.
  unfold cl_rhash_table_cost_slot, dist, u32.
  destruct (Z.geb_spec s o).
  - rewrite Z.mod_small by lia. symmetry. apply Z.mod_small. lia.
  - rewrite Z.mod_small by lia.
    replace (s - o) with (cl_rhash_table_size t + s - o + (-1) * cl_rhash_table_size t) by lia.
    rewrite Z.mod_add by lia. symmetry. apply Z.mod_small. lia.
Qed.

Lemma cost_dist t s e :
  0 <= order t <= 31 -> 0 <= s < cl_rhash_table_size t ->
  table t s = Some e ->
  cl_rhash_table_cost t s = dist (cl_rhash_table_size t) (hsc (key_bytes t) e) s.
Proof.
  intros H Hs He. pose proof (size_bounds t H) as Hb.
  unfold cl_rhash_table_cost, cl_rhash_table_ptr. rewrite He.
  rewrite slot_sl by exact H.
  rewrite cost_slot_dist; [|exact H|exact Hs|apply sl_range; lia].
  unfold sl. rewrite Z.add_0_r, dist_mod, table_hash_content. reflexivity.
Qed.

Lemma key_equals_keqc t (e1 e2 : entry) :
  cl_rhash_table_key_equals t (fst e1) (fst e2) = true <-> keqc (key_bytes t) e1 e2.
Proof. apply key_equals_content. Qed.

Lemma RH_run_probe N hs f h c e :
  0 < N -> RH N hs f -> 0 <= c < N ->
  f (sl N h c) = Some e -> dist N (hs e) (sl N h c) = c ->
  forall i, 0 <= i <= c ->
    exists e', f (sl N h i) = Some e' /\ i <= dist N (hs e') (sl N h i).
Proof.
  intros HN HR Hc He Hd i Hi.
  destruct (RH_run N HN hs f (sl N h c) e HR (sl_range N HN h c) He (c - i))
    as [e' [He' Hd']]; [lia|lia|].
  replace ((sl N h c - (c - i)) mod N) with (sl N h i) in *.
  - exists e'. split; [exact He'|lia].
  - unfold sl. rewrite Zminus_mod_idemp_l. f_equal. lia.
Qed.

(** ** Lookup *)

Section Lookup.

Variable t : cl_rhash_table.
Hypothesis Hwf : WFt t.

Let N := cl_rhash_table_size t.
Let kb := key_bytes t.

Lemma size_pos : 0 < N.
Proof. pose proof (size_bounds t (wf_order t Hwf)). unfold N. lia. Qed.

Lemma hsc_hash (k : key) (e : entry) :
  key_content kb k = kc kb e -> hsc kb e = cl_rhash_table_hash t k.
Proof.
  intros H. unfold hsc. rewrite <- H. symmetry. apply table_hash_content.
Qed.

(** An entry with the content of [k] sits at its probe distance from the
    home slot of [k]. *)
Lemma dist_of_equal (k : key) (e : entry) (q : Z) :
  key_content kb k = kc kb e -> 0 <= q < N ->
  dist N (hsc kb e) (sl N (cl_rhash_table_hash t k) q) = q.
Proof.
  intros H Hq. rewrite (hsc_hash k e H). apply dist_sl_same. exact Hq.
Qed.

Lemma entry_loop_sound fuel k h pr s :
  entry_loop fuel t k h pr = Some s ->
  0 <= s < N /\ exists e, table t s = Some e /\ key_content kb k = kc kb e.
Proof.
  revert pr. induction fuel as [|fuel IH]; intros pr H; simpl in H; [discriminate|].
  unfold cl_rhash_table_ptr in H.
  rewrite slot_sl in H by apply (wf_order t Hwf). fold N in H.
  destruct (table t (sl N h pr)) as [e|] eqn:He; [|discriminate].
  destruct (cl_rhash_table_key_equals t k (fst e)) eqn:Hk.
  - inversion H; subst s. split; [apply sl_range; apply size_pos|].
    exists e. split; [exact He|]. apply key_equals_content in Hk. exact Hk.
  - destruct (pr >? cl_rhash_table_cost t (sl N h pr)); [discriminate|].
    apply (IH _ H).
Qed.

Lemma entry_loop_complete k e c :
  0 <= c < N ->
  table t (sl N (cl_rhash_table_hash t k) c) = Some e ->
  key_content kb k = kc kb e ->
  forall fuel pr, 0 <= pr <= c -> c - pr < Z.of_nat fuel ->
    entry_loop fuel t k (cl_rhash_table_hash t k) pr =
      Some (sl N (cl_rhash_table_hash t k) c).
Proof.
  intros Hc He Hk. set (h := cl_rhash_table_hash t k) in *.
  pose proof size_pos as HN.
  induction fuel as [|fuel IH]; intros pr Hpr Hf; [simpl in Hf; lia|].
  simpl. unfold cl_rhash_table_ptr. rewrite slot_sl by apply (wf_order t Hwf). fold N.
  destruct (RH_run_probe N (hsc kb) (table t) h c e HN (wf_rh t Hwf) Hc He
              (dist_of_equal k e c Hk Hc) pr Hpr) as [e' [He' Hd]].
  rewrite He'.
  destruct (cl_rhash_table_key_equals t k (fst e')) eqn:Hke.
  - apply key_equals_content in Hke. f_equal.
    apply (wf_nd t Hwf _ _ e' e); try (apply sl_range; exact HN); try assumption.
    unfold keqc. fold kb. fold kb in Hke. unfold kc in *. congruence.
  - rewrite (cost_dist t _ e') by
      (try apply (wf_order t Hwf); try apply sl_range; try exact HN; exact He').
    fold N kb. destruct (Z.gtb_spec pr (dist N (hsc kb e') (sl N h pr))); [lia|].
    apply IH; [|lia].
    destruct (Z.eq_dec pr c) as [->|Hne]; [|lia].
    rewrite He in He'. inversion He'; subst e'.
    assert (cl_rhash_table_key_equals t k (fst e) = true) as X
      by (apply key_equals_content; exact Hk).
    congruence.
Qed.

(** Lookup finds a key exactly when the table holds it. *)
Lemma table_entry_present k :
  (exists s, cl_rhash_table_entry t k = Some s) <-> present t k.
Proof.
  pose proof size_pos as HN. split.
  - intros [s H]. unfold cl_rhash_table_entry in H.
    apply entry_loop_sound in H. destruct H as [Hs [e [He Hk]]].
    exists e. split; [exists s; split; assumption|exact Hk].
  - intros [e [[s [Hs He]] Hk]].
    destruct (probe_index N HN (cl_rhash_table_hash t k) s Hs) as [q [Hq ->]].
    exists (sl N (cl_rhash_table_hash t k) q). unfold cl_rhash_table_entry.
    apply (entry_loop_complete k e q Hq He Hk); [lia|].
    fold N. rewrite Z2Nat.id by lia. lia.
Qed.

Lemma table_contains_present k :
  cl_rhash_table_contains t k = true <-> present t k.
Proof.
  rewrite <- table_entry_present. unfold cl_rhash_table_contains.
  destruct (cl_rhash_table_entry t k) as [s|].
  - split; [intros _; exists s; reflexivity|reflexivity].
  - split; [discriminate|intros [s H]; discriminate].
Qed.

(** The entry found by a lookup is the one the table holds for the key. *)
Lemma table_entry_holds k s :
  cl_rhash_table_entry t k = Some s ->
  exists e, table t s = Some e /\ holds t e /\ key_content kb k = kc kb e.
Proof.
  intros H. unfold cl_rhash_table_entry in H. apply entry_loop_sound in H.
  destruct H as [Hs [e [He Hk]]]. exists e. split; [exact He|].
  split; [exists s; split; assumption|exact Hk].
Qed.

Lemma holds_unique e1 e2 :
  holds t e1 -> holds t e2 -> kc kb e1 = kc kb e2 -> e1 = e2.
Proof.
  intros [s1 [H1 E1]] [s2 [H2 E2]] Hk.
  pose proof (wf_nd t Hwf s1 s2 e1 e2 H1 H2 E1 E2 Hk) as E. subst s2. congruence.
Qed.

End Lookup.

(** ** Shifting entries forward *)

Lemma same_shape_refl t : same_shape t t.
Proof. repeat split. Qed.

Lemma same_shape_trans t1 t2 t3 :
  same_shape t1 t2 -> same_shape t2 t3 -> same_shape t1 t3.
Proof. unfold same_shape. intros [A [B C]] [D [E F]]. repeat split; congruence. Qed.

Lemma same_shape_size t t' :
  same_shape t t' -> cl_rhash_table_size t' = cl_rhash_table_size t.
Proof. intros [A _]. unfold cl_rhash_table_size. rewrite A. reflexivity. Qed.

Lemma same_shape_copy t t' e :
  same_shape t t' -> cl_rhash_table_entry_copy t' e = cl_rhash_table_entry_copy t e.
Proof. intros [_ [_ C]]. unfold cl_rhash_table_entry_copy. rewrite C. reflexivity. Qed.

Lemma entry_copy_idem t e :
  cl_rhash_table_entry_copy t (cl_rhash_table_entry_copy t e) =
  cl_rhash_table_entry_copy t e.
Proof.
  unfold cl_rhash_table_entry_copy. destruct (n_bytes t =? 2 * ptr_bytes); reflexivity.
Qed.

Lemma entry_copy_fst t e : fst (cl_rhash_table_entry_copy t e) = fst e.
Proof.
  unfold cl_rhash_table_entry_copy. destruct (n_bytes t =? 2 * ptr_bytes); reflexivity.
Qed.

Lemma slot_copy_canon t s :
  canon t -> 0 <= s < cl_rhash_table_size t -> slot_copy t (table t s) = table t s.
Proof.
  intros Hc Hs. unfold slot_copy. destruct (table t s) as [e|] eqn:E; [|reflexivity].
  rewrite (Hc s e Hs E). reflexivity.
Qed.

Lemma entry_update_table t s : table (cl_rhash_table_entry_update t s) = table t.
Proof. unfold cl_rhash_table_entry_update. destruct (s <? n_peek t); reflexivity. Qed.

Lemma entry_update_n_entries t s :
  n_entries (cl_rhash_table_entry_update t s) = n_entries t.
Proof. unfold cl_rhash_table_entry_update. destruct (s <? n_peek t); reflexivity. Qed.

Lemma entry_update_shape t s : same_shape t (cl_rhash_table_entry_update t s).
Proof.
  unfold cl_rhash_table_entry_update. destruct (s <? n_peek t); repeat split.
Qed.

Lemma entry_update_peek t s :
  n_peek (cl_rhash_table_entry_update t s) = Z.min (n_peek t) s.
Proof.
  unfold cl_rhash_table_entry_update. destruct (Z.ltb_spec s (n_peek t)); simpl; lia.
Qed.

Lemma find_empty_loop_spec t h fuel pr :
  let r := find_empty_loop fuel t h pr in
  let N := cl_rhash_table_size t in
  0 <= order t <= 31 ->
  (pr <= r < pr + Z.of_nat fuel /\ table t (sl N h r) = None /\
   forall q, pr <= q < r -> table t (sl N h q) <> None) \/
  (forall q, pr <= q < pr + Z.of_nat fuel -> table t (sl N h q) <> None).
Proof.
  intros r N Ho. subst r. revert pr.
  induction fuel as [|fuel IH]; intros pr; [right; intros q Hq; lia|].
  cbn [find_empty_loop]. unfold cl_rhash_table_ptr. rewrite slot_sl by exact Ho. fold N.
  destruct (table t (sl N h pr)) as [e|] eqn:E; cbn [cl_rhash_table_entry_exists].
  - destruct (IH (pr + 1)) as [[H1 [H2 H3]]|H].
    + left. split; [lia|]. split; [exact H2|].
      intros q Hq. destruct (Z.eq_dec q pr) as [->|Hne]; [congruence|]. apply H3. lia.
    + right. intros q Hq. destruct (Z.eq_dec q pr) as [->|Hne]; [congruence|]. apply H. lia.
  - left. split; [lia|]. split; [exact E|]. intros q Hq. lia.
Qed.

Lemma shift_forward_loop_spec t0 h fuel :
  forall t pr pr',
  0 <= order t0 <= 31 -> same_shape t0 t -> canon t ->
  Z.of_nat fuel <= pr + 1 -> pr + 1 < cl_rhash_table_size t0 ->
  (fuel = O \/ pr' = pr) ->
  same_shape t0
    (shift_forward_loop fuel t h pr' (Some (sl (cl_rhash_table_size t0) h (pr + 1)))) /\
  n_entries
    (shift_forward_loop fuel t h pr' (Some (sl (cl_rhash_table_size t0) h (pr + 1))))
    = n_entries t /\
  (forall q, 0 <= q < cl_rhash_table_size t0 ->
     table
       (shift_forward_loop fuel t h pr' (Some (sl (cl_rhash_table_size t0) h (pr + 1))))
       (sl (cl_rhash_table_size t0) h q) =
       if (pr - Z.of_nat fuel + 1 <? q) && (q <=? pr + 1)
       then table t (sl (cl_rhash_table_size t0) h (q - 1))
       else table t (sl (cl_rhash_table_size t0) h q)) /\
  n_peek
    (shift_forward_loop fuel t h pr' (Some (sl (cl_rhash_table_size t0) h (pr + 1))))
    <= n_peek t /\
  (forall q, pr - Z.of_nat fuel < q <= pr ->
     n_peek
       (shift_forward_loop fuel t h pr' (Some (sl (cl_rhash_table_size t0) h (pr + 1))))
     <= sl (cl_rhash_table_size t0) h q) /\
  (0 <= n_peek t ->
   0 <= n_peek
     (shift_forward_loop fuel t h pr' (Some (sl (cl_rhash_table_size t0) h (pr + 1))))) /\
  occupied
    (table
       (shift_forward_loop fuel t h pr' (Some (sl (cl_rhash_table_size t0) h (pr + 1)))))
    (Z.to_nat (cl_rhash_table_size t0)) =
    occupied (table t) (Z.to_nat (cl_rhash_table_size t0))
    + occ (table t (sl (cl_rhash_table_size t0) h (pr - Z.of_nat fuel + 1)))
    - occ (table t (sl (cl_rhash_table_size t0) h (pr + 1))).
Proof.
  set (N := cl_rhash_table_size t0).
  induction fuel as [|fuel IH]; intros t pr pr' Ho Hsh Hcan Hf HprN Hpr'.
  - cbn [shift_forward_loop]. split; [exact Hsh|]. split; [reflexivity|].
    split; [intros q Hq; zbool; try lia; reflexivity|].
    split; [lia|]. split; [intros q Hq; lia|]. split; [tauto|].
    replace (pr - Z.of_nat 0 + 1) with (pr + 1) by lia. lia.
  - destruct Hpr' as [Hpr'|Hpr']; [discriminate|]. subst pr'.
    assert (HN : 0 < N) by (pose proof (size_bounds t0 Ho); unfold N; lia).
    assert (Hsz : cl_rhash_table_size t = N) by (apply same_shape_size; exact Hsh).
    assert (Hot : 0 <= order t <= 31) by (destruct Hsh as [A _]; rewrite A; exact Ho).
    cbn [shift_forward_loop]. unfold cl_rhash_table_ptr.
    rewrite slot_sl by exact Hot. rewrite Hsz.
    rewrite slot_copy_canon by (try exact Hcan; rewrite Hsz; apply sl_range; exact HN).
    set (t1 := set_slot t (sl N h (pr + 1)) (table t (sl N h pr))).
    set (t2 := cl_rhash_table_entry_update t1 (sl N h pr)).
    assert (Hsh2 : same_shape t0 t2).
    { apply (same_shape_trans _ t1); [|apply entry_update_shape].
      destruct Hsh as [A [B C]]. repeat split; assumption. }
    assert (Htab2 : forall x, table t2 x =
                      if x =? sl N h (pr + 1) then table t (sl N h pr) else table t x).
    { intros x. unfold t2. rewrite entry_update_table. reflexivity. }
    assert (Hp2 : n_peek t2 = Z.min (n_peek t) (sl N h pr)).
    { unfold t2, t1. rewrite entry_update_peek. reflexivity. }
    assert (Hcan2 : canon t2).
    { intros x e Hx He.
      rewrite (same_shape_size _ _ Hsh2) in Hx. fold N in Hx.
      unfold t2. rewrite (same_shape_copy t1) by apply entry_update_shape.
      rewrite Htab2 in He. change (cl_rhash_table_entry_copy t1 e)
        with (cl_rhash_table_entry_copy t e).
      destruct (x =? sl N h (pr + 1)); [apply (Hcan (sl N h pr))|apply (Hcan x)];
        try exact He; rewrite Hsz; try exact Hx; apply sl_range; exact HN. }
    destruct (IH t2 (pr - 1) (u32 (pr - 1)) Ho Hsh2 Hcan2) as [A [B [C [D [E [F G]]]]]];
      [lia|lia| |].
    { destruct fuel; [left; reflexivity|right].
      unfold u32. apply Z.mod_small. pose proof (size_bounds t0 Ho) as Hb.
      fold N in Hb. lia. }
    replace (pr - 1 + 1) with pr in * by lia.
    assert (Hne : forall q, 0 <= q <= pr -> sl N h q <> sl N h (pr + 1)).
    { intros q Hq Heq. apply sl_inj in Heq; lia. }
    split; [exact A|]. split; [rewrite B; unfold t2; rewrite entry_update_n_entries; reflexivity|].
    split; [|split; [|split; [|split]]].
    + intros q Hq. rewrite C by exact Hq. rewrite !Htab2.
      destruct (Z.eq_dec q (pr + 1)) as [->|Hq1].
      * zbool; try lia; replace (pr + 1 - 1) with pr by lia; reflexivity.
      * zbool; try lia; try reflexivity;
          try (exfalso; match goal with
                 | H : sl N h ?a = sl N h (pr + 1) |- _ => apply sl_inj in H; lia
               end).
    + lia.
    + intros q Hq. destruct (Z.eq_dec q pr) as [->|Hne']; [lia|].
      apply E. lia.
    + intros H0. apply F. pose proof (sl_range N HN h pr). lia.
    + rewrite G. rewrite !Htab2.
      replace (table t2) with (upd (table t) (sl N h (pr + 1)) (table t (sl N h pr)))
        by (unfold t2; rewrite entry_update_table; reflexivity).
      rewrite occupied_upd.
      pose proof (sl_range N HN h (pr + 1)) as R.
      replace (pr - 1 - Z.of_nat fuel + 1) with (pr - Z.of_nat (S fuel) + 1) by lia.
      destruct (Z.eqb_spec (sl N h (pr - Z.of_nat (S fuel) + 1)) (sl N h (pr + 1))) as [X|_];
        [apply sl_inj in X; lia|].
      destruct (Z.eqb_spec (sl N h pr) (sl N h (pr + 1))) as [X|_];
        [apply sl_inj in X; lia|].
      rewrite Z2Nat.id by lia. zbool; try lia.
Qed.

Lemma find_empty_first t h ipr sh :
  0 <= order t <= 31 ->
  0 <= ipr -> ipr <= sh -> sh < cl_rhash_table_size t ->
  table t (sl (cl_rhash_table_size t) h sh) = None ->
  (forall q, ipr <= q < sh -> table t (sl (cl_rhash_table_size t) h q) <> None) ->
  cl_rhash_table_find_empty t h ipr = sh.
Proof.
  intros Ho Hi Hle Hsh Hemp Hocc. unfold cl_rhash_table_find_empty.
  destruct (find_empty_loop_spec t h
              (Z.to_nat (cl_rhash_table_size t - ipr)) ipr Ho) as [[H1 [H2 H3]]|H].
  - destruct (Z.lt_trichotomy (find_empty_loop
        (Z.to_nat (cl_rhash_table_size t - ipr)) t h ipr) sh) as [L|[E|G]].
    + exfalso. apply (Hocc _ (conj (proj1 H1) L)). exact H2.
    + exact E.
    + exfalso. apply (H3 sh); [lia|exact Hemp].
  - exfalso. apply (H sh); [|exact Hemp]. rewrite Z2Nat.id by lia. lia.
Qed.

Lemma shift_forward_spec t h ipr sh :
  0 <= order t <= 31 -> canon t ->
  1 <= ipr -> ipr <= sh -> sh < cl_rhash_table_size t ->
  table t (sl (cl_rhash_table_size t) h sh) = None ->
  (forall q, ipr <= q < sh -> table t (sl (cl_rhash_table_size t) h q) <> None) ->
  same_shape t (cl_rhash_table_shift_forward t h ipr) /\
  n_entries (cl_rhash_table_shift_forward t h ipr) = n_entries t /\
  (forall q, 0 <= q < cl_rhash_table_size t ->
     table (cl_rhash_table_shift_forward t h ipr) (sl (cl_rhash_table_size t) h q) =
       if (ipr <? q) && (q <=? sh)
       then table t (sl (cl_rhash_table_size t) h (q - 1))
       else table t (sl (cl_rhash_table_size t) h q)) /\
  n_peek (cl_rhash_table_shift_forward t h ipr) <= n_peek t /\
  (forall q, ipr <= q <= sh ->
     n_peek (cl_rhash_table_shift_forward t h ipr) <= sl (cl_rhash_table_size t) h q) /\
  (0 <= n_peek t -> 0 <= n_peek (cl_rhash_table_shift_forward t h ipr)) /\
  occupied (table (cl_rhash_table_shift_forward t h ipr))
           (Z.to_nat (cl_rhash_table_size t)) =
    occupied (table t) (Z.to_nat (cl_rhash_table_size t))
    + occ (table t (sl (cl_rhash_table_size t) h ipr)).
Proof.
  intros Ho Hcan Hi Hle Hsh Hemp Hocc.
  set (N := cl_rhash_table_size t) in *.
  assert (HN : 0 < N) by lia.
  unfold cl_rhash_table_shift_forward.
  rewrite (find_empty_first t h ipr sh) by (try assumption; lia).
  replace (Z.to_nat (sh - ipr + 1)) with (S (Z.to_nat (sh - ipr))) by lia.
  cbn [shift_forward_loop]. rewrite slot_sl by exact Ho. fold N.
  set (t1 := cl_rhash_table_entry_update t (sl N h sh)).
  assert (Hsh1 : same_shape t t1) by apply entry_update_shape.
  assert (Hcan1 : canon t1).
  { intros x e Hx He. rewrite (same_shape_size _ _ Hsh1) in Hx.
    unfold t1 in *. rewrite (same_shape_copy t) by exact Hsh1.
    rewrite entry_update_table in He. apply (Hcan x e Hx He). }
  destruct (shift_forward_loop_spec t h (Z.to_nat (sh - ipr)) t1 (sh - 1) (u32 (sh - 1))
              Ho Hsh1 Hcan1) as [A [B [C [D [E [F G]]]]]].
  { lia. }
  { fold N. lia. }
  { right. unfold u32. apply Z.mod_small. pose proof (size_bounds t Ho) as Hb.
    fold N in Hb. lia. }
  fold N in A, B, C, D, E, F, G.
  replace (sh - 1 + 1) with sh in * by lia.
  rewrite Z2Nat.id in * by lia.
  assert (Ht1 : table t1 = table t) by (unfold t1; apply entry_update_table).
  assert (Hp1 : n_peek t1 = Z.min (n_peek t) (sl N h sh))
    by (unfold t1; apply entry_update_peek).
  rewrite Ht1 in *.
  split; [exact A|]. split; [rewrite B; unfold t1; apply entry_update_n_entries|].
  split; [|split; [|split; [|split]]].
  - intros q Hq. rewrite C by exact Hq.
    replace (sh - 1 - (sh - ipr) + 1) with ipr by lia. reflexivity.
  - lia.
  - intros q Hq. destruct (Z.eq_dec q sh) as [->|Hne]; [lia|]. apply E. lia.
  - intros H0. apply F. pose proof (sl_range N HN h sh). lia.
  - rewrite G. replace (sh - 1 - (sh - ipr) + 1) with ipr by lia.
    rewrite Hemp. simpl. lia.
Qed.

(** ** Insertion *)

Lemma RH_ext N hs f g :
  0 < N -> (forall s, 0 <= s < N -> f s = g s) -> RH N hs f -> RH N hs g.
Proof.
  intros HN H HR s e Hs He Hc. rewrite <- H in He by exact Hs.
  destruct (HR s e Hs He Hc) as [e' [He' Hd]]. exists e'. split; [|exact Hd].
  rewrite <- H; [exact He'|]. apply Z.mod_pos_bound. exact HN.
Qed.

Lemma hsc_ent t ent e :
  kc (key_bytes t) e = kc (key_bytes t) ent ->
  hsc (key_bytes t) e = cl_rhash_table_hash t (fst ent).
Proof.
  intros H. unfold hsc. rewrite H. unfold kc. symmetry. apply table_hash_content.
Qed.

Lemma fresh_from_path t ent pr :
  WFt t -> path t ent pr -> 0 <= pr < cl_rhash_table_size t ->
  (table t (sl (cl_rhash_table_size t) (cl_rhash_table_hash t (fst ent)) pr) = None \/
   exists F,
     table t (sl (cl_rhash_table_size t) (cl_rhash_table_hash t (fst ent)) pr) = Some F /\
     dist (cl_rhash_table_size t) (hsc (key_bytes t) F)
       (sl (cl_rhash_table_size t) (cl_rhash_table_hash t (fst ent)) pr) < pr) ->
  forall e, holds t e -> kc (key_bytes t) e <> kc (key_bytes t) ent.
Proof.
  intros Hwf Hpath Hpr Hat e [s [Hs He]] Hk.
  set (N := cl_rhash_table_size t) in *. set (h := cl_rhash_table_hash t (fst ent)) in *.
  assert (HN : 0 < N) by lia.
  destruct (probe_index N HN h s Hs) as [c [Hc ->]].
  assert (Hd : dist N (hsc (key_bytes t) e) (sl N h c) = c).
  { rewrite (hsc_ent t ent e Hk). apply dist_sl_same. exact Hc. }
  destruct (Z_lt_le_dec c pr) as [Hlt|Hge].
  - destruct (Hpath c) as [e' [He' [Hne _]]]; [lia|].
    fold N h in He'. rewrite He in He'. inversion He'; subst e'. contradiction.
  - destruct (RH_run_probe N _ _ h c e HN (wf_rh t Hwf) Hc He Hd pr) as [e' [He' Hd']];
      [lia|].
    destruct Hat as [Hn|[F [HF HdF]]]; [congruence|].
    rewrite HF in He'. inversion He'; subst e'. lia.
Qed.

(** A table whose slots are those of [t] after the insertion of [ent] at
    probe length [pr], the entries up to the empty slot at [sh] shifted. *)
Lemma insert_shifted_WF t t' ent pr sh :
  WFt t -> path t ent pr ->
  0 <= pr -> pr <= sh -> sh < cl_rhash_table_size t ->
  table t (sl (cl_rhash_table_size t) (cl_rhash_table_hash t (fst ent)) sh) = None ->
  (forall q, pr <= q < sh ->
     table t (sl (cl_rhash_table_size t) (cl_rhash_table_hash t (fst ent)) q) <> None) ->
  (pr < sh -> 0 < pr /\ exists F,
     table t (sl (cl_rhash_table_size t) (cl_rhash_table_hash t (fst ent)) pr) = Some F /\
     dist (cl_rhash_table_size t) (hsc (key_bytes t) F)
       (sl (cl_rhash_table_size t) (cl_rhash_table_hash t (fst ent)) pr) < pr) ->
  same_shape t t' ->
  shifted_in (cl_rhash_table_size t) (table t) (table t')
    (cl_rhash_table_hash t (fst ent)) pr sh (cl_rhash_table_entry_copy t ent) ->
  n_entries t' = n_entries t + 1 ->
  occupied (table t') (Z.to_nat (cl_rhash_table_size t)) =
    occupied (table t) (Z.to_nat (cl_rhash_table_size t)) + 1 ->
  n_peek t' <= n_peek t ->
  (forall q, pr <= q <= sh ->
     n_peek t' <= sl (cl_rhash_table_size t) (cl_rhash_table_hash t (fst ent)) q) ->
  0 <= n_peek t' ->
  WFt t' /\
  (forall e, holds t e -> kc (key_bytes t) e <> kc (key_bytes t) ent) /\
  (forall e, holds t' e <-> e = cl_rhash_table_entry_copy t ent \/ holds t e).
Proof.
  intros Hwf Hpath Hpr Hle Hsh Hemp Hocc HF Hshape Hin Hn Hcnt Hpk Hpk2 Hpk0.
  set (N := cl_rhash_table_size t) in *. set (h := cl_rhash_table_hash t (fst ent)) in *.
  set (kb := key_bytes t) in *. set (K := cl_rhash_table_entry_copy t ent) in *.
  assert (HN : 0 < N) by lia.
  assert (HsN : cl_rhash_table_size t' = N) by (apply same_shape_size; exact Hshape).
  assert (Hkb : key_bytes t' = kb) by (destruct Hshape as [_ [B _]]; exact B).
  assert (HkK : kc kb K = kc kb ent).
  { unfold kc, K. rewrite entry_copy_fst. reflexivity. }
  assert (HdK : dist N (hsc kb K) (sl N h pr) = pr).
  { unfold kb. rewrite (hsc_ent t ent K HkK). apply dist_sl_same. lia. }
  assert (Hfresh : forall e, holds t e -> kc kb e <> kc kb ent).
  { apply (fresh_from_path t ent pr Hwf Hpath); [fold N; lia|]. fold N h.
    destruct (Z.eq_dec pr sh) as [->|Hne]; [left; exact Hemp|right].
    destruct HF as [_ HF]; [lia|]. exact HF. }
  assert (Hhas : forall e, holds t' e <-> e = K \/ holds t e).
  { intros e. unfold holds. rewrite HsN. fold N.
    apply (has_shifted_in N HN (table t) (table t') h pr sh K); assumption. }
  split; [|split; [exact Hfresh|exact Hhas]].
  constructor.
  - destruct Hshape as [A _]. rewrite A. apply (wf_order t Hwf).
  - rewrite HsN, Hkb.
    destruct (Z.eq_dec pr sh) as [E|Hne].
    + subst sh.
      apply (RH_ext N _ (upd (table t) (sl N h pr) (Some K))); [exact HN| |].
      * intros s Hs. destruct (probe_index N HN h s Hs) as [q [Hq ->]].
        rewrite Hin by exact Hq. unfold upd.
        destruct (Z.eqb_spec q pr) as [->|Hq']; [rewrite Z.eqb_refl; reflexivity|].
        destruct (Z.eqb_spec (sl N h q) (sl N h pr)) as [X|_];
          [apply sl_inj in X; lia|].
        zbool; try lia; reflexivity.
      * apply RH_store_empty; try assumption; [apply (wf_rh t Hwf)|apply sl_range; exact HN|].
        intros Hc. rewrite HdK in Hc.
        destruct (Hpath (pr - 1)) as [e' [He' [_ Hd']]]; [lia|]. fold N h kb in He', Hd'.
        exists e'. rewrite sl_pred. split; [exact He'|]. rewrite HdK. lia.
    + destruct HF as [Hpr0 [F [HF HdF]]]; [lia|].
      apply (RH_shift_insert N HN (hsc kb) (table t) (table t') h pr sh K F);
        try assumption; try lia; [apply (wf_rh t Hwf)|].
      destruct (Hpath (pr - 1)) as [e' [He' [_ Hd']]]; [lia|]. fold N h kb in He', Hd'.
      exists e'. split; [exact He'|exact Hd'].
  - rewrite HsN, Hkb.
    apply (ND_shifted_in N HN (keqc kb)) with (f := table t) (b := h) (pr := pr)
      (sh := sh) (K := K); try assumption.
    + intros e1 e2 H. unfold keqc in *. congruence.
    + apply (wf_nd t Hwf).
    + intros e He Hk. apply (Hfresh e He). unfold keqc in Hk. congruence.
  - rewrite HsN, Hn, Hcnt. rewrite (wf_count t Hwf). reflexivity.
  - rewrite HsN. intros s Hs Hlt.
    destruct (probe_index N HN h s Hs) as [q [Hq ->]].
    rewrite Hin by exact Hq.
    assert (Hout : ~ (pr <= q <= sh)) by (intros X; specialize (Hpk2 q X); lia).
    zbool; try lia; (apply (wf_peek t Hwf); [apply sl_range; exact HN|lia]).
  - pose proof (wf_peek_range t Hwf). lia.
  - rewrite HsN. intros s e Hs He.
    rewrite (same_shape_copy t t') by exact Hshape.
    assert (Hh : holds t' e) by (exists s; rewrite HsN; split; assumption).
    apply Hhas in Hh. destruct Hh as [->|[s' [Hs' He']]].
    + apply entry_copy_idem.
    + apply (wf_canon t Hwf s' e Hs' He').
Qed.

Lemma ND_store_same N kb f p K e0 :
  ND N (keqc kb) f -> 0 <= p < N -> f p = Some e0 -> kc kb K = kc kb e0 ->
  ND N (keqc kb) (upd f p (Some K)).
Proof.
  intros HND Hp He0 HK s1 s2 e1 e2 H1 H2 E1 E2 Hk. unfold keqc in *.
  destruct (Z.eq_dec s1 p) as [->|N1]; destruct (Z.eq_dec s2 p) as [->|N2];
    try reflexivity.
  - rewrite upd_same in E1. rewrite upd_other in E2 by exact N2.
    inversion E1; subst e1. symmetry.
    apply (HND s2 p e2 e0 H2 Hp E2 He0). congruence.
  - rewrite upd_same in E2. rewrite upd_other in E1 by exact N1.
    inversion E2; subst e2.
    apply (HND s1 p e1 e0 H1 Hp E1 He0). congruence.
  - rewrite upd_other in E1, E2 by assumption.
    apply (HND s1 s2 e1 e2 H1 H2 E1 E2 Hk).
Qed.

Lemma wf_n_entries t :
  WFt t -> 0 <= n_entries t <= cl_rhash_table_size t.
Proof.
  intros Hwf. rewrite (wf_count t Hwf).
  pose proof (occupied_range (table t) (Z.to_nat (cl_rhash_table_size t))) as H.
  pose proof (size_bounds t (wf_order t Hwf)). lia.
Qed.

Lemma insert_at_empty_post t ent pr :
  WFt t -> path t ent pr -> 0 <= pr < cl_rhash_table_size t ->
  table t (sl (cl_rhash_table_size t) (cl_rhash_table_hash t (fst ent)) pr) = None ->
  insert_post t ent
    (insert_at_empty t
       (sl (cl_rhash_table_size t) (cl_rhash_table_hash t (fst ent)) pr) ent) None.
Proof.
  intros Hwf Hpath Hpr Hemp.
  set (N := cl_rhash_table_size t) in *. set (h := cl_rhash_table_hash t (fst ent)) in *.
  set (K := cl_rhash_table_entry_copy t ent).
  assert (HN : 0 < N) by lia.
  pose proof (wf_n_entries t Hwf) as Hne. fold N in Hne.
  pose proof (size_bounds t (wf_order t Hwf)) as Hb. fold N in Hb.
  set (t' := insert_at_empty t (sl N h pr) ent).
  assert (Hshape : same_shape t t').
  { unfold t', insert_at_empty.
    eapply same_shape_trans; [|apply entry_update_shape]. repeat split. }
  assert (Htab : table t' = upd (table t) (sl N h pr) (Some K)).
  { unfold t', insert_at_empty. rewrite entry_update_table. reflexivity. }
  assert (Hn : n_entries t' = n_entries t + 1).
  { unfold t', insert_at_empty. rewrite entry_update_n_entries. simpl.
    unfold u32. apply Z.mod_small. lia. }
  assert (Hpk : n_peek t' = Z.min (n_peek t) (sl N h pr)).
  { unfold t', insert_at_empty. rewrite entry_update_peek. reflexivity. }
  pose proof (sl_range N HN h pr) as Hr.
  pose proof (wf_peek_range t Hwf) as Hpr0.
  destruct (insert_shifted_WF t t' ent pr pr Hwf Hpath) as [A [B C]];
    fold N h K; try assumption; try lia.
  - intros q Hq. rewrite Htab. unfold upd.
    destruct (Z.eqb_spec q pr) as [->|Hq']; [rewrite Z.eqb_refl; reflexivity|].
    destruct (Z.eqb_spec (sl N h q) (sl N h pr)) as [X|_]; [apply sl_inj in X; lia|].
    zbool; try lia; reflexivity.
  - rewrite Htab, occupied_upd, Hemp. rewrite Z2Nat.id by lia. zbool; try lia.
  - intros q Hq. replace q with pr by lia. lia.
  - split; [exact Hshape|]. split; [exact A|]. split; [exact B|]. split; [exact Hn|exact C].
Qed.

Lemma insert_at_equal_post t ent pr e0 :
  WFt t -> 0 <= pr < cl_rhash_table_size t ->
  table t (sl (cl_rhash_table_size t) (cl_rhash_table_hash t (fst ent)) pr) = Some e0 ->
  kc (key_bytes t) e0 = kc (key_bytes t) ent ->
  insert_post t ent
    (insert_at_equal t
       (sl (cl_rhash_table_size t) (cl_rhash_table_hash t (fst ent)) pr) ent)
    (Some (fst e0)).
Proof.
  intros Hwf Hpr He0 Hk0.
  set (N := cl_rhash_table_size t) in *. set (h := cl_rhash_table_hash t (fst ent)) in *.
  set (K := cl_rhash_table_entry_copy t ent). set (kb := key_bytes t) in *.
  set (p := sl N h pr) in *.
  assert (HN : 0 < N) by lia.
  pose proof (sl_range N HN h pr) as Hp. fold p in Hp.
  set (t' := insert_at_equal t p ent).
  assert (Hshape : same_shape t t').
  { unfold t', insert_at_equal.
    eapply same_shape_trans; [|apply entry_update_shape]. repeat split. }
  assert (HsN : cl_rhash_table_size t' = N) by (apply same_shape_size; exact Hshape).
  assert (Htab : table t' = upd (table t) p (Some K)).
  { unfold t', insert_at_equal. rewrite entry_update_table. reflexivity. }
  assert (Hn : n_entries t' = n_entries t).
  { unfold t', insert_at_equal. rewrite entry_update_n_entries. reflexivity. }
  assert (Hpk : n_peek t' = Z.min (n_peek t) p).
  { unfold t', insert_at_equal. rewrite entry_update_peek. reflexivity. }
  assert (HkK : kc kb K = kc kb ent).
  { unfold kc, K. rewrite entry_copy_fst. reflexivity. }
  assert (Hhas : forall e, holds t' e <-> e = K \/ (holds t e /\ kc kb e <> kc kb ent)).
  { intros e. unfold holds. rewrite HsN, Htab. fold N. split.
    - intros [s [Hs He]]. destruct (Z.eq_dec s p) as [->|Hsp].
      + rewrite upd_same in He. left. congruence.
      + rewrite upd_other in He by exact Hsp. right. split; [exists s; split; assumption|].
        intros Hk. apply Hsp.
        apply (wf_nd t Hwf s p e e0 Hs Hp He He0). unfold keqc. fold kb. congruence.
    - intros [->|[[s [Hs He]] Hk]].
      + exists p. split; [exact Hp|apply upd_same].
      + exists s. split; [exact Hs|]. rewrite upd_other; [exact He|].
        intros ->. rewrite He0 in He. inversion He; subst e0. contradiction. }
  split; [exact Hshape|]. split; [|split; [|split; [exact Hn|exact Hhas]]].
  - constructor.
    + destruct Hshape as [A _]. rewrite A. apply (wf_order t Hwf).
    + rewrite HsN, Htab. destruct Hshape as [_ [B _]]. rewrite B. fold kb.
      apply (RH_store_same N (hsc kb) (table t) p K e0); [apply (wf_rh t Hwf)|exact He0|].
      unfold hsc. congruence.
    + rewrite HsN, Htab. destruct Hshape as [_ [B _]]. rewrite B. fold kb.
      apply (ND_store_same N kb (table t) p K e0); try assumption; [apply (wf_nd t Hwf)|].
      congruence.
    + rewrite HsN, Hn, Htab, occupied_upd, He0. rewrite Z2Nat.id by lia.
      rewrite (wf_count t Hwf). fold N. zbool; simpl; lia.
    + rewrite HsN, Htab, Hpk. intros s Hs Hlt. rewrite upd_other by lia.
      apply (wf_peek t Hwf); [exact Hs|lia].
    + rewrite Hpk. pose proof (wf_peek_range t Hwf). lia.
    + rewrite HsN. intros s e Hs He.
      rewrite (same_shape_copy t t') by exact Hshape.
      assert (Hh : holds t' e) by (exists s; rewrite HsN; split; assumption).
      apply Hhas in Hh. destruct Hh as [->|[[s' [Hs' He']] _]].
      * apply entry_copy_idem.
      * apply (wf_canon t Hwf s' e Hs' He').
  - exists (snd e0). rewrite <- surjective_pairing.
    split; [exists p; split; assumption|exact Hk0].
Qed.

Lemma first_empty_probe t h pr q0 :
  0 <= order t <= 31 -> pr <= q0 ->
  table t (sl (cl_rhash_table_size t) h q0) = None ->
  exists sh, pr <= sh <= q0 /\
    table t (sl (cl_rhash_table_size t) h sh) = None /\
    forall q, pr <= q < sh -> table t (sl (cl_rhash_table_size t) h q) <> None.
Proof.
  intros Ho Hle Hemp.
  destruct (find_empty_loop_spec t h (Z.to_nat (q0 - pr + 1)) pr Ho) as [[H1 [H2 H3]]|H].
  - exists (find_empty_loop (Z.to_nat (q0 - pr + 1)) t h pr).
    split; [lia|]. split; assumption.
  - exfalso. apply (H q0); [lia|exact Hemp].
Qed.

(** A table with fewer entries than slots has an empty slot beyond a run
    of occupied ones. *)
Lemma empty_probe_after t h pr :
  WFt t -> n_entries t < cl_rhash_table_size t -> 0 <= pr ->
  (forall q, 0 <= q < pr -> table t (sl (cl_rhash_table_size t) h q) <> None) ->
  exists q0, pr <= q0 < cl_rhash_table_size t /\
             table t (sl (cl_rhash_table_size t) h q0) = None.
Proof.
  intros Hwf Hn Hpr Hocc. set (N := cl_rhash_table_size t) in *.
  pose proof (size_bounds t (wf_order t Hwf)) as Hb. fold N in Hb.
  assert (HN : 0 < N) by lia.
  rewrite (wf_count t Hwf) in Hn. fold N in Hn.
  destruct (occupied_gap (table t) (Z.to_nat N)) as [s [Hs He]]; [lia|].
  rewrite Z2Nat.id in Hs by lia.
  destruct (probe_index N HN h s Hs) as [q0 [Hq0 ->]].
  exists q0. split; [|exact He].
  destruct (Z_lt_le_dec q0 pr) as [Hlt|Hge]; [|lia].
  exfalso. apply (Hocc q0); [lia|exact He].
Qed.

Lemma path_occupied t ent pr :
  path t ent pr ->
  forall q, 0 <= q < pr ->
    table t (sl (cl_rhash_table_size t) (cl_rhash_table_hash t (fst ent)) q) <> None.
Proof.
  intros Hpath q Hq. destruct (Hpath q Hq) as [e [He _]]. congruence.
Qed.

Lemma insert_at_richer_post t ent pr F :
  WFt t -> path t ent pr -> n_entries t < cl_rhash_table_size t ->
  0 < pr < cl_rhash_table_size t ->
  table t (sl (cl_rhash_table_size t) (cl_rhash_table_hash t (fst ent)) pr) = Some F ->
  dist (cl_rhash_table_size t) (hsc (key_bytes t) F)
    (sl (cl_rhash_table_size t) (cl_rhash_table_hash t (fst ent)) pr) < pr ->
  insert_post t ent
    (insert_at_richer t (cl_rhash_table_hash t (fst ent)) pr
       (sl (cl_rhash_table_size t) (cl_rhash_table_hash t (fst ent)) pr) ent) None.
Proof.
  intros Hwf Hpath Hfull Hpr HF HdF.
  set (N := cl_rhash_table_size t) in *. set (h := cl_rhash_table_hash t (fst ent)) in *.
  set (K := cl_rhash_table_entry_copy t ent).
  assert (HN : 0 < N) by lia.
  pose proof (wf_n_entries t Hwf) as Hne. fold N in Hne.
  pose proof (size_bounds t (wf_order t Hwf)) as Hb. fold N in Hb.
  destruct (empty_probe_after t h (pr + 1) Hwf Hfull) as [q0 [Hq0 He0]]; [lia| |].
  { intros q Hq. destruct (Z.eq_dec q pr) as [->|Hne']; [fold N; congruence|].
    apply (path_occupied t ent pr Hpath). lia. }
  fold N in Hq0, He0.
  destruct (first_empty_probe t h pr q0 (wf_order t Hwf)) as [sh [Hsh [Hemp Hocc]]];
    [lia|exact He0|]. fold N in Hemp, Hocc.
  assert (Hlt : pr < sh).
  { destruct (Z.eq_dec pr sh) as [E|E]; [|lia]. rewrite <- E in Hemp. congruence. }
  assert (Hcan : canon t) by (intros s e Hs He; apply (wf_canon t Hwf s e Hs He)).
  destruct (shift_forward_spec t h pr sh (wf_order t Hwf) Hcan)
    as [A [B [C [D [E [G I]]]]]]; fold N; try assumption; try lia.
  fold N in A, B, C, D, E, G, I.
  set (t1 := cl_rhash_table_shift_forward t h pr) in *.
  set (t' := insert_at_richer t h pr (sl N h pr) ent).
  assert (Hshape : same_shape t t').
  { unfold t', insert_at_richer. fold t1.
    eapply same_shape_trans; [|apply entry_update_shape].
    destruct A as [A1 [A2 A3]]. repeat split; assumption. }
  assert (Htab : table t' = upd (table t1) (sl N h pr) (Some K)).
  { unfold t', insert_at_richer. fold t1. rewrite entry_update_table. simpl.
    unfold K. rewrite (same_shape_copy t t1) by exact A. reflexivity. }
  assert (Hn : n_entries t' = n_entries t + 1).
  { unfold t', insert_at_richer. fold t1. rewrite entry_update_n_entries. simpl.
    rewrite B. unfold u32. apply Z.mod_small. lia. }
  assert (Hpk : n_peek t' = Z.min (n_peek t1) (sl N h pr)).
  { unfold t', insert_at_richer. fold t1. rewrite entry_update_peek. reflexivity. }
  pose proof (sl_range N HN h pr) as Hr.
  pose proof (wf_peek_range t Hwf) as Hpr0.
  destruct (insert_shifted_WF t t' ent pr sh Hwf Hpath) as [X [Y Z0]];
    fold N h K; try assumption; try lia.
  - intros _. split; [lia|]. exists F. split; assumption.
  - intros q Hq. rewrite Htab. unfold upd.
    destruct (Z.eqb_spec q pr) as [->|Hq']; [rewrite Z.eqb_refl; reflexivity|].
    destruct (Z.eqb_spec (sl N h q) (sl N h pr)) as [X|_]; [apply sl_inj in X; lia|].
    apply C. exact Hq.
  - rewrite Htab, occupied_upd, I. rewrite Z2Nat.id by lia.
    assert (Ht1 : table t1 (sl N h pr) = Some F).
    { rewrite C by lia. zbool; try lia. exact HF. }
    rewrite Ht1, HF. zbool; simpl; lia.
  - intros q Hq. specialize (E q Hq). lia.
  - split; [exact Hshape|]. split; [exact X|]. split; [exact Y|]. split; [exact Hn|exact Z0].
Qed.

Lemma insert_loop_post t ent :
  WFt t -> n_entries t < cl_rhash_table_size t ->
  forall fuel pr, path t ent pr -> 0 <= pr ->
    Z.of_nat fuel = cl_rhash_table_size t - pr ->
    exists t' r,
      insert_loop fuel t ent (cl_rhash_table_hash t (fst ent)) pr = Some (t', r) /\
      insert_post t ent t' r.
Proof.
  intros Hwf Hfull.
  set (N := cl_rhash_table_size t) in *. set (h := cl_rhash_table_hash t (fst ent)) in *.
  pose proof (size_bounds t (wf_order t Hwf)) as Hb. fold N in Hb.
  assert (HN : 0 < N) by lia.
  induction fuel as [|fuel IH]; intros pr Hpath Hpr Hf.
  - exfalso.
    destruct (empty_probe_after t h pr Hwf Hfull Hpr) as [q0 [Hq0 _]]; [|fold N in Hq0; lia].
    apply (path_occupied t ent pr Hpath).
  - cbn [insert_loop]. unfold cl_rhash_table_ptr.
    rewrite slot_sl by apply (wf_order t Hwf). fold N.
    destruct (table t (sl N h pr)) as [e|] eqn:He.
    + destruct (cl_rhash_table_key_equals t (fst ent) (fst e)) eqn:Hk.
      * eexists. eexists. split; [reflexivity|].
        apply insert_at_equal_post; try assumption; [fold N; lia|].
        apply key_equals_content in Hk. unfold kc. congruence.
      * rewrite (cost_dist t _ e) by
          (try apply (wf_order t Hwf); try exact He; apply sl_range; exact HN).
        fold N.
        destruct (Z.gtb_spec pr (dist N (hsc (key_bytes t) e) (sl N h pr))) as [Hgt|Hle].
        -- eexists. eexists. split; [reflexivity|].
           pose proof (dist_range N HN (hsc (key_bytes t) e) (sl N h pr)).
           apply (insert_at_richer_post t ent pr e); try assumption; fold N h; lia.
        -- apply IH; [|lia|lia].
           intros j Hj. destruct (Z.eq_dec j pr) as [->|Hne]; [|apply Hpath; lia].
           exists e. fold N h. split; [exact He|]. split; [|exact Hle].
           intros Hkc. unfold kc in Hkc.
           assert (cl_rhash_table_key_equals t (fst ent) (fst e) = true) as X
             by (apply key_equals_content; congruence).
           congruence.
    + eexists. eexists. split; [reflexivity|].
      apply insert_at_empty_post; try assumption. fold N. lia.
Qed.

(** Insertion into a well-formed table that is not full succeeds. *)
Lemma table_insert_post t ent :
  WFt t -> n_entries t < cl_rhash_table_size t ->
  exists t' r, cl_rhash_table_insert t ent = Some (t', r) /\ insert_post t ent t' r.
Proof.
  intros Hwf Hfull. unfold cl_rhash_table_insert.
  destruct (Z.ltb_spec (n_entries t) (cl_rhash_table_size t)) as [_|]; [|lia].
  apply insert_loop_post; try assumption.
  - intros j Hj. lia.
  - lia.
  - pose proof (size_bounds t (wf_order t Hwf)). lia.
Qed.

(** ** Removal *)

Lemma shift_backward_loop_spec t0 h fuel :
  forall t pr,
  0 <= order t0 <= 31 -> same_shape t0 t -> canon t ->
  1 <= pr -> pr + Z.of_nat fuel <= cl_rhash_table_size t0 ->
  exists te, pr <= te <= pr + Z.of_nat fuel /\
    (forall q, pr <= q < te ->
       exists e, table t (sl (cl_rhash_table_size t0) h q) = Some e /\
         0 < dist (cl_rhash_table_size t0) (hsc (key_bytes t0) e)
               (sl (cl_rhash_table_size t0) h q)) /\
    (te < pr + Z.of_nat fuel ->
       table t (sl (cl_rhash_table_size t0) h te) = None \/
       exists e, table t (sl (cl_rhash_table_size t0) h te) = Some e /\
         dist (cl_rhash_table_size t0) (hsc (key_bytes t0) e)
           (sl (cl_rhash_table_size t0) h te) = 0) /\
    same_shape t0
      (shift_backward_loop fuel t h pr (sl (cl_rhash_table_size t0) h (pr - 1))) /\
    n_entries
      (shift_backward_loop fuel t h pr (sl (cl_rhash_table_size t0) h (pr - 1)))
      = n_entries t /\
    n_peek
      (shift_backward_loop fuel t h pr (sl (cl_rhash_table_size t0) h (pr - 1)))
      = n_peek t /\
    shifted_out (cl_rhash_table_size t0) (table t)
      (table (shift_backward_loop fuel t h pr (sl (cl_rhash_table_size t0) h (pr - 1))))
      h (pr - 1) te /\
    occupied
      (table (shift_backward_loop fuel t h pr (sl (cl_rhash_table_size t0) h (pr - 1))))
      (Z.to_nat (cl_rhash_table_size t0)) =
      occupied (table t) (Z.to_nat (cl_rhash_table_size t0))
      - occ (table t (sl (cl_rhash_table_size t0) h (pr - 1))).
Proof.
  set (N := cl_rhash_table_size t0). set (kb := key_bytes t0).
  assert (Hstop : forall t pr, 0 <= order t0 <= 31 -> same_shape t0 t ->
            1 <= pr -> pr <= N ->
            same_shape t0 (set_slot t (sl N h (pr - 1)) None) /\
            n_entries (set_slot t (sl N h (pr - 1)) None) = n_entries t /\
            n_peek (set_slot t (sl N h (pr - 1)) None) = n_peek t /\
            shifted_out N (table t) (table (set_slot t (sl N h (pr - 1)) None))
              h (pr - 1) pr /\
            occupied (table (set_slot t (sl N h (pr - 1)) None)) (Z.to_nat N) =
              occupied (table t) (Z.to_nat N) - occ (table t (sl N h (pr - 1)))).
  { intros t pr Ho Hsh Hpr HprN.
    assert (HN : 0 < N) by (pose proof (size_bounds t0 Ho) as Hb; fold N in Hb; lia).
    split; [destruct Hsh as [A [B C]]; repeat split; assumption|].
    split; [reflexivity|]. split; [reflexivity|]. split.
    - intros q Hq. simpl.
      destruct (Z.eqb_spec (sl N h q) (sl N h (pr - 1))) as [X|X].
      + apply sl_inj in X; try lia. subst q. zbool; try lia; reflexivity.
      + zbool; try lia; try reflexivity. subst q. contradiction.
    - change (table (set_slot t (sl N h (pr - 1)) None))
        with (upd (table t) (sl N h (pr - 1)) None).
      rewrite occupied_upd. pose proof (sl_range N HN h (pr - 1)).
      rewrite Z2Nat.id by lia. zbool; simpl; lia. }
  induction fuel as [|fuel IH]; intros t pr Ho Hsh Hcan Hpr Hf.
  - exists pr. cbn [shift_backward_loop].
    split; [lia|]. split; [intros q Hq; lia|]. split; [intros X; lia|].
    apply Hstop; try assumption. lia.
  - assert (HN : 0 < N) by (pose proof (size_bounds t0 Ho) as Hb; fold N in Hb; lia).
    assert (Hsz : cl_rhash_table_size t = N) by (apply same_shape_size; exact Hsh).
    assert (Hot : 0 <= order t <= 31) by (destruct Hsh as [A _]; rewrite A; exact Ho).
    assert (Hkb : key_bytes t = kb) by (destruct Hsh as [_ [B _]]; exact B).
    cbn [shift_backward_loop]. unfold cl_rhash_table_ptr.
    rewrite slot_sl by exact Hot. rewrite Hsz.
    destruct (table t (sl N h pr)) as [e|] eqn:He.
    + rewrite (cost_dist t _ e) by
        (try exact Hot; try exact He; rewrite Hsz; apply sl_range; exact HN).
      rewrite Hsz, Hkb.
      destruct (Z.eqb_spec (dist N (hsc kb e) (sl N h pr)) 0) as [Hz|Hnz].
      * exists pr. split; [lia|]. split; [intros q Hq; lia|].
        split; [intros _; right; exists e; split; assumption|].
        apply Hstop; try assumption; lia.
      * assert (Hce : cl_rhash_table_entry_copy t e = e).
        { apply (Hcan (sl N h pr)); [rewrite Hsz; apply sl_range; exact HN|exact He]. }
        rewrite Hce.
        remember (set_slot t (sl N h (pr - 1)) (Some e)) as t1 eqn:Ht1.
        assert (Hsh1 : same_shape t0 t1)
          by (rewrite Ht1; destruct Hsh as [A [B C]]; repeat split; assumption).
        assert (Htab1 : forall x, table t1 x =
                  if x =? sl N h (pr - 1) then Some e else table t x)
          by (intros x; rewrite Ht1; reflexivity).
        assert (Hcan1 : canon t1).
        { intros x e1 Hx He1. rewrite (same_shape_size _ _ Hsh1) in Hx. fold N in Hx.
          replace (cl_rhash_table_entry_copy t1 e1) with (cl_rhash_table_entry_copy t e1)
            by (rewrite Ht1; reflexivity).
          rewrite Htab1 in He1. destruct (x =? sl N h (pr - 1)).
          - inversion He1; subst e1. exact Hce.
          - apply (Hcan x); [rewrite Hsz; exact Hx|exact He1]. }
        destruct (IH t1 (pr + 1) Ho Hsh1 Hcan1) as [te [A [B [C [D [E [F [G I]]]]]]]];
          [lia|lia|].
        replace (pr + 1 - 1) with pr in * by lia.
        assert (Hother : forall q, pr <= q < N -> table t1 (sl N h q) = table t (sl N h q)).
        { intros q Hq. rewrite Htab1.
          destruct (Z.eqb_spec (sl N h q) (sl N h (pr - 1))) as [X|_];
            [apply sl_inj in X; lia|reflexivity]. }
        assert (Hn1 : n_entries t1 = n_entries t) by (rewrite Ht1; reflexivity).
        assert (Hp1 : n_peek t1 = n_peek t) by (rewrite Ht1; reflexivity).
        exists te. split; [lia|].
        split; [|split; [|split; [exact D|split; [congruence|split; [congruence|split]]]]].
        -- intros q Hq. destruct (Z.eq_dec q pr) as [->|Hne].
           ++ exists e. split; [exact He|].
              pose proof (dist_range N HN (hsc kb e) (sl N h pr)). lia.
           ++ destruct (B q) as [e1 [He1 Hd1]]; [lia|].
              exists e1. rewrite <- Hother by lia. split; assumption.
        -- intros X. rewrite <- Hother by lia. apply C. lia.
        -- intros q Hq. rewrite G by exact Hq.
           destruct (Z.eq_dec q (pr - 1)) as [->|Hq1].
           ++ zbool; try lia. replace (pr - 1 + 1) with pr by lia.
              rewrite Htab1, Z.eqb_refl. symmetry. exact He.
           ++ assert (Hs : table t1 (sl N h q) = table t (sl N h q)).
              { rewrite Htab1.
                destruct (Z.eqb_spec (sl N h q) (sl N h (pr - 1))) as [X|_];
                  [apply sl_inj in X; lia|reflexivity]. }
              zbool; try lia; try reflexivity; try exact Hs.
              apply Hother. lia.
        -- rewrite I. rewrite Hother by lia. rewrite He.
           replace (table t1) with (upd (table t) (sl N h (pr - 1)) (Some e))
             by (rewrite Ht1; reflexivity).
           rewrite occupied_upd. pose proof (sl_range N HN h (pr - 1)).
           rewrite Z2Nat.id by lia. zbool; simpl; lia.
    + exists pr. split; [lia|]. split; [intros q Hq; lia|].
      split; [intros _; left; exact He|].
      apply Hstop; try assumption; lia.
Qed.

Lemma rpath_occupied t k pr :
  rpath t k pr ->
  forall q, 0 <= q < pr ->
    table t (sl (cl_rhash_table_size t) (cl_rhash_table_hash t k) q) <> None.
Proof.
  intros Hpath q Hq. destruct (Hpath q Hq) as [e [He _]]. congruence.
Qed.

Lemma hsc_key t k e :
  kc (key_bytes t) e = key_content (key_bytes t) k ->
  hsc (key_bytes t) e = cl_rhash_table_hash t k.
Proof.
  intros H. unfold hsc. rewrite H. symmetry. apply table_hash_content.
Qed.

(** A key that is held lies on its probe path, behind occupied slots. *)
Lemma absent_from_rpath t k pr :
  WFt t -> rpath t k pr -> 0 <= pr ->
  (pr < cl_rhash_table_size t ->
   table t (sl (cl_rhash_table_size t) (cl_rhash_table_hash t k) pr) = None) ->
  forall e, holds t e -> kc (key_bytes t) e <> key_content (key_bytes t) k.
Proof.
  intros Hwf Hpath Hpr Hat e [s [Hs He]] Hk.
  set (N := cl_rhash_table_size t) in *. set (h := cl_rhash_table_hash t k) in *.
  assert (HN : 0 < N) by lia.
  destruct (probe_index N HN h s Hs) as [c [Hc ->]].
  assert (Hd : dist N (hsc (key_bytes t) e) (sl N h c) = c).
  { rewrite (hsc_key t k e Hk). apply dist_sl_same. exact Hc. }
  destruct (Z_lt_le_dec c pr) as [Hlt|Hge].
  - destruct (Hpath c) as [e' [He' Hne]]; [lia|].
    fold N h in He'. rewrite He in He'. inversion He'; subst e'. contradiction.
  - destruct (RH_run_probe N _ _ h c e HN (wf_rh t Hwf) Hc He Hd pr) as [e' [He' _]];
      [lia|].
    rewrite Hat in He' by lia. discriminate.
Qed.

Lemma remove_found_post t k pr e :
  WFt t -> n_entries t < cl_rhash_table_size t ->
  rpath t k pr -> 0 <= pr < cl_rhash_table_size t ->
  table t (sl (cl_rhash_table_size t) (cl_rhash_table_hash t k) pr) = Some e ->
  kc (key_bytes t) e = key_content (key_bytes t) k ->
  remove_post t k
    (cl_rhash_table_entry_update
       (cl_rhash_table_shift_backward
          (set_n_entries t (u32 (n_entries t - 1)))
          (sl (cl_rhash_table_size t) (cl_rhash_table_hash t k) pr) pr)
       (sl (cl_rhash_table_size t) (cl_rhash_table_hash t k) pr))
    (Some (fst e)).
Proof.
  intros Hwf Hfull Hpath Hpr He Hk.
  set (N := cl_rhash_table_size t) in *. set (h := cl_rhash_table_hash t k) in *.
  set (kb := key_bytes t) in *. set (p := sl N h pr) in *.
  assert (HN : 0 < N) by lia.
  pose proof (sl_range N HN h pr) as Hp. fold p in Hp.
  pose proof (size_bounds t (wf_order t Hwf)) as Hb. fold N in Hb.
  remember (set_n_entries t (u32 (n_entries t - 1))) as t1 eqn:Ht1.
  assert (Hsh1 : same_shape t t1) by (rewrite Ht1; repeat split).
  assert (Htab1 : table t1 = table t) by (rewrite Ht1; reflexivity).
  assert (Hsz1 : cl_rhash_table_size t1 = N) by (apply same_shape_size; exact Hsh1).
  assert (Hkb1 : key_bytes t1 = kb) by (rewrite Ht1; reflexivity).
  assert (Ho1 : 0 <= order t1 <= 31) by (rewrite Ht1; apply (wf_order t Hwf)).
  assert (Hcan1 : canon t1).
  { intros x e1 Hx He1. rewrite Hsz1 in Hx. rewrite Htab1 in He1.
    rewrite (same_shape_copy t t1) by exact Hsh1. apply (wf_canon t Hwf x e1 Hx He1). }
  assert (Hpos : 0 < n_entries t).
  { rewrite (wf_count t Hwf). fold N.
    pose proof (occupied_range (table t) (Z.to_nat N)) as Hr.
    destruct (Z.eq_dec (occupied (table t) (Z.to_nat N)) 0) as [E|E]; [|lia].
    pose proof (occupied_none _ _ E p) as X. rewrite Z2Nat.id in X by lia.
    specialize (X Hp). fold p in He. congruence. }
  assert (Hn1 : n_entries t1 = n_entries t - 1).
  { rewrite Ht1. simpl. unfold u32. apply Z.mod_small. lia. }
  unfold cl_rhash_table_shift_backward, cl_rhash_table_ptr.
  rewrite Hsz1, Htab1. fold p in He. rewrite He.
  replace (cl_rhash_table_hash t1 (fst e)) with h.
  2:{ unfold h. rewrite <- (hsc_key t k e Hk). unfold hsc, kc.
      rewrite table_hash_content, Hkb1. reflexivity. }
  destruct (shift_backward_loop_spec t1 h (Z.to_nat (N - (pr + 1))) t1 (pr + 1) Ho1
              (same_shape_refl t1) Hcan1) as [te [A [B [C [D [E [F [G I]]]]]]]].
  { lia. }
  { rewrite Hsz1. lia. }
  rewrite Hsz1, Hkb1, Htab1 in *. replace (pr + 1 - 1) with pr in * by lia.
  fold p in A, B, C, D, E, F, G, I |- *.
  set (t2 := shift_backward_loop (Z.to_nat (N - (pr + 1))) t1 h (pr + 1) p) in *.
  assert (Hocc : forall q, 0 <= q < te -> table t (sl N h q) <> None).
  { intros q Hq. destruct (Z_lt_le_dec q pr) as [L|L].
    - apply (rpath_occupied t k pr Hpath). lia.
    - destruct (Z.eq_dec q pr) as [->|Hne]; [fold p; congruence|].
      destruct (B q) as [e1 [He1 _]]; [lia|]. congruence. }
  assert (HteN : te < N).
  { destruct (empty_probe_after t h te Hwf Hfull) as [q0 [Hq0 _]];
      [lia|exact Hocc|fold N in Hq0; lia]. }
  set (t' := cl_rhash_table_entry_update t2 p).
  assert (Hshape : same_shape t t').
  { eapply same_shape_trans; [exact Hsh1|].
    eapply same_shape_trans; [exact D|apply entry_update_shape]. }
  assert (HsN : cl_rhash_table_size t' = N) by (apply same_shape_size; exact Hshape).
  assert (Hkb' : key_bytes t' = kb) by (destruct Hshape as [_ [X _]]; exact X).
  assert (Htab : table t' = table t2) by (apply entry_update_table).
  assert (Hout : shifted_out N (table t) (table t') h pr te) by (rewrite Htab; exact G).
  assert (Hhas : forall e1, holds t' e1 <-> holds t e1 /\ kc kb e1 <> key_content kb k).
  { intros e1. unfold holds. rewrite HsN. fold N.
    rewrite (has_shifted_out N HN (table t) (table t') h pr te) by (try assumption; lia).
    split.
    - intros [q [Hq [Hne Hq1]]]. split; [exists (sl N h q); split;
        [apply sl_range; exact HN|exact Hq1]|].
      intros Hk1. apply Hne. apply (sl_inj N h); try lia.
      apply (wf_nd t Hwf _ _ e1 e); try (apply sl_range; exact HN); try assumption.
      unfold keqc. fold kb. congruence.
    - intros [[s [Hs Hs1]] Hk1].
      destruct (probe_index N HN h s Hs) as [q [Hq ->]].
      exists q. split; [exact Hq|]. split; [|exact Hs1].
      intros ->. fold p in Hs1. rewrite He in Hs1. inversion Hs1; subst e1. contradiction. }
  split; [exact Hshape|]. split; [|split; [|split]].
  - constructor.
    + destruct Hshape as [X _]. rewrite X. apply (wf_order t Hwf).
    + rewrite HsN, Hkb'.
      apply (RH_remove_shift N HN (hsc kb) (table t) (table t') h pr te);
        try assumption; try lia;
        [apply (wf_rh t Hwf)|intros q Hq; apply B; lia|apply C; lia].
    + rewrite HsN, Hkb'.
      apply (ND_shifted_out N HN (keqc kb)) with (f := table t) (b := h) (r := pr)
        (te := te); try assumption; try lia. apply (wf_nd t Hwf).
    + rewrite HsN, Htab. unfold t'. rewrite entry_update_n_entries.
      rewrite E, I, He, Hn1, (wf_count t Hwf). fold N. simpl. lia.
    + rewrite HsN. intros s Hs Hlt. unfold t' in Hlt. rewrite entry_update_peek in Hlt.
      rewrite F in Hlt. replace (n_peek t1) with (n_peek t) in Hlt
        by (rewrite Ht1; reflexivity).
      assert (Hnone : table t s = None) by (apply (wf_peek t Hwf); [exact Hs|lia]).
      destruct (probe_index N HN h s Hs) as [q [Hq ->]].
      rewrite Hout by exact Hq.
      destruct (Z.leb_spec pr q) as [L1|L1]; simpl;
        [destruct (Z.ltb_spec q (te - 1)) as [L2|L2]; simpl|].
      * exfalso. apply (Hocc q); [lia|exact Hnone].
      * destruct (q =? te - 1); [reflexivity|exact Hnone].
      * destruct (q =? te - 1); [reflexivity|exact Hnone].
    + unfold t'. rewrite entry_update_peek, F.
      replace (n_peek t1) with (n_peek t) by (rewrite Ht1; reflexivity).
      pose proof (wf_peek_range t Hwf). lia.
    + rewrite HsN. intros s e1 Hs He1.
      rewrite (same_shape_copy t t') by exact Hshape.
      assert (Hh : holds t' e1) by (exists s; rewrite HsN; split; assumption).
      apply Hhas in Hh. destruct Hh as [[s' [Hs' He']] _].
      apply (wf_canon t Hwf s' e1 Hs' He').
  - exists (snd e). rewrite <- surjective_pairing.
    split; [exists p; split; assumption|exact Hk].
  - unfold t'. rewrite entry_update_n_entries, E. exact Hn1.
  - exact Hhas.
Qed.

Lemma remove_loop_post t k :
  WFt t -> n_entries t < cl_rhash_table_size t ->
  forall fuel pr, rpath t k pr -> 0 <= pr ->
    Z.of_nat fuel = cl_rhash_table_size t - pr ->
    remove_post t k
      (fst (remove_loop fuel t k (cl_rhash_table_hash t k) pr))
      (snd (remove_loop fuel t k (cl_rhash_table_hash t k) pr)).
Proof.
  intros Hwf Hfull.
  set (N := cl_rhash_table_size t) in *. set (h := cl_rhash_table_hash t k) in *.
  pose proof (size_bounds t (wf_order t Hwf)) as Hb. fold N in Hb.
  assert (HN : 0 < N) by lia.
  induction fuel as [|fuel IH]; intros pr Hpath Hpr Hf.
  - simpl. split; [reflexivity|].
    apply (absent_from_rpath t k pr Hwf Hpath Hpr). fold N. intros X. lia.
  - cbn [remove_loop]. unfold cl_rhash_table_ptr.
    rewrite slot_sl by apply (wf_order t Hwf). fold N.
    destruct (table t (sl N h pr)) as [e|] eqn:He.
    + destruct (cl_rhash_table_key_equals t k (fst e)) eqn:Hk.
      * cbn [fst snd]. apply key_equals_content in Hk.
        apply (remove_found_post t k pr e); try assumption; fold N; try lia.
        unfold kc. congruence.
      * apply IH; [|lia|lia].
        intros j Hj. destruct (Z.eq_dec j pr) as [->|Hne]; [|apply Hpath; lia].
        exists e. fold N h. split; [exact He|].
        intros Hkc. unfold kc in Hkc.
        assert (cl_rhash_table_key_equals t k (fst e) = true) as X
          by (apply key_equals_content; congruence).
        congruence.
    + simpl. split; [reflexivity|].
      apply (absent_from_rpath t k pr Hwf Hpath Hpr). fold N h. intros _. exact He.
Qed.

(** Removal from a well-formed table that is not full. *)
Lemma table_remove_post t k :
  WFt t -> n_entries t < cl_rhash_table_size t ->
  remove_post t k (fst (cl_rhash_table_remove t k)) (snd (cl_rhash_table_remove t k)).
Proof.
  intros Hwf Hfull. unfold cl_rhash_table_remove.
  pose proof (size_bounds t (wf_order t Hwf)) as Hb.
  destruct (Z.eqb_spec (n_entries t) 0) as [E|E].
  - simpl. split; [reflexivity|]. intros e [s [Hs He]].
    rewrite (wf_count t Hwf) in E.
    pose proof (occupied_none _ _ E s) as X. rewrite Z2Nat.id in X by lia.
    rewrite X in He by exact Hs. discriminate.
  - apply remove_loop_post; try assumption.
    + intros j Hj. lia.
    + lia.
    + lia.
Qed.

(** ** Peeking *)

Lemma peek_entry_loop_spec t fuel :
  forall pr,
  (snd (peek_entry_loop fuel t pr) = None /\ fst (peek_entry_loop fuel t pr) = t /\
   forall s, pr <= s < pr + Z.of_nat fuel -> table t s = None) \/
  (exists s, snd (peek_entry_loop fuel t pr) = Some s /\
     fst (peek_entry_loop fuel t pr) = set_n_peek t s /\
     pr <= s < pr + Z.of_nat fuel /\ table t s <> None /\
     forall x, pr <= x < s -> table t x = None).
Proof.
  induction fuel as [|fuel IH]; intros pr.
  - left. simpl. repeat split. intros s Hs. lia.
  - cbn [peek_entry_loop]. unfold cl_rhash_table_ptr.
    destruct (table t pr) as [e|] eqn:He; cbn [cl_rhash_table_entry_exists].
    + right. exists pr. simpl. repeat split; try lia; congruence.
    + destruct (IH (pr + 1)) as [[A [B C]]|[s [A [B [C [D E]]]]]].
      * left. split; [exact A|]. split; [exact B|].
        intros s Hs. destruct (Z.eq_dec s pr) as [->|Hne]; [exact He|]. apply C. lia.
      * right. exists s. split; [exact A|]. split; [exact B|]. split; [lia|].
        split; [exact D|].
        intros x Hx. destruct (Z.eq_dec x pr) as [->|Hne]; [exact He|]. apply E. lia.
Qed.

Lemma table_peek_post t :
  WFt t ->
  WFt (fst (cl_rhash_table_peek t)) /\
  same_shape t (fst (cl_rhash_table_peek t)) /\
  table (fst (cl_rhash_table_peek t)) = table t /\
  n_entries (fst (cl_rhash_table_peek t)) = n_entries t /\
  match snd (cl_rhash_table_peek t) with
  | Some s => 0 <= s < cl_rhash_table_size t /\ table t s <> None
  | None => n_entries t = 0 /\ fst (cl_rhash_table_peek t) = t
  end.
Proof.
  intros Hwf. unfold cl_rhash_table_peek.
  pose proof (size_bounds t (wf_order t Hwf)) as Hb.
  pose proof (wf_n_entries t Hwf) as Hn.
  pose proof (wf_peek_range t Hwf) as Hpr.
  set (N := cl_rhash_table_size t) in *.
  destruct (Z.gtb_spec (n_entries t) 0) as [Hpos|Hz].
  - unfold cl_rhash_table_peek_entry. fold N.
    destruct (peek_entry_loop_spec t (Z.to_nat (N - n_peek t)) (n_peek t))
      as [[A [B C]]|[s [A [B [C [D E]]]]]].
    + exfalso. rewrite (wf_count t Hwf) in Hpos. fold N in Hpos.
      destruct (occupied_some _ _ Hpos) as [s [Hs He]]. rewrite Z2Nat.id in Hs by lia.
      apply He. destruct (Z_lt_le_dec s (n_peek t)) as [L|L].
      * apply (wf_peek t Hwf); [exact Hs|exact L].
      * apply C. lia.
    + rewrite A, B. split; [|split; [repeat split|split; [reflexivity|split;
        [reflexivity|split; [lia|exact D]]]]].
      constructor; try (simpl; apply Hwf).
      * simpl. intros x Hx Hlt. destruct (Z_lt_le_dec x (n_peek t)) as [L|L].
        -- apply (wf_peek t Hwf); [exact Hx|exact L].
        -- apply E. lia.
      * simpl. lia.
  - simpl. split; [exact Hwf|]. split; [apply same_shape_refl|].
    split; [reflexivity|]. split; [reflexivity|]. split; [lia|reflexivity].
Qed.

(** ** Moving one entry between the tables *)

Lemma kc_same_kb kb kb' e : kb = kb' -> kc kb e = kc kb' e.
Proof. intros ->. reflexivity. Qed.

Lemma holds_size t t' e :
  same_shape t t' -> table t' = table t -> holds t' e <-> holds t e.
Proof.
  intros Hs Ht. unfold holds. rewrite (same_shape_size _ _ Hs), Ht. tauto.
Qed.

(** Peek an entry of [A], remove it, and insert it into [B]: what
    [cl_rhash_move_higher] and [cl_rhash_move_lower] do. *)
Lemma table_move A B :
  WFt A -> WFt B ->
  key_bytes A = key_bytes B -> n_bytes A = n_bytes B ->
  (forall e1 e2, holds A e1 -> holds B e2 -> kc (key_bytes B) e1 <> kc (key_bytes B) e2) ->
  0 < n_entries A -> n_entries A < cl_rhash_table_size A ->
  n_entries B < cl_rhash_table_size B ->
  exists s e A2 k0 B',
    snd (cl_rhash_table_peek A) = Some s /\
    cl_rhash_table_ptr (fst (cl_rhash_table_peek A)) s = Some e /\
    cl_rhash_table_remove (fst (cl_rhash_table_peek A)) (fst e) = (A2, Some k0) /\
    cl_rhash_table_insert B (cl_rhash_table_entry_copy (fst (cl_rhash_table_peek A)) e)
      = Some (B', None) /\
    WFt A2 /\ WFt B' /\ same_shape A A2 /\ same_shape B B' /\
    n_entries A2 = n_entries A - 1 /\ n_entries B' = n_entries B + 1 /\
    holds A e /\
    (forall x, holds A2 x <-> holds A x /\ kc (key_bytes A) x <> kc (key_bytes A) e) /\
    (forall x, holds B' x <-> x = e \/ holds B x).
Proof.
  intros HA HB Hkb Hnb Hdisj Hpos HfullA HfullB.
  destruct (table_peek_post A HA) as [HA1 [Hsh1 [Htab1 [Hn1 Hpk]]]].
  destruct (cl_rhash_table_peek A) as [A1 r] eqn:Epk. cbn [fst snd] in *.
  destruct r as [s|]; [|lia]. destruct Hpk as [Hs Hocc].
  destruct (table A s) as [e|] eqn:He; [|congruence].
  assert (Hsz1 : cl_rhash_table_size A1 = cl_rhash_table_size A)
    by (apply same_shape_size; exact Hsh1).
  assert (Hkb1 : key_bytes A1 = key_bytes A) by (destruct Hsh1 as [_ [X _]]; exact X).
  assert (HhA : holds A e) by (exists s; split; assumption).
  assert (HhA1 : forall x, holds A1 x <-> holds A x) by (intros x; apply holds_size; assumption).
  assert (Hce : cl_rhash_table_entry_copy A1 e = e).
  { rewrite (same_shape_copy A A1) by exact Hsh1. apply (wf_canon A HA s e Hs He). }
  pose proof (table_remove_post A1 (fst e) HA1) as Hrem.
  rewrite Hsz1, Hn1 in Hrem. specialize (Hrem HfullA).
  destruct (cl_rhash_table_remove A1 (fst e)) as [A2 rk] eqn:Erem. cbn [fst snd] in Hrem.
  destruct rk as [k0|].
  2:{ exfalso. destruct Hrem as [_ Hrem]. apply (Hrem e); [apply HhA1; exact HhA|].
      reflexivity. }
  destruct Hrem as [Hsh2 [HA2 [_ [Hn2 Hh2]]]].
  destruct (table_insert_post B e HB HfullB) as [B' [rb [Eins Hins]]].
  destruct Hins as [HshB [HB' Hcase]].
  assert (HceB : cl_rhash_table_entry_copy B e = e).
  { unfold cl_rhash_table_entry_copy. rewrite <- Hnb.
    pose proof (wf_canon A HA s e Hs He) as X. unfold cl_rhash_table_entry_copy in X.
    exact X. }
  destruct rb as [kb0|].
  { exfalso. destruct Hcase as [[v0 [Hv0 Hk0]] _]. apply (Hdisj e (kb0, v0) HhA Hv0).
    symmetry. exact Hk0. }
  destruct Hcase as [_ [HnB HhB]].
  exists s, e, A2, k0, B'.
  split; [reflexivity|]. split; [unfold cl_rhash_table_ptr; rewrite Htab1; exact He|].
  split; [exact Erem|]. split; [rewrite Hce; exact Eins|].
  split; [exact HA2|]. split; [exact HB'|].
  split; [eapply same_shape_trans; eassumption|]. split; [exact HshB|].
  split; [lia|]. split; [exact HnB|]. split; [exact HhA|]. split.
  - intros x. rewrite Hh2, HhA1, Hkb1. unfold kc at 2. tauto.
  - intros x. rewrite HhB, HceB. tauto.
Qed.

(** ** Thresholds *)

Lemma limit_eq t :
  2 <= order t <= 31 -> 4 * cl_rhash_table_limit t = 3 * cl_rhash_table_size t.
Proof.
  intros H. unfold cl_rhash_table_limit.
  pose proof (size_bounds t) as Hb. rewrite (size_pow t) in * by lia.
  replace (order t) with (2 + (order t - 2)) in * by lia.
  rewrite Z.pow_add_r in * by lia. change (2 ^ 2) with 4 in *.
  set (m := 2 ^ (order t - 2)) in *.
  assert (Hm : 0 < m) by (apply Z.pow_pos_nonneg; lia).
  replace (4 * m / 4) with m by (symmetry; rewrite Z.mul_comm; apply Z.div_mul; lia).
  unfold u32. rewrite Z.mod_small; [lia|]. specialize (Hb ltac:(lia)). lia.
Qed.

Lemma slimit_eq t :
  CL_HASH_MIN_ORDER < order t <= 31 ->
  4 * cl_rhash_table_slimit t = cl_rhash_table_size t.
Proof.
  unfold CL_HASH_MIN_ORDER. intros H. unfold cl_rhash_table_slimit, CL_HASH_MIN_ORDER.
  destruct (Z.gtb_spec (order t) 6); [|lia].
  rewrite (size_pow t) by lia.
  replace (order t) with (2 + (order t - 2)) by lia.
  rewrite Z.pow_add_r by lia. change (2 ^ 2) with 4.
  set (m := 2 ^ (order t - 2)).
  replace (4 * m / 4) with m by (symmetry; rewrite Z.mul_comm; apply Z.div_mul; lia).
  reflexivity.
Qed.

Lemma slimit_min t :
  order t <= CL_HASH_MIN_ORDER -> cl_rhash_table_slimit t = 0.
Proof.
  intros H. unfold cl_rhash_table_slimit.
  destruct (Z.gtb_spec (order t) CL_HASH_MIN_ORDER); [lia|reflexivity].
Qed.

Lemma size_succ t t' :
  0 <= order t -> order t' = order t + 1 -> order t' <= 31 ->
  cl_rhash_table_size t' = 2 * cl_rhash_table_size t.
Proof.
  intros H0 H1 H2. rewrite (size_pow t), (size_pow t') by lia.
  rewrite H1, Z.pow_add_r by lia. lia.
Qed.

Lemma size_min_order t :
  CL_HASH_MIN_ORDER <= order t <= 31 -> 64 <= cl_rhash_table_size t.
Proof.
  unfold CL_HASH_MIN_ORDER. intros H. rewrite size_pow by lia.
  change 64 with (2 ^ 6). apply Z.pow_le_mono_r; lia.
Qed.

Lemma int_of_u32_small z : 0 <= z < 2 ^ 31 -> int_of_u32 z = z.
Proof.
  intros H. unfold int_of_u32. destruct (Z.ltb_spec z (2 ^ 31)); lia.
Qed.

(** ** The steps of the rehashing policy *)

Lemma move_higher_post h :
  Core h -> 0 < n_entries (h_lo h) ->
  n_entries (h_lo h) < cl_rhash_table_size (h_lo h) ->
  n_entries (h_hi h) < cl_rhash_table_size (h_hi h) ->
  exists h', cl_rhash_move_higher h = Some h' /\ Core h' /\
    n_entries (h_lo h') = n_entries (h_lo h) - 1 /\
    n_entries (h_hi h') = n_entries (h_hi h) + 1 /\
    (forall x, stored h' x <-> stored h x) /\
    same_shape (h_lo h) (h_lo h') /\ same_shape (h_hi h) (h_hi h') /\
    is_map h' = is_map h /\ n_edit h' = n_edit h.
Proof.
  intros Hc Hpos Hlo Hhi.
  destruct (table_move (h_lo h) (h_hi h) (core_lo h Hc) (core_hi h Hc) (core_kb h Hc)
              (core_nb h Hc) (core_disj h Hc) Hpos Hlo Hhi)
    as [s [e [A2 [k0 [B' [E1 [E2 [E3 [E4 [HA2 [HB' [SA [SB [NA [NB [He [HhA HhB]]]]]]]]]]]]]]]]].
  unfold cl_rhash_move_higher.
  destruct (cl_rhash_table_peek (h_lo h)) as [lo1 r]. cbn [fst snd] in *.
  subst r. rewrite E2, E3. cbn [set_lo h_hi h_lo]. rewrite E4.
  eexists. split; [reflexivity|]. hsimpl.
  assert (K1 : key_bytes A2 = key_bytes (h_lo h)) by (destruct SA as [_ [X _]]; exact X).
  assert (K2 : key_bytes B' = key_bytes (h_hi h)) by (destruct SB as [_ [X _]]; exact X).
  pose proof (core_kb h Hc) as K3.
  split; [|split; [exact NA|split; [exact NB|split;
    [intros x; split|split; [exact SA|split; [exact SB|split; reflexivity]]]]]].
  - constructor; hsimpl; try assumption.
    + congruence.
    + destruct SA as [_ [_ X]]. destruct SB as [_ [_ Y]]. rewrite X, Y. apply (core_nb h Hc).
    + destruct SB as [_ [_ Y]]. rewrite Y. apply (core_map h Hc).
    + intros e1 e2 H1 H2. rewrite K2. apply HhA in H1. destruct H1 as [H1 H1'].
      apply HhB in H2. destruct H2 as [->|H2].
      * rewrite <- K3. exact H1'.
      * apply (core_disj h Hc e1 e2 H1 H2).
    + destruct SA as [X _]. destruct SB as [Y _]. rewrite X, Y.
      destruct (core_ord h Hc) as [O|[_ [_ O]]]; [left; exact O|lia].
    + destruct SB as [Y _]. rewrite Y. apply (core_hi_ord h Hc).
    + apply (core_edit h Hc).
  - unfold stored. hsimpl. rewrite HhA, HhB. intros [[H1 _]|[->|H2]]; tauto.
  - unfold stored. hsimpl. rewrite HhA, HhB. intros [H1|H2]; [|tauto].
    destruct (list_eq_dec Byte.byte_eq_dec (kc (key_bytes (h_lo h)) x)
                (kc (key_bytes (h_lo h)) e)) as [E|E].
    + right. left. apply (holds_unique (h_lo h) (core_lo h Hc) x e H1 He E).
    + left. split; assumption.
Qed.

Lemma move_lower_post h :
  Core h -> 0 < n_entries (h_hi h) -> CL_HASH_MIN_ORDER < order (h_hi h) ->
  n_entries (h_lo h) < cl_rhash_table_size (h_lo h) ->
  n_entries (h_hi h) < cl_rhash_table_size (h_hi h) ->
  exists h', cl_rhash_move_lower h = Some h' /\ Core h' /\
    n_entries (h_lo h') = n_entries (h_lo h) + 1 /\
    n_entries (h_hi h') = n_entries (h_hi h) - 1 /\
    (forall x, stored h' x <-> stored h x) /\
    same_shape (h_lo h) (h_lo h') /\ same_shape (h_hi h) (h_hi h') /\
    is_map h' = is_map h /\ n_edit h' = n_edit h.
Proof.
  intros Hc Hpos Hord Hlo Hhi.
  pose proof (core_kb h Hc) as K3.
  assert (Hdisj : forall e1 e2, holds (h_hi h) e1 -> holds (h_lo h) e2 ->
            kc (key_bytes (h_lo h)) e1 <> kc (key_bytes (h_lo h)) e2).
  { intros e1 e2 H1 H2 E. rewrite K3 in E. apply (core_disj h Hc e2 e1 H2 H1). congruence. }
  destruct (table_move (h_hi h) (h_lo h) (core_hi h Hc) (core_lo h Hc) (eq_sym K3)
              (eq_sym (core_nb h Hc)) Hdisj Hpos Hhi Hlo)
    as [s [e [A2 [k0 [B' [E1 [E2 [E3 [E4 [HA2 [HB' [SA [SB [NA [NB [He [HhA HhB]]]]]]]]]]]]]]]]].
  unfold cl_rhash_move_lower.
  destruct (cl_rhash_table_peek (h_hi h)) as [hi1 r]. cbn [fst snd] in *.
  subst r. rewrite E2, E3. cbn [set_hi h_hi h_lo]. rewrite E4.
  eexists. split; [reflexivity|]. hsimpl.
  assert (K1 : key_bytes A2 = key_bytes (h_hi h)) by (destruct SA as [_ [X _]]; exact X).
  assert (K2 : key_bytes B' = key_bytes (h_lo h)) by (destruct SB as [_ [X _]]; exact X).
  split; [|split; [exact NB|split; [exact NA|split;
    [intros x; split|split; [exact SB|split; [exact SA|split; reflexivity]]]]]].
  - constructor; hsimpl; try assumption.
    + congruence.
    + destruct SA as [_ [_ X]]. destruct SB as [_ [_ Y]]. rewrite X, Y. apply (core_nb h Hc).
    + destruct SA as [_ [_ X]]. rewrite X. apply (core_map h Hc).
    + intros e1 e2 H1 H2. rewrite K1. apply HhA in H2. destruct H2 as [H2 H2'].
      apply HhB in H1. destruct H1 as [->|H1].
      * intros E. apply H2'. symmetry. exact E.
      * apply (core_disj h Hc e1 e2 H1 H2).
    + destruct SA as [X _]. destruct SB as [Y _]. rewrite X, Y.
      destruct (core_ord h Hc) as [O|[O _]]; [left; exact O|lia].
    + destruct SA as [Y _]. rewrite Y. apply (core_hi_ord h Hc).
    + apply (core_edit h Hc).
  - unfold stored. hsimpl. rewrite HhA, HhB. intros [[->|H1]|[H2 _]]; tauto.
  - unfold stored. hsimpl. rewrite HhA, HhB. intros [H1|H2]; [tauto|].
    destruct (list_eq_dec Byte.byte_eq_dec (kc (key_bytes (h_hi h)) x)
                (kc (key_bytes (h_hi h)) e)) as [E|E].
    + left. left. apply (holds_unique (h_hi h) (core_hi h Hc) x e H2 He E).
    + right. split; assumption.
Qed.

Lemma WFt_empty t :
  0 <= order t <= 31 -> (forall s, table t s = None) -> n_entries t = 0 ->
  0 <= n_peek t <= 2 ^ 31 -> WFt t.
Proof.
  intros Ho Ht Hn Hp. constructor; try assumption.
  - intros s e _ He. rewrite Ht in He. discriminate.
  - intros s1 s2 e1 e2 _ _ He. rewrite Ht in He. discriminate.
  - rewrite Hn. symmetry.
    rewrite (occupied_ext _ (fun _ => None)) by (intros s _; apply Ht).
    apply occupied_empty.
  - intros s _ _. apply Ht.
  - intros s e _ He. rewrite Ht in He. discriminate.
Qed.

Lemma holds_empty t e : (forall s, table t s = None) -> ~ holds t e.
Proof. intros Ht [s [_ He]]. rewrite Ht in He. discriminate. Qed.

Lemma holds_no_entries t e : WFt t -> n_entries t = 0 -> ~ holds t e.
Proof.
  intros Hwf Hn [s [Hs He]]. rewrite (wf_count t Hwf) in Hn.
  pose proof (occupied_none _ _ Hn s) as X.
  pose proof (size_bounds t (wf_order t Hwf)). rewrite Z2Nat.id in X by lia.
  rewrite X in He by exact Hs. discriminate.
Qed.

Lemma expand_post h :
  Core h -> n_entries (h_lo h) = 0 -> order (h_hi h) < CL_HASH_MAX_ORDER ->
  exists h', cl_rhash_expand h = Some h' /\ Core h' /\
    h_lo h' = h_hi h /\ n_entries (h_hi h') = 0 /\
    order (h_hi h') = order (h_hi h) + 1 /\
    (forall x, stored h' x <-> stored h x) /\
    is_map h' = is_map h /\ n_edit h' = n_edit h.
Proof.
  intros Hc Hn Hord. unfold cl_rhash_expand, cl_rhash_table_clone.
  rewrite Hn. cbn [Z.eqb].
  pose proof (core_hi_ord h Hc) as Ho. unfold CL_HASH_MIN_ORDER, CL_HASH_MAX_ORDER in *.
  assert (Hu : u16 (order (h_hi h) + 1) = order (h_hi h) + 1)
    by (unfold u16; apply Z.mod_small; lia).
  eexists. split; [reflexivity|]. rewrite Hu.
  split; [|split; [reflexivity|split; [reflexivity|split; [reflexivity|split;
    [|split; reflexivity]]]]].
  - constructor; cbn [h_lo h_hi is_map n_edit cl_rhash_table_alloc key_bytes n_bytes
                      order n_entries set_n_peek set_n_entries set_order].
    + apply (core_hi h Hc).
    + apply WFt_empty.
      * tsimpl. lia.
      * intros s. reflexivity.
      * reflexivity.
      * tsimpl.
        pose proof (size_bounds (set_n_entries (set_order (h_hi h) (order (h_hi h) + 1)) 0))
          as X.
        cbn [order set_n_entries set_order] in X. specialize (X ltac:(lia)). lia.
    + reflexivity.
    + reflexivity.
    + apply (core_map h Hc).
    + intros e1 e2 _ H2. exfalso. revert H2. apply holds_empty. reflexivity.
    + left. split; [reflexivity|lia].
    + unfold CL_HASH_MIN_ORDER, CL_HASH_MAX_ORDER. lia.
    + apply (core_edit h Hc).
  - intros x. unfold stored. cbn [h_lo h_hi]. split.
    + intros [H|H]; [right; exact H|]. exfalso. revert H. apply holds_empty. reflexivity.
    + intros [H|H]; [|left; exact H].
      exfalso. revert H. apply holds_no_entries; [apply (core_lo h Hc)|exact Hn].
Qed.

Lemma shrink_post h :
  Core h -> n_entries (h_hi h) = 0 -> CL_HASH_MIN_ORDER < order (h_hi h) ->
  exists h', cl_rhash_shrink h = Some h' /\ Core h' /\
    h_hi h' = h_lo h /\ n_entries (h_lo h') = 0 /\
    order (h_lo h') = order (h_lo h) - 1 /\
    (forall x, stored h' x <-> stored h x) /\
    is_map h' = is_map h /\ n_edit h' = n_edit h.
Proof.
  intros Hc Hn Hord. unfold cl_rhash_shrink, cl_rhash_table_clone.
  rewrite Hn. cbn [Z.eqb].
  pose proof (core_hi_ord h Hc) as Ho. unfold CL_HASH_MIN_ORDER, CL_HASH_MAX_ORDER in *.
  assert (Hol : order (h_hi h) = order (h_lo h) + 1).
  { destruct (core_ord h Hc) as [[O _]|[O _]]; [exact O|unfold CL_HASH_MIN_ORDER in O; lia]. }
  assert (Hu : u16 (order (h_lo h) - 1) = order (h_lo h) - 1)
    by (unfold u16; apply Z.mod_small; lia).
  eexists. split; [reflexivity|]. rewrite Hu.
  split; [|split; [reflexivity|split; [reflexivity|split; [reflexivity|split;
    [|split; reflexivity]]]]].
  - constructor; cbn [h_lo h_hi is_map n_edit cl_rhash_table_alloc key_bytes n_bytes
                      order n_entries set_n_peek set_n_entries set_order].
    + apply WFt_empty.
      * tsimpl. lia.
      * intros s. reflexivity.
      * reflexivity.
      * tsimpl.
        pose proof (size_bounds (set_n_entries (set_order (h_lo h) (order (h_lo h) - 1)) 0))
          as X.
        cbn [order set_n_entries set_order] in X. specialize (X ltac:(lia)). lia.
    + apply (core_lo h Hc).
    + reflexivity.
    + reflexivity.
    + rewrite (core_nb h Hc). apply (core_map h Hc).
    + intros e1 e2 H1 _. exfalso. revert H1. apply holds_empty. reflexivity.
    + left. split; lia.
    + unfold CL_HASH_MIN_ORDER, CL_HASH_MAX_ORDER. lia.
    + apply (core_edit h Hc).
  - intros x. unfold stored. cbn [h_lo h_hi]. split.
    + intros [H|H]; [|left; exact H]. exfalso. revert H. apply holds_empty. reflexivity.
    + intros [H|H]; [right; exact H|].
      exfalso. revert H. apply holds_no_entries; [apply (core_hi h Hc)|exact Hn].
Qed.

Lemma same_shape_limit t t' :
  same_shape t t' -> cl_rhash_table_limit t' = cl_rhash_table_limit t.
Proof.
  intros H. unfold cl_rhash_table_limit. rewrite (same_shape_size _ _ H). reflexivity.
Qed.

Lemma same_shape_slimit t t' :
  same_shape t t' -> cl_rhash_table_slimit t' = cl_rhash_table_slimit t.
Proof.
  intros H. unfold cl_rhash_table_slimit. rewrite (same_shape_size _ _ H).
  destruct H as [-> _]. reflexivity.
Qed.

(** Sizes and thresholds of the two tables of a well-formed hash. *)
Lemma core_sizes h :
  Core h ->
  64 <= cl_rhash_table_size (h_hi h) <= 2 ^ 31 /\
  4 * cl_rhash_table_limit (h_hi h) = 3 * cl_rhash_table_size (h_hi h) /\
  1 <= cl_rhash_table_size (h_lo h) /\
  0 <= n_entries (h_lo h) <= cl_rhash_table_size (h_lo h) /\
  0 <= n_entries (h_hi h) <= cl_rhash_table_size (h_hi h) /\
  (n_entries (h_lo h) = 0 \/
   cl_rhash_table_size (h_hi h) = 2 * cl_rhash_table_size (h_lo h)).
Proof.
  intros Hc. pose proof (core_hi_ord h Hc) as Ho.
  unfold CL_HASH_MIN_ORDER, CL_HASH_MAX_ORDER in Ho.
  split; [split; [apply size_min_order; unfold CL_HASH_MIN_ORDER; lia|
                  apply size_bounds; lia]|].
  split; [apply limit_eq; lia|].
  split; [apply size_bounds; apply (wf_order _ (core_lo h Hc))|].
  split; [apply wf_n_entries; apply (core_lo h Hc)|].
  split; [apply wf_n_entries; apply (core_hi h Hc)|].
  destruct (core_ord h Hc) as [[O1 O2]|[_ [_ O]]]; [right|left; exact O].
  apply size_succ; lia.
Qed.

(** The migrate-up and expand checks that follow a fresh insertion. *)
Lemma rebalance_up h n :
  Core h -> order (h_hi h) < CL_HASH_MAX_ORDER ->
  n_entries (h_hi h) + 2 * n_entries (h_lo h) <= cl_rhash_table_limit (h_hi h) + 1 ->
  (n_entries (h_lo h) = 0 -> n_entries (h_hi h) <= cl_rhash_table_limit (h_hi h)) ->
  n_entries (h_lo h) + n_entries (h_hi h) <= n + 1 ->
  3 * cl_rhash_table_size (h_hi h) <= Z.max 192 (8 * n) ->
  exists h1 h2,
    cl_rhash_check_move_higher h = Some h1 /\ cl_rhash_check_expand h1 = Some h2 /\
    Core h2 /\ Load h2 /\ Pot (n + 1) h2 /\
    (forall x, stored h2 x <-> stored h x) /\
    is_map h2 = is_map h /\ n_edit h2 = n_edit h /\
    key_bytes (h_hi h2) = key_bytes (h_hi h).
Proof.
  intros Hc Hord Hsum Hz Hcnt Hsize.
  destruct (core_sizes h Hc) as [S1 [S2 [S3 [S4 [S5 S6]]]]].
  unfold CL_HASH_MAX_ORDER in Hord.
  pose proof (core_hi_ord h Hc) as Ho. unfold CL_HASH_MIN_ORDER, CL_HASH_MAX_ORDER in Ho.
  assert (S7 : cl_rhash_table_size (h_hi h) <= 2 ^ 30).
  { rewrite size_pow by lia. apply Z.pow_le_mono_r; lia. }
  (* the migrate-up check *)
  assert (Hmove : exists h1, cl_rhash_check_move_higher h = Some h1 /\ Core h1 /\
            n_entries (h_hi h1) + 2 * n_entries (h_lo h1) <= cl_rhash_table_limit (h_hi h) /\
            (n_entries (h_lo h1) = 0 -> n_entries (h_hi h1) <= cl_rhash_table_limit (h_hi h)) /\
            n_entries (h_lo h1) + n_entries (h_hi h1) <= n + 1 /\
            same_shape (h_lo h) (h_lo h1) /\ same_shape (h_hi h) (h_hi h1) /\
            (forall x, stored h1 x <-> stored h x) /\
            is_map h1 = is_map h /\ n_edit h1 = n_edit h).
  { unfold cl_rhash_check_move_higher, cl_rhash_should_move_higher.
    rewrite !int_of_u32_small by lia.
    destruct (Z.gtb_spec (n_entries (h_lo h)) 0) as [Hpos|Hnpos]; cbn [andb].
    - destruct (Z.geb_spec (n_entries (h_hi h))
                  (cl_rhash_table_limit (h_hi h) - n_entries (h_lo h) * 2)) as [Hge|Hlt].
      + destruct (move_higher_post h Hc) as [h1 [E [C1 [N1 [N2 [St [SA [SB [M1 M2]]]]]]]]];
          try lia.
        exists h1. split; [exact E|]. split; [exact C1|].
        splits; try assumption; try lia.
      + exists h. split; [reflexivity|]. split; [exact Hc|].
        splits; try apply same_shape_refl; try lia; try tauto.
    - exists h. split; [reflexivity|]. split; [exact Hc|].
      splits; try apply same_shape_refl; try lia; try tauto. }
  destruct Hmove as [h1 [E1 [C1 [L1 [L2 [P1 [SA [SB [St1 [M1 M2]]]]]]]]]].
  exists h1.
  assert (Hlim : cl_rhash_table_limit (h_hi h1) = cl_rhash_table_limit (h_hi h))
    by (apply same_shape_limit; exact SB).
  assert (Hsz : cl_rhash_table_size (h_hi h1) = cl_rhash_table_size (h_hi h))
    by (apply same_shape_size; exact SB).
  assert (Hor : order (h_hi h1) = order (h_hi h)) by (destruct SB as [X _]; exact X).
  assert (Hkb : key_bytes (h_hi h1) = key_bytes (h_hi h))
    by (destruct SB as [_ [X _]]; exact X).
  unfold cl_rhash_check_expand, cl_rhash_should_expand. rewrite Hor, Hlim.
  unfold CL_HASH_MAX_ORDER.
  destruct (Z.ltb_spec (order (h_hi h)) 31) as [_|]; [|lia]. cbn [andb].
  destruct (Z.eqb_spec (n_entries (h_lo h1)) 0) as [Hl0|Hl0]; cbn [andb].
  - destruct (Z.geb_spec (n_entries (h_hi h1)) (cl_rhash_table_limit (h_hi h))) as [Hge|Hlt].
    + destruct (expand_post h1 C1 Hl0) as [h2 [E2 [C2 [X1 [X2 [X3 [St2 [M3 M4]]]]]]]];
        [unfold CL_HASH_MAX_ORDER; lia|].
      exists h2. split; [exact E1|]. split; [exact E2|]. split; [exact C2|].
      assert (Hsz2 : cl_rhash_table_size (h_hi h2) = 2 * cl_rhash_table_size (h_hi h)).
      { rewrite <- Hsz. apply size_succ; lia. }
      destruct (core_sizes h2 C2) as [T1 [T2 _]].
      split; [constructor; rewrite X1, X2; lia|].
      split; [unfold Pot; rewrite X1, X2; lia|].
      split; [intros x; rewrite St2; apply St1|].
      split; [congruence|]. split; [congruence|].
      rewrite <- (core_kb h2 C2), X1. exact Hkb.
    + exists h1. split; [exact E1|]. split; [reflexivity|]. split; [exact C1|].
      split; [constructor; rewrite Hlim; lia|].
      split; [unfold Pot; rewrite Hsz; lia|].
      split; [exact St1|]. split; [exact M1|]. split; [exact M2|exact Hkb].
  - exists h1. split; [exact E1|]. split; [reflexivity|]. split; [exact C1|].
    split; [constructor; rewrite Hlim; lia|].
    split; [unfold Pot; rewrite Hsz; lia|].
    split; [exact St1|]. split; [exact M1|]. split; [exact M2|exact Hkb].
Qed.

(** Room for one more entry in each table. *)
Lemma load_room h :
  Core h -> Load h ->
  n_entries (h_hi h) < cl_rhash_table_size (h_hi h) /\
  n_entries (h_lo h) < cl_rhash_table_size (h_lo h) /\
  4 * n_entries (h_hi h) <= 3 * cl_rhash_table_size (h_hi h) /\
  4 * n_entries (h_lo h) <= 3 * cl_rhash_table_size (h_lo h).
Proof.
  intros Hc Hl. destruct (core_sizes h Hc) as [S1 [S2 [S3 [S4 [S5 S6]]]]].
  pose proof (load_sum h Hl). destruct S6; lia.
Qed.

Lemma hash_insert_post h ent n :
  Core h -> Load h -> Pot n h -> order (h_hi h) < CL_HASH_MAX_ORDER ->
  exists h' r,
    cl_rhash_insert h ent = Some (h', r) /\
    Core h' /\ Load h' /\ Pot (n + 1) h' /\
    (forall x, stored h' x <->
       x = cl_rhash_table_entry_copy (h_hi h) ent \/
       (stored h x /\ kc (key_bytes (h_hi h)) x <> kc (key_bytes (h_hi h)) ent)) /\
    is_map h' = is_map h /\ n_edit h' = u32 (n_edit h + 1) /\
    key_bytes (h_hi h') = key_bytes (h_hi h) /\
    match r with
    | Some k0 => exists v0, stored h (k0, v0) /\
                   kc (key_bytes (h_hi h)) (k0, v0) = kc (key_bytes (h_hi h)) ent
    | None => forall x, stored h x ->
                kc (key_bytes (h_hi h)) x <> kc (key_bytes (h_hi h)) ent
    end.
Proof.
  intros Hc Hl [Hp1 Hp2] Hord.
  destruct (load_room h Hc Hl) as [R1 [R2 _]].
  destruct (core_sizes h Hc) as [S1 [S2 [S3 [S4 [S5 S6]]]]].
  pose proof (load_sum h Hl) as Ls. pose proof (load_lo0 h Hl) as Lz.
  pose proof (core_kb h Hc) as Kb.
  pose proof (core_nb h Hc) as Nb. pose proof (core_map h Hc) as Mp.
  set (kb := key_bytes (h_hi h)) in *.
  set (K := cl_rhash_table_entry_copy (h_hi h) ent).
  assert (Hedit : 0 <= u32 (n_edit h + 1) < 2 ^ 32) by (apply Z.mod_pos_bound; lia).
  destruct (table_insert_post (h_hi h) ent (core_hi h Hc) R1) as [hi1 [r1 [E1 [Sh1 [W1 P1]]]]].
  assert (Hsz1 : cl_rhash_table_size hi1 = cl_rhash_table_size (h_hi h))
    by (apply same_shape_size; exact Sh1).
  assert (Hlim1 : cl_rhash_table_limit hi1 = cl_rhash_table_limit (h_hi h))
    by (apply same_shape_limit; exact Sh1).
  assert (Hkb1 : key_bytes hi1 = kb) by (destruct Sh1 as [_ [X _]]; exact X).
  assert (Hor1 : order hi1 = order (h_hi h)) by (destruct Sh1 as [X _]; exact X).
  assert (Hnb1 : n_bytes hi1 = n_bytes (h_hi h)) by (destruct Sh1 as [_ [_ X]]; exact X).
  unfold cl_rhash_insert. rewrite E1.
  destruct r1 as [k0|].
  - (* the key was in the high table *)
    destruct P1 as [[v0 [Hv0 Hk0]] [N1 H1]]. fold kb K in Hk0, H1.
    eexists. eexists. split; [reflexivity|]. hsimpl.
    assert (Hlo : forall x, holds (h_lo h) x -> kc kb x <> kc kb ent).
    { intros x Hx. rewrite <- Hk0. apply (core_disj h Hc x (k0, v0) Hx Hv0). }
    splits; try reflexivity; try assumption.
    + constructor; hsimpl; try apply Hc; try assumption; try congruence;
        try (rewrite Hor1; apply Hc).
      intros e1 e2 He1 He2. rewrite Hkb1. apply H1 in He2.
      destruct He2 as [->|[He2 _]].
      * unfold K, kc. rewrite entry_copy_fst. apply (Hlo e1 He1).
      * apply (core_disj h Hc e1 e2 He1 He2).
    + constructor; hsimpl; rewrite Hlim1, N1; assumption.
    + unfold Pot. hsimpl. rewrite Hsz1, N1. lia.
    + intros x. unfold stored. hsimpl. rewrite H1. split.
      * intros [Hx|[->|[Hx Hne]]]; [right; split; [left; exact Hx|apply Hlo; exact Hx]
                                    |left; reflexivity|right; split; [right; exact Hx|exact Hne]].
      * intros [->|[[Hx|Hx] Hne]]; [right; left; reflexivity|left; exact Hx|
                                     right; right; split; assumption].
    + exists v0. split; [right; exact Hv0|exact Hk0].
  - (* a fresh entry of the high table *)
    destruct P1 as [Hfresh [N1 H1]]. fold kb K in Hfresh, H1.
    pose proof (table_remove_post (h_lo h) (fst ent) (core_lo h Hc) R2) as Prem.
    hsimpl.
    destruct (cl_rhash_table_remove (h_lo h) (fst ent)) as [lo1 r2]. cbn [fst snd] in Prem.
    destruct r2 as [k0|].
    + (* a shadow entry of the low table was removed *)
      destruct Prem as [Sh2 [W2 [[v0 [Hv0 Hk0]] [N2 H2]]]]. rewrite Kb in Hk0, H2.
      fold kb in Hk0, H2. fold (kc kb ent) in Hk0, H2.
      assert (Hkb2 : key_bytes lo1 = kb) by (destruct Sh2 as [_ [X _]]; congruence).
      assert (Hnz : n_entries (h_lo h) <> 0).
      { intros Z0. revert Hv0. apply holds_no_entries; [apply (core_lo h Hc)|exact Z0]. }
      eexists. eexists. split; [reflexivity|]. hsimpl.
      splits; try reflexivity; try assumption.
      * assert (Hnb2 : n_bytes lo1 = n_bytes (h_lo h)) by (destruct Sh2 as [_ [_ X]]; exact X).
        constructor; hsimpl; try assumption; try congruence;
          try (rewrite Hor1; apply Hc).
        -- intros e1 e2 He1 He2. rewrite Hkb1. apply H2 in He1. destruct He1 as [He1 Hne].
           apply H1 in He2. destruct He2 as [->|He2].
           ++ unfold K, kc. rewrite entry_copy_fst. exact Hne.
           ++ apply (core_disj h Hc e1 e2 He1 He2).
        -- destruct Sh2 as [X _]. rewrite X, Hor1.
           destruct (core_ord h Hc) as [O|[_ [_ O]]]; [left; exact O|contradiction].
      * constructor; hsimpl; rewrite Hlim1, N1, N2; lia.
      * unfold Pot. hsimpl. rewrite Hsz1, N1, N2. lia.
      * intros x. unfold stored. hsimpl. rewrite H1, H2. split.
        -- intros [[Hx Hne]|[->|Hx]]; [right; split; [left; exact Hx|exact Hne]
                                       |left; reflexivity|
                                       right; split; [right; exact Hx|apply Hfresh; exact Hx]].
        -- intros [->|[[Hx|Hx] Hne]]; [right; left; reflexivity|left; split; assumption|
                                       right; right; exact Hx].
      * exists v0. split; [left; exact Hv0|exact Hk0].
    + (* the key is new: migrate and expand as needed *)
      destruct Prem as [-> Habs]. rewrite Kb in Habs. fold kb in Habs.
      fold (kc kb ent) in Habs.
      set (h1 := set_lo (set_hi h hi1) (h_lo h)).
      assert (C1 : Core h1).
      { constructor; unfold h1; hsimpl; try apply Hc; try assumption; try congruence;
          try (rewrite Hor1; apply Hc).
        intros e1 e2 He1 He2. rewrite Hkb1. apply H1 in He2. destruct He2 as [->|He2].
        - unfold K, kc. rewrite entry_copy_fst. apply (Habs e1 He1).
        - apply (core_disj h Hc e1 e2 He1 He2). }
      destruct (rebalance_up h1 n C1) as [h2 [h3 [E2 [E3 [C3 [L3 [P3 [St3 [M3 [M4 K3]]]]]]]]]];
        unfold h1; hsimpl; try rewrite Hlim1; try rewrite Hsz1; try rewrite Hor1;
        try rewrite N1; try lia.
      fold h1. rewrite E2, E3.
      eexists. eexists. split; [reflexivity|]. hsimpl.
      assert (St1 : forall x, stored h1 x <-> x = K \/ stored h x).
      { intros x. unfold stored, h1. hsimpl. rewrite H1. tauto. }
      assert (Hall : forall x, stored h x -> kc kb x <> kc kb ent).
      { intros x [Hx|Hx]; [apply Habs|apply Hfresh]; exact Hx. }
      assert (M5 : n_edit h3 = n_edit h) by (rewrite M4; reflexivity).
      assert (M6 : is_map h3 = is_map h) by (rewrite M3; reflexivity).
      splits; try assumption.
      * constructor; hsimpl; try apply C3. rewrite M5. exact Hedit.
      * constructor; hsimpl; apply L3.
      * intros x. unfold stored in *. hsimpl. rewrite St3, St1. split.
        -- intros [->|Hx]; [left; reflexivity|right; split; [exact Hx|apply Hall; exact Hx]].
        -- intros [->|[Hx _]]; [left; reflexivity|right; exact Hx].
      * rewrite M5. reflexivity.
      * rewrite K3. exact Hkb1.
Qed.

(** The migrate-down and shrink checks that follow a removal. *)
Lemma rebalance_down h n :
  Core h ->
  n_entries (h_hi h) + 2 * n_entries (h_lo h) + 1 <= cl_rhash_table_limit (h_hi h) ->
  n_entries (h_lo h) + n_entries (h_hi h) <= n ->
  3 * cl_rhash_table_size (h_hi h) <= Z.max 192 (8 * n) ->
  exists h1 h2,
    cl_rhash_check_move_lower h = Some h1 /\ cl_rhash_check_shrink h1 = Some h2 /\
    Core h2 /\ Load h2 /\ Pot (n + 1) h2 /\
    (forall x, stored h2 x <-> stored h x) /\
    is_map h2 = is_map h /\ n_edit h2 = n_edit h /\
    key_bytes (h_hi h2) = key_bytes (h_hi h).
Proof.
  intros Hc Hsum Hcnt Hsize.
  destruct (core_sizes h Hc) as [S1 [S2 [S3 [S4 [S5 S6]]]]].
  pose proof (core_hi_ord h Hc) as Ho. unfold CL_HASH_MIN_ORDER, CL_HASH_MAX_ORDER in Ho.
  (* the migrate-down check *)
  assert (Hmove : exists h1, cl_rhash_check_move_lower h = Some h1 /\ Core h1 /\
            n_entries (h_hi h1) + 2 * n_entries (h_lo h1) <= cl_rhash_table_limit (h_hi h) /\
            (n_entries (h_lo h1) = 0 -> n_entries (h_hi h1) < cl_rhash_table_limit (h_hi h)) /\
            n_entries (h_lo h1) + n_entries (h_hi h1) <= n /\
            same_shape (h_lo h) (h_lo h1) /\ same_shape (h_hi h) (h_hi h1) /\
            (forall x, stored h1 x <-> stored h x) /\
            is_map h1 = is_map h /\ n_edit h1 = n_edit h).
  { unfold cl_rhash_check_move_lower, cl_rhash_should_move_lower.
    assert (Hsl : 0 <= cl_rhash_table_slimit (h_hi h) < 2 ^ 31).
    { destruct (Z_le_gt_dec (order (h_hi h)) 6) as [L|L].
      - rewrite slimit_min by (unfold CL_HASH_MIN_ORDER; lia). lia.
      - pose proof (slimit_eq (h_hi h)) as X. unfold CL_HASH_MIN_ORDER in X.
        specialize (X ltac:(lia)). lia. }
    destruct (Z_le_gt_dec (2 ^ 31) (n_entries (h_hi h))) as [Big|Small]; [lia|].
    rewrite !int_of_u32_small by lia.
    destruct (Z.gtb_spec (n_entries (h_hi h)) 0) as [Hpos|Hnpos]; cbn [andb].
    - destruct (Z.gtb_spec (cl_rhash_table_slimit (h_hi h)) 0) as [Hgt|Hle].
      + assert (Hord : 6 < order (h_hi h)).
        { destruct (Z_le_gt_dec (order (h_hi h)) 6) as [L|L]; [|lia].
          rewrite slimit_min in Hgt by (unfold CL_HASH_MIN_ORDER; lia). lia. }
        assert (S8 : cl_rhash_table_size (h_hi h) = 2 * cl_rhash_table_size (h_lo h)).
        { destruct (core_ord h Hc) as [[O1 O2]|[O _]];
            [apply size_succ; lia|unfold CL_HASH_MIN_ORDER in O; lia]. }
        destruct (move_lower_post h Hc) as [h1 [E [C1 [N1 [N2 [St [SA [SB [M1 M2]]]]]]]]];
          try lia; [unfold CL_HASH_MIN_ORDER; lia|].
        exists h1. split; [exact E|]. split; [exact C1|].
        splits; try assumption; try lia.
      + exists h. split; [reflexivity|]. split; [exact Hc|].
        splits; try apply same_shape_refl; try lia; try tauto.
    - exists h. split; [reflexivity|]. split; [exact Hc|].
      splits; try apply same_shape_refl; try lia; try tauto. }
  destruct Hmove as [h1 [E1 [C1 [L1 [L2 [P1 [SA [SB [St1 [M1 M2]]]]]]]]]].
  exists h1.
  assert (Hlim : cl_rhash_table_limit (h_hi h1) = cl_rhash_table_limit (h_hi h))
    by (apply same_shape_limit; exact SB).
  assert (Hsz : cl_rhash_table_size (h_hi h1) = cl_rhash_table_size (h_hi h))
    by (apply same_shape_size; exact SB).
  assert (Hszl : cl_rhash_table_size (h_lo h1) = cl_rhash_table_size (h_lo h))
    by (apply same_shape_size; exact SA).
  assert (Hor : order (h_hi h1) = order (h_hi h)) by (destruct SB as [X _]; exact X).
  assert (Horl : order (h_lo h1) = order (h_lo h)) by (destruct SA as [X _]; exact X).
  assert (Hkb : key_bytes (h_hi h1) = key_bytes (h_hi h))
    by (destruct SB as [_ [X _]]; exact X).
  assert (Hstay : Core h1 /\ Load h1 /\ Pot (n + 1) h1 /\
            (forall x, stored h1 x <-> stored h x) /\
            is_map h1 = is_map h /\ n_edit h1 = n_edit h /\
            key_bytes (h_hi h1) = key_bytes (h_hi h)).
  { splits; try assumption.
    - constructor; rewrite Hlim; assumption.
    - unfold Pot. rewrite Hsz. lia. }
  unfold cl_rhash_check_shrink.
  destruct (cl_rhash_should_shrink h1) eqn:Esh;
    [|exists h1; split; [exact E1|split; [reflexivity|exact Hstay]]].
  unfold cl_rhash_should_shrink in Esh.
  apply andb_true_iff in Esh. destruct Esh as [Esh E3].
  apply andb_true_iff in Esh. destruct Esh as [E1' E2].
  apply Z.gtb_lt in E1'. apply Z.eqb_eq in E2. apply Z.leb_le in E3.
  unfold CL_HASH_MIN_ORDER in E1'.
  destruct (shrink_post h1 C1 E2) as [h2 [E4 [C2 [X1 [X2 [X3 [St2 [M3 M4]]]]]]]];
    [unfold CL_HASH_MIN_ORDER; lia|].
  exists h2. split; [exact E1|]. split; [exact E4|]. split; [exact C2|].
  pose proof (slimit_eq (h_hi h1)) as Sl. unfold CL_HASH_MIN_ORDER in Sl.
  specialize (Sl ltac:(lia)).
  assert (S8 : cl_rhash_table_size (h_hi h1) = 2 * cl_rhash_table_size (h_lo h1)).
  { destruct (core_ord h1 C1) as [[O1 O2]|[O _]];
      [apply size_succ; lia|unfold CL_HASH_MIN_ORDER in O; lia]. }
  destruct (core_sizes h2 C2) as [T1 [T2 _]]. rewrite X1 in T1, T2.
  splits.
  - constructor; rewrite X1, X2; lia.
  - unfold Pot. rewrite X1, X2. lia.
  - intros x. rewrite St2. apply St1.
  - congruence.
  - congruence.
  - rewrite X1. rewrite (core_kb h1 C1). exact Hkb.
Qed.

Lemma set_tables_id h : set_hi (set_lo h (h_lo h)) (h_hi h) = h.
Proof. destruct h. reflexivity. Qed.

Lemma hash_remove_post h k n :
  Core h -> Load h -> Pot n h ->
  exists h' r,
    cl_rhash_remove h k = Some (h', r) /\
    Core h' /\ Load h' /\ Pot (n + 1) h' /\
    (forall x, stored h' x <->
       stored h x /\ kc (key_bytes (h_hi h)) x <> key_content (key_bytes (h_hi h)) k) /\
    is_map h' = is_map h /\ key_bytes (h_hi h') = key_bytes (h_hi h) /\
    match r with
    | Some k0 =>
        (exists v0, stored h (k0, v0) /\
           kc (key_bytes (h_hi h)) (k0, v0) = key_content (key_bytes (h_hi h)) k) /\
        n_edit h' = u32 (n_edit h + 1)
    | None =>
        h' = h /\
        forall x, stored h x ->
          kc (key_bytes (h_hi h)) x <> key_content (key_bytes (h_hi h)) k
    end.
Proof.
  intros Hc Hl [Hp1 Hp2].
  destruct (load_room h Hc Hl) as [R1 [R2 _]].
  destruct (core_sizes h Hc) as [S1 [S2 [S3 [S4 [S5 S6]]]]].
  pose proof (load_sum h Hl) as Ls. pose proof (load_lo0 h Hl) as Lz.
  pose proof (core_kb h Hc) as Kb.
  pose proof (core_nb h Hc) as Nb. pose proof (core_map h Hc) as Mp.
  set (kb := key_bytes (h_hi h)) in *.
  assert (Hedit : 0 <= u32 (n_edit h + 1) < 2 ^ 32) by (apply Z.mod_pos_bound; lia).
  pose proof (table_remove_post (h_lo h) k (core_lo h Hc) R2) as P1.
  pose proof (table_remove_post (h_hi h) k (core_hi h Hc) R1) as P2.
  unfold cl_rhash_remove.
  destruct (cl_rhash_table_remove (h_lo h) k) as [lo1 r1]. cbn [fst snd] in P1.
  (* the state after the two table removals *)
  assert (Hfound : forall h1 k0,
            Core h1 ->
            n_entries (h_hi h1) + 2 * n_entries (h_lo h1) + 1
              <= cl_rhash_table_limit (h_hi h1) ->
            n_entries (h_lo h1) + n_entries (h_hi h1) <= n ->
            cl_rhash_table_size (h_hi h1) = cl_rhash_table_size (h_hi h) ->
            key_bytes (h_hi h1) = kb -> is_map h1 = is_map h -> n_edit h1 = n_edit h ->
            (forall x, stored h1 x <-> stored h x /\ kc kb x <> key_content kb k) ->
            (exists v0, stored h (k0, v0) /\ kc kb (k0, v0) = key_content kb k) ->
            exists h' r,
              match cl_rhash_check_move_lower h1 with
              | Some hash2 =>
                  match cl_rhash_check_shrink hash2 with
                  | Some hash3 => Some (cl_rhash_edit hash3, Some k0)
                  | None => None
                  end
              | None => None
              end = Some (h', r) /\
              Core h' /\ Load h' /\ Pot (n + 1) h' /\
              (forall x, stored h' x <-> stored h x /\ kc kb x <> key_content kb k) /\
              is_map h' = is_map h /\ key_bytes (h_hi h') = kb /\
              match r with
              | Some k1 =>
                  (exists v0, stored h (k1, v0) /\ kc kb (k1, v0) = key_content kb k) /\
                  n_edit h' = u32 (n_edit h + 1)
              | None =>
                  h' = h /\ forall x, stored h x -> kc kb x <> key_content kb k
              end).
  { intros h1 k0 C1 L1 N1 Z1 K1 M1 D1 St1 Ex.
    destruct (rebalance_down h1 n C1 L1 N1) as [h2 [h3 [E2 [E3 [C3 [L3 [P3 [St3 [M3 [M4 K3]]]]]]]]]];
      [rewrite Z1; exact Hp2|].
    rewrite E2, E3. eexists. eexists. split; [reflexivity|]. hsimpl.
    splits; try assumption.
    - constructor; hsimpl; try apply C3. rewrite M4, D1. exact Hedit.
    - constructor; hsimpl; apply L3.
    - intros x. unfold stored in *. hsimpl. rewrite St3. apply St1.
    - congruence.
    - congruence.
    - rewrite M4, D1. reflexivity. }
  destruct r1 as [k0|].
  - (* found in the low table *)
    destruct P1 as [Sh1 [W1 [[v0 [Hv0 Hk0]] [N1 H1]]]]. rewrite Kb in Hk0, H1.
    fold kb in Hk0, H1.
    assert (Hnz : n_entries (h_lo h) <> 0).
    { intros Z0. revert Hv0. apply holds_no_entries; [apply (core_lo h Hc)|exact Z0]. }
    assert (Hkb1 : key_bytes lo1 = kb) by (destruct Sh1 as [_ [X _]]; congruence).
    assert (Hnb1 : n_bytes lo1 = n_bytes (h_lo h)) by (destruct Sh1 as [_ [_ X]]; exact X).
    assert (Hor1 : order lo1 = order (h_lo h)) by (destruct Sh1 as [X _]; exact X).
    assert (Hhi : forall x, holds (h_hi h) x -> kc kb x <> key_content kb k).
    { intros x Hx. rewrite <- Hk0. intros E.
      apply (core_disj h Hc (k0, v0) x Hv0 Hx). symmetry. exact E. }
    apply (Hfound (set_lo h lo1) k0); hsimpl; try reflexivity; try lia.
    + constructor; hsimpl; try apply Hc; try assumption; try congruence.
      * intros e1 e2 He1 He2. apply H1 in He1. destruct He1 as [He1 _].
        apply (core_disj h Hc e1 e2 He1 He2).
      * rewrite Hor1. destruct (core_ord h Hc) as [O|[_ [_ O]]]; [left; exact O|contradiction].
    + intros x. unfold stored. hsimpl. rewrite H1. split.
      * intros [[Hx Hne]|Hx]; [split; [left; exact Hx|exact Hne]|
                              split; [right; exact Hx|apply Hhi; exact Hx]].
      * intros [[Hx|Hx] Hne]; [left; split; assumption|right; exact Hx].
    + exists v0. split; [left; exact Hv0|exact Hk0].
  - destruct P1 as [-> Habs]. rewrite Kb in Habs. fold kb in Habs.
    destruct (cl_rhash_table_remove (h_hi h) k) as [hi1 r2]. cbn [fst snd] in P2.
    destruct r2 as [k0|].
    + (* found in the high table *)
      destruct P2 as [Sh1 [W1 [[v0 [Hv0 Hk0]] [N1 H1]]]]. fold kb in Hk0, H1.
      assert (Hkb1 : key_bytes hi1 = kb) by (destruct Sh1 as [_ [X _]]; exact X).
      assert (Hnb1 : n_bytes hi1 = n_bytes (h_hi h)) by (destruct Sh1 as [_ [_ X]]; exact X).
      assert (Hor1 : order hi1 = order (h_hi h)) by (destruct Sh1 as [X _]; exact X).
      assert (Hsz1 : cl_rhash_table_size hi1 = cl_rhash_table_size (h_hi h))
        by (apply same_shape_size; exact Sh1).
      assert (Hlim1 : cl_rhash_table_limit hi1 = cl_rhash_table_limit (h_hi h))
        by (apply same_shape_limit; exact Sh1).
      apply (Hfound (set_hi (set_lo h (h_lo h)) hi1) k0); hsimpl; try reflexivity;
        try assumption; try lia.
      * constructor; hsimpl; try apply Hc; try assumption; try congruence;
          try (rewrite Hor1; apply Hc).
        intros e1 e2 He1 He2. rewrite Hkb1. apply H1 in He2. destruct He2 as [He2 _].
        apply (core_disj h Hc e1 e2 He1 He2).
      * intros x. unfold stored. hsimpl. rewrite H1. split.
        -- intros [Hx|[Hx Hne]]; [split; [left; exact Hx|apply Habs; exact Hx]|
                                  split; [right; exact Hx|exact Hne]].
        -- intros [[Hx|Hx] Hne]; [left; exact Hx|right; split; assumption].
      * exists v0. split; [right; exact Hv0|exact Hk0].
    + (* not found *)
      destruct P2 as [-> Habs2]. fold kb in Habs2.
      rewrite set_tables_id.
      exists h, None. split; [reflexivity|].
      assert (Hall : forall x, stored h x -> kc kb x <> key_content kb k).
      { intros x [Hx|Hx]; [apply Habs|apply Habs2]; exact Hx. }
      splits; try assumption; try reflexivity.
      * unfold Pot. lia.
      * intros x. split; [intros Hx; split; [exact Hx|apply Hall; exact Hx]|tauto].
Qed.

(** ** Creation, clearing and peeking *)

Lemma WFt_init kb nb : WFt (cl_rhash_table_init kb nb).
Proof.
  apply WFt_empty.
  - cbn. unfold CL_HASH_MIN_ORDER. lia.
  - intros s. reflexivity.
  - reflexivity.
  - cbn. lia.
Qed.

Lemma create_inv kb im : Inv kb im 0 (cl_rhash_create kb im).
Proof.
  unfold Inv. splits; try reflexivity; try lia.
  - constructor; cbn [cl_rhash_create h_lo h_hi is_map n_edit]; try apply WFt_init;
      try reflexivity.
    + intros e1 e2 H1 _. exfalso. revert H1. apply holds_empty. reflexivity.
    + right. cbn. repeat split.
    + cbn. unfold CL_HASH_MIN_ORDER, CL_HASH_MAX_ORDER. lia.
    + lia.
  - constructor; cbn; lia.
  - unfold Pot. cbn. lia.
Qed.

Lemma create_stored kb im x : ~ stored (cl_rhash_create kb im) x.
Proof. intros [H|H]; revert H; apply holds_empty; reflexivity. Qed.

Lemma table_clear_post t :
  0 <= order t <= 31 ->
  WFt (cl_rhash_table_clear t) /\
  (forall s, table (cl_rhash_table_clear t) s = None) /\
  n_entries (cl_rhash_table_clear t) = 0 /\
  order (cl_rhash_table_clear t) = CL_HASH_MIN_ORDER /\
  key_bytes (cl_rhash_table_clear t) = key_bytes t /\
  n_bytes (cl_rhash_table_clear t) = n_bytes t.
Proof.
  intros Ho. pose proof (size_bounds t Ho) as Hb.
  unfold cl_rhash_table_clear. tsimpl.
  assert (E : cl_rhash_table_size (set_n_entries t 0) = cl_rhash_table_size t) by reflexivity.
  rewrite E.
  destruct (Z.eqb_spec (order t) CL_HASH_MIN_ORDER) as [Hm|Hm]; cbn [negb]; tsimpl.
  - splits; try reflexivity; try assumption.
    apply WFt_empty; tsimpl; try lia; try reflexivity.
  - splits; try reflexivity.
    apply WFt_empty; tsimpl; try (unfold CL_HASH_MIN_ORDER; lia); try reflexivity; lia.
Qed.

Lemma clear_inv kb im n h :
  Inv kb im n h ->
  Inv kb im (n + 1) (cl_rhash_clear h) /\ forall x, ~ stored (cl_rhash_clear h) x.
Proof.
  intros [Hc [Hl [Hp [Hn [Hm Hk]]]]].
  destruct (table_clear_post (h_lo h) (wf_order _ (core_lo h Hc)))
    as [W1 [T1 [N1 [O1 [K1 B1]]]]].
  destruct (table_clear_post (h_hi h) (wf_order _ (core_hi h Hc)))
    as [W2 [T2 [N2 [O2 [K2 B2]]]]].
  unfold cl_rhash_clear. hsimpl.
  assert (Hsz : cl_rhash_table_size (cl_rhash_table_clear (h_hi h)) = 64).
  { rewrite size_pow by (rewrite O2; unfold CL_HASH_MIN_ORDER; lia). rewrite O2. reflexivity. }
  assert (Hlim : cl_rhash_table_limit (cl_rhash_table_clear (h_hi h)) = 48).
  { unfold cl_rhash_table_limit. rewrite Hsz. reflexivity. }
  split.
  - unfold Inv. splits; hsimpl; try assumption; try lia.
    + constructor; hsimpl; try assumption.
      * rewrite K1, K2. apply (core_kb h Hc).
      * rewrite B1, B2. apply (core_nb h Hc).
      * rewrite B2. apply (core_map h Hc).
      * intros e1 e2 H1 _. exfalso. revert H1. apply holds_empty. exact T1.
      * right. splits; assumption.
      * rewrite O2. unfold CL_HASH_MIN_ORDER, CL_HASH_MAX_ORDER. lia.
      * apply Z.mod_pos_bound. lia.
    + constructor; hsimpl; rewrite Hlim, N2; lia.
    + unfold Pot. hsimpl. rewrite Hsz, N1, N2. lia.
  - intros x [H|H]; revert H; hsimpl; apply holds_empty; assumption.
Qed.

Lemma peek_inv kb im n h :
  Inv kb im n h ->
  Inv kb im (n + 1) (fst (cl_rhash_peek h)) /\
  forall x, stored (fst (cl_rhash_peek h)) x <-> stored h x.
Proof.
  intros [Hc [Hl [[Hp1 Hp2] [Hn [Hm Hk]]]]].
  destruct (table_peek_post (h_lo h) (core_lo h Hc)) as [W1 [S1 [T1 [N1 _]]]].
  destruct (table_peek_post (h_hi h) (core_hi h Hc)) as [W2 [S2 [T2 [N2 _]]]].
  (* both outcomes leave the tables as they are, but for the cursors *)
  assert (Hgen : forall lo hi,
            WFt lo -> same_shape (h_lo h) lo -> table lo = table (h_lo h) ->
            n_entries lo = n_entries (h_lo h) ->
            WFt hi -> same_shape (h_hi h) hi -> table hi = table (h_hi h) ->
            n_entries hi = n_entries (h_hi h) ->
            Inv kb im (n + 1) (set_hi (set_lo h lo) hi) /\
            forall x, stored (set_hi (set_lo h lo) hi) x <-> stored h x).
  { intros lo hi A1 A2 A3 A4 B1 B2 B3 B4.
    assert (Hst : forall x, stored (set_hi (set_lo h lo) hi) x <-> stored h x).
    { intros x. unfold stored. hsimpl.
      rewrite (holds_size _ _ x A2 A3), (holds_size _ _ x B2 B3). tauto. }
    split; [|exact Hst].
    assert (HA : forall x, holds lo x <-> holds (h_lo h) x)
      by (intros x; apply holds_size; assumption).
    assert (HB : forall x, holds hi x <-> holds (h_hi h) x)
      by (intros x; apply holds_size; assumption).
    destruct A2 as [A21 [A22 A23]]. destruct B2 as [B21 [B22 B23]].
    assert (Hlimeq : cl_rhash_table_limit hi = cl_rhash_table_limit (h_hi h))
      by (apply same_shape_limit; repeat split; assumption).
    assert (Hszeq : cl_rhash_table_size hi = cl_rhash_table_size (h_hi h))
      by (apply same_shape_size; repeat split; assumption).
    unfold Inv. splits; hsimpl; try assumption; try lia; try congruence.
    - constructor; hsimpl; try assumption.
      + rewrite A22, B22. apply (core_kb h Hc).
      + rewrite A23, B23. apply (core_nb h Hc).
      + rewrite B23. apply (core_map h Hc).
      + intros e1 e2 H1 H2. rewrite B22. apply HA in H1. apply HB in H2.
        apply (core_disj h Hc e1 e2 H1 H2).
      + rewrite A21, B21, A4. apply (core_ord h Hc).
      + rewrite B21. apply (core_hi_ord h Hc).
      + apply (core_edit h Hc).
    - constructor; hsimpl; rewrite Hlimeq, A4, B4; apply Hl.
    - unfold Pot. hsimpl. rewrite Hszeq, A4, B4. lia. }
  unfold cl_rhash_peek.
  destruct (cl_rhash_table_peek (h_lo h)) as [lo r1]. cbn [fst snd] in *.
  destruct r1 as [s|].
  - cbn [fst]. rewrite <- (set_tables_id (set_lo h lo)). hsimpl.
    apply Hgen; try assumption; try reflexivity; try apply same_shape_refl.
    apply (core_hi h Hc).
  - hsimpl. destruct (cl_rhash_table_peek (h_hi h)) as [hi r2]. cbn [fst snd] in *.
    apply Hgen; assumption.
Qed.

(** ** One public operation *)

Lemma bytes_eqb_eq a b : bytes_eqb a b = true <-> a = b.
Proof.
  unfold bytes_eqb. destruct (list_eq_dec Byte.byte_eq_dec a b); split; congruence.
Qed.

Lemma Inv_mono kb im n h : Inv kb im n h -> Inv kb im (n + 1) h.
Proof.
  intros [Hc [Hl [[Hp1 Hp2] [Hn [Hm Hk]]]]]. unfold Inv, Pot. splits; try assumption; lia.
Qed.

Lemma Inv_order kb im n h :
  Inv kb im n h -> n < MAX_OPS -> order (h_hi h) < CL_HASH_MAX_ORDER.
Proof.
  intros [Hc [_ [[_ Hp] [Hn _]]]] Hlt. unfold MAX_OPS, CL_HASH_MAX_ORDER in *.
  pose proof (core_hi_ord h Hc) as Ho. unfold CL_HASH_MIN_ORDER, CL_HASH_MAX_ORDER in Ho.
  destruct (Z_lt_le_dec (order (h_hi h)) 31) as [L|L]; [exact L|exfalso].
  rewrite size_pow in Hp by lia.
  assert (2 ^ 31 <= 2 ^ order (h_hi h)) by (apply Z.pow_le_mono_r; lia).
  lia.
Qed.

Lemma agree_insert kb h h' K c m m' :
  kc kb K = c ->
  (forall x, stored h' x <-> x = K \/ (stored h x /\ kc kb x <> c)) ->
  (forall c', m' c' = if bytes_eqb c c' then Some K else m c') ->
  Agree kb h m -> Agree kb h' m'.
Proof.
  intros HK Hst Hm Ha x. rewrite Hst, Hm.
  destruct (bytes_eqb c (kc kb x)) eqn:E.
  - apply bytes_eqb_eq in E. split.
    + intros [->|[_ Hne]]; [reflexivity|congruence].
    + intros H. left. congruence.
  - assert (Hne : c <> kc kb x).
    { intros X. apply bytes_eqb_eq in X. congruence. }
    rewrite <- (Ha x). split.
    + intros [->|[Hx _]]; [congruence|exact Hx].
    + intros Hx. right. split; [exact Hx|congruence].
Qed.

Lemma agree_remove kb h h' c m m' :
  (forall x, stored h' x <-> stored h x /\ kc kb x <> c) ->
  (forall c', m' c' = if bytes_eqb c c' then None else m c') ->
  Agree kb h m -> Agree kb h' m'.
Proof.
  intros Hst Hm Ha x. rewrite Hst, Hm.
  destruct (bytes_eqb c (kc kb x)) eqn:E.
  - apply bytes_eqb_eq in E. split; [intros [_ Hne]; congruence|discriminate].
  - assert (Hne : c <> kc kb x).
    { intros X. apply bytes_eqb_eq in X. congruence. }
    rewrite <- (Ha x). split; [tauto|]. intros Hx. split; [exact Hx|congruence].
Qed.

Lemma is_map_ok kb im n h : Inv kb im n h -> cl_rhash_is_map h = Some im.
Proof.
  intros [Hc [_ [_ [_ [Hm _]]]]]. unfold cl_rhash_is_map.
  rewrite (core_nb h Hc), Z.eqb_refl, Hm. reflexivity.
Qed.

Lemma step_ok kb im n h rops o :
  Inv kb im n h -> n < MAX_OPS -> Agree kb h (recent kb im rops) ->
  exists h', step h o = Some h' /\ Inv kb im (n + 1) h' /\
             Agree kb h' (recent kb im (o :: rops)).
Proof.
  intros HI Hlt Ha. pose proof (Inv_order kb im n h HI Hlt) as Hord.
  pose proof (is_map_ok kb im n h HI) as Him.
  destruct HI as [Hc [Hl [Hp [Hn [Hm Hk]]]]].
  assert (HI : Inv kb im n h) by (unfold Inv; splits; assumption).
  destruct o as [k|k v|k| |]; cbn [step].
  - (* add *)
    unfold cl_rhash_add. rewrite Him. destruct im.
    + exists h. split; [reflexivity|]. split; [apply Inv_mono; exact HI|exact Ha].
    + destruct (hash_insert_post h (k, 0) n Hc Hl Hp Hord)
        as [h' [r [E [C' [L' [P' [St [M' [_ [K' _]]]]]]]]]].
      rewrite E. exists h'. split; [reflexivity|]. rewrite Hk in St, K'.
      split; [unfold Inv; splits; try assumption; try lia; congruence|].
      assert (HK : cl_rhash_table_entry_copy (h_hi h) (k, 0) = (k, 0)).
      { unfold cl_rhash_table_entry_copy. destruct (n_bytes (h_hi h) =? 2 * ptr_bytes);
          reflexivity. }
      rewrite HK in St.
      apply (agree_insert kb h h' (k, 0) (key_content kb k) (recent kb false rops));
        try assumption; reflexivity.
  - (* put *)
    unfold cl_rhash_put. rewrite Him. destruct im.
    + destruct (hash_insert_post h (k, v) n Hc Hl Hp Hord)
        as [h' [r [E [C' [L' [P' [St [M' [_ [K' _]]]]]]]]]].
      rewrite E. exists h'. split; [reflexivity|]. rewrite Hk in St, K'.
      split; [unfold Inv; splits; try assumption; try lia; congruence|].
      assert (HK : cl_rhash_table_entry_copy (h_hi h) (k, v) = (k, v)).
      { unfold cl_rhash_table_entry_copy. rewrite (core_map h Hc), Hm.
        rewrite (Z.mul_comm ptr_bytes 2), Z.eqb_refl. reflexivity. }
      rewrite HK in St.
      apply (agree_insert kb h h' (k, v) (key_content kb k) (recent kb true rops));
        try assumption; reflexivity.
    + exists h. split; [reflexivity|]. split; [apply Inv_mono; exact HI|exact Ha].
  - (* remove *)
    destruct (hash_remove_post h k n Hc Hl Hp) as [h' [r [E [C' [L' [P' [St [M' [K' _]]]]]]]]].
    rewrite E. exists h'. split; [reflexivity|]. rewrite Hk in St, K'.
    split; [unfold Inv; splits; try assumption; try lia; congruence|].
    apply (agree_remove kb h h' (key_content kb k) (recent kb im rops));
      try assumption; reflexivity.
  - (* clear *)
    destruct (clear_inv kb im n h HI) as [I' Hno].
    eexists. split; [reflexivity|]. split; [exact I'|].
    intros x. cbn [recent]. split; [intros Hx; exfalso; apply (Hno x Hx)|discriminate].
  - (* peek *)
    destruct (peek_inv kb im n h HI) as [I' Hst].
    eexists. split; [reflexivity|]. split; [exact I'|].
    intros x. cbn [recent]. rewrite Hst. apply Ha.
Qed.

(** ** Sequences of operations *)

Lemma run_app h ops1 ops2 :
  run h (ops1 ++ ops2) =
  match run h ops1 with
  | Some h' => run h' ops2
  | None => None
  end.
Proof.
  revert h. induction ops1 as [|o ops1 IH]; intros h; cbn [run app]; [reflexivity|].
  destruct (step h o); [apply IH|reflexivity].
Qed.

(** Every sequence of at most [MAX_OPS] operations on a new hash runs
    without a failed assertion, keeps the hash well formed and leaves in it
    the entries of the reference behaviour. *)
Lemma run_ok kb im ops :
  Z.of_nat (length ops) <= MAX_OPS ->
  exists h, run (cl_rhash_create kb im) ops = Some h /\
            Inv kb im (Z.of_nat (length ops)) h /\
            Agree kb h (recent kb im (rev ops)).
Proof.
  induction ops as [|o ops IH] using rev_ind; intros Hlen.
  - exists (cl_rhash_create kb im). split; [reflexivity|].
    split; [apply create_inv|].
    intros x. cbn. split; [intros H; exfalso; apply (create_stored kb im x H)|discriminate].
  - rewrite length_app in Hlen. cbn [length] in Hlen.
    destruct IH as [h [E [HI Ha]]]; [lia|].
    destruct (step_ok kb im _ h (rev ops) o HI) as [h' [E' [HI' Ha']]]; [lia|exact Ha|].
    exists h'. rewrite run_app, E. cbn [run]. rewrite E'.
    split; [reflexivity|]. rewrite length_app, rev_app_distr. cbn [length rev app].
    replace (Z.of_nat (length ops + 1)) with (Z.of_nat (length ops) + 1) by lia.
    split; assumption.
Qed.

(** Within [MAX_OPS] operations the byte offset of a slot does not wrap
    around: distinct slots have distinct offsets. *)
Lemma offset_exact kb im n h :
  Inv kb im n h -> n <= MAX_OPS ->
  forall slot,
    (0 <= slot < cl_rhash_table_size (h_lo h) ->
     cl_rhash_table_offset (h_lo h) slot = slot * n_bytes (h_lo h)) /\
    (0 <= slot < cl_rhash_table_size (h_hi h) ->
     cl_rhash_table_offset (h_hi h) slot = slot * n_bytes (h_hi h)).
Proof.
  intros [Hc [_ [[_ Hp] [Hn _]]]] Hlt slot. unfold MAX_OPS in Hlt.
  pose proof (core_hi_ord h Hc) as Ho. unfold CL_HASH_MIN_ORDER, CL_HASH_MAX_ORDER in Ho.
  pose proof (core_map h Hc) as Mp. pose proof (core_nb h Hc) as Nb.
  assert (Hnb : n_bytes (h_hi h) = 8 \/ n_bytes (h_hi h) = 16)
    by (rewrite Mp; unfold ptr_bytes; destruct (is_map h); [right|left]; reflexivity).
  assert (Hlo : cl_rhash_table_size (h_lo h) <= cl_rhash_table_size (h_hi h)).
  { pose proof (wf_order _ (core_lo h Hc)) as Hol.
    rewrite (size_pow (h_lo h)), (size_pow (h_hi h)) by lia.
    apply Z.pow_le_mono_r; [lia|].
    destruct (core_ord h Hc) as [[O _]|[O1 [O2 _]]]; lia. }
  unfold cl_rhash_table_offset, u32.
  split; intros Hs; apply Z.mod_small; rewrite ?Nb; destruct Hnb as [-> | ->]; lia.
Qed.

(** ** Lookups in a well-formed hash *)

Lemma contains_stored h k :
  Core h ->
  cl_rhash_contains h k = true <->
  exists x, stored h x /\
            kc (key_bytes (h_hi h)) x = key_content (key_bytes (h_hi h)) k.
Proof.
  intros Hc. unfold cl_rhash_contains. rewrite orb_true_iff.
  rewrite (table_contains_present _ (core_lo h Hc)), (table_contains_present _ (core_hi h Hc)).
  unfold present, stored. rewrite (core_kb h Hc). split.
  - intros [[e [He Hk]]|[e [He Hk]]]; exists e; split; auto.
  - intros [x [[Hx|Hx] Hk]]; [left|right]; exists x; split; auto.
Qed.

Lemma contains_not_stored h k :
  Core h ->
  cl_rhash_contains h k = false <->
  forall x, stored h x ->
            kc (key_bytes (h_hi h)) x <> key_content (key_bytes (h_hi h)) k.
Proof.
  intros Hc. pose proof (contains_stored h k Hc) as H.
  destruct (cl_rhash_contains h k); split.
  - discriminate.
  - intros Hall. exfalso. destruct (proj1 H eq_refl) as [x [Hx Hk]]. apply (Hall x Hx Hk).
  - intros _ x Hx Hk. assert (false = true) by (apply H; exists x; split; assumption).
    discriminate.
  - reflexivity.
Qed.

Lemma stored_unique h x y :
  Core h -> stored h x -> stored h y ->
  kc (key_bytes (h_hi h)) x = kc (key_bytes (h_hi h)) y -> x = y.
Proof.
  intros Hc Hx Hy Hk. pose proof (core_kb h Hc) as Kb.
  destruct Hx as [Hx|Hx]; destruct Hy as [Hy|Hy].
  - apply (holds_unique _ (core_lo h Hc) x y Hx Hy). rewrite Kb. exact Hk.
  - exfalso. apply (core_disj h Hc x y Hx Hy Hk).
  - exfalso. apply (core_disj h Hc y x Hy Hx). symmetry. exact Hk.
  - apply (holds_unique _ (core_hi h Hc) x y Hx Hy Hk).
Qed.

Lemma get_stored h k :
  Core h -> is_map h = true ->
  (forall x, stored h x ->
     kc (key_bytes (h_hi h)) x = key_content (key_bytes (h_hi h)) k ->
     cl_rhash_get h k = Some (snd x)) /\
  ((forall x, stored h x ->
      kc (key_bytes (h_hi h)) x <> key_content (key_bytes (h_hi h)) k) ->
   cl_rhash_get h k = Some 0).
Proof.
  intros Hc Hm. pose proof (core_kb h Hc) as Kb.
  unfold cl_rhash_get, cl_rhash_is_map. rewrite (core_nb h Hc), Z.eqb_refl, Hm.
  assert (Hlo : forall s, cl_rhash_table_entry (h_lo h) k = Some s ->
            exists e, slot_value (h_lo h) s = snd e /\ stored h e /\
              kc (key_bytes (h_hi h)) e = key_content (key_bytes (h_hi h)) k).
  { intros s Hs. destruct (table_entry_holds _ (core_lo h Hc) k s Hs) as [e [He [Hh Hk]]].
    exists e. unfold slot_value, cl_rhash_table_ptr. rewrite He.
    split; [reflexivity|]. split; [left; exact Hh|]. rewrite <- Kb. symmetry. exact Hk. }
  assert (Hhi : forall s, cl_rhash_table_entry (h_hi h) k = Some s ->
            exists e, slot_value (h_hi h) s = snd e /\ stored h e /\
              kc (key_bytes (h_hi h)) e = key_content (key_bytes (h_hi h)) k).
  { intros s Hs. destruct (table_entry_holds _ (core_hi h Hc) k s Hs) as [e [He [Hh Hk]]].
    exists e. unfold slot_value, cl_rhash_table_ptr. rewrite He.
    split; [reflexivity|]. split; [right; exact Hh|]. symmetry. exact Hk. }
  split.
  - intros x Hx Hk.
    destruct (cl_rhash_table_entry (h_lo h) k) as [s|] eqn:E1.
    + destruct (Hlo s eq_refl) as [e [Hv [He Hke]]]. rewrite Hv. do 2 f_equal.
      apply (stored_unique h e x Hc He Hx). congruence.
    + destruct (cl_rhash_table_entry (h_hi h) k) as [s|] eqn:E2.
      * destruct (Hhi s eq_refl) as [e [Hv [He Hke]]]. rewrite Hv. do 2 f_equal.
        apply (stored_unique h e x Hc He Hx). congruence.
      * exfalso.
        assert (Hcon : cl_rhash_contains h k = true)
          by (apply (contains_stored h k Hc); exists x; split; assumption).
        unfold cl_rhash_contains, cl_rhash_table_contains in Hcon.
        rewrite E1, E2 in Hcon. discriminate.
  - intros Hall.
    destruct (cl_rhash_table_entry (h_lo h) k) as [s|] eqn:E1.
    + destruct (Hlo s eq_refl) as [e [_ [He Hke]]]. exfalso. apply (Hall e He Hke).
    + destruct (cl_rhash_table_entry (h_hi h) k) as [s|] eqn:E2; [|reflexivity].
      destruct (Hhi s eq_refl) as [e [_ [He Hke]]]. exfalso. apply (Hall e He Hke).
Qed.

Lemma recent_content kb im rops c e :
  recent kb im rops c = Some e -> kc kb e = c.
Proof.
  induction rops as [|o rops IH]; cbn [recent]; [discriminate|].
  destruct o as [k|k v|k| |]; try assumption; try discriminate.
  - destruct im; [exact IH|].
    destruct (bytes_eqb (key_content kb k) c) eqn:E; [|exact IH].
    intros H. inversion H; subst e. apply bytes_eqb_eq in E. exact E.
  - destruct im; [|exact IH].
    destruct (bytes_eqb (key_content kb k) c) eqn:E; [|exact IH].
    intros H. inversion H; subst e. apply bytes_eqb_eq in E. exact E.
  - destruct (bytes_eqb (key_content kb k) c); [discriminate|exact IH].
Qed.

(** * The claims *)

(** C1: for every sequence of operations on a newly created hash (at most
    [MAX_OPS] of them), the sequence runs, and afterwards every key whose
    most recent operation is an insertion ([add] on a set, [put] on a map),
    not followed by its removal or a clear, is contained in the hash and, in
    map mode, [get] returns the value of that most recent [put]; every other
    key is not contained. *)
Theorem C1_round_trip (kb : Z) (im : bool) (ops : list op)
    (Hlen : Z.of_nat (length ops) <= MAX_OPS) :
  exists h, run (cl_rhash_create kb im) ops = Some h /\
    forall k,
      match final_entry kb im ops k with
      | Some e => cl_rhash_contains h k = true /\
                  (im = true -> cl_rhash_get h k = Some (snd e))
      | None => cl_rhash_contains h k = false
      end.
Proof.
  destruct (run_ok kb im ops Hlen) as [h [E [[Hc [_ [_ [_ [Hm Hk]]]]] Ha]]].
  exists h. split; [exact E|]. intros k. unfold final_entry.
  destruct (recent kb im (rev ops) (key_content kb k)) as [e|] eqn:Er.
  - pose proof (recent_content _ _ _ _ _ Er) as Hke.
    assert (Hst : stored h e) by (apply Ha; rewrite Hke; exact Er).
    split.
    + apply (contains_stored h k Hc). exists e. rewrite Hk. split; assumption.
    + intros ->. apply (proj1 (get_stored h k Hc Hm) e Hst). rewrite Hk. exact Hke.
  - apply (contains_not_stored h k Hc). rewrite Hk. intros x Hx Hkx.
    apply Ha in Hx. rewrite Hkx, Er in Hx. discriminate.
Qed.

Lemma C1_round_trip_witness :
  exists h,
    run (cl_rhash_create 0 true)
        [OpPut (sample_key 0) 7; OpPut (sample_key 1) 8; OpPut (sample_key 0) 9] = Some h /\
    forall k,
      match final_entry 0 true
              [OpPut (sample_key 0) 7; OpPut (sample_key 1) 8; OpPut (sample_key 0) 9] k with
      | Some e => cl_rhash_contains h k = true /\
                  (true = true -> cl_rhash_get h k = Some (snd e))
      | None => cl_rhash_contains h k = false
      end.
Proof.
  apply (C1_round_trip 0 true
           [OpPut (sample_key 0) 7; OpPut (sample_key 1) 8; OpPut (sample_key 0) 9]).
  unfold MAX_OPS. simpl. lia.
Defined.



(** C3, as the claim states it, fails on a newly created hash: both tables
    have the minimum order. *)
Lemma C3_counterexample :
  order (h_hi (cl_rhash_create 0 false)) <> order (h_lo (cl_rhash_create 0 false)) + 1.
Proof. cbn. discriminate. Qed.

(** C5: after every sequence of public operations on a newly created hash
    (at most [MAX_OPS] of them), no key is found in both the low and the
    high table. *)
Theorem C5_no_duplicates (kb : Z) (im : bool) (ops : list op)
    (Hlen : Z.of_nat (length ops) <= MAX_OPS) :
  exists h, run (cl_rhash_create kb im) ops = Some h /\
    forall k,
      cl_rhash_table_contains (h_lo h) k && cl_rhash_table_contains (h_hi h) k = false.
Proof.
  destruct (run_ok kb im ops Hlen) as [h [E [[Hc _] _]]].
  exists h. split; [exact E|]. intros k.
  destruct (cl_rhash_table_contains (h_lo h) k) eqn:E1; [|reflexivity].
  destruct (cl_rhash_table_contains (h_hi h) k) eqn:E2; [|reflexivity].
  exfalso.
  apply (table_contains_present _ (core_lo h Hc)) in E1. destruct E1 as [e1 [H1 K1]].
  apply (table_contains_present _ (core_hi h Hc)) in E2. destruct E2 as [e2 [H2 K2]].
  apply (core_disj h Hc e1 e2 H1 H2). rewrite (core_kb h Hc) in K1. congruence.
Qed.

Lemma C5_no_duplicates_witness :
  exists h, run (cl_rhash_create 0 false) (map OpAdd (sample_keys 50)) = Some h /\
    forall k,
      cl_rhash_table_contains (h_lo h) k && cl_rhash_table_contains (h_hi h) k = false.
Proof.
  apply (C5_no_duplicates 0 false (map OpAdd (sample_keys 50))).
  unfold MAX_OPS. simpl. lia.
Defined.

(** C7: in every state reached by public operations on a newly created
    hash (at most [MAX_OPS] of them), removing a key that the hash does not
    contain returns NULL and the hash as it was (tables and edit version);
    removing a key that it contains returns the stored key, equal to the
    argument, and the hash no longer contains the key. *)
Theorem C7_remove (kb : Z) (im : bool) (ops : list op) (k : key)
    (Hlen : Z.of_nat (length ops) <= MAX_OPS) :
  exists h, run (cl_rhash_create kb im) ops = Some h /\
    (cl_rhash_contains h k = false -> cl_rhash_remove h k = Some (h, None)) /\
    (cl_rhash_contains h k = true ->
     exists h' k0,
       cl_rhash_remove h k = Some (h', Some k0) /\
       (exists v0, stored h (k0, v0)) /\
       key_content kb k0 = key_content kb k /\
       cl_rhash_contains h' k = false).
Proof.
  destruct (run_ok kb im ops Hlen) as [h [E [[Hc [Hl [Hp [_ [Hm Hk]]]]] _]]].
  exists h. split; [exact E|].
  destruct (hash_remove_post h k _ Hc Hl Hp) as [h' [r [Er [C' [_ [_ [St [_ [K' Hr]]]]]]]]].
  rewrite Hk in *. split.
  - intros Hno. destruct r as [k0|].
    + exfalso. destruct Hr as [[v0 [Hv0 Hk0]] _].
      apply (proj1 (contains_not_stored h k Hc) Hno (k0, v0) Hv0). rewrite Hk. exact Hk0.
    + destruct Hr as [-> _]. exact Er.
  - intros Hyes. destruct r as [k0|].
    + destruct Hr as [[v0 [Hv0 Hk0]] _]. exists h', k0.
      split; [exact Er|]. split; [exists v0; exact Hv0|]. split; [exact Hk0|].
      apply (contains_not_stored h' k C'). rewrite K'. intros x Hx. apply St in Hx. tauto.
    + exfalso. destruct Hr as [_ Hall].
      apply (contains_stored h k Hc) in Hyes. destruct Hyes as [x [Hx Hkx]].
      rewrite Hk in Hkx. apply (Hall x Hx Hkx).
Qed.

Lemma C7_remove_witness :
  exists h, run (cl_rhash_create 0 false) (map OpAdd (sample_keys 50)) = Some h /\
    (cl_rhash_contains h (sample_key 3) = false ->
     cl_rhash_remove h (sample_key 3) = Some (h, None)) /\
    (cl_rhash_contains h (sample_key 3) = true ->
     exists h' k0,
       cl_rhash_remove h (sample_key 3) = Some (h', Some k0) /\
       (exists v0, stored h (k0, v0)) /\
       key_content 0 k0 = key_content 0 (sample_key 3) /\
       cl_rhash_contains h' (sample_key 3) = false).
Proof.
  apply (C7_remove 0 false (map OpAdd (sample_keys 50)) (sample_key 3)).
  unfold MAX_OPS. simpl. lia.
Defined.

(** C10: calls across modes do nothing.  On a map, [add] returns its key
    argument and the hash as it was; on a set, [put] returns NULL and the hash
    as it was, and [get] returns NULL. *)
Theorem C10_cross_mode (h : cl_rhash) (k : key) (v : value) :
  (cl_rhash_is_map h = Some true -> cl_rhash_add h k = Some (h, Some k)) /\
  (cl_rhash_is_map h = Some false ->
   cl_rhash_put h k v = Some (h, None) /\ cl_rhash_get h k = Some 0).
Proof.
  unfold cl_rhash_add, cl_rhash_put, cl_rhash_get.
  split; intros ->; [reflexivity|split; reflexivity].
Qed.

Lemma C10_cross_mode_witness :
  cl_rhash_add (cl_rhash_create_map 0) (sample_key 0)
    = Some (cl_rhash_create_map 0, Some (sample_key 0)) /\
  cl_rhash_put (cl_rhash_create_set 0) (sample_key 0) 5
    = Some (cl_rhash_create_set 0, None) /\
  cl_rhash_get (cl_rhash_create_set 0) (sample_key 0) = Some 0.
Proof.
  split.
  - apply (proj1 (C10_cross_mode (cl_rhash_create_map 0) (sample_key 0) 5)). reflexivity.
  - apply (proj2 (C10_cross_mode (cl_rhash_create_set 0) (sample_key 0) 5)). reflexivity.
Defined.

Lemma distinctb_NoDup l : distinctb l = true -> NoDup l.
Proof.
  induction l as [|x l IH]; intros H; [constructor|].
  cbn [distinctb] in H. apply andb_true_iff in H. destruct H as [H1 H2].
  constructor; [|apply IH; exact H2].
  intros Hin. apply negb_true_iff in H1.
  assert (existsb (bytes_eqb x) l = true) as X.
  { apply existsb_exists. exists x. split; [exact Hin|apply bytes_eqb_eq; reflexivity]. }
  congruence.
Qed.

(** ** Adding new keys to a set that has not expanded *)

Lemma limit_min_order t :
  order t = CL_HASH_MIN_ORDER -> cl_rhash_table_limit t = 48.
Proof.
  intros H. unfold cl_rhash_table_limit, cl_rhash_table_size. rewrite H. reflexivity.
Qed.

Lemma fresh_add_step kb n h k :
  Inv kb false n h -> n < MAX_OPS ->
  order (h_hi h) = CL_HASH_MIN_ORDER -> order (h_lo h) = CL_HASH_MIN_ORDER ->
  n_entries (h_lo h) = 0 ->
  (forall x, stored h x -> kc kb x <> key_content kb k) ->
  exists h', step h (OpAdd k) = Some h' /\ Inv kb false (n + 1) h' /\
    (forall x, stored h' x <-> x = (k, 0) \/ stored h x) /\
    if n_entries (h_hi h) + 1 <? 48
    then order (h_hi h') = CL_HASH_MIN_ORDER /\ order (h_lo h') = CL_HASH_MIN_ORDER /\
         n_entries (h_lo h') = 0 /\ n_entries (h_hi h') = n_entries (h_hi h) + 1
    else order (h_hi h') = CL_HASH_MIN_ORDER + 1 /\ order (h_lo h') = CL_HASH_MIN_ORDER /\
         n_entries (h_lo h') = n_entries (h_hi h) + 1 /\ n_entries (h_hi h') = 0.
Proof.
  intros HI Hlt Ohi Olo Nlo Hfresh.
  pose proof (Inv_order kb false n h HI Hlt) as Hord.
  pose proof (is_map_ok kb false n h HI) as Him.
  destruct HI as [Hc [Hl [Hp [Hn [Hm Hk]]]]].
  destruct (hash_insert_post h (k, 0) n Hc Hl Hp Hord)
    as [h' [r [E [C' [L' [P' [St [M' [_ [K' _]]]]]]]]]].
  cbn [step]. unfold cl_rhash_add. rewrite Him, E. cbn [option_map fst].
  exists h'. split; [reflexivity|].
  rewrite Hk in St, K'.
  assert (HK : cl_rhash_table_entry_copy (h_hi h) (k, 0) = (k, 0)).
  { unfold cl_rhash_table_entry_copy. destruct (n_bytes (h_hi h) =? 2 * ptr_bytes);
      reflexivity. }
  rewrite HK in St.
  split; [unfold Inv; splits; try assumption; try lia; congruence|].
  split.
  { intros x. rewrite St. split.
    - intros [->|[Hx _]]; [left; reflexivity|right; exact Hx].
    - intros [->|Hx]; [left; reflexivity|right; split; [exact Hx|apply Hfresh; exact Hx]]. }
  (* the path taken through the insertion *)
  destruct (load_room h Hc Hl) as [R1 _].
  destruct (table_insert_post (h_hi h) (k, 0) (core_hi h Hc) R1) as [hi1 [r1 [E1 [Sh1 [W1 P1]]]]].
  destruct r1 as [k0|].
  { exfalso. destruct P1 as [[v0 [Hv0 Hk0]] _]. rewrite Hk in Hk0.
    apply (Hfresh (k0, v0)); [right; exact Hv0|exact Hk0]. }
  destruct P1 as [_ [N1 _]].
  assert (Hor1 : order hi1 = CL_HASH_MIN_ORDER) by (destruct Sh1 as [X _]; congruence).
  unfold cl_rhash_insert in E. rewrite E1 in E. hsimpl.
  unfold cl_rhash_table_remove in E. rewrite Nlo in E. cbn [Z.eqb] in E. hsimpl.
  unfold cl_rhash_check_move_higher, cl_rhash_should_move_higher in E. hsimpl.
  rewrite Nlo in E. cbn [int_of_u32 Z.ltb Z.compare Z.gtb andb] in E.
  unfold int_of_u32 at 1 in E. cbn [Z.ltb Z.compare Z.pow Z.pow_pos Pos.iter Z.mul Pos.mul
    Z.gtb andb] in E.
  unfold cl_rhash_check_expand, cl_rhash_should_expand in E. hsimpl.
  rewrite Nlo, Hor1, (limit_min_order hi1 Hor1), N1 in E.
  cbn [CL_HASH_MIN_ORDER CL_HASH_MAX_ORDER Z.ltb Z.compare Pos.compare Pos.compare_cont
       Z.eqb andb] in E.
  destruct (Z.ltb_spec (n_entries (h_hi h) + 1) 48) as [Hsmall|Hbig].
  - destruct (Z.geb_spec (n_entries (h_hi h) + 1) 48) as [X|_]; [lia|].
    inversion E; subst h'. hsimpl. splits; try assumption.
  - destruct (Z.geb_spec (n_entries (h_hi h) + 1) 48) as [_|X]; [|lia].
    unfold cl_rhash_expand, cl_rhash_table_clone in E. hsimpl.
    rewrite Nlo in E. cbn [Z.eqb] in E.
    inversion E; subst h'. hsimpl. tsimpl. rewrite Hor1. splits; try assumption; reflexivity.
Qed.

Lemma fresh_adds kb ks :
  forall h n,
  Inv kb false n h ->
  order (h_hi h) = CL_HASH_MIN_ORDER -> order (h_lo h) = CL_HASH_MIN_ORDER ->
  n_entries (h_lo h) = 0 -> n_entries (h_hi h) = n ->
  (forall x, stored h x -> ~ In (kc kb x) (map (key_content kb) ks)) ->
  NoDup (map (key_content kb) ks) ->
  n + Z.of_nat (length ks) <= 48 ->
  exists h', run h (map OpAdd ks) = Some h' /\
    if n + Z.of_nat (length ks) <? 48
    then order (h_hi h') = CL_HASH_MIN_ORDER /\ order (h_lo h') = CL_HASH_MIN_ORDER /\
         n_entries (h_lo h') = 0 /\ n_entries (h_hi h') = n + Z.of_nat (length ks)
    else order (h_hi h') = CL_HASH_MIN_ORDER + 1 /\ order (h_lo h') = CL_HASH_MIN_ORDER /\
         n_entries (h_lo h') = 48 /\ n_entries (h_hi h') = 0.
Proof.
  induction ks as [|k ks IH]; intros h n HI Ohi Olo Nlo Nhi Hnew Hnd Hlen.
  - exists h. split; [reflexivity|]. cbn [length] in *.
    destruct HI as [Hc [Hl _]].
    pose proof (load_lo0 h Hl Nlo) as X. rewrite (limit_min_order _ Ohi) in X.
    destruct (Z.ltb_spec (n + Z.of_nat 0) 48); [|lia].
    splits; try assumption. lia.
  - cbn [map length] in *. inversion Hnd as [|c cs Hnotin Hnd']; subst c cs.
    assert (Hn0 : 0 <= n) by (destruct HI as [_ [_ [_ [X _]]]]; exact X).
    destruct (fresh_add_step kb n h k HI) as [h1 [E1 [HI1 [St1 Hcase]]]];
      try assumption; [unfold MAX_OPS; lia| |].
    { intros x Hx Hk. apply (Hnew x Hx). left. symmetry. exact Hk. }
    cbn [run]. rewrite E1. rewrite Nhi in Hcase.
    destruct (Z.ltb_spec (n + 1) 48) as [Hsmall|Hbig].
    + destruct Hcase as [O1 [O2 [N1 N2]]].
      destruct (IH h1 (n + 1) HI1 O1 O2 N1 N2) as [h' [E' Hcase']]; try assumption; [|lia|].
      { intros x Hx Hin. apply St1 in Hx. destruct Hx as [->|Hx].
        - apply Hnotin. exact Hin.
        - apply (Hnew x Hx). right. exact Hin. }
      exists h'. split; [exact E'|].
      replace (n + Z.of_nat (S (length ks))) with (n + 1 + Z.of_nat (length ks)) by lia.
      exact Hcase'.
    + destruct ks as [|k' ks']; [|cbn [length] in Hlen; lia].
      destruct Hcase as [O1 [O2 [N1 N2]]].
      exists h1. split; [reflexivity|]. cbn [length].
      destruct (Z.ltb_spec (n + Z.of_nat 1) 48); [lia|].
      splits; try assumption. lia.
Qed.

(** C4, as the claim states it, fails: after 49 distinct keys are added to
    a new set the high table has expanded to order 7. *)
Lemma C4_counterexample :
  distinctb (map (key_content 0) (sample_keys 49)) = true /\
  exists h, run (cl_rhash_create_set 0) (map OpAdd (sample_keys 49)) = Some h /\
            order (h_hi h) = CL_HASH_MIN_ORDER + 1.
Proof.
  split; [vm_compute; reflexivity|].
  eexists. split; [vm_compute; reflexivity|]. reflexivity.
Qed.

(** C4 (amended): adding up to 47 distinct keys to a newly created set does
    not trigger an expand (the high table keeps the minimum order and holds
    them all); the 48th distinct key does: the table with its 48 entries
    becomes the low table, under a new, empty high table of order 7. *)
Theorem C4_expand_at_48 (kb : Z) (ks : list key)
    (Hnd : NoDup (map (key_content kb) ks))
    (Hlen : Z.of_nat (length ks) <= 48) :
  exists h, run (cl_rhash_create_set kb) (map OpAdd ks) = Some h /\
    if Z.of_nat (length ks) <? 48
    then order (h_hi h) = CL_HASH_MIN_ORDER /\ order (h_lo h) = CL_HASH_MIN_ORDER /\
         n_entries (h_lo h) = 0 /\ n_entries (h_hi h) = Z.of_nat (length ks)
    else order (h_hi h) = CL_HASH_MIN_ORDER + 1 /\ order (h_lo h) = CL_HASH_MIN_ORDER /\
         n_entries (h_lo h) = 48 /\ n_entries (h_hi h) = 0.
Proof.
  apply (fresh_adds kb ks (cl_rhash_create_set kb) 0); try reflexivity; try assumption.
  - apply create_inv.
  - intros x Hx. exfalso. apply (create_stored kb false x Hx).
Qed.

Lemma C4_expand_at_48_witness :
  exists h, run (cl_rhash_create_set 0) (map OpAdd (sample_keys 48)) = Some h /\
    if Z.of_nat (length (sample_keys 48)) <? 48
    then order (h_hi h) = CL_HASH_MIN_ORDER /\ order (h_lo h) = CL_HASH_MIN_ORDER /\
         n_entries (h_lo h) = 0 /\ n_entries (h_hi h) = Z.of_nat (length (sample_keys 48))
    else order (h_hi h) = CL_HASH_MIN_ORDER + 1 /\ order (h_lo h) = CL_HASH_MIN_ORDER /\
         n_entries (h_lo h) = 48 /\ n_entries (h_hi h) = 0.
Proof.
  apply (C4_expand_at_48 0 (sample_keys 48)).
  - apply distinctb_NoDup. vm_compute. reflexivity.
  - vm_compute. discriminate.
Defined.

(** C8, as the claim states it, fails: a shrink gives the low table half
    the size of the new high table, also when the high table gets the
    minimum order.  After 48 keys are added to a new set and 16 of them
    removed, the low table has order 5. *)
Lemma C8_counterexample :
  exists h,
    run (cl_rhash_create_set 0)
        (map OpAdd (sample_keys 48) ++ map OpRemove (sample_keys 16)) = Some h /\
    order (h_lo h) = 5 /\
    ~ (CL_HASH_MIN_ORDER <= order (h_lo h) <= CL_HASH_MAX_ORDER).
Proof.
  eexists. split; [vm_compute; reflexivity|]. split; [reflexivity|].
  cbn. unfold CL_HASH_MIN_ORDER. lia.
Qed.


(** ** Iteration *)

Lemma keys_from_app f n : forall s m,
  keys_from f s (n + m) = keys_from f s n ++ keys_from f (s + Z.of_nat n) m.
Proof.
  induction n as [|n IH]; intros s m.
  - simpl. rewrite Z.add_0_r. reflexivity.
  - cbn [Nat.add keys_from]. rewrite IH.
    replace (s + 1 + Z.of_nat n) with (s + Z.of_nat (S n)) by lia.
    destruct (f s); reflexivity.
Qed.

Lemma keys_from_empty f n : forall s,
  (forall x, s <= x < s + Z.of_nat n -> f x = None) -> keys_from f s n = [].
Proof.
  induction n as [|n IH]; intros s H; [reflexivity|].
  cbn [keys_from]. rewrite (H s) by lia. apply IH. intros x Hx. apply H. lia.
Qed.

Lemma keys_from_In f n : forall s k,
  In k (keys_from f s n) ->
  exists x e, s <= x < s + Z.of_nat n /\ f x = Some e /\ fst e = k.
Proof.
  induction n as [|n IH]; intros s k H; [destruct H|].
  cbn [keys_from] in H. destruct (f s) as [e|] eqn:E.
  - destruct H as [H|H].
    + exists s, e. repeat split; try assumption; lia.
    + destruct (IH _ _ H) as [x [e' [Hx He]]]. exists x, e'. split; [lia|exact He].
  - destruct (IH _ _ H) as [x [e' [Hx He]]]. exists x, e'. split; [lia|exact He].
Qed.

Lemma keys_from_slot f n : forall s x e,
  s <= x < s + Z.of_nat n -> f x = Some e -> In (fst e) (keys_from f s n).
Proof.
  induction n as [|n IH]; intros s x e Hx E; [lia|].
  cbn [keys_from]. destruct (Z.eq_dec x s) as [->|Hne].
  - rewrite E. left. reflexivity.
  - assert (In (fst e) (keys_from f (s + 1) n)) as HI by (apply (IH _ x); [lia|exact E]).
    destruct (f s); [right|]; exact HI.
Qed.

Lemma keys_from_count f n :
  Z.of_nat (length (keys_from f 0 n)) = occupied f n.
Proof.
  induction n as [|n IH]; [reflexivity|].
  replace (S n) with (n + 1)%nat by lia. rewrite keys_from_app, length_app, Nat2Z.inj_add, IH.
  replace (n + 1)%nat with (S n) by lia. cbn [occupied keys_from]. rewrite Z.add_0_l.
  destruct (f (Z.of_nat n)); reflexivity.
Qed.

Lemma keys_from_NoDup kb N f n : forall s,
  ND N (keqc kb) f -> 0 <= s -> s + Z.of_nat n <= N ->
  NoDup (map (key_content kb) (keys_from f s n)).
Proof.
  induction n as [|n IH]; intros s HND Hs Hn; [constructor|].
  cbn [keys_from]. destruct (f s) as [e|] eqn:E; [|apply IH; [exact HND|lia|lia]].
  cbn [map]. constructor; [|apply IH; [exact HND|lia|lia]].
  intros HI. apply in_map_iff in HI. destruct HI as [k [Hk HI]].
  destruct (keys_from_In _ _ _ _ HI) as [x [e' [Hx [E' Hf]]]].
  assert (x = s) as Hxs; [|lia].
  apply (HND x s e' e); try lia; try assumption.
  unfold keqc, kc. rewrite Hf. exact Hk.
Qed.

Lemma keys_from_step f sz nxt :
  0 <= nxt < sz ->
  keys_from f nxt (Z.to_nat (sz - nxt)) =
    match f nxt with
    | Some e => fst e :: keys_from f (nxt + 1) (Z.to_nat (sz - (nxt + 1)))
    | None => keys_from f (nxt + 1) (Z.to_nat (sz - (nxt + 1)))
    end.
Proof.
  intros H. replace (Z.to_nat (sz - nxt)) with (S (Z.to_nat (sz - (nxt + 1)))) by lia.
  reflexivity.
Qed.

Lemma keys_from_done f sz nxt : sz <= nxt -> keys_from f nxt (Z.to_nat (sz - nxt)) = [].
Proof. intros H. replace (Z.to_nat (sz - nxt)) with O by lia. reflexivity. Qed.

(** The keys of a table are those from its first occupied slot on. *)
Lemma slot_keys_peek t :
  WFt t ->
  slot_keys t =
    keys_from (table t) (n_peek t) (Z.to_nat (cl_rhash_table_size t - n_peek t)).
Proof.
  intros Hwf. pose proof (size_bounds t (wf_order t Hwf)) as Hs.
  pose proof (wf_peek_range t Hwf) as Hp. unfold slot_keys.
  destruct (Z.le_gt_cases (cl_rhash_table_size t) (n_peek t)) as [Hge|Hlt].
  - rewrite keys_from_done by exact Hge. apply keys_from_empty.
    intros x Hx. apply (wf_peek t Hwf); lia.
  - replace (Z.to_nat (cl_rhash_table_size t))
      with (Z.to_nat (n_peek t) + Z.to_nat (cl_rhash_table_size t - n_peek t))%nat by lia.
    rewrite keys_from_app, keys_from_empty.
    + rewrite Z2Nat.id by lia. reflexivity.
    + intros x Hx. apply (wf_peek t Hwf); lia.
Qed.

Lemma slot_keys_count t :
  WFt t -> Z.of_nat (length (slot_keys t)) = n_entries t.
Proof. intros Hwf. unfold slot_keys. rewrite keys_from_count. symmetry. apply (wf_count t Hwf). Qed.

Lemma slot_keys_holds t k :
  In k (slot_keys t) <-> exists e, holds t e /\ fst e = k.
Proof.
  unfold slot_keys, holds, has. split.
  - intros H. destruct (keys_from_In _ _ _ _ H) as [x [e [Hx [E Hf]]]].
    exists e. split; [exists x; split; [lia|exact E]|exact Hf].
  - intros [e [[x [Hx E]] Hf]]. subst k. apply (keys_from_slot _ _ _ x); [lia|exact E].
Qed.

Lemma slot_keys_NoDup t :
  WFt t -> NoDup (map (key_content (key_bytes t)) (slot_keys t)).
Proof.
  intros Hwf. pose proof (size_bounds t (wf_order t Hwf)) as Hs.
  apply (keys_from_NoDup _ (cl_rhash_table_size t)); [apply (wf_nd t Hwf)|lia|lia].
Qed.

Lemma table_done_spec h it t :
  cl_rhash_iterator_table h it = Some t ->
  cl_rhash_iterator_table_done h it = (cl_rhash_table_size t <=? n_slot it).
Proof.
  intros E. unfold cl_rhash_iterator_table_done. rewrite E. apply Z.geb_leb.
Qed.

Lemma next_slot_lo_in h slot ed :
  u32 (slot + 1) < cl_rhash_table_size (h_lo h) ->
  cl_rhash_iterator_next_slot h (mkIter CL_RHASH_TABLE_LO slot ed) =
  mkIter CL_RHASH_TABLE_LO (u32 (slot + 1)) ed.
Proof.
  intros H. unfold cl_rhash_iterator_next_slot. cbn [n_table n_slot it_edit next_table_loop].
  rewrite (table_done_spec h _ (h_lo h)) by reflexivity. cbn [n_slot].
  destruct (Z.leb_spec (cl_rhash_table_size (h_lo h)) (u32 (slot + 1))); [lia|reflexivity].
Qed.

Lemma next_slot_hi_in h slot ed :
  u32 (slot + 1) < cl_rhash_table_size (h_hi h) ->
  cl_rhash_iterator_next_slot h (mkIter CL_RHASH_TABLE_HI slot ed) =
  mkIter CL_RHASH_TABLE_HI (u32 (slot + 1)) ed.
Proof.
  intros H. unfold cl_rhash_iterator_next_slot. cbn [n_table n_slot it_edit next_table_loop].
  rewrite (table_done_spec h _ (h_hi h)) by reflexivity. cbn [n_slot].
  destruct (Z.leb_spec (cl_rhash_table_size (h_hi h)) (u32 (slot + 1))); [lia|reflexivity].
Qed.

Lemma next_slot_hi_none h slot ed :
  cl_rhash_table_size (h_hi h) <= u32 (slot + 1) ->
  cl_rhash_iterator_next_slot h (mkIter CL_RHASH_TABLE_HI slot ed) =
  mkIter CL_RHASH_TABLE_NONE 0 ed.
Proof.
  intros H. unfold cl_rhash_iterator_next_slot. cbn [n_table n_slot it_edit next_table_loop].
  rewrite (table_done_spec h _ (h_hi h)) by reflexivity. cbn [n_slot].
  destruct (Z.leb_spec (cl_rhash_table_size (h_hi h)) (u32 (slot + 1))); [|lia].
  reflexivity.
Qed.

Lemma next_slot_lo_hi h slot ed :
  cl_rhash_table_size (h_lo h) <= u32 (slot + 1) ->
  n_peek (h_hi h) < cl_rhash_table_size (h_hi h) ->
  cl_rhash_iterator_next_slot h (mkIter CL_RHASH_TABLE_LO slot ed) =
  mkIter CL_RHASH_TABLE_HI (n_peek (h_hi h)) ed.
Proof.
  intros H1 H2. unfold cl_rhash_iterator_next_slot.
  cbn [n_table n_slot it_edit next_table_loop].
  rewrite (table_done_spec h _ (h_lo h)) by reflexivity. cbn [n_slot].
  destruct (Z.leb_spec (cl_rhash_table_size (h_lo h)) (u32 (slot + 1))); [|lia].
  change (cl_rhash_iterator_next_table h (mkIter CL_RHASH_TABLE_LO (u32 (slot + 1)) ed))
    with (mkIter CL_RHASH_TABLE_HI (n_peek (h_hi h)) ed).
  rewrite (table_done_spec h _ (h_hi h)) by reflexivity. cbn [n_slot].
  destruct (Z.leb_spec (cl_rhash_table_size (h_hi h)) (n_peek (h_hi h))); [lia|reflexivity].
Qed.

Lemma next_slot_lo_none h slot ed :
  cl_rhash_table_size (h_lo h) <= u32 (slot + 1) ->
  cl_rhash_table_size (h_hi h) <= n_peek (h_hi h) ->
  cl_rhash_iterator_next_slot h (mkIter CL_RHASH_TABLE_LO slot ed) =
  mkIter CL_RHASH_TABLE_NONE 0 ed.
Proof.
  intros H1 H2. unfold cl_rhash_iterator_next_slot.
  cbn [n_table n_slot it_edit next_table_loop].
  rewrite (table_done_spec h _ (h_lo h)) by reflexivity. cbn [n_slot].
  destruct (Z.leb_spec (cl_rhash_table_size (h_lo h)) (u32 (slot + 1))); [|lia].
  change (cl_rhash_iterator_next_table h (mkIter CL_RHASH_TABLE_LO (u32 (slot + 1)) ed))
    with (mkIter CL_RHASH_TABLE_HI (n_peek (h_hi h)) ed).
  rewrite (table_done_spec h _ (h_hi h)) by reflexivity. cbn [n_slot].
  destruct (Z.leb_spec (cl_rhash_table_size (h_hi h)) (n_peek (h_hi h))); [|lia].
  reflexivity.
Qed.

Lemma u32_succ_small z : 0 <= z < 2 ^ 31 -> u32 (z + 1) = z + 1.
Proof. intros H. unfold u32. apply Z.mod_small. lia. Qed.

Lemma u32_range z : 0 <= u32 z < 2 ^ 32.
Proof. unfold u32. apply Z.mod_pos_bound. lia. Qed.

Lemma remaining_lo h slot ed :
  remaining h (mkIter CL_RHASH_TABLE_LO slot ed) =
  keys_from (table (h_lo h)) (u32 (slot + 1))
    (Z.to_nat (cl_rhash_table_size (h_lo h) - u32 (slot + 1))) ++
  keys_from (table (h_hi h)) (n_peek (h_hi h))
    (Z.to_nat (cl_rhash_table_size (h_hi h) - n_peek (h_hi h))).
Proof. reflexivity. Qed.

Lemma remaining_hi h slot ed :
  remaining h (mkIter CL_RHASH_TABLE_HI slot ed) =
  keys_from (table (h_hi h)) (u32 (slot + 1))
    (Z.to_nat (cl_rhash_table_size (h_hi h) - u32 (slot + 1))).
Proof. reflexivity. Qed.

(** One call of [cl_rhash_iterator_next] (its loop): NULL when no key
    remains, else the first remaining key, the others remaining. *)
Lemma iterator_next_loop_spec h :
  1 <= cl_rhash_table_size (h_lo h) <= 2 ^ 31 ->
  1 <= cl_rhash_table_size (h_hi h) <= 2 ^ 31 ->
  0 <= n_peek (h_hi h) <= 2 ^ 31 ->
  forall fuel it,
    iter_measure h it <= Z.of_nat fuel ->
    (remaining h it = [] -> snd (iterator_next_loop fuel h it) = None) /\
    (forall k ks, remaining h it = k :: ks ->
       exists it', iterator_next_loop fuel h it = (it', Some k) /\
                   remaining h it' = ks /\ it_edit it' = it_edit it).
Proof.
  intros Slo Shi Phi. induction fuel as [|fuel IH]; intros [tab slot ed] Hm.
  - exfalso. unfold iter_measure in Hm. cbn [n_table n_slot] in Hm.
    destruct tab; simpl in Hm; lia.
  - pose proof (u32_range (slot + 1)) as Hn.
    unfold iter_measure in Hm. cbn [n_table n_slot] in Hm.
    cbn [it_edit iterator_next_loop].
    destruct tab.
    + (* low table *)
      change (cl_rhash_iterator_done (mkIter CL_RHASH_TABLE_LO slot ed)) with false.
      cbv iota. rewrite remaining_lo.
      destruct (Z.lt_ge_cases (u32 (slot + 1)) (cl_rhash_table_size (h_lo h))) as [Hin|Hout].
      * rewrite next_slot_lo_in by exact Hin.
        unfold cl_rhash_iterator_entry, cl_rhash_table_ptr.
        cbn [cl_rhash_iterator_table n_table n_slot].
        rewrite keys_from_step by lia.
        destruct (table (h_lo h) (u32 (slot + 1))) as [e|] eqn:E.
        -- split; [discriminate|]. intros k ks Hk. injection Hk as <- <-.
           eexists. split; [reflexivity|]. split; [|reflexivity].
           rewrite remaining_lo.
           rewrite (u32_succ_small (u32 (slot + 1))) by lia. reflexivity.
        -- specialize (IH (mkIter CL_RHASH_TABLE_LO (u32 (slot + 1)) ed)).
           rewrite remaining_lo in IH. unfold iter_measure in IH.
           cbn [n_table n_slot it_edit] in IH.
           rewrite (u32_succ_small (u32 (slot + 1))) in IH by lia.
           apply IH. lia.
      * rewrite (keys_from_done (table (h_lo h))) by exact Hout. cbn [app].
        destruct (Z.lt_ge_cases (n_peek (h_hi h)) (cl_rhash_table_size (h_hi h))) as [Pin|Pout].
        -- rewrite next_slot_lo_hi by assumption.
           unfold cl_rhash_iterator_entry, cl_rhash_table_ptr.
           cbn [cl_rhash_iterator_table n_table n_slot].
           rewrite keys_from_step by lia.
           destruct (table (h_hi h) (n_peek (h_hi h))) as [e|] eqn:E.
           ++ split; [discriminate|]. intros k ks Hk. injection Hk as <- <-.
              eexists. split; [reflexivity|]. split; [|reflexivity].
              rewrite remaining_hi.
              rewrite (u32_succ_small (n_peek (h_hi h))) by lia. reflexivity.
           ++ specialize (IH (mkIter CL_RHASH_TABLE_HI (n_peek (h_hi h)) ed)).
              rewrite remaining_hi in IH. unfold iter_measure in IH.
              cbn [n_table n_slot it_edit] in IH.
              rewrite (u32_succ_small (n_peek (h_hi h))) in IH by lia.
              apply IH. lia.
        -- rewrite next_slot_lo_none by assumption.
           rewrite keys_from_done by exact Pout.
           unfold cl_rhash_iterator_entry. cbn [cl_rhash_iterator_table n_table].
           split; [|discriminate]. intros _. destruct fuel; reflexivity.
    + (* high table *)
      change (cl_rhash_iterator_done (mkIter CL_RHASH_TABLE_HI slot ed)) with false.
      cbv iota. rewrite remaining_hi.
      destruct (Z.lt_ge_cases (u32 (slot + 1)) (cl_rhash_table_size (h_hi h))) as [Hin|Hout].
      * rewrite next_slot_hi_in by exact Hin.
        unfold cl_rhash_iterator_entry, cl_rhash_table_ptr.
        cbn [cl_rhash_iterator_table n_table n_slot].
        rewrite keys_from_step by lia.
        destruct (table (h_hi h) (u32 (slot + 1))) as [e|] eqn:E.
        -- split; [discriminate|]. intros k ks Hk. injection Hk as <- <-.
           eexists. split; [reflexivity|]. split; [|reflexivity].
           rewrite remaining_hi.
           rewrite (u32_succ_small (u32 (slot + 1))) by lia. reflexivity.
        -- specialize (IH (mkIter CL_RHASH_TABLE_HI (u32 (slot + 1)) ed)).
           rewrite remaining_hi in IH. unfold iter_measure in IH.
           cbn [n_table n_slot it_edit] in IH.
           rewrite (u32_succ_small (u32 (slot + 1))) in IH by lia.
           apply IH. lia.
      * rewrite next_slot_hi_none by assumption.
        rewrite keys_from_done by exact Hout.
        unfold cl_rhash_iterator_entry. cbn [cl_rhash_iterator_table n_table].
        split; [|discriminate]. intros _. destruct fuel; reflexivity.
    + split; [reflexivity|discriminate].
Qed.

Lemma iter_measure_bound h it :
  1 <= cl_rhash_table_size (h_lo h) -> 1 <= cl_rhash_table_size (h_hi h) ->
  0 <= n_peek (h_hi h) ->
  iter_measure h it <=
  Z.of_nat (Z.to_nat (cl_rhash_table_size (h_lo h) + cl_rhash_table_size (h_hi h) + 2)).
Proof.
  intros Hl Hh Hp. pose proof (u32_range (n_slot it + 1)).
  unfold iter_measure. destruct (n_table it); lia.
Qed.

(** Calling [cl_rhash_iterator_next] until it returns NULL yields the
    remaining keys, with one call more than there are keys. *)
Lemma iterate_spec h :
  1 <= cl_rhash_table_size (h_lo h) <= 2 ^ 31 ->
  1 <= cl_rhash_table_size (h_hi h) <= 2 ^ 31 ->
  0 <= n_peek (h_hi h) <= 2 ^ 31 ->
  forall ks fuel it,
    remaining h it = ks -> it_edit it = n_edit h -> (length ks < fuel)%nat ->
    iterate fuel h it = Some ks.
Proof.
  intros Slo Shi Phi. induction ks as [|k ks IH]; intros fuel it Hr He Hf.
  - destruct fuel as [|fuel]; [inversion Hf|]. cbn [iterate].
    unfold cl_rhash_iterator_next, cl_rhash_iterator_check.
    rewrite He, Z.eqb_refl.
    destruct (iterator_next_loop_spec h Slo Shi Phi _ it
                (iter_measure_bound h it ltac:(lia) ltac:(lia) ltac:(lia))) as [H0 _].
    specialize (H0 Hr).
    destruct (iterator_next_loop _ h it) as [it' r]. simpl in H0. subst r. reflexivity.
  - destruct fuel as [|fuel]; [inversion Hf|]. cbn [iterate].
    unfold cl_rhash_iterator_next, cl_rhash_iterator_check.
    rewrite He, Z.eqb_refl.
    destruct (iterator_next_loop_spec h Slo Shi Phi _ it
                (iter_measure_bound h it ltac:(lia) ltac:(lia) ltac:(lia))) as [_ H1].
    destruct (H1 k ks Hr) as [it' [E [Hr' He']]]. rewrite E.
    rewrite (IH fuel it' Hr'); [reflexivity|congruence|simpl in Hf; lia].
Qed.

(** A full iteration of a well-formed hash enumerates the slots of the low
    table, then those of the high table. *)
Lemma iterate_all h :
  Core h ->
  n_entries (h_lo h) + n_entries (h_hi h) < 2 ^ 32 ->
  cl_rhash_iterate h = Some (slot_keys (h_lo h) ++ slot_keys (h_hi h)) /\
  Z.of_nat (length (slot_keys (h_lo h) ++ slot_keys (h_hi h))) = cl_rhash_count h /\
  NoDup (map (key_content (key_bytes (h_hi h)))
             (slot_keys (h_lo h) ++ slot_keys (h_hi h))).
Proof.
  intros Hc Hn. pose proof (core_lo h Hc) as Wl. pose proof (core_hi h Hc) as Wh.
  pose proof (size_bounds _ (wf_order _ Wl)) as Sl.
  pose proof (size_bounds _ (wf_order _ Wh)) as Sh.
  pose proof (wf_peek_range _ Wh) as Ph. pose proof (wf_peek_range _ Wl) as Pl.
  assert (Z.of_nat (length (slot_keys (h_lo h) ++ slot_keys (h_hi h))) = cl_rhash_count h)
    as Hlen.
  { rewrite length_app, Nat2Z.inj_add, !slot_keys_count by assumption.
    unfold cl_rhash_count, u32. symmetry. apply Z.mod_small.
    pose proof (occupied_range (table (h_lo h)) (Z.to_nat (cl_rhash_table_size (h_lo h)))).
    pose proof (occupied_range (table (h_hi h)) (Z.to_nat (cl_rhash_table_size (h_hi h)))).
    rewrite (wf_count _ Wl), (wf_count _ Wh) in *. lia. }
  split; [|split; [exact Hlen|]].
  - unfold cl_rhash_iterate. apply (iterate_spec h Sl Sh Ph).
    + unfold cl_rhash_iterator_create. rewrite remaining_lo.
      rewrite (slot_keys_peek _ Wl), (slot_keys_peek _ Wh).
      replace (u32 (u32 (n_peek (h_lo h) - 1) + 1)) with (n_peek (h_lo h)); [reflexivity|].
      unfold u32. rewrite Zplus_mod_idemp_l.
      replace (n_peek (h_lo h) - 1 + 1) with (n_peek (h_lo h)) by lia.
      symmetry. apply Z.mod_small. lia.
    + reflexivity.
    + rewrite <- Hlen. lia.
  - rewrite map_app. apply NoDup_app.
    + rewrite <- (core_kb h Hc). apply slot_keys_NoDup. exact Wl.
    + apply slot_keys_NoDup. exact Wh.
    + intros c H1 H2. apply in_map_iff in H1. apply in_map_iff in H2.
      destruct H1 as [k1 [C1 I1]]. destruct H2 as [k2 [C2 I2]].
      apply slot_keys_holds in I1. apply slot_keys_holds in I2.
      destruct I1 as [e1 [L1 F1]]. destruct I2 as [e2 [L2 F2]].
      apply (core_disj h Hc e1 e2 L1 L2). unfold kc. rewrite F1, F2. congruence.
Qed.

(** C6: after every sequence of public operations on a newly created hash
    (at most [MAX_OPS] of them), a new iterator advanced until it is
    exhausted returns, without a failed assertion, exactly
    [cl_rhash_count] keys, pairwise different in content, and they are the
    keys found by enumerating the occupied slots of the low table and of
    the high table directly. *)
Theorem C6_iteration_complete (kb : Z) (im : bool) (ops : list op)
    (Hlen : Z.of_nat (length ops) <= MAX_OPS) :
  exists h ks,
    run (cl_rhash_create kb im) ops = Some h /\
    cl_rhash_iterate h = Some ks /\
    Z.of_nat (length ks) = cl_rhash_count h /\
    NoDup (map (key_content kb) ks) /\
    ks = slot_keys (h_lo h) ++ slot_keys (h_hi h) /\
    (forall k, In k ks <-> exists v, stored h (k, v)).
Proof.
  destruct (run_ok kb im ops Hlen) as [h [E [[Hc [_ [[Hp _] [_ [_ Hk]]]]] _]]].
  assert (n_entries (h_lo h) + n_entries (h_hi h) < 2 ^ 32) as Hn
    by (unfold MAX_OPS in Hlen; lia).
  destruct (iterate_all h Hc Hn) as [Hi [Hl Hd]]. rewrite Hk in Hd.
  exists h, (slot_keys (h_lo h) ++ slot_keys (h_hi h)).
  repeat (split; [assumption || reflexivity|]).
  intros k. rewrite in_app_iff, !slot_keys_holds. unfold stored. split.
  - intros [[[k0 v] [H F]]|[[k0 v] [H F]]]; simpl in F; subst k0; exists v; tauto.
  - intros [v [H|H]]; [left|right]; exists (k, v); split; trivial.
Qed.

Lemma C6_iteration_complete_witness :
  exists h ks,
    run (cl_rhash_create 0 false) (map OpAdd (sample_keys 50)) = Some h /\
    cl_rhash_iterate h = Some ks /\
    Z.of_nat (length ks) = cl_rhash_count h /\
    NoDup (map (key_content 0) ks) /\
    ks = slot_keys (h_lo h) ++ slot_keys (h_hi h) /\
    (forall k, In k ks <-> exists v, stored h (k, v)).
Proof.
  apply (C6_iteration_complete 0 false (map OpAdd (sample_keys 50))).
  unfold MAX_OPS. simpl. lia.
Defined.

(** * Further properties of the probe tables *)

(** X1: masking a hash code plus a probe length with [size - 1] is the
    remainder modulo the table size; the slot is always inside the table, so
    the assertion [slot < size] of [cl_rhash_table_ptr] holds at every
    probe. *)
Theorem X1_slot_in_table (t : cl_rhash_table) (hcode pr : Z)
    (Ho : 0 <= order t <= 31) :
  cl_rhash_table_slot t hcode pr = (hcode + pr) mod cl_rhash_table_size t /\
  0 <= cl_rhash_table_slot t hcode pr < cl_rhash_table_size t.
Proof.
  pose proof (size_bounds t Ho) as Hs. rewrite slot_sl by exact Ho.
  split; [reflexivity|]. apply sl_range. lia.
Qed.

Lemma X1_slot_in_table_witness :
  cl_rhash_table_slot (cl_rhash_table_init 0 8) 4294967295 3 =
    (4294967295 + 3) mod cl_rhash_table_size (cl_rhash_table_init 0 8) /\
  0 <= cl_rhash_table_slot (cl_rhash_table_init 0 8) 4294967295 3
    < cl_rhash_table_size (cl_rhash_table_init 0 8).
Proof.
  apply (X1_slot_in_table (cl_rhash_table_init 0 8) 4294967295 3).
  vm_compute. split; discriminate.
Defined.

(** X2: the probe cost of a slot, counted from the optimal slot, wraps
    around the end of the table: it is below the table size, and probing
    that many slots from the optimal slot leads back to the slot. *)
Theorem X2_cost_slot_round_trip (t : cl_rhash_table) (slot o_slot : Z)
    (Ho : 0 <= order t <= 31)
    (Hs : 0 <= slot < cl_rhash_table_size t)
    (Hos : 0 <= o_slot < cl_rhash_table_size t) :
  0 <= cl_rhash_table_cost_slot t slot o_slot < cl_rhash_table_size t /\
  cl_rhash_table_slot t o_slot (cl_rhash_table_cost_slot t slot o_slot) = slot /\
  (cl_rhash_table_cost_slot t slot o_slot = 0 <-> slot = o_slot).
Proof.
  rewrite cost_slot_dist by assumption. rewrite slot_sl by exact Ho.
  assert (0 < cl_rhash_table_size t) as HN by lia.
  split; [apply dist_range; exact HN|]. split.
  - unfold dist. exact (sl_index (cl_rhash_table_size t) o_slot slot Hs).
  - unfold dist. split.
    + intros E. pose proof (sl_index (cl_rhash_table_size t) o_slot slot Hs) as R.
      rewrite E in R. unfold sl in R. rewrite Z.add_0_r, Z.mod_small in R by lia. lia.
    + intros ->. rewrite Z.sub_diag. apply Z.mod_0_l. lia.
Qed.

Lemma X2_cost_slot_round_trip_witness :
  0 <= cl_rhash_table_cost_slot (cl_rhash_table_init 0 8) 2 61
    < cl_rhash_table_size (cl_rhash_table_init 0 8) /\
  cl_rhash_table_slot (cl_rhash_table_init 0 8) 61
    (cl_rhash_table_cost_slot (cl_rhash_table_init 0 8) 2 61) = 2 /\
  (cl_rhash_table_cost_slot (cl_rhash_table_init 0 8) 2 61 = 0 <-> 2 = 61).
Proof.
  apply (X2_cost_slot_round_trip (cl_rhash_table_init 0 8) 2 61);
    vm_compute; split; (discriminate || reflexivity).
Defined.

(** X3: [cl_rhash_table_key_equals] compares the key bytes and not the
    pointers: two keys are equal exactly when their contents (the bytes up
    to the terminator when the key width is 0, the first [key_bytes] bytes
    otherwise) are the same, so the answer does not change when either key
    is read from another address.  It is therefore an equivalence on keys,
    and keys that are equal have the same hash code. *)
Theorem X3_key_equals_equivalence (t : cl_rhash_table) (k1 k2 k3 : key) :
  (cl_rhash_table_key_equals t k1 k2 = true <->
   (if key_bytes t =? 0 then cstring (kbytes k1)
    else block (Z.to_nat (key_bytes t)) (kbytes k1)) =
   (if key_bytes t =? 0 then cstring (kbytes k2)
    else block (Z.to_nat (key_bytes t)) (kbytes k2))) /\
  (forall a1 a2 : Z,
     cl_rhash_table_key_equals t (mkKey a1 (kbytes k1)) (mkKey a2 (kbytes k2)) =
     cl_rhash_table_key_equals t k1 k2) /\
  cl_rhash_table_key_equals t k1 k1 = true /\
  (cl_rhash_table_key_equals t k1 k2 = true ->
   cl_rhash_table_key_equals t k2 k1 = true) /\
  (cl_rhash_table_key_equals t k1 k2 = true ->
   cl_rhash_table_key_equals t k2 k3 = true ->
   cl_rhash_table_key_equals t k1 k3 = true) /\
  (cl_rhash_table_key_equals t k1 k2 = true ->
   cl_rhash_table_hash t k1 = cl_rhash_table_hash t k2).
Proof.
  split; [|split].
  - rewrite key_equals_content. unfold key_content. tauto.
  - intros a1 a2. apply Bool.eq_true_iff_eq. rewrite !key_equals_content.
    unfold key_content. simpl. tauto.
  - rewrite !key_equals_content, !table_hash_content.
    repeat split; intros; congruence.
Qed.

Lemma X3_key_equals_equivalence_witness :
  cl_rhash_table_key_equals (cl_rhash_table_init 0 8)
    (mkKey 1 [x61; x62; x00; x63]) (mkKey 2 [x61; x62; x00; x64]) = true /\
  cl_rhash_table_hash (cl_rhash_table_init 0 8) (mkKey 1 [x61; x62; x00; x63]) =
  cl_rhash_table_hash (cl_rhash_table_init 0 8) (mkKey 2 [x61; x62; x00; x64]).
Proof.
  split; [reflexivity|].
  apply (X3_key_equals_equivalence (cl_rhash_table_init 0 8)
           (mkKey 1 [x61; x62; x00; x63]) (mkKey 2 [x61; x62; x00; x64])
           (mkKey 2 [x61; x62; x00; x64])).
  reflexivity.
Defined.

(** A key is present when a linear scan of the slots finds an equal key. *)
Lemma present_scan t k :
  present t k <->
  exists s e, 0 <= s < cl_rhash_table_size t /\ cl_rhash_table_ptr t s = Some e /\
              cl_rhash_table_key_equals t k (fst e) = true.
Proof.
  unfold present, holds, has, cl_rhash_table_ptr, kc. split.
  - intros [e [[s [Hs E]] Hk]]. exists s, e. repeat split; try assumption; try lia.
    apply key_equals_content. exact Hk.
  - intros [s [e [Hs [E Hk]]]]. exists e. split; [exists s; split; assumption|].
    apply key_equals_content. exact Hk.
Qed.

Lemma table_entry_slot t k s :
  WFt t -> cl_rhash_table_entry t k = Some s ->
  0 <= s < cl_rhash_table_size t /\
  exists e, cl_rhash_table_ptr t s = Some e /\
            cl_rhash_table_key_equals t k (fst e) = true.
Proof.
  intros Hwf E. unfold cl_rhash_table_entry in E.
  apply (entry_loop_sound t Hwf) in E. destruct E as [Hs [e [He Hk]]].
  split; [exact Hs|]. exists e. split; [exact He|].
  apply key_equals_content. exact Hk.
Qed.

(** X4: on a well-formed table the lookup, which stops at the first empty
    slot and at the first entry that is closer to its optimal slot than the
    probe, finds a key exactly when some slot of the table holds an equal
    key, and the slot it returns is inside the table and holds such a key. *)
Theorem X4_table_lookup (t : cl_rhash_table) (k : key) (Hwf : WFt t) :
  (cl_rhash_table_contains t k = true <->
   exists s e, 0 <= s < cl_rhash_table_size t /\ cl_rhash_table_ptr t s = Some e /\
               cl_rhash_table_key_equals t k (fst e) = true) /\
  (forall s, cl_rhash_table_entry t k = Some s ->
     0 <= s < cl_rhash_table_size t /\
     exists e, cl_rhash_table_ptr t s = Some e /\
               cl_rhash_table_key_equals t k (fst e) = true).
Proof.
  split.
  - rewrite (table_contains_present t Hwf). apply present_scan.
  - intros s. apply table_entry_slot. exact Hwf.
Qed.

Lemma bool_iff (a b : bool) : (a = true <-> b = true) -> a = b.
Proof. destruct a, b; intros [H1 H2]; try reflexivity; [symmetry; auto | auto]. Qed.

Lemma key_equals_false t k1 k2 :
  cl_rhash_table_key_equals t k1 k2 = false <->
  key_content (key_bytes t) k1 <> key_content (key_bytes t) k2.
Proof.
  rewrite <- key_equals_content. destruct (cl_rhash_table_key_equals t k1 k2); split;
    intros; congruence.
Qed.

Lemma sample_table_wf : WFt sample_table.
Proof.
  destruct (table_insert_post (cl_rhash_table_init 0 ptr_bytes) (sample_key 0, 0)
              (WFt_init 0 ptr_bytes) ltac:(vm_compute; reflexivity))
    as [t' [r [E [_ [W _]]]]].
  unfold sample_table. rewrite E. exact W.
Qed.

Lemma X4_table_lookup_witness :
  (cl_rhash_table_contains sample_table (sample_key 0) = true <->
   exists s e, 0 <= s < cl_rhash_table_size sample_table /\
               cl_rhash_table_ptr sample_table s = Some e /\
               cl_rhash_table_key_equals sample_table (sample_key 0) (fst e) = true) /\
  (forall s, cl_rhash_table_entry sample_table (sample_key 0) = Some s ->
     0 <= s < cl_rhash_table_size sample_table /\
     exists e, cl_rhash_table_ptr sample_table s = Some e /\
               cl_rhash_table_key_equals sample_table (sample_key 0) (fst e) = true).
Proof.
  apply (X4_table_lookup sample_table (sample_key 0)). exact sample_table_wf.
Defined.

Lemma kc_copy t kb e : kc kb (cl_rhash_table_entry_copy t e) = kc kb e.
Proof. unfold kc. rewrite entry_copy_fst. reflexivity. Qed.

Lemma table_not_contains t k :
  WFt t ->
  cl_rhash_table_contains t k = false <->
  forall e, holds t e -> kc (key_bytes t) e <> key_content (key_bytes t) k.
Proof.
  intros Hwf. split.
  - intros Hc e He Hk.
    assert (cl_rhash_table_contains t k = true) as C; [|congruence].
    apply (table_contains_present t Hwf). exists e. split; [exact He|]. symmetry. exact Hk.
  - intros Hall. destruct (cl_rhash_table_contains t k) eqn:C; [|reflexivity].
    apply (table_contains_present t Hwf) in C. destruct C as [e [He Hk]].
    exfalso. apply (Hall e He). symmetry. exact Hk.
Qed.

(** After an insertion the lookup of the key finds the entry written. *)
Lemma table_lookup_held t e :
  WFt t -> holds t e ->
  exists s, cl_rhash_table_entry t (fst e) = Some s /\ cl_rhash_table_ptr t s = Some e.
Proof.
  intros Hwf He.
  assert (present t (fst e)) as Hp by (exists e; split; [exact He|reflexivity]).
  apply (table_entry_present t Hwf) in Hp. destruct Hp as [s Es].
  exists s. split; [exact Es|].
  destruct (table_entry_holds t Hwf _ _ Es) as [e' [E' [H' K']]].
  unfold cl_rhash_table_ptr. rewrite E'. f_equal.
  apply (holds_unique t Hwf); [exact H'|exact He|]. symmetry. exact K'.
Qed.

(** Where the slot offsets do not wrap around, the offset of a slot is its
    number times the entry width. *)
Lemma offsets_exact_offset t :
  offsets_exact t ->
  forall s, 0 <= s < cl_rhash_table_size t -> cl_rhash_table_offset t s = s * n_bytes t.
Proof.
  intros [Hn Hs] s Hr. unfold cl_rhash_table_offset, u32. apply Z.mod_small. nia.
Qed.

Lemma offsets_exact_inj t s1 s2 :
  offsets_exact t ->
  0 <= s1 < cl_rhash_table_size t -> 0 <= s2 < cl_rhash_table_size t ->
  cl_rhash_table_offset t s1 = cl_rhash_table_offset t s2 -> s1 = s2.
Proof.
  intros Ho H1 H2. rewrite !(offsets_exact_offset t Ho) by assumption.
  destruct Ho as [Hn _]. nia.
Qed.

Lemma offsets_exact_shape t t' :
  same_shape t t' -> offsets_exact t -> offsets_exact t'.
Proof.
  intros [So [_ Sn]] [Hn Hs]. unfold offsets_exact, cl_rhash_table_size in *.
  rewrite So, Sn. split; assumption.
Qed.

(** X5: inserting an entry into a well-formed table that has an empty slot
    and whose slot offsets do not wrap around ([offsets_exact]: at most
    [2^32] bytes of slots) succeeds and leaves a well-formed table of the
    same order, whose slot offsets do not wrap around either.  Afterwards
    the lookup of the key finds the entry written, and keys that differ from
    it are contained as before.  The result is NULL, with one entry more,
    when no equal key was contained; else it is the equal key that was
    stored, whose entry is replaced, and the count stays. *)
Theorem X5_table_insert (t : cl_rhash_table) (ent : entry)
    (Hwf : WFt t) (Hoff : offsets_exact t)
    (Hroom : n_entries t < cl_rhash_table_size t) :
  exists t' r,
    cl_rhash_table_insert t ent = Some (t', r) /\
    WFt t' /\ order t' = order t /\
    (forall s, 0 <= s < cl_rhash_table_size t' ->
               cl_rhash_table_offset t' s = s * n_bytes t') /\
    (exists s, cl_rhash_table_entry t' (fst ent) = Some s /\
               cl_rhash_table_ptr t' s = Some (cl_rhash_table_entry_copy t ent)) /\
    (forall k, cl_rhash_table_key_equals t k (fst ent) = false ->
               cl_rhash_table_contains t' k = cl_rhash_table_contains t k) /\
    match r with
    | None => cl_rhash_table_contains t (fst ent) = false /\
              n_entries t' = n_entries t + 1
    | Some k0 => (exists s v0, 0 <= s < cl_rhash_table_size t /\
                               cl_rhash_table_ptr t s = Some (k0, v0)) /\
                 cl_rhash_table_key_equals t k0 (fst ent) = true /\
                 n_entries t' = n_entries t
    end.
Proof.
  destruct (table_insert_post t ent Hwf Hroom) as [t' [r [E [Sh [W P]]]]].
  exists t', r. split; [exact E|]. split; [exact W|].
  pose proof Sh as [So [Sk Sn]]. split; [exact So|].
  split; [apply offsets_exact_offset; apply (offsets_exact_shape t t' Sh Hoff)|].
  assert (holds t' (cl_rhash_table_entry_copy t ent)) as Hnew.
  { destruct r; destruct P as [_ [_ P]]; apply P; left; reflexivity. }
  split; [|split].
  - destruct (table_lookup_held t' _ W Hnew) as [s [Es Ep]].
    rewrite entry_copy_fst in Es. exists s. split; assumption.
  - intros k Hk. apply key_equals_false in Hk. apply bool_iff.
    rewrite (table_contains_present t' W), (table_contains_present t Hwf).
    unfold present. rewrite Sk. split.
    + intros [e [He Hke]]. exists e. split; [|exact Hke].
      destruct r; destruct P as [_ [_ P]]; apply P in He.
      * destruct He as [->|[He _]]; [|exact He].
        exfalso. apply Hk. rewrite Hke. apply kc_copy.
      * destruct He as [->|He]; [|exact He].
        exfalso. apply Hk. rewrite Hke. apply kc_copy.
    + intros [e [He Hke]]. exists e. split; [|exact Hke].
      destruct r; destruct P as [_ [_ P]]; apply P; right; [|exact He].
      split; [exact He|]. intros Heq. apply Hk. rewrite Hke. exact Heq.
  - destruct r as [k0|].
    + destruct P as [[v0 [[s [Hs Es]] Hk0]] [Hn _]]. split; [|split; [|exact Hn]].
      * exists s, v0. split; assumption.
      * apply key_equals_content. exact Hk0.
    + destruct P as [Hno [Hn _]]. split; [|exact Hn].
      apply (table_not_contains t _ Hwf). exact Hno.
Qed.

Lemma X5_table_insert_witness :
  exists t' r,
    cl_rhash_table_insert sample_table (sample_key 1, 0) = Some (t', r) /\
    WFt t' /\ order t' = order sample_table /\
    (forall s, 0 <= s < cl_rhash_table_size t' ->
               cl_rhash_table_offset t' s = s * n_bytes t') /\
    (exists s, cl_rhash_table_entry t' (fst (sample_key 1, 0)) = Some s /\
               cl_rhash_table_ptr t' s =
                 Some (cl_rhash_table_entry_copy sample_table (sample_key 1, 0))) /\
    (forall k, cl_rhash_table_key_equals sample_table k (fst (sample_key 1, 0)) = false ->
               cl_rhash_table_contains t' k = cl_rhash_table_contains sample_table k) /\
    match r with
    | None => cl_rhash_table_contains sample_table (fst (sample_key 1, 0)) = false /\
              n_entries t' = n_entries sample_table + 1
    | Some k0 => (exists s v0, 0 <= s < cl_rhash_table_size sample_table /\
                               cl_rhash_table_ptr sample_table s = Some (k0, v0)) /\
                 cl_rhash_table_key_equals sample_table k0 (fst (sample_key 1, 0)) = true /\
                 n_entries t' = n_entries sample_table
    end.
Proof.
  apply (X5_table_insert sample_table (sample_key 1, 0)).
  - exact sample_table_wf.
  - vm_compute. split; [reflexivity|discriminate].
  - vm_compute. reflexivity.
Defined.

(** X6: peeking into a well-formed table returns no slot exactly when the
    table has no entries, and then changes nothing; else it returns the
    first occupied slot of the table and remembers it as the peek slot, so
    that a second peek returns the same slot and changes nothing more. *)
Theorem X6_table_peek (t : cl_rhash_table) (Hwf : WFt t) :
  (snd (cl_rhash_table_peek t) = None <-> n_entries t = 0) /\
  (snd (cl_rhash_table_peek t) = None -> fst (cl_rhash_table_peek t) = t) /\
  (forall s, snd (cl_rhash_table_peek t) = Some s ->
     0 <= s < cl_rhash_table_size t /\
     cl_rhash_table_ptr t s <> None /\
     (forall x, 0 <= x < s -> cl_rhash_table_ptr t x = None) /\
     fst (cl_rhash_table_peek t) = set_n_peek t s /\
     cl_rhash_table_peek (fst (cl_rhash_table_peek t)) =
       (fst (cl_rhash_table_peek t), Some s)).
Proof.
  pose proof (wf_n_entries t Hwf) as Hn. pose proof (wf_peek_range t Hwf) as Hp.
  pose proof (size_bounds t (wf_order t Hwf)) as Hs.
  destruct (Z.gtb_spec (n_entries t) 0) as [Hpos|Hzero].
  - destruct (peek_entry_loop_spec t (Z.to_nat (cl_rhash_table_size t - n_peek t)) (n_peek t))
      as [[E1 [E2 Hnone]]|[s [E1 [E2 [Hr [Hocc Hfirst]]]]]].
    + exfalso. rewrite (wf_count t Hwf) in Hpos.
      destruct (occupied_some _ _ Hpos) as [s [Hsr Hocc]]. apply Hocc.
      destruct (Z.lt_ge_cases s (n_peek t)) as [Hlt|Hge].
      * apply (wf_peek t Hwf); lia.
      * apply Hnone. lia.
    + assert (cl_rhash_table_peek t = (set_n_peek t s, Some s)) as Hpk.
      { unfold cl_rhash_table_peek, cl_rhash_table_peek_entry.
        destruct (Z.gtb_spec (n_entries t) 0) as [_|Hc]; [|lia].
        rewrite (surjective_pairing (peek_entry_loop _ _ _)), E1, E2. reflexivity. }
      rewrite Hpk. cbn [fst snd].
      split; [split; [discriminate|lia]|]. split; [discriminate|].
      intros s' Es. injection Es as <-.
      assert (0 <= s < cl_rhash_table_size t) as Hsr by lia.
      split; [exact Hsr|]. split; [exact Hocc|]. split; [|split; [reflexivity|]].
      * intros x Hx. unfold cl_rhash_table_ptr.
        destruct (Z.lt_ge_cases x (n_peek t)) as [Hlt|Hge].
        -- apply (wf_peek t Hwf); lia.
        -- apply Hfirst. lia.
      * unfold cl_rhash_table_peek, cl_rhash_table_peek_entry.
        cbn [n_entries n_peek set_n_peek].
        destruct (Z.gtb_spec (n_entries t) 0) as [_|Hc]; [|lia].
        change (cl_rhash_table_size (set_n_peek t s)) with (cl_rhash_table_size t).
        replace (Z.to_nat (cl_rhash_table_size t - s))
          with (S (Z.to_nat (cl_rhash_table_size t - s - 1))) by lia.
        cbn [peek_entry_loop]. unfold cl_rhash_table_ptr at 1. cbn [table set_n_peek].
        destruct (table t s); [reflexivity|congruence].
  - assert (cl_rhash_table_peek t = (t, None)) as Hpk.
    { unfold cl_rhash_table_peek.
      destruct (Z.gtb_spec (n_entries t) 0) as [Hc|_]; [lia|reflexivity]. }
    rewrite Hpk. cbn [fst snd].
    split; [split; [lia|reflexivity]|]. split; [reflexivity|discriminate].
Qed.

Lemma X6_table_peek_witness :
  (snd (cl_rhash_table_peek sample_table) = None <-> n_entries sample_table = 0) /\
  (snd (cl_rhash_table_peek sample_table) = None ->
   fst (cl_rhash_table_peek sample_table) = sample_table) /\
  (forall s, snd (cl_rhash_table_peek sample_table) = Some s ->
     0 <= s < cl_rhash_table_size sample_table /\
     cl_rhash_table_ptr sample_table s <> None /\
     (forall x, 0 <= x < s -> cl_rhash_table_ptr sample_table x = None) /\
     fst (cl_rhash_table_peek sample_table) = set_n_peek sample_table s /\
     cl_rhash_table_peek (fst (cl_rhash_table_peek sample_table)) =
       (fst (cl_rhash_table_peek sample_table), Some s)).
Proof.
  apply (X6_table_peek sample_table). exact sample_table_wf.
Defined.

(** * Further properties of the hash *)

Lemma NoDup_same_length {A : Type} (l l' : list A) :
  NoDup l -> NoDup l' -> (forall x, In x l <-> In x l') -> length l = length l'.
Proof.
  intros N1 N2 H. apply Nat.le_antisymm.
  - apply NoDup_incl_length; [exact N1|]. intros x Hx. apply H. exact Hx.
  - apply NoDup_incl_length; [exact N2|]. intros x Hx. apply H. exact Hx.
Qed.

(** The count of a hash is the number of different key contents stored. *)
Lemma count_contents h :
  Core h -> n_entries (h_lo h) + n_entries (h_hi h) < 2 ^ 32 ->
  exists cl, NoDup cl /\ Z.of_nat (length cl) = cl_rhash_count h /\
    forall c, In c cl <-> exists x, stored h x /\ kc (key_bytes (h_hi h)) x = c.
Proof.
  intros Hc Hn. destruct (iterate_all h Hc Hn) as [_ [Hl Hd]].
  exists (map (key_content (key_bytes (h_hi h))) (slot_keys (h_lo h) ++ slot_keys (h_hi h))).
  split; [exact Hd|]. split; [rewrite length_map; exact Hl|].
  intros c. rewrite in_map_iff. unfold stored, kc. split.
  - intros [k [Hk Hin]]. apply in_app_iff in Hin.
    destruct Hin as [Hin|Hin]; apply slot_keys_holds in Hin;
      destruct Hin as [e [He Hf]]; exists e; subst k; split; auto.
  - intros [x [Hx Hk]]. exists (fst x). split; [exact Hk|]. apply in_app_iff.
    destruct Hx as [Hx|Hx]; [left|right]; apply slot_keys_holds; exists x; split; auto.
Qed.

Lemma Inv_count kb im n h :
  Inv kb im n h -> n <= MAX_OPS ->
  n_entries (h_lo h) + n_entries (h_hi h) < 2 ^ 32.
Proof. intros [_ [_ [[Hp _] _]]] Hn. unfold MAX_OPS in Hn. lia. Qed.

Lemma op_contents_In kb ops c :
  In c (op_contents kb ops) <->
  exists o k, In o ops /\ op_key o = Some k /\ key_content kb k = c.
Proof.
  induction ops as [|o ops IH]; cbn [op_contents].
  - split; [intros []|intros [o [k [[] _]]]].
  - destruct (op_key o) as [k|] eqn:E.
    + cbn [In]. rewrite IH. split.
      * intros [H|[o' [k' [H1 H2]]]].
        -- exists o, k. split; [left; reflexivity|split; assumption].
        -- exists o', k'. split; [right; exact H1|exact H2].
      * intros [o' [k' [[->|H1] [H2 H3]]]].
        -- left. congruence.
        -- right. exists o', k'. split; [exact H1|split; assumption].
    + rewrite IH. split.
      * intros [o' [k' [H1 H2]]]. exists o', k'. split; [right; exact H1|exact H2].
      * intros [o' [k' [[->|H1] [H2 H3]]]]; [congruence|].
        exists o', k'. split; [exact H1|split; assumption].
Qed.

Lemma recent_named kb im rops c e :
  recent kb im rops c = Some e -> In c (op_contents kb rops).
Proof.
  induction rops as [|o rops IH]; cbn [recent op_contents]; [discriminate|].
  destruct o as [k|k v|k| |]; cbn [op_key]; try discriminate; try exact IH.
  - destruct im; [intros H; right; exact (IH H)|].
    destruct (bytes_eqb (key_content kb k) c) eqn:E.
    + intros _. left. apply bytes_eqb_eq. exact E.
    + intros H. right. exact (IH H).
  - destruct im; [|intros H; right; exact (IH H)].
    destruct (bytes_eqb (key_content kb k) c) eqn:E.
    + intros _. left. apply bytes_eqb_eq. exact E.
    + intros H. right. exact (IH H).
  - destruct (bytes_eqb (key_content kb k) c); [discriminate|].
    intros H. right. exact (IH H).
Qed.

Lemma live_keys_In kb im ops c :
  In c (live_keys kb im ops) <-> exists e, recent kb im (rev ops) c = Some e.
Proof.
  unfold live_keys. rewrite nodup_In, filter_In. unfold is_live. split.
  - intros [_ H]. destruct (recent kb im (rev ops) c) as [e|]; [exists e; reflexivity|discriminate].
  - intros [e He]. rewrite He. split; [|reflexivity].
    apply recent_named in He. apply op_contents_In in He.
    destruct He as [o [k [H1 H2]]]. apply op_contents_In. exists o, k.
    split; [apply in_rev; exact H1|exact H2].
Qed.

(** X7: after a sequence of public operations on a newly created hash (at
    most [MAX_OPS] of them), [cl_rhash_count] is the number of different
    keys whose most recent operation inserted them: a key added twice counts
    once, a removed or cleared key does not count. *)
Theorem X7_count_live_keys (kb : Z) (im : bool) (ops : list op)
    (Hlen : Z.of_nat (length ops) <= MAX_OPS) :
  exists h, run (cl_rhash_create kb im) ops = Some h /\
    cl_rhash_count h = Z.of_nat (length (live_keys kb im ops)).
Proof.
  destruct (run_ok kb im ops Hlen) as [h [E [HI Ha]]].
  exists h. split; [exact E|].
  pose proof HI as [Hc [_ [_ [_ [_ Hk]]]]].
  destruct (count_contents h Hc (Inv_count _ _ _ _ HI Hlen)) as [cl [Nd [Hl Hin]]].
  rewrite <- Hl. f_equal. apply NoDup_same_length; [exact Nd|apply NoDup_nodup|].
  intros c. rewrite Hin, live_keys_In, Hk. split.
  - intros [x [Hx Hkx]]. exists x. apply Ha in Hx. rewrite <- Hkx. exact Hx.
  - intros [e He]. exists e. split; [|exact (recent_content _ _ _ _ _ He)].
    apply Ha. rewrite (recent_content _ _ _ _ _ He). exact He.
Qed.

Lemma X7_count_live_keys_witness :
  exists h,
    run (cl_rhash_create 0 false)
        (map OpAdd (sample_keys 50) ++ map OpAdd (sample_keys 3) ++
         map OpRemove (sample_keys 20)) = Some h /\
    cl_rhash_count h =
      Z.of_nat (length (live_keys 0 false
                          (map OpAdd (sample_keys 50) ++ map OpAdd (sample_keys 3) ++
                           map OpRemove (sample_keys 20)))).
Proof.
  apply (X7_count_live_keys 0 false
           (map OpAdd (sample_keys 50) ++ map OpAdd (sample_keys 3) ++
            map OpRemove (sample_keys 20))).
  vm_compute. discriminate.
Defined.

(** What [cl_rhash_peek] returns. *)
Lemma hash_peek_result h :
  Core h ->
  match snd (cl_rhash_peek h) with
  | None => n_entries (h_lo h) = 0 /\ n_entries (h_hi h) = 0 /\ fst (cl_rhash_peek h) = h
  | Some k => exists v, stored h (k, v)
  end /\
  n_entries (h_lo (fst (cl_rhash_peek h))) = n_entries (h_lo h) /\
  n_entries (h_hi (fst (cl_rhash_peek h))) = n_entries (h_hi h) /\
  n_edit (fst (cl_rhash_peek h)) = n_edit h.
Proof.
  intros Hc. unfold cl_rhash_peek.
  destruct (table_peek_post (h_lo h) (core_lo h Hc)) as [_ [_ [T1 [N1 R1]]]].
  destruct (cl_rhash_table_peek (h_lo h)) as [lo r1]. cbn [fst snd] in *.
  destruct r1 as [s|].
  - cbn [fst snd]. hsimpl. split; [|auto].
    destruct R1 as [Hs Ho]. unfold slot_key, cl_rhash_table_ptr. rewrite T1.
    destruct (table (h_lo h) s) as [[k v]|] eqn:E; [|congruence].
    cbn. exists v. left. exists s. split; assumption.
  - destruct R1 as [Z1 ->]. hsimpl.
    destruct (table_peek_post (h_hi h) (core_hi h Hc)) as [_ [_ [T2 [N2 R2]]]].
    destruct (cl_rhash_table_peek (h_hi h)) as [hi r2]. cbn [fst snd] in *.
    hsimpl. split; [|auto].
    destruct r2 as [s|].
    + destruct R2 as [Hs Ho]. unfold slot_key, cl_rhash_table_ptr. rewrite T2.
      destruct (table (h_hi h) s) as [[k v]|] eqn:E; [|congruence].
      cbn. exists v. right. exists s. split; assumption.
    + destruct R2 as [Z2 ->]. cbn. split; [exact Z1|]. split; [exact Z2|].
      destruct h; reflexivity.
Qed.

(** A hash that stores nothing counts nothing, contains nothing, has nothing
    to peek at and nothing to iterate over. *)
Lemma empty_hash h :
  Core h -> n_entries (h_lo h) + n_entries (h_hi h) < 2 ^ 32 ->
  (forall x, ~ stored h x) ->
  cl_rhash_count h = 0 /\
  (forall k, cl_rhash_contains h k = false) /\
  snd (cl_rhash_peek h) = None /\
  cl_rhash_iterate h = Some [].
Proof.
  intros Hc Hn Hno.
  assert (cl_rhash_count h = 0) as Hcount.
  { destruct (count_contents h Hc Hn) as [cl [_ [Hl Hin]]].
    destruct cl as [|c cl]; [symmetry; exact Hl|].
    exfalso. destruct (proj1 (Hin c) (or_introl eq_refl)) as [x [Hx _]].
    exact (Hno x Hx). }
  split; [exact Hcount|]. split; [|split].
  - intros k. apply (contains_not_stored h k Hc). intros x Hx. exfalso. exact (Hno x Hx).
  - destruct (hash_peek_result h Hc) as [R _].
    destruct (snd (cl_rhash_peek h)) as [k|]; [|reflexivity].
    destruct R as [v Hv]. exfalso. exact (Hno _ Hv).
  - destruct (iterate_all h Hc Hn) as [Hi [Hl _]]. rewrite Hi. f_equal.
    rewrite Hcount in Hl.
    destruct (slot_keys (h_lo h) ++ slot_keys (h_hi h)); [reflexivity|discriminate].
Qed.

(** X8: a newly created set or map is empty: its count is 0, it contains
    no key, [get] and [peek] return NULL, removing any key returns NULL and
    changes nothing, and an iteration ends at once. *)
Theorem X8_new_hash_is_empty (kb : Z) (im : bool) (k : key) :
  cl_rhash_count (cl_rhash_create kb im) = 0 /\
  cl_rhash_contains (cl_rhash_create kb im) k = false /\
  cl_rhash_get (cl_rhash_create kb im) k = Some 0 /\
  snd (cl_rhash_peek (cl_rhash_create kb im)) = None /\
  cl_rhash_remove (cl_rhash_create kb im) k = Some (cl_rhash_create kb im, None) /\
  cl_rhash_iterate (cl_rhash_create kb im) = Some [].
Proof.
  pose proof (create_inv kb im) as HI. pose proof HI as [Hc [Hl [Hp _]]].
  assert (n_entries (h_lo (cl_rhash_create kb im)) +
          n_entries (h_hi (cl_rhash_create kb im)) < 2 ^ 32) as Hn by (cbn; lia).
  destruct (empty_hash _ Hc Hn (create_stored kb im)) as [A [B [C D]]].
  split; [exact A|]. split; [exact (B k)|]. split; [|split; [exact C|split; [|exact D]]].
  - destruct im.
    + apply (proj2 (get_stored _ k Hc eq_refl)). intros x Hx. exfalso.
      exact (create_stored kb true x Hx).
    + reflexivity.
  - destruct (hash_remove_post _ k _ Hc Hl Hp) as [h' [r [Er [_ [_ [_ [_ [_ [_ Hr]]]]]]]]].
    rewrite Er. destruct r as [k0|].
    + exfalso. destruct Hr as [[v0 [Hv0 _]] _]. exact (create_stored kb im _ Hv0).
    + destruct Hr as [-> _]. reflexivity.
Qed.

(** X9: clearing a hash reached by public operations (at most [MAX_OPS] of
    them) leaves an empty hash: count 0, no key contained, nothing to peek
    at or to iterate over; both tables are back at the minimum order, the
    mode is kept and the edit version has advanced by one. *)
Theorem X9_clear_empties (kb : Z) (im : bool) (ops : list op)
    (Hlen : Z.of_nat (length ops) <= MAX_OPS) :
  exists h, run (cl_rhash_create kb im) ops = Some h /\
    cl_rhash_count (cl_rhash_clear h) = 0 /\
    (forall k, cl_rhash_contains (cl_rhash_clear h) k = false) /\
    snd (cl_rhash_peek (cl_rhash_clear h)) = None /\
    cl_rhash_iterate (cl_rhash_clear h) = Some [] /\
    order (h_lo (cl_rhash_clear h)) = CL_HASH_MIN_ORDER /\
    order (h_hi (cl_rhash_clear h)) = CL_HASH_MIN_ORDER /\
    cl_rhash_is_map (cl_rhash_clear h) = Some im /\
    n_edit (cl_rhash_clear h) = u32 (n_edit h + 1).
Proof.
  destruct (run_ok kb im ops Hlen) as [h [E [HI _]]].
  exists h. split; [exact E|].
  destruct (clear_inv kb im _ h HI) as [HI' Hno].
  pose proof HI as [Hc _]. pose proof HI' as [Hc' _].
  destruct (table_clear_post (h_lo h) (wf_order _ (core_lo h Hc))) as [_ [_ [N1 [O1 _]]]].
  destruct (table_clear_post (h_hi h) (wf_order _ (core_hi h Hc))) as [_ [_ [N2 [O2 _]]]].
  assert (n_entries (h_lo (cl_rhash_clear h)) + n_entries (h_hi (cl_rhash_clear h)) < 2 ^ 32)
    as Hn.
  { unfold cl_rhash_clear. hsimpl. rewrite N1, N2. lia. }
  destruct (empty_hash _ Hc' Hn Hno) as [A [B [C D]]].
  split; [exact A|]. split; [exact B|]. split; [exact C|]. split; [exact D|].
  split; [exact O1|]. split; [exact O2|]. split; [exact (is_map_ok _ _ _ _ HI')|].
  reflexivity.
Qed.

Lemma X9_clear_empties_witness :
  exists h, run (cl_rhash_create 0 false) (map OpAdd (sample_keys 50)) = Some h /\
    cl_rhash_count (cl_rhash_clear h) = 0 /\
    (forall k, cl_rhash_contains (cl_rhash_clear h) k = false) /\
    snd (cl_rhash_peek (cl_rhash_clear h)) = None /\
    cl_rhash_iterate (cl_rhash_clear h) = Some [] /\
    order (h_lo (cl_rhash_clear h)) = CL_HASH_MIN_ORDER /\
    order (h_hi (cl_rhash_clear h)) = CL_HASH_MIN_ORDER /\
    cl_rhash_is_map (cl_rhash_clear h) = Some false /\
    n_edit (cl_rhash_clear h) = u32 (n_edit h + 1).
Proof.
  apply (X9_clear_empties 0 false (map OpAdd (sample_keys 50))).
  vm_compute. discriminate.
Defined.

Lemma is_map_core h : Core h -> cl_rhash_is_map h = Some (is_map h).
Proof.
  intros Hc. unfold cl_rhash_is_map. rewrite (core_nb h Hc), Z.eqb_refl. reflexivity.
Qed.

(** Two well-formed hashes of the same mode that store the same entries
    under a key answer [contains] and [get] alike for it. *)
Lemma same_stored_core kb h h' k :
  Core h -> Core h' -> is_map h' = is_map h ->
  key_bytes (h_hi h) = kb -> key_bytes (h_hi h') = kb ->
  (forall x, kc kb x = key_content kb k -> (stored h' x <-> stored h x)) ->
  cl_rhash_contains h' k = cl_rhash_contains h k /\
  cl_rhash_get h' k = cl_rhash_get h k.
Proof.
  intros Hc Hc' Hmm Hk Hk' Hst.
  assert (cl_rhash_contains h' k = cl_rhash_contains h k) as Hcon.
  { apply bool_iff. rewrite (contains_stored h' k Hc'), (contains_stored h k Hc), Hk, Hk'.
    split; intros [x [Hx Hkx]]; exists x; (split; [apply (Hst x Hkx); exact Hx|exact Hkx]). }
  split; [exact Hcon|].
  destruct (is_map h) eqn:Hm.
  - destruct (cl_rhash_contains h k) eqn:C.
    + apply (contains_stored h k Hc) in C. destruct C as [x [Hx Hkx]].
      rewrite (proj1 (get_stored h k Hc Hm) x Hx Hkx). rewrite Hk in Hkx.
      apply (proj1 (get_stored h' k Hc' Hmm) x); [apply (Hst x Hkx); exact Hx|].
      rewrite Hk'. exact Hkx.
    + pose proof (proj1 (contains_not_stored h k Hc) C) as Hno.
      rewrite (proj2 (get_stored h k Hc Hm) Hno).
      apply (proj2 (get_stored h' k Hc' Hmm)). intros x Hx. rewrite Hk'. intros Hkx.
      apply (Hst x Hkx) in Hx. specialize (Hno x Hx). rewrite Hk in Hno. exact (Hno Hkx).
  - unfold cl_rhash_get.
    rewrite (is_map_core h Hc), (is_map_core h' Hc'), Hmm, Hm. reflexivity.
Qed.

Lemma same_stored_at kb im n n' h h' k :
  Inv kb im n h -> Inv kb im n' h' ->
  (forall x, kc kb x = key_content kb k -> (stored h' x <-> stored h x)) ->
  cl_rhash_contains h' k = cl_rhash_contains h k /\
  cl_rhash_get h' k = cl_rhash_get h k.
Proof.
  intros [Hc [_ [_ [_ [Hm Hk]]]]] [Hc' [_ [_ [_ [Hm' Hk']]]]] Hst.
  apply (same_stored_core kb); try assumption. congruence.
Qed.

Lemma same_stored_same_answers kb im n n' h h' k :
  Inv kb im n h -> Inv kb im n' h' ->
  (forall x, stored h' x <-> stored h x) ->
  cl_rhash_contains h' k = cl_rhash_contains h k /\
  cl_rhash_get h' k = cl_rhash_get h k.
Proof.
  intros HI HI' Hst. apply (same_stored_at kb im n n'); try assumption.
  intros x _. apply Hst.
Qed.

Lemma count_sum kb im n h :
  Inv kb im n h -> n <= MAX_OPS ->
  cl_rhash_count h = n_entries (h_lo h) + n_entries (h_hi h) /\
  0 <= n_entries (h_lo h) /\ 0 <= n_entries (h_hi h).
Proof.
  intros HI Hn. pose proof (Inv_count _ _ _ _ HI Hn) as Hb. destruct HI as [Hc _].
  pose proof (wf_n_entries _ (core_lo h Hc)). pose proof (wf_n_entries _ (core_hi h Hc)).
  split; [|lia]. unfold cl_rhash_count, u32. apply Z.mod_small. lia.
Qed.

(** X10: in a state reached by public operations (at most [MAX_OPS] of
    them), [cl_rhash_peek] returns NULL exactly when the count is 0, else a
    key that the hash contains; it leaves the answers of [contains] and
    [get], the count and the edit version as they were. *)
Theorem X10_peek (kb : Z) (im : bool) (ops : list op)
    (Hlen : Z.of_nat (length ops) <= MAX_OPS) :
  exists h, run (cl_rhash_create kb im) ops = Some h /\
    (snd (cl_rhash_peek h) = None <-> cl_rhash_count h = 0) /\
    (forall k, snd (cl_rhash_peek h) = Some k -> cl_rhash_contains h k = true) /\
    (forall k, cl_rhash_contains (fst (cl_rhash_peek h)) k = cl_rhash_contains h k /\
               cl_rhash_get (fst (cl_rhash_peek h)) k = cl_rhash_get h k) /\
    cl_rhash_count (fst (cl_rhash_peek h)) = cl_rhash_count h /\
    n_edit (fst (cl_rhash_peek h)) = n_edit h.
Proof.
  destruct (run_ok kb im ops Hlen) as [h [E [HI _]]].
  exists h. split; [exact E|].
  pose proof HI as [Hc [_ [_ [_ [_ Hk]]]]].
  destruct (count_sum _ _ _ _ HI Hlen) as [Hcnt [P1 P2]].
  destruct (hash_peek_result h Hc) as [R [N1 [N2 Ne]]].
  destruct (peek_inv kb im _ h HI) as [HI' Hst].
  split; [|split; [|split; [|split; [|exact Ne]]]].
  - rewrite Hcnt. destruct (snd (cl_rhash_peek h)) as [k|].
    + split; [discriminate|]. intros Hz. exfalso. destruct R as [v [Hv|Hv]].
      * apply (holds_no_entries _ _ (core_lo h Hc)) in Hv; [exact Hv|lia].
      * apply (holds_no_entries _ _ (core_hi h Hc)) in Hv; [exact Hv|lia].
    + split; [|reflexivity]. intros _. lia.
  - intros k Hk0. rewrite Hk0 in R. destruct R as [v Hv].
    apply (contains_stored h k Hc). exists (k, v). split; [exact Hv|reflexivity].
  - intros k. exact (same_stored_same_answers _ _ _ _ _ _ k HI HI' Hst).
  - unfold cl_rhash_count. rewrite N1, N2. reflexivity.
Qed.

Lemma X10_peek_witness :
  exists h, run (cl_rhash_create 0 false) (map OpAdd (sample_keys 50)) = Some h /\
    (snd (cl_rhash_peek h) = None <-> cl_rhash_count h = 0) /\
    (forall k, snd (cl_rhash_peek h) = Some k -> cl_rhash_contains h k = true) /\
    (forall k, cl_rhash_contains (fst (cl_rhash_peek h)) k = cl_rhash_contains h k /\
               cl_rhash_get (fst (cl_rhash_peek h)) k = cl_rhash_get h k) /\
    cl_rhash_count (fst (cl_rhash_peek h)) = cl_rhash_count h /\
    n_edit (fst (cl_rhash_peek h)) = n_edit h.
Proof.
  apply (X10_peek 0 false (map OpAdd (sample_keys 50))).
  vm_compute. discriminate.
Defined.

(** What one insertion does to the count and to the answers. *)
Lemma hash_insert_count kb im n h k v :
  Inv kb im n h -> n < MAX_OPS ->
  exists h' r,
    cl_rhash_insert h (k, v) = Some (h', r) /\
    Inv kb im (n + 1) h' /\
    stored h' (cl_rhash_table_entry_copy (h_hi h) (k, v)) /\
    n_edit h' = u32 (n_edit h + 1) /\
    (forall k', key_content kb k' <> key_content kb k ->
       cl_rhash_contains h' k' = cl_rhash_contains h k' /\
       cl_rhash_get h' k' = cl_rhash_get h k') /\
    if cl_rhash_contains h k
    then (exists k0 v0, r = Some k0 /\ stored h (k0, v0) /\
                        key_content kb k0 = key_content kb k) /\
         cl_rhash_count h' = cl_rhash_count h
    else r = None /\ cl_rhash_count h' = cl_rhash_count h + 1.
Proof.
  intros HI Hn. pose proof HI as [Hc [Hl [Hp [Hn0 [Hm Hk]]]]].
  destruct (hash_insert_post h (k, v) n Hc Hl Hp (Inv_order _ _ _ _ HI Hn))
    as [h' [r [E [Hc' [Hl' [Hp' [Hst [Hm' [He [Hk' Hr]]]]]]]]]].
  rewrite Hk in *.
  assert (Inv kb im (n + 1) h') as HI'.
  { unfold Inv. splits; try assumption; try congruence; lia. }
  exists h', r. split; [exact E|]. split; [exact HI'|].
  split; [apply Hst; left; reflexivity|]. split; [exact He|].
  split.
  { intros k' Hne. apply (same_stored_at kb im n (n + 1)); try assumption.
    intros x Hx. rewrite Hst. split.
    - intros [->|[H _]]; [|exact H]. exfalso. apply Hne. rewrite <- Hx. apply kc_copy.
    - intros H. right. split; [exact H|]. intros Heq. apply Hne. rewrite <- Hx. exact Heq. }
  destruct (count_contents h Hc (Inv_count _ _ _ _ HI ltac:(lia))) as [cl [Nd [Hlen Hin]]].
  destruct (count_contents h' Hc' (Inv_count _ _ _ _ HI' ltac:(lia))) as [cl' [Nd' [Hlen' Hin']]].
  rewrite Hk in Hin. rewrite Hk' in Hin'.
  assert (forall c, In c cl' <-> c = key_content kb k \/ In c cl) as Hcl.
  { intros c. rewrite Hin', Hin. split.
    - intros [x [Hx Hkx]]. apply Hst in Hx. destruct Hx as [->|[Hx _]].
      + left. rewrite <- Hkx. apply kc_copy.
      + right. exists x. split; assumption.
    - intros [->|[x [Hx Hkx]]].
      + exists (cl_rhash_table_entry_copy (h_hi h) (k, v)).
        split; [apply Hst; left; reflexivity|apply kc_copy].
      + destruct (list_eq_dec Byte.byte_eq_dec c (key_content kb k)) as [->|Hne].
        * exists (cl_rhash_table_entry_copy (h_hi h) (k, v)).
          split; [apply Hst; left; reflexivity|apply kc_copy].
        * exists x. split; [|exact Hkx]. apply Hst. right. split; [exact Hx|].
          rewrite Hkx. exact Hne. }
  destruct (cl_rhash_contains h k) eqn:C.
  - apply (contains_stored h k Hc) in C. rewrite Hk in C. destruct C as [x [Hx Hkx]].
    destruct r as [k0|]; [|exfalso; exact (Hr x Hx Hkx)].
    destruct Hr as [v0 [H0 K0]]. split; [exists k0, v0; splits; trivial|].
    rewrite <- Hlen, <- Hlen'. f_equal.
    apply NoDup_same_length; try assumption. intros c. rewrite Hcl. split; [|auto].
    intros [->|H]; [|exact H]. apply Hin. exists x. split; assumption.
  - pose proof (proj1 (contains_not_stored h k Hc) C) as Hno. rewrite Hk in Hno.
    destruct r as [k0|].
    { exfalso. destruct Hr as [v0 [H0 K0]]. exact (Hno _ H0 K0). }
    split; [reflexivity|].
    rewrite <- Hlen, <- Hlen'.
    assert (~ In (key_content kb k) cl) as Hfresh.
    { intros Hi. apply Hin in Hi. destruct Hi as [x [Hx Hkx]]. exact (Hno x Hx Hkx). }
    rewrite (NoDup_same_length cl' (key_content kb k :: cl) Nd').
    + cbn [length]. lia.
    + constructor; assumption.
    + intros c. rewrite Hcl. cbn [In]. split; intros [H|H]; auto.
Qed.

(** X11: adding a key to a set reached by public operations (fewer than
    [MAX_OPS]) succeeds, and the set then contains the key.  When the set
    did not contain an equal key the result is NULL and the count grows by
    one; else the result is the previously stored equal key, that is, the
    key of an entry a slot of the set held before the call, and the count
    stays.  Either way the edit version advances, and the other keys are
    contained as before. *)
Theorem X11_add_to_set (kb : Z) (ops : list op) (k : key)
    (Hlen : Z.of_nat (length ops) < MAX_OPS) :
  exists h h' r,
    run (cl_rhash_create_set kb) ops = Some h /\
    cl_rhash_add h k = Some (h', r) /\
    cl_rhash_contains h' k = true /\
    (forall k', key_content kb k' <> key_content kb k ->
                cl_rhash_contains h' k' = cl_rhash_contains h k') /\
    n_edit h' = u32 (n_edit h + 1) /\
    if cl_rhash_contains h k
    then (exists k0 v0, r = Some k0 /\ stored h (k0, v0) /\
                        key_content kb k0 = key_content kb k) /\
         cl_rhash_count h' = cl_rhash_count h
    else r = None /\ cl_rhash_count h' = cl_rhash_count h + 1.
Proof.
  destruct (run_ok kb false ops ltac:(lia)) as [h [E [HI _]]].
  destruct (hash_insert_count kb false _ h k 0 HI Hlen)
    as [h' [r [Ei [HI' [Hnew [He [Hoth Hres]]]]]]].
  exists h, h', r. split; [exact E|].
  unfold cl_rhash_add. rewrite (is_map_ok _ _ _ _ HI). split; [exact Ei|].
  pose proof HI as [Hc [_ [_ [_ [_ Hk]]]]]. pose proof HI' as [Hc' [_ [_ [_ [_ Hk']]]]].
  split.
  { apply (contains_stored h' k Hc'). eexists. split; [exact Hnew|].
    rewrite Hk'. apply kc_copy. }
  split; [intros k' Hne; exact (proj1 (Hoth k' Hne))|]. split; [exact He|].
  destruct (cl_rhash_contains h k).
  - destruct Hres as [[k0 [v0 [Hr [Hst Hk0]]]] Hcnt]. split; [|exact Hcnt].
    exists k0, v0. repeat split; assumption.
  - exact Hres.
Qed.

Lemma X11_add_to_set_witness :
  exists h h' r,
    run (cl_rhash_create_set 0) (map OpAdd (sample_keys 50)) = Some h /\
    cl_rhash_add h (sample_key 7) = Some (h', r) /\
    cl_rhash_contains h' (sample_key 7) = true /\
    (forall k', key_content 0 k' <> key_content 0 (sample_key 7) ->
                cl_rhash_contains h' k' = cl_rhash_contains h k') /\
    n_edit h' = u32 (n_edit h + 1) /\
    if cl_rhash_contains h (sample_key 7)
    then (exists k0 v0, r = Some k0 /\ stored h (k0, v0) /\
                        key_content 0 k0 = key_content 0 (sample_key 7)) /\
         cl_rhash_count h' = cl_rhash_count h
    else r = None /\ cl_rhash_count h' = cl_rhash_count h + 1.
Proof.
  apply (X11_add_to_set 0 (map OpAdd (sample_keys 50)) (sample_key 7)).
  vm_compute. reflexivity.
Defined.

Lemma map_entry_copy h e :
  Core h -> is_map h = true -> cl_rhash_table_entry_copy (h_hi h) e = e.
Proof.
  intros Hc Hm. unfold cl_rhash_table_entry_copy.
  rewrite (core_map h Hc), Hm. reflexivity.
Qed.

(** X12: putting a mapping into a map reached by public operations (fewer
    than [MAX_OPS]) succeeds; afterwards [get] returns the value put and the
    map contains the key.  When the map did not contain an equal key the
    result is NULL and the count grows by one; else the result is the
    previously stored equal key, that is, the key of an entry a slot of the
    map held before the call, whose value is the one [get] returned for the
    key before the call, and the count stays.  The other keys are contained
    and mapped as before. *)
Theorem X12_put_to_map (kb : Z) (ops : list op) (k : key) (v : value)
    (Hlen : Z.of_nat (length ops) < MAX_OPS) :
  exists h h' r,
    run (cl_rhash_create_map kb) ops = Some h /\
    cl_rhash_put h k v = Some (h', r) /\
    cl_rhash_get h' k = Some v /\
    cl_rhash_contains h' k = true /\
    (forall k', key_content kb k' <> key_content kb k ->
                cl_rhash_contains h' k' = cl_rhash_contains h k' /\
                cl_rhash_get h' k' = cl_rhash_get h k') /\
    if cl_rhash_contains h k
    then (exists k0 v0, r = Some k0 /\ stored h (k0, v0) /\
                        cl_rhash_get h k = Some v0 /\
                        key_content kb k0 = key_content kb k) /\
         cl_rhash_count h' = cl_rhash_count h
    else r = None /\ cl_rhash_count h' = cl_rhash_count h + 1.
Proof.
  destruct (run_ok kb true ops ltac:(lia)) as [h [E [HI _]]].
  destruct (hash_insert_count kb true _ h k v HI Hlen)
    as [h' [r [Ei [HI' [Hnew [He [Hoth Hres]]]]]]].
  exists h, h', r. split; [exact E|].
  unfold cl_rhash_put. rewrite (is_map_ok _ _ _ _ HI). split; [exact Ei|].
  pose proof HI as [Hc [_ [_ [_ [Hm Hk]]]]]. pose proof HI' as [Hc' [_ [_ [_ [Hm' Hk']]]]].
  rewrite (map_entry_copy h _ Hc Hm) in Hnew.
  split; [|split].
  - apply (proj1 (get_stored h' k Hc' Hm') (k, v) Hnew). reflexivity.
  - apply (contains_stored h' k Hc'). exists (k, v). split; [exact Hnew|reflexivity].
  - split; [exact Hoth|].
    destruct (cl_rhash_contains h k).
    + destruct Hres as [[k0 [v0 [Hr [Hst Hk0]]]] Hcnt]. split; [|exact Hcnt].
      exists k0, v0. split; [exact Hr|]. split; [exact Hst|]. split; [|exact Hk0].
      apply (proj1 (get_stored h k Hc Hm) (k0, v0) Hst).
      rewrite Hk. exact Hk0.
    + exact Hres.
Qed.

Lemma X12_put_to_map_witness :
  exists h h' r,
    run (cl_rhash_create_map 0)
        [OpPut (sample_key 0) 7; OpPut (sample_key 1) 8] = Some h /\
    cl_rhash_put h (sample_key 0) 9 = Some (h', r) /\
    cl_rhash_get h' (sample_key 0) = Some 9 /\
    cl_rhash_contains h' (sample_key 0) = true /\
    (forall k', key_content 0 k' <> key_content 0 (sample_key 0) ->
                cl_rhash_contains h' k' = cl_rhash_contains h k' /\
                cl_rhash_get h' k' = cl_rhash_get h k') /\
    if cl_rhash_contains h (sample_key 0)
    then (exists k0 v0, r = Some k0 /\ stored h (k0, v0) /\
                        cl_rhash_get h (sample_key 0) = Some v0 /\
                        key_content 0 k0 = key_content 0 (sample_key 0)) /\
         cl_rhash_count h' = cl_rhash_count h
    else r = None /\ cl_rhash_count h' = cl_rhash_count h + 1.
Proof.
  apply (X12_put_to_map 0 [OpPut (sample_key 0) 7; OpPut (sample_key 1) 8]
           (sample_key 0) 9).
  vm_compute. reflexivity.
Defined.

Lemma get_absent kb im n h k :
  Inv kb im n h ->
  (forall x, stored h x -> kc kb x <> key_content kb k) ->
  cl_rhash_get h k = Some 0.
Proof.
  intros HI Hno. pose proof HI as [Hc [_ [_ [_ [Hm Hk]]]]]. destruct im.
  - apply (proj2 (get_stored h k Hc Hm)). rewrite Hk. exact Hno.
  - unfold cl_rhash_get. rewrite (is_map_ok _ _ _ _ HI). reflexivity.
Qed.

(** What one removal does to the count and to the answers. *)
Lemma hash_remove_count kb im n h k :
  Inv kb im n h -> n < MAX_OPS ->
  exists h' r,
    cl_rhash_remove h k = Some (h', r) /\
    Inv kb im (n + 1) h' /\
    (forall k', key_content kb k' <> key_content kb k ->
                cl_rhash_contains h' k' = cl_rhash_contains h k' /\
                cl_rhash_get h' k' = cl_rhash_get h k') /\
    cl_rhash_get h' k = Some 0 /\
    if cl_rhash_contains h k
    then cl_rhash_count h' = cl_rhash_count h - 1 /\ n_edit h' = u32 (n_edit h + 1)
    else h' = h.
Proof.
  intros HI Hlt.
  pose proof HI as [Hc [Hl [Hp [Hn0 [Hm Hk]]]]].
  destruct (hash_remove_post h k _ Hc Hl Hp)
    as [h' [r [Er [Hc' [Hl' [Hp' [Hst [Hm' [Hk' Hr]]]]]]]]].
  rewrite Hk in *.
  assert (Inv kb im (n + 1) h') as HI'.
  { unfold Inv. splits; try assumption; try congruence; lia. }
  exists h', r. split; [exact Er|]. split; [exact HI'|]. split; [|split].
  - intros k' Hne. apply (same_stored_at kb im _ _ h h' k' HI HI').
    intros x Hx. rewrite Hst. split; [intros [H _]; exact H|].
    intros H. split; [exact H|]. rewrite Hx. exact Hne.
  - apply (get_absent kb im _ h' k HI'). intros x Hx. apply Hst in Hx. exact (proj2 Hx).
  - destruct (cl_rhash_contains h k) eqn:C.
    + apply (contains_stored h k Hc) in C. rewrite Hk in C. destruct C as [x [Hx Hkx]].
      destruct r as [k0|]; [|exfalso; exact (proj2 Hr x Hx Hkx)].
      destruct Hr as [_ He]. split; [|exact He].
      destruct (count_contents h Hc (Inv_count _ _ _ _ HI ltac:(lia))) as [cl [Nd [Hlc Hin]]].
      destruct (count_contents h' Hc' (Inv_count _ _ _ _ HI' ltac:(lia)))
        as [cl' [Nd' [Hlc' Hin']]].
      rewrite Hk in Hin. rewrite Hk' in Hin'.
      rewrite <- Hlc, <- Hlc'.
      assert (~ In (key_content kb k) cl') as Hfresh.
      { intros Hi. apply Hin' in Hi. destruct Hi as [y [Hy Hky]].
        apply Hst in Hy. exact (proj2 Hy Hky). }
      rewrite (NoDup_same_length cl (key_content kb k :: cl') Nd).
      * cbn [length]. lia.
      * constructor; assumption.
      * intros c. cbn [In]. rewrite Hin, Hin'. split.
        -- intros [y [Hy Hky]].
           destruct (list_eq_dec Byte.byte_eq_dec (key_content kb k) c) as [Heq|Hne];
             [left; exact Heq|right].
           exists y. split; [|exact Hky]. apply Hst. split; [exact Hy|].
           rewrite Hky. intros Hc0. apply Hne. symmetry. exact Hc0.
        -- intros [<-|[y [Hy Hky]]].
           ++ exists x. split; assumption.
           ++ exists y. split; [|exact Hky]. apply Hst in Hy. exact (proj1 Hy).
    + destruct r as [k0|]; [|exact (proj1 Hr)].
      exfalso. destruct Hr as [[v0 [H0 K0]] _].
      pose proof (proj1 (contains_not_stored h k Hc) C) as Hno. rewrite Hk in Hno.
      exact (Hno _ H0 K0).
Qed.

(** X13: removing a key from a hash reached by public operations (fewer
    than [MAX_OPS]) succeeds and leaves the other keys contained and mapped
    as before.  When the hash contained the key, the count drops by one, the
    edit version advances and [get] returns NULL for the key; else nothing
    changes. *)
Theorem X13_remove_count (kb : Z) (im : bool) (ops : list op) (k : key)
    (Hlen : Z.of_nat (length ops) < MAX_OPS) :
  exists h h' r,
    run (cl_rhash_create kb im) ops = Some h /\
    cl_rhash_remove h k = Some (h', r) /\
    (forall k', key_content kb k' <> key_content kb k ->
                cl_rhash_contains h' k' = cl_rhash_contains h k' /\
                cl_rhash_get h' k' = cl_rhash_get h k') /\
    cl_rhash_get h' k = Some 0 /\
    if cl_rhash_contains h k
    then cl_rhash_count h' = cl_rhash_count h - 1 /\ n_edit h' = u32 (n_edit h + 1)
    else h' = h.
Proof.
  destruct (run_ok kb im ops ltac:(lia)) as [h [E [HI _]]].
  destruct (hash_remove_count kb im _ h k HI Hlen) as [h' [r [Er [_ Hrest]]]].
  exists h, h', r. split; [exact E|]. split; [exact Er|]. exact Hrest.
Qed.

Lemma X13_remove_count_witness :
  exists h h' r,
    run (cl_rhash_create 0 false) (map OpAdd (sample_keys 50)) = Some h /\
    cl_rhash_remove h (sample_key 7) = Some (h', r) /\
    (forall k', key_content 0 k' <> key_content 0 (sample_key 7) ->
                cl_rhash_contains h' k' = cl_rhash_contains h k' /\
                cl_rhash_get h' k' = cl_rhash_get h k') /\
    cl_rhash_get h' (sample_key 7) = Some 0 /\
    if cl_rhash_contains h (sample_key 7)
    then cl_rhash_count h' = cl_rhash_count h - 1 /\ n_edit h' = u32 (n_edit h + 1)
    else h' = h.
Proof.
  apply (X13_remove_count 0 false (map OpAdd (sample_keys 50)) (sample_key 7)).
  vm_compute. reflexivity.
Defined.

(** * Further properties of the iterators *)

(** An iterator made before the edit version advanced fails its check. *)
Lemma stale_iterator h h' :
  0 <= n_edit h < 2 ^ 32 -> n_edit h' = u32 (n_edit h + 1) ->
  cl_rhash_iterator_next h' (cl_rhash_iterator_create h) = None /\
  cl_rhash_iterator_value h' (cl_rhash_iterator_create h) = None.
Proof.
  intros Hr He.
  assert (cl_rhash_iterator_check h' (cl_rhash_iterator_create h) = false) as Hchk.
  { unfold cl_rhash_iterator_check, cl_rhash_iterator_create. cbn [it_edit].
    rewrite He. apply Z.eqb_neq. unfold u32.
    destruct (Z.eq_dec (n_edit h + 1) (2 ^ 32)) as [Hw|Hw].
    - rewrite Hw, Z_mod_same_full. lia.
    - rewrite Z.mod_small by lia. lia. }
  unfold cl_rhash_iterator_next, cl_rhash_iterator_value. rewrite Hchk. split; reflexivity.
Qed.

(** X14: in a debug build an iterator is tied to the edit version of its
    hash.  For a hash reached by public operations (fewer than [MAX_OPS]),
    an iterator made before an insertion (also one that only replaces an
    equal key) or before the removal of a contained key fails the assertion
    of its next call; the removal of a key that is not contained and a peek
    leave it usable. *)
Theorem X14_iterator_edit_check (kb : Z) (im : bool) (ops : list op)
    (Hlen : Z.of_nat (length ops) < MAX_OPS) :
  exists h, run (cl_rhash_create kb im) ops = Some h /\
    (forall ent h' r, cl_rhash_insert h ent = Some (h', r) ->
       cl_rhash_iterator_next h' (cl_rhash_iterator_create h) = None) /\
    (forall k h' r, cl_rhash_remove h k = Some (h', r) ->
       if cl_rhash_contains h k
       then cl_rhash_iterator_next h' (cl_rhash_iterator_create h) = None
       else cl_rhash_iterator_next h' (cl_rhash_iterator_create h) =
            cl_rhash_iterator_next h (cl_rhash_iterator_create h)) /\
    cl_rhash_iterator_next h (cl_rhash_iterator_create h) <> None /\
    cl_rhash_iterator_next (fst (cl_rhash_peek h)) (cl_rhash_iterator_create h) <> None.
Proof.
  destruct (run_ok kb im ops ltac:(lia)) as [h [E [HI _]]].
  pose proof HI as [Hc [Hl [Hp [Hn0 [Hm Hk]]]]].
  pose proof (core_edit h Hc) as Hed.
  exists h. split; [exact E|]. split; [|split; [|split]].
  - intros ent h' r Ei.
    destruct (hash_insert_post h ent _ Hc Hl Hp (Inv_order _ _ _ _ HI Hlen))
      as [h2 [r2 [E2 [_ [_ [_ [_ [_ [He _]]]]]]]]].
    rewrite Ei in E2. injection E2 as <- <-.
    apply stale_iterator; assumption.
  - intros k h' r Er.
    destruct (hash_remove_post h k _ Hc Hl Hp)
      as [h2 [r2 [E2 [_ [_ [_ [_ [_ [_ Hr]]]]]]]]].
    rewrite Er in E2. injection E2 as <- <-.
    destruct (cl_rhash_contains h k) eqn:C.
    + apply (contains_stored h k Hc) in C. destruct C as [x [Hx Hkx]].
      destruct r as [k0|]; [|exfalso; exact (proj2 Hr x Hx Hkx)].
      apply stale_iterator; [exact Hed|exact (proj2 Hr)].
    + destruct r as [k0|]; [|rewrite (proj1 Hr); reflexivity].
      exfalso. destruct Hr as [[v0 [H0 K0]] _].
      exact (proj1 (contains_not_stored h k Hc) C _ H0 K0).
  - unfold cl_rhash_iterator_next, cl_rhash_iterator_check, cl_rhash_iterator_create.
    cbn [it_edit]. rewrite Z.eqb_refl. discriminate.
  - destruct (hash_peek_result h Hc) as [_ [_ [_ Ne]]].
    unfold cl_rhash_iterator_next, cl_rhash_iterator_check, cl_rhash_iterator_create.
    cbn [it_edit]. rewrite Ne, Z.eqb_refl. discriminate.
Qed.

Lemma X14_iterator_edit_check_witness :
  exists h, run (cl_rhash_create 0 false) (map OpAdd (sample_keys 50)) = Some h /\
    (forall ent h' r, cl_rhash_insert h ent = Some (h', r) ->
       cl_rhash_iterator_next h' (cl_rhash_iterator_create h) = None) /\
    (forall k h' r, cl_rhash_remove h k = Some (h', r) ->
       if cl_rhash_contains h k
       then cl_rhash_iterator_next h' (cl_rhash_iterator_create h) = None
       else cl_rhash_iterator_next h' (cl_rhash_iterator_create h) =
            cl_rhash_iterator_next h (cl_rhash_iterator_create h)) /\
    cl_rhash_iterator_next h (cl_rhash_iterator_create h) <> None /\
    cl_rhash_iterator_next (fst (cl_rhash_peek h)) (cl_rhash_iterator_create h) <> None.
Proof.
  apply (X14_iterator_edit_check 0 false (map OpAdd (sample_keys 50))).
  vm_compute. reflexivity.
Defined.

(** The iterator that [cl_rhash_iterator_next] leaves behind with a key
    stands on a slot of its table that holds the key. *)
Lemma iterator_next_loop_entry h :
  1 <= cl_rhash_table_size (h_lo h) <= 2 ^ 31 ->
  1 <= cl_rhash_table_size (h_hi h) <= 2 ^ 31 ->
  0 <= n_peek (h_hi h) <= 2 ^ 31 ->
  forall fuel it it' k,
    iterator_next_loop fuel h it = (it', Some k) ->
    exists t e, cl_rhash_iterator_table h it' = Some t /\
                (t = h_lo h \/ t = h_hi h) /\
                0 <= n_slot it' < cl_rhash_table_size t /\
                table t (n_slot it') = Some e /\ fst e = k.
Proof.
  intros Slo Shi Phi. induction fuel as [|fuel IH]; intros [tab slot ed] it' k E.
  - cbn in E. discriminate.
  - pose proof (u32_range (slot + 1)) as Hn.
    cbn [iterator_next_loop] in E.
    destruct tab.
    + change (cl_rhash_iterator_done (mkIter CL_RHASH_TABLE_LO slot ed)) with false in E.
      cbv iota in E.
      destruct (Z.lt_ge_cases (u32 (slot + 1)) (cl_rhash_table_size (h_lo h))) as [Hin|Hout].
      * rewrite next_slot_lo_in in E by exact Hin.
        unfold cl_rhash_iterator_entry, cl_rhash_table_ptr in E.
        cbn [cl_rhash_iterator_table n_table n_slot] in E.
        destruct (table (h_lo h) (u32 (slot + 1))) as [e|] eqn:Et.
        -- injection E as <- <-. exists (h_lo h), e. cbn [cl_rhash_iterator_table n_table n_slot].
           splits; auto; lia.
        -- exact (IH _ _ _ E).
      * destruct (Z.lt_ge_cases (n_peek (h_hi h)) (cl_rhash_table_size (h_hi h))) as [Pin|Pout].
        -- rewrite next_slot_lo_hi in E by assumption.
           unfold cl_rhash_iterator_entry, cl_rhash_table_ptr in E.
           cbn [cl_rhash_iterator_table n_table n_slot] in E.
           destruct (table (h_hi h) (n_peek (h_hi h))) as [e|] eqn:Et.
           ++ injection E as <- <-. exists (h_hi h), e.
              cbn [cl_rhash_iterator_table n_table n_slot]. splits; auto; lia.
           ++ exact (IH _ _ _ E).
        -- rewrite next_slot_lo_none in E by assumption.
           unfold cl_rhash_iterator_entry in E. cbn [cl_rhash_iterator_table n_table] in E.
           destruct fuel; cbn in E; discriminate.
    + change (cl_rhash_iterator_done (mkIter CL_RHASH_TABLE_HI slot ed)) with false in E.
      cbv iota in E.
      destruct (Z.lt_ge_cases (u32 (slot + 1)) (cl_rhash_table_size (h_hi h))) as [Hin|Hout].
      * rewrite next_slot_hi_in in E by exact Hin.
        unfold cl_rhash_iterator_entry, cl_rhash_table_ptr in E.
        cbn [cl_rhash_iterator_table n_table n_slot] in E.
        destruct (table (h_hi h) (u32 (slot + 1))) as [e|] eqn:Et.
        -- injection E as <- <-. exists (h_hi h), e. cbn [cl_rhash_iterator_table n_table n_slot].
           splits; auto; lia.
        -- exact (IH _ _ _ E).
      * rewrite next_slot_hi_none in E by assumption.
        unfold cl_rhash_iterator_entry in E. cbn [cl_rhash_iterator_table n_table] in E.
        destruct fuel; cbn in E; discriminate.
    + cbn in E. discriminate.
Qed.

Lemma iterate_values_spec kb im n h :
  Inv kb im n h ->
  forall ks fuel it,
    remaining h it = ks -> it_edit it = n_edit h -> (length ks < fuel)%nat ->
    exists kvs, iterate_values fuel h it = Some kvs /\ map fst kvs = ks /\
                forall k v, In (k, v) kvs -> cl_rhash_get h k = Some v.
Proof.
  intros HI. pose proof HI as [Hc [_ [_ [_ [Hm Hk]]]]].
  pose proof (size_bounds _ (wf_order _ (core_lo h Hc))) as Slo.
  pose proof (size_bounds _ (wf_order _ (core_hi h Hc))) as Shi.
  pose proof (wf_peek_range _ (core_hi h Hc)) as Phi.
  induction ks as [|k ks IH]; intros fuel it Hr He Hf.
  - destruct fuel as [|fuel]; [inversion Hf|]. cbn [iterate_values].
    unfold cl_rhash_iterator_next, cl_rhash_iterator_check.
    rewrite He, Z.eqb_refl.
    destruct (iterator_next_loop_spec h Slo Shi Phi _ it
                (iter_measure_bound h it ltac:(lia) ltac:(lia) ltac:(lia))) as [H0 _].
    specialize (H0 Hr).
    destruct (iterator_next_loop _ h it) as [it' r]. simpl in H0. subst r.
    exists []. split; [reflexivity|]. split; [reflexivity|]. intros k v [].
  - destruct fuel as [|fuel]; [inversion Hf|]. cbn [iterate_values].
    unfold cl_rhash_iterator_next, cl_rhash_iterator_check.
    rewrite He, Z.eqb_refl.
    destruct (iterator_next_loop_spec h Slo Shi Phi _ it
                (iter_measure_bound h it ltac:(lia) ltac:(lia) ltac:(lia))) as [_ H1].
    destruct (H1 k ks Hr) as [it' [E [Hr' He']]]. rewrite E.
    destruct (iterator_next_loop_entry h Slo Shi Phi _ _ _ _ E)
      as [t [e [Et [Ht [Hs [Es Hfst]]]]]].
    assert (stored h e) as Hst.
    { destruct Ht as [->| ->]; [left|right]; exists (n_slot it'); split; assumption. }
    assert (exists v, cl_rhash_iterator_value h it' = Some v /\ cl_rhash_get h k = Some v)
      as [v [Ev Eg]].
    { unfold cl_rhash_iterator_value, cl_rhash_iterator_check.
      rewrite He', He, Z.eqb_refl. rewrite (is_map_ok _ _ _ _ HI). destruct im.
      - rewrite Et. destruct (Z.ltb_spec (n_slot it') (cl_rhash_table_size t)); [|lia].
        unfold slot_value, cl_rhash_table_ptr. rewrite Es.
        exists (snd e). split; [reflexivity|].
        apply (proj1 (get_stored h k Hc Hm) e Hst). unfold kc. rewrite Hfst. reflexivity.
      - exists 0. split; [reflexivity|]. unfold cl_rhash_get.
        rewrite (is_map_ok _ _ _ _ HI). reflexivity. }
    rewrite Ev.
    destruct (IH fuel it' Hr' ltac:(congruence) ltac:(simpl in Hf; lia))
      as [kvs [Ei [Hmap Hget]]].
    rewrite Ei. exists ((k, v) :: kvs). split; [reflexivity|].
    split; [cbn [map fst]; rewrite Hmap; reflexivity|].
    intros k' v' [Heq|Hin]; [injection Heq as <- <-; exact Eg|exact (Hget _ _ Hin)].
Qed.

Lemma remaining_create h :
  WFt (h_lo h) -> WFt (h_hi h) ->
  remaining h (cl_rhash_iterator_create h) = slot_keys (h_lo h) ++ slot_keys (h_hi h).
Proof.
  intros Wl Wh. pose proof (wf_peek_range _ Wl) as Pl.
  unfold cl_rhash_iterator_create. rewrite remaining_lo.
  rewrite (slot_keys_peek _ Wl), (slot_keys_peek _ Wh).
  replace (u32 (u32 (n_peek (h_lo h) - 1) + 1)) with (n_peek (h_lo h)); [reflexivity|].
  unfold u32. rewrite Zplus_mod_idemp_l.
  replace (n_peek (h_lo h) - 1 + 1) with (n_peek (h_lo h)) by lia.
  symmetry. apply Z.mod_small. lia.
Qed.

(** X15: in a state reached by public operations (at most [MAX_OPS] of
    them), an iteration that asks [cl_rhash_iterator_value] after every key
    runs without a failed assertion, returns the keys of the plain
    iteration, and the value it returns with a key is the value [get]
    returns for that key (NULL throughout for a set). *)
Theorem X15_iterator_values (kb : Z) (im : bool) (ops : list op)
    (Hlen : Z.of_nat (length ops) <= MAX_OPS) :
  exists h kvs,
    run (cl_rhash_create kb im) ops = Some h /\
    cl_rhash_iterate_values h = Some kvs /\
    cl_rhash_iterate h = Some (map fst kvs) /\
    Z.of_nat (length kvs) = cl_rhash_count h /\
    forall k v, In (k, v) kvs -> cl_rhash_get h k = Some v.
Proof.
  destruct (run_ok kb im ops Hlen) as [h [E [HI _]]].
  pose proof HI as [Hc _].
  destruct (iterate_all h Hc (Inv_count _ _ _ _ HI Hlen)) as [Hi [Hl _]].
  destruct (iterate_values_spec kb im _ h HI (slot_keys (h_lo h) ++ slot_keys (h_hi h))
              (S (Z.to_nat (cl_rhash_count h))) (cl_rhash_iterator_create h))
    as [kvs [Ev [Hmap Hget]]].
  - apply remaining_create; [exact (core_lo h Hc)|exact (core_hi h Hc)].
  - reflexivity.
  - rewrite <- Hl. lia.
  - exists h, kvs. split; [exact E|]. split; [exact Ev|]. rewrite Hmap.
    split; [exact Hi|]. split; [|exact Hget].
    rewrite <- Hl, <- Hmap, length_map. reflexivity.
Qed.

Lemma X15_iterator_values_witness :
  exists h kvs,
    run (cl_rhash_create 0 true)
        [OpPut (sample_key 0) 7; OpPut (sample_key 1) 8; OpPut (sample_key 0) 9] = Some h /\
    cl_rhash_iterate_values h = Some kvs /\
    cl_rhash_iterate h = Some (map fst kvs) /\
    Z.of_nat (length kvs) = cl_rhash_count h /\
    forall k v, In (k, v) kvs -> cl_rhash_get h k = Some v.
Proof.
  apply (X15_iterator_values 0 true
           [OpPut (sample_key 0) 7; OpPut (sample_key 1) 8; OpPut (sample_key 0) 9]).
  vm_compute. discriminate.
Defined.

(** When [cl_rhash_iterator_next] returns NULL the iterator is done. *)
Lemma iterator_next_loop_done h :
  1 <= cl_rhash_table_size (h_lo h) <= 2 ^ 31 ->
  1 <= cl_rhash_table_size (h_hi h) <= 2 ^ 31 ->
  0 <= n_peek (h_hi h) <= 2 ^ 31 ->
  forall fuel it it',
    iter_measure h it <= Z.of_nat fuel ->
    iterator_next_loop fuel h it = (it', None) ->
    n_table it' = CL_RHASH_TABLE_NONE /\ it_edit it' = it_edit it.
Proof.
  intros Slo Shi Phi. induction fuel as [|fuel IH]; intros [tab slot ed] it' Hm E.
  - exfalso. unfold iter_measure in Hm. cbn [n_table n_slot] in Hm.
    destruct tab; simpl in Hm; lia.
  - pose proof (u32_range (slot + 1)) as Hn.
    unfold iter_measure in Hm. cbn [n_table n_slot] in Hm.
    cbn [iterator_next_loop] in E.
    destruct tab.
    + change (cl_rhash_iterator_done (mkIter CL_RHASH_TABLE_LO slot ed)) with false in E.
      cbv iota in E.
      destruct (Z.lt_ge_cases (u32 (slot + 1)) (cl_rhash_table_size (h_lo h))) as [Hin|Hout].
      * rewrite next_slot_lo_in in E by exact Hin.
        unfold cl_rhash_iterator_entry, cl_rhash_table_ptr in E.
        cbn [cl_rhash_iterator_table n_table n_slot] in E.
        destruct (table (h_lo h) (u32 (slot + 1))) as [e|]; [discriminate|].
        apply (IH _ _) in E; [exact E|].
        unfold iter_measure. cbn [n_table n_slot].
        rewrite (u32_succ_small (u32 (slot + 1))) by lia. lia.
      * destruct (Z.lt_ge_cases (n_peek (h_hi h)) (cl_rhash_table_size (h_hi h))) as [Pin|Pout].
        -- rewrite next_slot_lo_hi in E by assumption.
           unfold cl_rhash_iterator_entry, cl_rhash_table_ptr in E.
           cbn [cl_rhash_iterator_table n_table n_slot] in E.
           destruct (table (h_hi h) (n_peek (h_hi h))) as [e|]; [discriminate|].
           apply (IH _ _) in E; [exact E|].
           unfold iter_measure. cbn [n_table n_slot].
           rewrite (u32_succ_small (n_peek (h_hi h))) by lia. lia.
        -- rewrite next_slot_lo_none in E by assumption.
           unfold cl_rhash_iterator_entry in E. cbn [cl_rhash_iterator_table n_table] in E.
           destruct fuel; cbn in E; injection E as <-; split; reflexivity.
    + change (cl_rhash_iterator_done (mkIter CL_RHASH_TABLE_HI slot ed)) with false in E.
      cbv iota in E.
      destruct (Z.lt_ge_cases (u32 (slot + 1)) (cl_rhash_table_size (h_hi h))) as [Hin|Hout].
      * rewrite next_slot_hi_in in E by exact Hin.
        unfold cl_rhash_iterator_entry, cl_rhash_table_ptr in E.
        cbn [cl_rhash_iterator_table n_table n_slot] in E.
        destruct (table (h_hi h) (u32 (slot + 1))) as [e|]; [discriminate|].
        apply (IH _ _) in E; [exact E|].
        unfold iter_measure. cbn [n_table n_slot].
        rewrite (u32_succ_small (u32 (slot + 1))) by lia. lia.
      * rewrite next_slot_hi_none in E by assumption.
        unfold cl_rhash_iterator_entry in E. cbn [cl_rhash_iterator_table n_table] in E.
        destruct fuel; cbn in E; injection E as <-; split; reflexivity.
    + cbn in E. injection E as <-. split; reflexivity.
Qed.

(** X16: in a state reached by public operations (at most [MAX_OPS] of
    them), an iterator whose call of [cl_rhash_iterator_next] has returned
    NULL is done: every further call returns NULL and leaves it as it is,
    and [cl_rhash_iterator_value] returns NULL. *)
Theorem X16_iterator_stays_done (kb : Z) (im : bool) (ops : list op)
    (Hlen : Z.of_nat (length ops) <= MAX_OPS) :
  exists h, run (cl_rhash_create kb im) ops = Some h /\
    forall it it',
      cl_rhash_iterator_next h it = Some (it', None) ->
      cl_rhash_iterator_done it' = true /\
      cl_rhash_iterator_next h it' = Some (it', None) /\
      cl_rhash_iterator_value h it' = Some 0.
Proof.
  destruct (run_ok kb im ops Hlen) as [h [E [HI _]]].
  pose proof HI as [Hc _].
  pose proof (size_bounds _ (wf_order _ (core_lo h Hc))) as Slo.
  pose proof (size_bounds _ (wf_order _ (core_hi h Hc))) as Shi.
  pose proof (wf_peek_range _ (core_hi h Hc)) as Phi.
  exists h. split; [exact E|]. intros it it' En.
  unfold cl_rhash_iterator_next in En.
  destruct (cl_rhash_iterator_check h it) eqn:Chk; [|discriminate].
  injection En as En.
  apply (iterator_next_loop_done h Slo Shi Phi) in En;
    [|apply iter_measure_bound; lia].
  destruct En as [Hnone Hed].
  assert (cl_rhash_iterator_check h it' = true) as Chk'.
  { unfold cl_rhash_iterator_check in *. rewrite Hed. exact Chk. }
  unfold cl_rhash_iterator_done, cl_rhash_iterator_next, cl_rhash_iterator_value.
  rewrite Chk', Hnone. split; [reflexivity|]. split.
  - replace (Z.to_nat (cl_rhash_table_size (h_lo h) + cl_rhash_table_size (h_hi h) + 2))
      with (S (Z.to_nat (cl_rhash_table_size (h_lo h) + cl_rhash_table_size (h_hi h) + 1)))
      by lia.
    cbn [iterator_next_loop]. unfold cl_rhash_iterator_done. rewrite Hnone. reflexivity.
  - rewrite (is_map_ok _ _ _ _ HI). unfold cl_rhash_iterator_table. rewrite Hnone.
    destruct im; reflexivity.
Qed.

Lemma X16_iterator_stays_done_witness :
  exists h, run (cl_rhash_create 0 false) (map OpAdd (sample_keys 50)) = Some h /\
    forall it it',
      cl_rhash_iterator_next h it = Some (it', None) ->
      cl_rhash_iterator_done it' = true /\
      cl_rhash_iterator_next h it' = Some (it', None) /\
      cl_rhash_iterator_value h it' = Some 0.
Proof.
  apply (X16_iterator_stays_done 0 false (map OpAdd (sample_keys 50))).
  vm_compute. discriminate.
Defined.

(** * Further invariants of the two tables *)

(** X17: the rehashing keeps to its schedule.  In every state reached by
    public operations (at most [MAX_OPS] of them) the entries of the high
    table plus twice the entries of the low table are at most 3/4 of the
    size of the high table; the high table is strictly below that limit
    when the low table is empty; and a low table that holds entries has
    half the size of the high table. *)
Theorem X17_rehash_schedule (kb : Z) (im : bool) (ops : list op)
    (Hlen : Z.of_nat (length ops) <= MAX_OPS) :
  exists h, run (cl_rhash_create kb im) ops = Some h /\
    4 * (n_entries (h_hi h) + 2 * n_entries (h_lo h)) <= 3 * cl_rhash_table_size (h_hi h) /\
    (n_entries (h_lo h) = 0 ->
     4 * n_entries (h_hi h) < 3 * cl_rhash_table_size (h_hi h)) /\
    (0 < n_entries (h_lo h) ->
     cl_rhash_table_size (h_hi h) = 2 * cl_rhash_table_size (h_lo h)).
Proof.
  destruct (run_ok kb im ops Hlen) as [h [E [[Hc [Hl _]] _]]].
  exists h. split; [exact E|].
  destruct (core_sizes h Hc) as [_ [Hlim [_ [_ [_ Hsz]]]]].
  pose proof (load_sum h Hl) as L1. pose proof (load_lo0 h Hl) as L2.
  split; [lia|]. split.
  - intros Hz. specialize (L2 Hz). lia.
  - intros Hpos. destruct Hsz as [Hz|Hs]; [lia|exact Hs].
Qed.

Lemma X17_rehash_schedule_witness :
  exists h, run (cl_rhash_create 0 false) (map OpAdd (sample_keys 50)) = Some h /\
    4 * (n_entries (h_hi h) + 2 * n_entries (h_lo h)) <= 3 * cl_rhash_table_size (h_hi h) /\
    (n_entries (h_lo h) = 0 ->
     4 * n_entries (h_hi h) < 3 * cl_rhash_table_size (h_hi h)) /\
    (0 < n_entries (h_lo h) ->
     cl_rhash_table_size (h_hi h) = 2 * cl_rhash_table_size (h_lo h)).
Proof.
  apply (X17_rehash_schedule 0 false (map OpAdd (sample_keys 50))).
  vm_compute. discriminate.
Defined.

(** X18: in every state reached by public operations (at most [MAX_OPS] of
    them) the 32-bit byte offset that [cl_rhash_table_ptr] computes for a
    slot of either table is the exact product of the slot and the entry
    width: it does not wrap around, so different slots never share bytes. *)
Theorem X18_slot_offsets_exact (kb : Z) (im : bool) (ops : list op)
    (Hlen : Z.of_nat (length ops) <= MAX_OPS) :
  exists h, run (cl_rhash_create kb im) ops = Some h /\
    forall slot,
      (0 <= slot < cl_rhash_table_size (h_lo h) ->
       cl_rhash_table_offset (h_lo h) slot = slot * n_bytes (h_lo h)) /\
      (0 <= slot < cl_rhash_table_size (h_hi h) ->
       cl_rhash_table_offset (h_hi h) slot = slot * n_bytes (h_hi h)).
Proof.
  destruct (run_ok kb im ops Hlen) as [h [E [HI _]]].
  exists h. split; [exact E|]. exact (offset_exact kb im _ h HI Hlen).
Qed.

Lemma X18_slot_offsets_exact_witness :
  exists h, run (cl_rhash_create 0 true)
                [OpPut (sample_key 0) 7; OpPut (sample_key 1) 8] = Some h /\
    forall slot,
      (0 <= slot < cl_rhash_table_size (h_lo h) ->
       cl_rhash_table_offset (h_lo h) slot = slot * n_bytes (h_lo h)) /\
      (0 <= slot < cl_rhash_table_size (h_hi h) ->
       cl_rhash_table_offset (h_hi h) slot = slot * n_bytes (h_hi h)).
Proof.
  apply (X18_slot_offsets_exact 0 true [OpPut (sample_key 0) 7; OpPut (sample_key 1) 8]).
  vm_compute. discriminate.
Defined.

(** X19: expansion, shrinking and clearing keep the shape of the tables.
    In every state reached by public operations (at most [MAX_OPS] of them)
    both tables have the key width given at creation and the entry width of
    the mode (one pointer for a set, two for a map), and the assertion of
    [cl_rhash_is_map] holds, with the mode of creation as its result. *)
Theorem X19_shape_kept (kb : Z) (im : bool) (ops : list op)
    (Hlen : Z.of_nat (length ops) <= MAX_OPS) :
  exists h, run (cl_rhash_create kb im) ops = Some h /\
    cl_rhash_is_map h = Some im /\
    key_bytes (h_lo h) = kb /\ key_bytes (h_hi h) = kb /\
    n_bytes (h_lo h) = (if im then 2 * ptr_bytes else ptr_bytes) /\
    n_bytes (h_hi h) = (if im then 2 * ptr_bytes else ptr_bytes).
Proof.
  destruct (run_ok kb im ops Hlen) as [h [E [HI _]]].
  exists h. split; [exact E|]. split; [exact (is_map_ok _ _ _ _ HI)|].
  destruct HI as [Hc [_ [_ [_ [Hm Hk]]]]].
  pose proof (core_kb h Hc) as K. pose proof (core_nb h Hc) as N.
  pose proof (core_map h Hc) as M. rewrite Hm in M.
  splits; try congruence; rewrite ?N, M; destruct im; reflexivity.
Qed.

Lemma X19_shape_kept_witness :
  exists h, run (cl_rhash_create 0 false)
                (map OpAdd (sample_keys 48) ++ map OpRemove (sample_keys 16)) = Some h /\
    cl_rhash_is_map h = Some false /\
    key_bytes (h_lo h) = 0 /\ key_bytes (h_hi h) = 0 /\
    n_bytes (h_lo h) = ptr_bytes /\
    n_bytes (h_hi h) = ptr_bytes.
Proof.
  apply (X19_shape_kept 0 false (map OpAdd (sample_keys 48) ++ map OpRemove (sample_keys 16))).
  vm_compute. discriminate.
Defined.

(** * Removal from a table, clearing, migration *)

(** X20: removing a key from a well-formed table that has an empty slot
    returns NULL and leaves the table as it is when no equal key is
    contained.  Else it returns the equal key that was stored and closes the
    gap by shifting the following entries back: the table stays well-formed,
    has one entry less, no longer contains the key, and contains every other
    key as before. *)
Theorem X20_table_remove (t : cl_rhash_table) (k : key)
    (Hwf : WFt t) (Hroom : n_entries t < cl_rhash_table_size t) :
  (forall k', cl_rhash_table_key_equals t k' k = false ->
     cl_rhash_table_contains (fst (cl_rhash_table_remove t k)) k' =
     cl_rhash_table_contains t k') /\
  match snd (cl_rhash_table_remove t k) with
  | None => cl_rhash_table_contains t k = false /\ fst (cl_rhash_table_remove t k) = t
  | Some k0 =>
      WFt (fst (cl_rhash_table_remove t k)) /\
      order (fst (cl_rhash_table_remove t k)) = order t /\
      n_entries (fst (cl_rhash_table_remove t k)) = n_entries t - 1 /\
      cl_rhash_table_contains (fst (cl_rhash_table_remove t k)) k = false /\
      cl_rhash_table_key_equals t k0 k = true /\
      exists s v0, 0 <= s < cl_rhash_table_size t /\
                   cl_rhash_table_ptr t s = Some (k0, v0)
  end.
Proof.
  pose proof (table_remove_post t k Hwf Hroom) as P. unfold remove_post in P.
  destruct (snd (cl_rhash_table_remove t k)) as [k0|].
  - destruct P as [Sh [W [[v0 [[s [Hs Es]] Hk0]] [Hn Hst]]]].
    pose proof Sh as [So [Sk Sn]].
    split; [|splits; try assumption].
    + intros k' Hne. apply key_equals_false in Hne. apply bool_iff.
      rewrite (table_contains_present _ W), (table_contains_present t Hwf).
      unfold present. rewrite Sk. split.
      * intros [e [He Hke]]. exists e. split; [exact (proj1 (proj1 (Hst e) He))|exact Hke].
      * intros [e [He Hke]]. exists e. split; [|exact Hke]. apply Hst.
        split; [exact He|]. rewrite <- Hke. exact Hne.
    + apply (table_not_contains _ _ W). rewrite Sk. intros e He.
      exact (proj2 (proj1 (Hst e) He)).
    + apply key_equals_content. exact Hk0.
    + exists s, v0. split; assumption.
  - destruct P as [-> Hno]. split; [reflexivity|]. split; [|reflexivity].
    apply (table_not_contains t k Hwf). exact Hno.
Qed.

Lemma X20_table_remove_witness :
  (forall k', cl_rhash_table_key_equals sample_table k' (sample_key 0) = false ->
     cl_rhash_table_contains (fst (cl_rhash_table_remove sample_table (sample_key 0))) k' =
     cl_rhash_table_contains sample_table k') /\
  match snd (cl_rhash_table_remove sample_table (sample_key 0)) with
  | None => cl_rhash_table_contains sample_table (sample_key 0) = false /\
            fst (cl_rhash_table_remove sample_table (sample_key 0)) = sample_table
  | Some k0 =>
      WFt (fst (cl_rhash_table_remove sample_table (sample_key 0))) /\
      order (fst (cl_rhash_table_remove sample_table (sample_key 0))) = order sample_table /\
      n_entries (fst (cl_rhash_table_remove sample_table (sample_key 0))) =
        n_entries sample_table - 1 /\
      cl_rhash_table_contains (fst (cl_rhash_table_remove sample_table (sample_key 0)))
        (sample_key 0) = false /\
      cl_rhash_table_key_equals sample_table k0 (sample_key 0) = true /\
      exists s v0, 0 <= s < cl_rhash_table_size sample_table /\
                   cl_rhash_table_ptr sample_table s = Some (k0, v0)
  end.
Proof.
  apply (X20_table_remove sample_table (sample_key 0)).
  - exact sample_table_wf.
  - vm_compute. reflexivity.
Defined.

(** X21: clearing a table of any order up to 31, whatever it holds, leaves
    a well-formed table of the minimum order with every slot empty: it
    contains no key and has nothing to peek at.  The key and entry widths
    are kept; the peek slot is set to the size the table had before. *)
Theorem X21_table_clear (t : cl_rhash_table) (k : key) (Ho : 0 <= order t <= 31) :
  WFt (cl_rhash_table_clear t) /\
  order (cl_rhash_table_clear t) = CL_HASH_MIN_ORDER /\
  n_entries (cl_rhash_table_clear t) = 0 /\
  n_peek (cl_rhash_table_clear t) = cl_rhash_table_size t /\
  key_bytes (cl_rhash_table_clear t) = key_bytes t /\
  n_bytes (cl_rhash_table_clear t) = n_bytes t /\
  (forall s, cl_rhash_table_ptr (cl_rhash_table_clear t) s = None) /\
  cl_rhash_table_contains (cl_rhash_table_clear t) k = false /\
  cl_rhash_table_peek (cl_rhash_table_clear t) = (cl_rhash_table_clear t, None).
Proof.
  destruct (table_clear_post t Ho) as [W [Hnone [Hn [Hor [Hkb Hnb]]]]].
  splits; try assumption.
  - unfold cl_rhash_table_clear. tsimpl.
    destruct (negb (order t =? CL_HASH_MIN_ORDER)); reflexivity.
  - apply (table_not_contains _ _ W). intros e He. exfalso.
    exact (holds_empty _ _ Hnone He).
  - unfold cl_rhash_table_peek. rewrite Hn. reflexivity.
Qed.

Lemma X21_table_clear_witness :
  WFt (cl_rhash_table_clear sample_table) /\
  order (cl_rhash_table_clear sample_table) = CL_HASH_MIN_ORDER /\
  n_entries (cl_rhash_table_clear sample_table) = 0 /\
  n_peek (cl_rhash_table_clear sample_table) = cl_rhash_table_size sample_table /\
  key_bytes (cl_rhash_table_clear sample_table) = key_bytes sample_table /\
  n_bytes (cl_rhash_table_clear sample_table) = n_bytes sample_table /\
  (forall s, cl_rhash_table_ptr (cl_rhash_table_clear sample_table) s = None) /\
  cl_rhash_table_contains (cl_rhash_table_clear sample_table) (sample_key 0) = false /\
  cl_rhash_table_peek (cl_rhash_table_clear sample_table) =
    (cl_rhash_table_clear sample_table, None).
Proof.
  apply (X21_table_clear sample_table (sample_key 0)).
  vm_compute. split; discriminate.
Defined.

Lemma core_no_shadow h k :
  Core h ->
  cl_rhash_table_contains (h_lo h) k && cl_rhash_table_contains (h_hi h) k = false.
Proof.
  intros Hc.
  destruct (cl_rhash_table_contains (h_lo h) k) eqn:E1; [|reflexivity].
  destruct (cl_rhash_table_contains (h_hi h) k) eqn:E2; [|reflexivity].
  exfalso.
  apply (table_contains_present _ (core_lo h Hc)) in E1. destruct E1 as [e1 [H1 K1]].
  apply (table_contains_present _ (core_hi h Hc)) in E2. destruct E2 as [e2 [H2 K2]].
  apply (core_disj h Hc e1 e2 H1 H2). rewrite (core_kb h Hc) in K1. congruence.
Qed.

(** X22: moving one entry between the two tables changes no answer.  In a
    state reached by public operations (at most [MAX_OPS] of them), when the
    low table holds an entry [cl_rhash_move_higher] succeeds, and when the
    high table holds an entry and is above the minimum order
    [cl_rhash_move_lower] succeeds: exactly one entry changes its table,
    [contains] and [get] answer as before for every key, no key is in both
    tables, and the edit version stays. *)
Theorem X22_migration (kb : Z) (im : bool) (ops : list op)
    (Hlen : Z.of_nat (length ops) <= MAX_OPS) :
  exists h, run (cl_rhash_create kb im) ops = Some h /\
    (0 < n_entries (h_lo h) ->
     exists h', cl_rhash_move_higher h = Some h' /\
       n_entries (h_lo h') = n_entries (h_lo h) - 1 /\
       n_entries (h_hi h') = n_entries (h_hi h) + 1 /\
       n_edit h' = n_edit h /\
       forall k, cl_rhash_contains h' k = cl_rhash_contains h k /\
                 cl_rhash_get h' k = cl_rhash_get h k /\
                 cl_rhash_table_contains (h_lo h') k &&
                 cl_rhash_table_contains (h_hi h') k = false) /\
    (0 < n_entries (h_hi h) -> CL_HASH_MIN_ORDER < order (h_hi h) ->
     exists h', cl_rhash_move_lower h = Some h' /\
       n_entries (h_lo h') = n_entries (h_lo h) + 1 /\
       n_entries (h_hi h') = n_entries (h_hi h) - 1 /\
       n_edit h' = n_edit h /\
       forall k, cl_rhash_contains h' k = cl_rhash_contains h k /\
                 cl_rhash_get h' k = cl_rhash_get h k /\
                 cl_rhash_table_contains (h_lo h') k &&
                 cl_rhash_table_contains (h_hi h') k = false).
Proof.
  destruct (run_ok kb im ops Hlen) as [h [E [HI _]]].
  pose proof HI as [Hc [Hl [_ [_ [Hm Hk]]]]].
  destruct (load_room h Hc Hl) as [R1 [R2 _]].
  exists h. split; [exact E|]. split.
  - intros Hpos.
    destruct (move_higher_post h Hc Hpos R2 R1)
      as [h' [Em [Hc' [N1 [N2 [Hst [_ [[_ [Sk _]] [Hm' He]]]]]]]]].
    exists h'. splits; try assumption. intros k.
    destruct (same_stored_core kb h h' k Hc Hc' Hm' Hk ltac:(congruence)
                ltac:(intros x _; apply Hst)) as [A B].
    splits; try assumption. apply core_no_shadow. exact Hc'.
  - intros Hpos Hord.
    destruct (move_lower_post h Hc Hpos Hord R2 R1)
      as [h' [Em [Hc' [N1 [N2 [Hst [_ [[_ [Sk _]] [Hm' He]]]]]]]]].
    exists h'. splits; try assumption. intros k.
    destruct (same_stored_core kb h h' k Hc Hc' Hm' Hk ltac:(congruence)
                ltac:(intros x _; apply Hst)) as [A B].
    splits; try assumption. apply core_no_shadow. exact Hc'.
Qed.

Lemma X22_migration_witness :
  exists h, run (cl_rhash_create 0 false) (map OpAdd (sample_keys 50)) = Some h /\
    (0 < n_entries (h_lo h) ->
     exists h', cl_rhash_move_higher h = Some h' /\
       n_entries (h_lo h') = n_entries (h_lo h) - 1 /\
       n_entries (h_hi h') = n_entries (h_hi h) + 1 /\
       n_edit h' = n_edit h /\
       forall k, cl_rhash_contains h' k = cl_rhash_contains h k /\
                 cl_rhash_get h' k = cl_rhash_get h k /\
                 cl_rhash_table_contains (h_lo h') k &&
                 cl_rhash_table_contains (h_hi h') k = false) /\
    (0 < n_entries (h_hi h) -> CL_HASH_MIN_ORDER < order (h_hi h) ->
     exists h', cl_rhash_move_lower h = Some h' /\
       n_entries (h_lo h') = n_entries (h_lo h) + 1 /\
       n_entries (h_hi h') = n_entries (h_hi h) - 1 /\
       n_edit h' = n_edit h /\
       forall k, cl_rhash_contains h' k = cl_rhash_contains h k /\
                 cl_rhash_get h' k = cl_rhash_get h k /\
                 cl_rhash_table_contains (h_lo h') k &&
                 cl_rhash_table_contains (h_hi h') k = false).
Proof.
  apply (X22_migration 0 false (map OpAdd (sample_keys 50))).
  vm_compute. discriminate.
Defined.

(** X23: the tables grow with the use.  After [n] public operations on a
    newly created hash ([n] at most [MAX_OPS]) the hash holds at most [n]
    entries, the high table has at most [8 n / 3] slots (64 for small [n])
    and stays below the maximum order while [n] is below [MAX_OPS], and the
    low table is no larger than the high table. *)
Theorem X23_space_bound (kb : Z) (im : bool) (ops : list op)
    (Hlen : Z.of_nat (length ops) <= MAX_OPS) :
  exists h, run (cl_rhash_create kb im) ops = Some h /\
    cl_rhash_count h <= Z.of_nat (length ops) /\
    3 * cl_rhash_table_size (h_hi h) <= Z.max 192 (8 * Z.of_nat (length ops)) /\
    cl_rhash_table_size (h_lo h) <= cl_rhash_table_size (h_hi h) /\
    (Z.of_nat (length ops) < MAX_OPS -> order (h_hi h) < CL_HASH_MAX_ORDER).
Proof.
  destruct (run_ok kb im ops Hlen) as [h [E [HI _]]].
  exists h. split; [exact E|].
  destruct (count_sum _ _ _ _ HI Hlen) as [Hcnt _].
  pose proof HI as [Hc [_ [[P1 P2] _]]].
  split; [lia|]. split; [exact P2|]. split; [|exact (Inv_order _ _ _ _ HI)].
  pose proof (core_hi_ord h Hc) as Ho. unfold CL_HASH_MIN_ORDER, CL_HASH_MAX_ORDER in Ho.
  pose proof (wf_order _ (core_lo h Hc)) as Hol.
  rewrite !size_pow by lia. apply Z.pow_le_mono_r; [lia|].
  destruct (core_ord h Hc) as [[O1 _]|[O1 [O2 _]]]; unfold CL_HASH_MIN_ORDER in *; lia.
Qed.

Lemma X23_space_bound_witness :
  exists h, run (cl_rhash_create 0 false) (map OpAdd (sample_keys 50)) = Some h /\
    cl_rhash_count h <= Z.of_nat (length (map OpAdd (sample_keys 50))) /\
    3 * cl_rhash_table_size (h_hi h)
      <= Z.max 192 (8 * Z.of_nat (length (map OpAdd (sample_keys 50)))) /\
    cl_rhash_table_size (h_lo h) <= cl_rhash_table_size (h_hi h) /\
    (Z.of_nat (length (map OpAdd (sample_keys 50))) < MAX_OPS ->
     order (h_hi h) < CL_HASH_MAX_ORDER).
Proof.
  apply (X23_space_bound 0 false (map OpAdd (sample_keys 50))).
  vm_compute. discriminate.
Defined.

(** * The low table at the minimum order *)

(** The table functions never change the order of a table. *)
Lemma order_entry_update t s : order (cl_rhash_table_entry_update t s) = order t.
Proof. unfold cl_rhash_table_entry_update. destruct (s <? n_peek t); reflexivity. Qed.

Lemma order_shift_forward_loop fuel :
  forall t hcode pr p, order (shift_forward_loop fuel t hcode pr p) = order t.
Proof.
  induction fuel as [|fuel IH]; intros t hcode pr p; [reflexivity|].
  cbn [shift_forward_loop]. rewrite IH, order_entry_update.
  destruct p; reflexivity.
Qed.

Lemma order_insert_loop fuel :
  forall t ent hcode pr t' r,
    insert_loop fuel t ent hcode pr = Some (t', r) -> order t' = order t.
Proof.
  induction fuel as [|fuel IH]; intros t ent hcode pr t' r E; [discriminate|].
  cbn [insert_loop] in E.
  destruct (cl_rhash_table_ptr t (cl_rhash_table_slot t hcode pr)) as [e|].
  - destruct (cl_rhash_table_key_equals t (fst ent) (fst e)).
    + injection E as <- _. unfold insert_at_equal. rewrite order_entry_update. reflexivity.
    + destruct (pr >? cl_rhash_table_cost t (cl_rhash_table_slot t hcode pr)).
      * injection E as <- _. unfold insert_at_richer, cl_rhash_table_shift_forward.
        rewrite order_entry_update. cbn [order set_n_entries set_slot].
        apply order_shift_forward_loop.
      * exact (IH _ _ _ _ _ _ E).
  - injection E as <- _. unfold insert_at_empty. rewrite order_entry_update. reflexivity.
Qed.

Lemma order_insert t ent t' r :
  cl_rhash_table_insert t ent = Some (t', r) -> order t' = order t.
Proof.
  unfold cl_rhash_table_insert. destruct (n_entries t <? cl_rhash_table_size t); [|discriminate].
  apply order_insert_loop.
Qed.

Lemma order_shift_backward_loop fuel :
  forall t hcode pr ent, order (shift_backward_loop fuel t hcode pr ent) = order t.
Proof.
  induction fuel as [|fuel IH]; intros t hcode pr ent; [reflexivity|].
  cbn [shift_backward_loop].
  destruct (cl_rhash_table_ptr t (cl_rhash_table_slot t hcode pr)) as [e|]; [|reflexivity].
  destruct (cl_rhash_table_cost t (cl_rhash_table_slot t hcode pr) =? 0); [reflexivity|].
  rewrite IH. reflexivity.
Qed.

Lemma order_remove_loop fuel :
  forall t k hcode pr, order (fst (remove_loop fuel t k hcode pr)) = order t.
Proof.
  induction fuel as [|fuel IH]; intros t k hcode pr; [reflexivity|].
  cbn [remove_loop].
  destruct (cl_rhash_table_ptr t (cl_rhash_table_slot t hcode pr)) as [e|]; [|reflexivity].
  destruct (cl_rhash_table_key_equals t k (fst e)); [|apply IH].
  cbn [fst]. rewrite order_entry_update. unfold cl_rhash_table_shift_backward.
  rewrite order_shift_backward_loop. reflexivity.
Qed.

Lemma order_remove t k : order (fst (cl_rhash_table_remove t k)) = order t.
Proof.
  unfold cl_rhash_table_remove. destruct (n_entries t =? 0); [reflexivity|].
  apply order_remove_loop.
Qed.

Lemma peek_entry_loop_fields fuel :
  forall t pr,
    order (fst (peek_entry_loop fuel t pr)) = order t /\
    n_entries (fst (peek_entry_loop fuel t pr)) = n_entries t.
Proof.
  induction fuel as [|fuel IH]; intros t pr; [split; reflexivity|].
  cbn [peek_entry_loop].
  destruct (cl_rhash_table_entry_exists (cl_rhash_table_ptr t pr));
    [split; reflexivity|apply IH].
Qed.

Lemma peek_fields t :
  order (fst (cl_rhash_table_peek t)) = order t /\
  n_entries (fst (cl_rhash_table_peek t)) = n_entries t.
Proof.
  unfold cl_rhash_table_peek. destruct (n_entries t >? 0); [|split; reflexivity].
  apply peek_entry_loop_fields.
Qed.

Lemma remove_empty t k : n_entries t = 0 -> cl_rhash_table_remove t k = (t, None).
Proof. intros H. unfold cl_rhash_table_remove. rewrite H. reflexivity. Qed.

Lemma move_higher_order h h' :
  cl_rhash_move_higher h = Some h' -> order (h_hi h') = order (h_hi h).
Proof.
  unfold cl_rhash_move_higher.
  destruct (cl_rhash_table_peek (h_lo h)) as [lo [s|]]; [|intros E; injection E as <-; reflexivity].
  destruct (cl_rhash_table_ptr lo s) as [e|]; [|intros E; injection E as <-; reflexivity].
  destruct (cl_rhash_table_remove lo (fst e)) as [lo' [k0|]];
    [|intros E; injection E as <-; reflexivity].
  hsimpl.
  destruct (cl_rhash_table_insert (h_hi h) (cl_rhash_table_entry_copy lo e))
    as [[hi' r]|] eqn:Ei; [|discriminate].
  intros E. injection E as <-. hsimpl. exact (order_insert _ _ _ _ Ei).
Qed.

Lemma move_lower_order h h' :
  cl_rhash_move_lower h = Some h' -> order (h_hi h') = order (h_hi h).
Proof.
  unfold cl_rhash_move_lower.
  pose proof (proj1 (peek_fields (h_hi h))) as Op.
  destruct (cl_rhash_table_peek (h_hi h)) as [hi [s|]]; cbn [fst] in Op;
    [|intros E; injection E as <-; hsimpl; exact Op].
  destruct (cl_rhash_table_ptr hi s) as [e|]; [|intros E; injection E as <-; hsimpl; exact Op].
  pose proof (order_remove hi (fst e)) as Or.
  destruct (cl_rhash_table_remove hi (fst e)) as [hi' [k0|]]; cbn [fst] in Or;
    [|intros E; injection E as <-; hsimpl; congruence].
  hsimpl.
  destruct (cl_rhash_table_insert (h_lo h) (cl_rhash_table_entry_copy hi e))
    as [[lo' r]|]; [|discriminate].
  intros E. injection E as <-. hsimpl. congruence.
Qed.

Lemma check_move_higher_order h h' :
  cl_rhash_check_move_higher h = Some h' -> order (h_hi h') = order (h_hi h).
Proof.
  unfold cl_rhash_check_move_higher. destruct (cl_rhash_should_move_higher h).
  - apply move_higher_order.
  - intros E. injection E as <-. reflexivity.
Qed.

Lemma check_expand_order h h' :
  cl_rhash_check_expand h = Some h' ->
  0 <= order (h_hi h) ->
  order (h_hi h') = order (h_hi h) \/
  (order (h_hi h') = order (h_hi h) + 1).
Proof.
  unfold cl_rhash_check_expand. destruct (cl_rhash_should_expand h) eqn:Se.
  - unfold cl_rhash_expand.
    destruct (cl_rhash_table_clone (h_lo h) (h_hi h)); [|discriminate].
    intros E Ho. injection E as <-. right. cbn [h_hi]. tsimpl.
    unfold cl_rhash_should_expand in Se.
    destruct (Z.ltb_spec (order (h_hi h)) CL_HASH_MAX_ORDER) as [Hlt|]; [|discriminate].
    unfold CL_HASH_MAX_ORDER in Hlt. unfold u16. apply Z.mod_small. lia.
  - intros E _. injection E as <-. left. reflexivity.
Qed.

(** An insertion leaves the low table empty when the high table keeps the
    minimum order. *)
Lemma insert_idle h ent h' r :
  CL_HASH_MIN_ORDER <= order (h_hi h) ->
  (order (h_hi h) = CL_HASH_MIN_ORDER -> n_entries (h_lo h) = 0) ->
  cl_rhash_insert h ent = Some (h', r) ->
  order (h_hi h') = CL_HASH_MIN_ORDER -> n_entries (h_lo h') = 0.
Proof.
  intros Hmin P E. unfold cl_rhash_insert in E.
  destruct (cl_rhash_table_insert (h_hi h) ent) as [[hi1 r1]|] eqn:E1; [|discriminate].
  pose proof (order_insert _ _ _ _ E1) as O1.
  destruct r1 as [k0|].
  - injection E as <- _. hsimpl. rewrite O1. exact P.
  - hsimpl.
    destruct (cl_rhash_table_remove (h_lo h) (fst ent)) as [lo1 r2] eqn:E2.
    destruct r2 as [k0|].
    + injection E as <- _. hsimpl. rewrite O1. intros Hm. specialize (P Hm).
      rewrite (remove_empty _ _ P) in E2. discriminate.
    + destruct (cl_rhash_check_move_higher (set_lo (set_hi h hi1) lo1)) as [h3|] eqn:E3;
        [|discriminate].
      destruct (cl_rhash_check_expand h3) as [h4|] eqn:E4; [|discriminate].
      injection E as <- _. hsimpl.
      pose proof (check_move_higher_order _ _ E3) as O3. hsimpl. 
      assert (0 <= order (h_hi h3)) as Hnn by (unfold CL_HASH_MIN_ORDER in Hmin; lia).
      intros Hm4.
      destruct (Z.eq_dec (order (h_hi h)) CL_HASH_MIN_ORDER) as [Hm|Hm].
      * specialize (P Hm). rewrite (remove_empty _ _ P) in E2. injection E2 as <-.
        unfold cl_rhash_check_move_higher, cl_rhash_should_move_higher in E3. hsimpl.
        rewrite P in E3. change (int_of_u32 0 >? 0) with false in E3. cbn [andb] in E3.
        injection E3 as <-. hsimpl.
        unfold cl_rhash_check_expand in E4.
        destruct (cl_rhash_should_expand _) in E4.
        -- exfalso. unfold cl_rhash_expand in E4.
           destruct (cl_rhash_table_clone _ _) in E4; [|discriminate].
           injection E4 as <-. cbn [h_hi] in Hm4. revert Hm4. tsimpl.
           rewrite O1, Hm. vm_compute. discriminate.
        -- injection E4 as <-. hsimpl. exact P.
      * exfalso. destruct (check_expand_order _ _ E4 Hnn) as [O4|O4]; lia.
Qed.

Lemma check_move_lower_order h h' :
  cl_rhash_check_move_lower h = Some h' -> order (h_hi h') = order (h_hi h).
Proof.
  unfold cl_rhash_check_move_lower. destruct (cl_rhash_should_move_lower h).
  - apply move_lower_order.
  - intros E. injection E as <-. reflexivity.
Qed.

Lemma check_shrink_idle h h' :
  cl_rhash_check_shrink h = Some h' ->
  n_entries (h_lo h') = 0 \/ h' = h.
Proof.
  unfold cl_rhash_check_shrink. destruct (cl_rhash_should_shrink h).
  - unfold cl_rhash_shrink.
    destruct (cl_rhash_table_clone (h_hi h) (h_lo h)); [|discriminate].
    intros E. injection E as <-. left. reflexivity.
  - intros E. injection E as <-. right. reflexivity.
Qed.

Lemma at_min_order_stays h :
  order (h_hi h) = CL_HASH_MIN_ORDER ->
  cl_rhash_check_move_lower h = Some h /\ cl_rhash_check_shrink h = Some h.
Proof.
  intros Hm. unfold cl_rhash_check_move_lower, cl_rhash_should_move_lower,
    cl_rhash_check_shrink, cl_rhash_should_shrink, cl_rhash_table_slimit.
  rewrite Hm. change (CL_HASH_MIN_ORDER >? CL_HASH_MIN_ORDER) with false.
  cbv iota. change (int_of_u32 0 >? 0) with false. rewrite andb_false_r.
  split; reflexivity.
Qed.

(** A removal leaves the low table empty when the high table has the
    minimum order afterwards. *)
Lemma remove_idle h k h' r :
  CL_HASH_MIN_ORDER <= order (h_hi h) ->
  (order (h_hi h) = CL_HASH_MIN_ORDER -> n_entries (h_lo h) = 0) ->
  cl_rhash_remove h k = Some (h', r) ->
  order (h_hi h') = CL_HASH_MIN_ORDER -> n_entries (h_lo h') = 0.
Proof.
  intros Hmin P E.
  destruct (Z.eq_dec (order (h_hi h)) CL_HASH_MIN_ORDER) as [Hm|Hm].
  - specialize (P Hm). unfold cl_rhash_remove in E.
    rewrite (remove_empty _ _ P) in E.
    pose proof (order_remove (h_hi h) k) as Or.
    destruct (cl_rhash_table_remove (h_hi h) k) as [hi1 r2]. cbn [fst] in Or.
    assert (order (h_hi (set_hi (set_lo h (h_lo h)) hi1)) = CL_HASH_MIN_ORDER) as Hm1
      by (hsimpl; congruence).
    destruct r2 as [k0|].
    + destruct (at_min_order_stays _ Hm1) as [A B]. rewrite A, B in E.
      injection E as <- _. intros _. hsimpl. exact P.
    + injection E as <- _. intros _. hsimpl. exact P.
  - assert (forall h1, order (h_hi h1) = order (h_hi h) ->
              match cl_rhash_check_move_lower h1 with
              | Some h2 =>
                  match cl_rhash_check_shrink h2 with
                  | Some h3 => Some (cl_rhash_edit h3, r)
                  | None => None
                  end
              | None => None
              end = Some (h', r) ->
              order (h_hi h') = CL_HASH_MIN_ORDER -> n_entries (h_lo h') = 0) as Tail.
    { intros h1 O1 Et.
      destruct (cl_rhash_check_move_lower h1) as [h2|] eqn:E2; [|discriminate].
      destruct (cl_rhash_check_shrink h2) as [h3|] eqn:E3; [|discriminate].
      injection Et as <-. hsimpl.
      pose proof (check_move_lower_order _ _ E2) as O2.
      destruct (check_shrink_idle _ _ E3) as [Z3| ->]; [intros _; exact Z3|].
      intros Hc. exfalso. apply Hm. congruence. }
    unfold cl_rhash_remove in E.
    pose proof (order_remove (h_hi h) k) as Or.
    destruct (cl_rhash_table_remove (h_lo h) k) as [lo1 [k0|]].
    + apply (Tail (set_lo h lo1)); [reflexivity|].
      destruct (cl_rhash_check_move_lower (set_lo h lo1)) as [h2|]; [|discriminate].
      destruct (cl_rhash_check_shrink h2) as [h3|]; [|discriminate].
      injection E as <- <-. reflexivity.
    + destruct (cl_rhash_table_remove (h_hi h) k) as [hi1 [k0|]]; cbn [fst] in Or.
      * apply (Tail (set_hi (set_lo h lo1) hi1)); [hsimpl; exact Or|].
        destruct (cl_rhash_check_move_lower (set_hi (set_lo h lo1) hi1)) as [h2|];
          [|discriminate].
        destruct (cl_rhash_check_shrink h2) as [h3|]; [|discriminate].
        injection E as <- <-. reflexivity.
      * injection E as <- _. hsimpl. intros Hc. exfalso. apply Hm. congruence.
Qed.

Lemma step_idle h o h' :
  CL_HASH_MIN_ORDER <= order (h_hi h) ->
  (order (h_hi h) = CL_HASH_MIN_ORDER -> n_entries (h_lo h) = 0) ->
  step h o = Some h' ->
  order (h_hi h') = CL_HASH_MIN_ORDER -> n_entries (h_lo h') = 0.
Proof.
  intros Hmin P E. destruct o as [k|k v|k| |]; cbn [step] in E.
  - unfold cl_rhash_add in E. destruct (cl_rhash_is_map h) as [[|]|]; cbn in E.
    + injection E as <-. exact P.
    + destruct (cl_rhash_insert h (k, 0)) as [[h1 r]|] eqn:Ei; [|discriminate].
      injection E as <-. exact (insert_idle _ _ _ _ Hmin P Ei).
    + discriminate.
  - unfold cl_rhash_put in E. destruct (cl_rhash_is_map h) as [[|]|]; cbn in E.
    + destruct (cl_rhash_insert h (k, v)) as [[h1 r]|] eqn:Ei; [|discriminate].
      injection E as <-. exact (insert_idle _ _ _ _ Hmin P Ei).
    + injection E as <-. exact P.
    + discriminate.
  - destruct (cl_rhash_remove h k) as [[h1 r]|] eqn:Er; [|discriminate].
    injection E as <-. exact (remove_idle _ _ _ _ Hmin P Er).
  - injection E as <-. intros _. unfold cl_rhash_clear. hsimpl.
    unfold cl_rhash_table_clear. tsimpl.
    destruct (negb (order (h_lo h) =? CL_HASH_MIN_ORDER)); reflexivity.
  - injection E as <-. unfold cl_rhash_peek.
    destruct (peek_fields (h_lo h)) as [O1 N1]. destruct (peek_fields (h_hi h)) as [O2 N2].
    destruct (cl_rhash_table_peek (h_lo h)) as [lo [s|]]; cbn [fst] in *.
    + hsimpl. rewrite N1. exact P.
    + hsimpl. destruct (cl_rhash_table_peek (h_hi h)) as [hi r2]. cbn [fst] in *.
      hsimpl. rewrite N1, O2. exact P.
Qed.

Lemma run_idle kb im ops :
  Z.of_nat (length ops) <= MAX_OPS ->
  forall h, run (cl_rhash_create kb im) ops = Some h ->
  order (h_hi h) = CL_HASH_MIN_ORDER -> n_entries (h_lo h) = 0.
Proof.
  induction ops as [|o ops IH] using rev_ind; intros Hlen h E.
  - injection E as <-. reflexivity.
  - rewrite length_app in Hlen. cbn [length] in Hlen.
    rewrite run_app in E.
    destruct (run_ok kb im ops ltac:(lia)) as [h1 [E1 [[Hc _] _]]].
    rewrite E1 in E. cbn [run] in E.
    destruct (step h1 o) as [h2|] eqn:Es; [|discriminate]. injection E as <-.
    apply (step_idle h1 o h2); [exact (proj1 (core_hi_ord h1 Hc))| |exact Es].
    apply IH; [lia|exact E1].
Qed.

(** X24: the low table holds entries only when the high table is above the
    minimum order.  In every state reached by public operations (at most
    [MAX_OPS] of them), when the high table has the minimum order (64
    slots) the low table is empty, whatever its own order: at the minimum
    order the threshold of [cl_rhash_should_move_lower] is 0, so that no
    entry is moved down. *)
Theorem X24_low_table_idle (kb : Z) (im : bool) (ops : list op)
    (Hlen : Z.of_nat (length ops) <= MAX_OPS) :
  exists h, run (cl_rhash_create kb im) ops = Some h /\
    (order (h_hi h) = CL_HASH_MIN_ORDER ->
     n_entries (h_lo h) = 0 /\
     (forall k, cl_rhash_table_contains (h_lo h) k = false) /\
     cl_rhash_should_move_lower h = false /\
     cl_rhash_should_shrink h = false) /\
    (order (h_lo h) < CL_HASH_MIN_ORDER -> order (h_hi h) = CL_HASH_MIN_ORDER).
Proof.
  destruct (run_ok kb im ops Hlen) as [h [E [[Hc _] _]]].
  exists h. split; [exact E|]. split.
  - intros Hm. pose proof (run_idle kb im ops Hlen h E Hm) as Hz.
    split; [exact Hz|]. split; [|split].
    + intros k. apply (table_not_contains _ _ (core_lo h Hc)). intros e He. exfalso.
      exact (holds_no_entries _ _ (core_lo h Hc) Hz He).
    + unfold cl_rhash_should_move_lower, cl_rhash_table_slimit. rewrite Hm.
      change (CL_HASH_MIN_ORDER >? CL_HASH_MIN_ORDER) with false. cbv iota.
      change (int_of_u32 0 >? 0) with false. apply andb_false_r.
    + unfold cl_rhash_should_shrink. rewrite Hm. reflexivity.
  - intros Hlo. pose proof (core_hi_ord h Hc) as Ho.
    destruct (core_ord h Hc) as [[O1 O2]|[O1 _]]; [|exact O1].
    unfold CL_HASH_MIN_ORDER in *. lia.
Qed.

Lemma X24_low_table_idle_witness :
  exists h,
    run (cl_rhash_create 0 false)
        (map OpAdd (sample_keys 48) ++ map OpRemove (sample_keys 16)) = Some h /\
    (order (h_hi h) = CL_HASH_MIN_ORDER ->
     n_entries (h_lo h) = 0 /\
     (forall k, cl_rhash_table_contains (h_lo h) k = false) /\
     cl_rhash_should_move_lower h = false /\
     cl_rhash_should_shrink h = false) /\
    (order (h_lo h) < CL_HASH_MIN_ORDER -> order (h_hi h) = CL_HASH_MIN_ORDER).
Proof.
  apply (X24_low_table_idle 0 false
           (map OpAdd (sample_keys 48) ++ map OpRemove (sample_keys 16))).
  vm_compute. discriminate.
Defined.

(** * Shifting forward *)

(** X25: the forward shift of an insertion, in a table whose slot offsets
    do not wrap around ([offsets_exact]: at most [2^32] bytes of slots).
    When the slots at the probe lengths [ipr .. sh - 1] of a hash code are
    occupied and the slot at [sh] is empty ([1 <= ipr <= sh < size]),
    distinct slots have distinct offsets, [cl_rhash_table_find_empty]
    returns [sh], and [cl_rhash_table_shift_forward] moves each of those
    entries one slot forward, into the empty slot at last: the slot at
    [ipr] keeps its old entry, to be overwritten by the caller; no other
    slot changes, the count and the order stay, and the peek slot does not
    grow. *)
Theorem X25_shift_forward (t : cl_rhash_table) (hcode ipr sh : Z)
    (Ho : 0 <= order t <= 31) (Hoff : offsets_exact t) (Hc : canon t)
    (Hipr : 1 <= ipr <= sh) (Hsh : sh < cl_rhash_table_size t)
    (Hempty : cl_rhash_table_ptr t (cl_rhash_table_slot t hcode sh) = None)
    (Hocc : forall q, ipr <= q < sh ->
              cl_rhash_table_ptr t (cl_rhash_table_slot t hcode q) <> None) :
  (forall s1 s2, 0 <= s1 < cl_rhash_table_size t -> 0 <= s2 < cl_rhash_table_size t ->
     cl_rhash_table_offset t s1 = cl_rhash_table_offset t s2 -> s1 = s2) /\
  cl_rhash_table_find_empty t hcode ipr = sh /\
  order (cl_rhash_table_shift_forward t hcode ipr) = order t /\
  n_entries (cl_rhash_table_shift_forward t hcode ipr) = n_entries t /\
  n_peek (cl_rhash_table_shift_forward t hcode ipr) <= n_peek t /\
  forall q, 0 <= q < cl_rhash_table_size t ->
    cl_rhash_table_ptr (cl_rhash_table_shift_forward t hcode ipr)
      (cl_rhash_table_slot t hcode q) =
    if (ipr <? q) && (q <=? sh)
    then cl_rhash_table_ptr t (cl_rhash_table_slot t hcode (q - 1))
    else cl_rhash_table_ptr t (cl_rhash_table_slot t hcode q).
Proof.
  split; [intros s1 s2; apply offsets_exact_inj; exact Hoff|].
  unfold cl_rhash_table_ptr in *.
  assert (forall q, cl_rhash_table_slot t hcode q = sl (cl_rhash_table_size t) hcode q) as Hsl
    by (intros q; apply slot_sl; exact Ho).
  rewrite Hsl in Hempty.
  assert (forall q, ipr <= q < sh -> table t (sl (cl_rhash_table_size t) hcode q) <> None)
    as Hocc' by (intros q Hq; rewrite <- Hsl; apply Hocc; exact Hq).
  split; [apply find_empty_first; try assumption; lia|].
  destruct (shift_forward_spec t hcode ipr sh Ho Hc ltac:(lia) ltac:(lia) Hsh Hempty Hocc')
    as [[So _] [Hn [Ht [Hp _]]]].
  split; [exact So|]. split; [exact Hn|]. split; [exact Hp|].
  intros q Hq. rewrite !Hsl. apply Ht. exact Hq.
Qed.

Lemma X25_shift_forward_witness :
  (forall s1 s2, 0 <= s1 < cl_rhash_table_size sample_table ->
     0 <= s2 < cl_rhash_table_size sample_table ->
     cl_rhash_table_offset sample_table s1 = cl_rhash_table_offset sample_table s2 ->
     s1 = s2) /\
  cl_rhash_table_find_empty sample_table 37 1 = 2 /\
  order (cl_rhash_table_shift_forward sample_table 37 1) = order sample_table /\
  n_entries (cl_rhash_table_shift_forward sample_table 37 1) = n_entries sample_table /\
  n_peek (cl_rhash_table_shift_forward sample_table 37 1) <= n_peek sample_table /\
  forall q, 0 <= q < cl_rhash_table_size sample_table ->
    cl_rhash_table_ptr (cl_rhash_table_shift_forward sample_table 37 1)
      (cl_rhash_table_slot sample_table 37 q) =
    if (1 <? q) && (q <=? 2)
    then cl_rhash_table_ptr sample_table (cl_rhash_table_slot sample_table 37 (q - 1))
    else cl_rhash_table_ptr sample_table (cl_rhash_table_slot sample_table 37 q).
Proof.
  apply (X25_shift_forward sample_table 37 1 2).
  - vm_compute. split; discriminate.
  - vm_compute. split; [reflexivity|discriminate].
  - exact (wf_canon _ sample_table_wf).
  - lia.
  - vm_compute. reflexivity.
  - vm_compute. reflexivity.
  - intros q Hq. assert (q = 1) as -> by lia. vm_compute. discriminate.
Defined.

(** * Expanding and shrinking do not alternate *)

Lemma size_of_order t t' : order t' = order t -> cl_rhash_table_size t' = cl_rhash_table_size t.
Proof. intros E. unfold cl_rhash_table_size. rewrite E. reflexivity. Qed.

Lemma limit_of_order t t' :
  order t' = order t -> cl_rhash_table_limit t' = cl_rhash_table_limit t.
Proof. intros E. unfold cl_rhash_table_limit. rewrite (size_of_order _ _ E). reflexivity. Qed.

Lemma check_shrink_cases h h' :
  cl_rhash_check_shrink h = Some h' ->
  h' = h \/
  (cl_rhash_should_shrink h = true /\ h_hi h' = h_lo h /\ n_entries (h_lo h') = 0).
Proof.
  unfold cl_rhash_check_shrink. destruct (cl_rhash_should_shrink h) eqn:S.
  - unfold cl_rhash_shrink, cl_rhash_table_clone.
    destruct (n_entries (h_hi h) =? 0); [|discriminate].
    intros E. injection E as <-. right. repeat split.
  - intros E. injection E as <-. left. reflexivity.
Qed.

Lemma check_expand_cases h h' :
  cl_rhash_check_expand h = Some h' ->
  h' = h \/
  (cl_rhash_should_expand h = true /\ h_lo h' = h_hi h /\ n_entries (h_hi h') = 0).
Proof.
  unfold cl_rhash_check_expand. destruct (cl_rhash_should_expand h) eqn:S.
  - unfold cl_rhash_expand, cl_rhash_table_clone.
    destruct (n_entries (h_lo h) =? 0); [|discriminate].
    intros E. injection E as <-. right. repeat split.
  - intros E. injection E as <-. left. reflexivity.
Qed.

Lemma move_lower_order_lo h h' :
  cl_rhash_move_lower h = Some h' -> order (h_lo h') = order (h_lo h).
Proof.
  unfold cl_rhash_move_lower.
  destruct (cl_rhash_table_peek (h_hi h)) as [hi [s|]];
    [|intros E; injection E as <-; reflexivity].
  destruct (cl_rhash_table_ptr hi s) as [e|]; [|intros E; injection E as <-; reflexivity].
  destruct (cl_rhash_table_remove hi (fst e)) as [hi' [k0|]];
    [|intros E; injection E as <-; reflexivity].
  hsimpl.
  destruct (cl_rhash_table_insert (h_lo h) (cl_rhash_table_entry_copy hi e))
    as [[lo' r]|] eqn:Ei; [|discriminate].
  intros E. injection E as <-. hsimpl. exact (order_insert _ _ _ _ Ei).
Qed.

Lemma check_move_lower_order_lo h h' :
  cl_rhash_check_move_lower h = Some h' -> order (h_lo h') = order (h_lo h).
Proof.
  unfold cl_rhash_check_move_lower. destruct (cl_rhash_should_move_lower h).
  - apply move_lower_order_lo.
  - intros E. injection E as <-. reflexivity.
Qed.

(** A removal that changes the order of the high table has shrunk the
    hash: the low table is new, and the high table is the former low table,
    at most a quarter of the former high table in entries. *)
Lemma remove_shrunk h k h1 r :
  0 <= order (h_hi h) <= 31 ->
  cl_rhash_remove h k = Some (h1, r) ->
  order (h_hi h1) <> order (h_hi h) ->
  n_entries (h_lo h1) = 0 /\ order (h_hi h1) = order (h_lo h) /\
  CL_HASH_MIN_ORDER < order (h_hi h) /\
  4 * n_entries (h_hi h1) <= cl_rhash_table_size (h_hi h).
Proof.
  intros Ho E Hne.
  assert (forall h0 r0, order (h_hi h0) = order (h_hi h) ->
            order (h_lo h0) = order (h_lo h) ->
            match cl_rhash_check_move_lower h0 with
            | Some h2 =>
                match cl_rhash_check_shrink h2 with
                | Some h3 => Some (cl_rhash_edit h3, r0)
                | None => None
                end
            | None => None
            end = Some (h1, r) ->
            n_entries (h_lo h1) = 0 /\ order (h_hi h1) = order (h_lo h) /\
            CL_HASH_MIN_ORDER < order (h_hi h) /\
            4 * n_entries (h_hi h1) <= cl_rhash_table_size (h_hi h)) as Tail.
  { intros h0 r0 O0 L0 Et.
    destruct (cl_rhash_check_move_lower h0) as [h2|] eqn:E2; [|discriminate].
    destruct (cl_rhash_check_shrink h2) as [h3|] eqn:E3; [|discriminate].
    injection Et as <- _.
    pose proof (check_move_lower_order _ _ E2) as O2.
    pose proof (check_move_lower_order_lo _ _ E2) as L2.
    destruct (check_shrink_cases _ _ E3) as [->|[S [Hhi Hz]]].
    - exfalso. apply Hne. hsimpl. congruence.
    - hsimpl. split; [exact Hz|]. rewrite Hhi. split; [congruence|].
      unfold cl_rhash_should_shrink in S.
      apply andb_true_iff in S. destruct S as [S S3].
      apply andb_true_iff in S. destruct S as [S1 S2].
      apply Z.leb_le in S3. unfold cl_rhash_table_slimit in S3. rewrite S1 in S3.
      rewrite (size_of_order (h_hi h) (h_hi h2)) in S3 by congruence.
      apply Z.gtb_lt in S1. split; [rewrite <- O0, <- O2; exact S1|].
      pose proof (size_bounds _ Ho).
      pose proof (Z.mul_div_le (cl_rhash_table_size (h_hi h)) 4 ltac:(lia)). lia. }
  unfold cl_rhash_remove in E.
  pose proof (order_remove (h_hi h) k) as Or.
  pose proof (order_remove (h_lo h) k) as Ol.
  destruct (cl_rhash_table_remove (h_lo h) k) as [lo1 [k0|]]; cbn [fst] in Ol.
  - apply (Tail (set_lo h lo1) (Some k0)); [reflexivity|hsimpl; exact Ol|].
    destruct (cl_rhash_check_move_lower (set_lo h lo1)) as [h2|]; [|discriminate].
    destruct (cl_rhash_check_shrink h2) as [h3|]; [|discriminate].
    injection E as <- <-. reflexivity.
  - destruct (cl_rhash_table_remove (h_hi h) k) as [hi1 [k0|]]; cbn [fst] in Or.
    + apply (Tail (set_hi (set_lo h lo1) hi1) (Some k0));
        [hsimpl; exact Or|hsimpl; exact Ol|].
      destruct (cl_rhash_check_move_lower (set_hi (set_lo h lo1) hi1)) as [h2|];
        [|discriminate].
      destruct (cl_rhash_check_shrink h2) as [h3|]; [|discriminate].
      injection E as <- <-. reflexivity.
    + exfalso. injection E as <- _. apply Hne. hsimpl. exact Or.
Qed.

(** An insertion that changes the order of the high table has expanded the
    hash: the high table is new and the low table is at its limit. *)
Lemma insert_expanded h ent h1 r :
  cl_rhash_insert h ent = Some (h1, r) ->
  order (h_hi h1) <> order (h_hi h) ->
  n_entries (h_hi h1) = 0 /\ order (h_lo h1) = order (h_hi h) /\
  cl_rhash_table_limit (h_hi h) <= n_entries (h_lo h1).
Proof.
  intros E Hne. unfold cl_rhash_insert in E.
  destruct (cl_rhash_table_insert (h_hi h) ent) as [[hi1 r1]|] eqn:E1; [|discriminate].
  pose proof (order_insert _ _ _ _ E1) as O1.
  destruct r1 as [k0|].
  - exfalso. injection E as <- _. apply Hne. hsimpl. exact O1.
  - hsimpl.
    destruct (cl_rhash_table_remove (h_lo h) (fst ent)) as [lo1 r2].
    destruct r2 as [k0|].
    + exfalso. injection E as <- _. apply Hne. hsimpl. exact O1.
    + destruct (cl_rhash_check_move_higher (set_lo (set_hi h hi1) lo1)) as [h3|] eqn:E3;
        [|discriminate].
      destruct (cl_rhash_check_expand h3) as [h4|] eqn:E4; [|discriminate].
      injection E as <- _.
      pose proof (check_move_higher_order _ _ E3) as O3. hsimpl.
      destruct (check_expand_cases _ _ E4) as [->|[S [Hlo Hz]]].
      * exfalso. apply Hne. congruence.
      * split; [exact Hz|]. rewrite Hlo. split; [congruence|].
        unfold cl_rhash_should_expand in S.
        apply andb_true_iff in S. destruct S as [_ S3].
        rewrite Z.geb_leb in S3. apply Z.leb_le in S3.
        rewrite (limit_of_order (h_hi h) (h_hi h3)) in S3 by congruence. exact S3.
Qed.

(** X26: expanding and shrinking do not alternate.  For a hash reached by
    public operations (two fewer than [MAX_OPS] at most): when an insertion
    changes the order of the high table it raises it by one, and a removal
    that follows at once leaves the order as it is; when a removal changes
    the order of the high table it lowers it by one, and an insertion that
    follows at once leaves the order as it is. *)
Theorem X26_no_thrashing (kb : Z) (im : bool) (ops : list op)
    (Hlen : Z.of_nat (length ops) + 1 < MAX_OPS) :
  exists h, run (cl_rhash_create kb im) ops = Some h /\
    (forall ent k h1 r1 h2 r2,
       cl_rhash_insert h ent = Some (h1, r1) ->
       order (h_hi h1) <> order (h_hi h) ->
       cl_rhash_remove h1 k = Some (h2, r2) ->
       order (h_hi h1) = order (h_hi h) + 1 /\ order (h_hi h2) = order (h_hi h1)) /\
    (forall k ent h1 r1 h2 r2,
       cl_rhash_remove h k = Some (h1, r1) ->
       order (h_hi h1) <> order (h_hi h) ->
       cl_rhash_insert h1 ent = Some (h2, r2) ->
       order (h_hi h1) = order (h_hi h) - 1 /\ order (h_hi h2) = order (h_hi h1)).
Proof.
  destruct (run_ok kb im ops ltac:(lia)) as [h [E [HI _]]].
  exists h. split; [exact E|].
  pose proof HI as [Hc _].
  pose proof (core_hi_ord h Hc) as Ho. unfold CL_HASH_MIN_ORDER, CL_HASH_MAX_ORDER in Ho.
  destruct (core_sizes h Hc) as [Sz [Lim _]].
  destruct (count_sum _ _ _ _ HI ltac:(lia)) as [Cs [Pl Ph]].
  split.
  - intros [ke ve] k h1 r1 h2 r2 E1 Hne E2.
    destruct (hash_insert_count kb im _ h ke ve HI ltac:(lia))
      as [h1' [r1' [E1' [HI1 _]]]].
    rewrite E1 in E1'. injection E1' as <- <-.
    destruct (insert_expanded _ _ _ _ E1 Hne) as [Z1 [Ol1 Ll1]].
    pose proof HI1 as [Hc1 _].
    pose proof (core_hi_ord h1 Hc1) as Ho1.
    unfold CL_HASH_MIN_ORDER, CL_HASH_MAX_ORDER in Ho1.
    destruct (count_sum _ _ _ _ HI1 ltac:(lia)) as [Cs1 [Pl1 Ph1]].
    assert (order (h_hi h1) = order (h_hi h) + 1) as Oup.
    { destruct (core_ord h1 Hc1) as [[O1 _]|[O1 [O2 _]]]; [lia|].
      exfalso. apply Hne. congruence. }
    split; [exact Oup|].
    destruct (Z.eq_dec (order (h_hi h2)) (order (h_hi h1))) as [Heq|Hne2]; [exact Heq|].
    exfalso.
    destruct (remove_shrunk h1 k h2 r2 ltac:(lia) E2 Hne2) as [Z2 [_ [_ Q2]]].
    destruct (hash_remove_count kb im _ h1 k HI1 ltac:(lia))
      as [h2' [r2' [E2' [HI2 [_ [_ Hcnt]]]]]].
    rewrite E2 in E2'. injection E2' as <- <-.
    destruct (count_sum _ _ _ _ HI2 ltac:(lia)) as [Cs2 [Pl2 Ph2]].
    pose proof (size_succ (h_hi h) (h_hi h1) ltac:(lia) Oup ltac:(lia)) as Sd.
    destruct (cl_rhash_contains h1 k).
    + destruct Hcnt as [Hcnt _]. lia.
    + apply Hne2. rewrite Hcnt. reflexivity.
  - intros k [ke ve] h1 r1 h2 r2 E1 Hne E2.
    destruct (hash_remove_count kb im _ h k HI ltac:(lia))
      as [h1' [r1' [E1' [HI1 _]]]].
    rewrite E1 in E1'. injection E1' as <- <-.
    destruct (remove_shrunk h k h1 r1 ltac:(lia) E1 Hne) as [Z1 [Oh1 [Hmin Q1]]].
    unfold CL_HASH_MIN_ORDER in Hmin.
    pose proof HI1 as [Hc1 _].
    pose proof (core_hi_ord h1 Hc1) as Ho1.
    unfold CL_HASH_MIN_ORDER, CL_HASH_MAX_ORDER in Ho1.
    destruct (core_sizes h1 Hc1) as [Sz1 [Lim1 _]].
    destruct (count_sum _ _ _ _ HI1 ltac:(lia)) as [Cs1 [Pl1 Ph1]].
    assert (order (h_hi h) = order (h_hi h1) + 1) as Odn.
    { destruct (core_ord h Hc) as [[O1 _]|[O1 _]]; unfold CL_HASH_MIN_ORDER in *; lia. }
    split; [lia|].
    destruct (Z.eq_dec (order (h_hi h2)) (order (h_hi h1))) as [Heq|Hne2]; [exact Heq|].
    exfalso.
    destruct (insert_expanded _ _ _ _ E2 Hne2) as [Z2 [_ Ll2]].
    destruct (hash_insert_count kb im _ h1 ke ve HI1 ltac:(lia))
      as [h2' [r2' [E2' [HI2 [_ [_ [_ Hcnt]]]]]]].
    rewrite E2 in E2'. injection E2' as <- <-.
    destruct (count_sum _ _ _ _ HI2 ltac:(lia)) as [Cs2 [Pl2 Ph2]].
    pose proof (size_succ (h_hi h1) (h_hi h) ltac:(lia) Odn ltac:(lia)) as Sd.
    destruct (cl_rhash_contains h1 ke); destruct Hcnt as [_ Hcnt]; lia.
Qed.

Lemma X26_no_thrashing_witness :
  exists h, run (cl_rhash_create 0 false) (map OpAdd (sample_keys 47)) = Some h /\
    (forall ent k h1 r1 h2 r2,
       cl_rhash_insert h ent = Some (h1, r1) ->
       order (h_hi h1) <> order (h_hi h) ->
       cl_rhash_remove h1 k = Some (h2, r2) ->
       order (h_hi h1) = order (h_hi h) + 1 /\ order (h_hi h2) = order (h_hi h1)) /\
    (forall k ent h1 r1 h2 r2,
       cl_rhash_remove h k = Some (h1, r1) ->
       order (h_hi h1) <> order (h_hi h) ->
       cl_rhash_insert h1 ent = Some (h2, r2) ->
       order (h_hi h1) = order (h_hi h) - 1 /\ order (h_hi h2) = order (h_hi h1)).
Proof.
  apply (X26_no_thrashing 0 false (map OpAdd (sample_keys 47))).
  vm_compute. reflexivity.
Defined.

(** * Keys are compared by their bytes *)

(** X27: the hash looks keys up by their bytes, not by their pointers.  In
    a state reached by public operations (at most [MAX_OPS] of them), two
    keys with the same bytes (up to the terminator, or [key_bytes] bytes) get
    the same answer from [contains] and from [get]. *)
Theorem X27_lookup_by_content (kb : Z) (im : bool) (ops : list op)
    (Hlen : Z.of_nat (length ops) <= MAX_OPS) :
  exists h, run (cl_rhash_create kb im) ops = Some h /\
    forall k k', key_content kb k = key_content kb k' ->
      cl_rhash_contains h k = cl_rhash_contains h k' /\
      cl_rhash_get h k = cl_rhash_get h k'.
Proof.
  destruct (run_ok kb im ops Hlen) as [h [E [HI _]]].
  exists h. split; [exact E|]. intros k k' Hk.
  pose proof HI as [Hc [_ [_ [_ [Hm Hkb]]]]].
  assert (cl_rhash_contains h k = cl_rhash_contains h k') as Hcon.
  { apply bool_iff. rewrite (contains_stored h k Hc), (contains_stored h k' Hc), Hkb, Hk.
    reflexivity. }
  split; [exact Hcon|]. destruct im.
  - destruct (cl_rhash_contains h k) eqn:C.
    + apply (contains_stored h k Hc) in C. destruct C as [x [Hx Hkx]].
      rewrite (proj1 (get_stored h k Hc Hm) x Hx Hkx). symmetry.
      apply (proj1 (get_stored h k' Hc Hm) x Hx). rewrite Hkb in *. congruence.
    + pose proof (proj1 (contains_not_stored h k Hc) C) as Hno.
      rewrite (proj2 (get_stored h k Hc Hm) Hno). symmetry.
      apply (proj2 (get_stored h k' Hc Hm)). intros x Hx. specialize (Hno x Hx).
      rewrite Hkb in *. congruence.
  - unfold cl_rhash_get. rewrite (is_map_ok _ _ _ _ HI). reflexivity.
Qed.

Lemma X27_lookup_by_content_witness :
  exists h, run (cl_rhash_create 0 false) (map OpAdd (sample_keys 50)) = Some h /\
    forall k k', key_content 0 k = key_content 0 k' ->
      cl_rhash_contains h k = cl_rhash_contains h k' /\
      cl_rhash_get h k = cl_rhash_get h k'.
Proof.
  apply (X27_lookup_by_content 0 false (map OpAdd (sample_keys 50))).
  vm_compute. discriminate.
Defined.

(** X28: an insertion stores the key pointer it is given.  For a hash
    reached by public operations (fewer than [MAX_OPS]), after an insertion
    a full iteration returns the very key inserted; when the insertion
    returns a previous equal key that is another pointer, the iteration no
    longer returns that one (it is the caller's again). *)
Theorem X28_insert_replaces_pointer (kb : Z) (im : bool) (ops : list op)
    (k : key) (v : value) (Hlen : Z.of_nat (length ops) < MAX_OPS) :
  exists h h' r ks,
    run (cl_rhash_create kb im) ops = Some h /\
    cl_rhash_insert h (k, v) = Some (h', r) /\
    cl_rhash_iterate h' = Some ks /\
    In k ks /\
    forall k0, r = Some k0 -> k0 <> k -> ~ In k0 ks.
Proof.
  destruct (run_ok kb im ops ltac:(lia)) as [h [E [HI _]]].
  pose proof HI as [Hc [Hl [Hp [Hn0 [Hm Hk]]]]].
  destruct (hash_insert_post h (k, v) _ Hc Hl Hp (Inv_order _ _ _ _ HI Hlen))
    as [h' [r [Ei [Hc' [Hl' [[Hp' _] [Hst [_ [_ [_ Hr]]]]]]]]]].
  assert (n_entries (h_lo h') + n_entries (h_hi h') < 2 ^ 32) as Hn
    by (unfold MAX_OPS in Hlen; lia).
  destruct (iterate_all h' Hc' Hn) as [Hit _].
  exists h, h', r, (slot_keys (h_lo h') ++ slot_keys (h_hi h')).
  split; [exact E|]. split; [exact Ei|]. split; [exact Hit|].
  assert (forall k1, In k1 (slot_keys (h_lo h') ++ slot_keys (h_hi h')) <->
                     exists v1, stored h' (k1, v1)) as Hin.
  { intros k1. rewrite in_app_iff, !slot_keys_holds. unfold stored. split.
    - intros [[[k2 v2] [H F]]|[[k2 v2] [H F]]]; simpl in F; subst k2; exists v2; tauto.
    - intros [v1 [H|H]]; [left|right]; exists (k1, v1); split; trivial. }
  split.
  - apply Hin. exists (snd (cl_rhash_table_entry_copy (h_hi h) (k, v))).
    apply Hst. left.
    pose proof (entry_copy_fst (h_hi h) (k, v)) as Hf.
    destruct (cl_rhash_table_entry_copy (h_hi h) (k, v)) as [k1 v1].
    cbn [fst snd] in *. subst k1. reflexivity.
  - intros k0 -> Hne Hi. apply Hin in Hi. destruct Hi as [v1 H1].
    destruct Hr as [v0 [_ K0]].
    apply Hst in H1. destruct H1 as [Heq|[_ Hdiff]].
    + apply Hne. apply (f_equal fst) in Heq. rewrite entry_copy_fst in Heq. exact Heq.
    + apply Hdiff. exact K0.
Qed.

Lemma X28_insert_replaces_pointer_witness :
  exists h h' r ks,
    run (cl_rhash_create 0 false) (map OpAdd (sample_keys 50)) = Some h /\
    cl_rhash_insert h (mkKey 77 (kbytes (sample_key 7)), 0) = Some (h', r) /\
    cl_rhash_iterate h' = Some ks /\
    In (mkKey 77 (kbytes (sample_key 7))) ks /\
    forall k0, r = Some k0 -> k0 <> mkKey 77 (kbytes (sample_key 7)) -> ~ In k0 ks.
Proof.
  apply (X28_insert_replaces_pointer 0 false (map OpAdd (sample_keys 50))
           (mkKey 77 (kbytes (sample_key 7))) 0).
  vm_compute. reflexivity.
Defined.

(** * The orders of the two tables *)

(** The functions that move an entry keep the order of the low table. *)
Lemma move_higher_order_lo h h' :
  cl_rhash_move_higher h = Some h' -> order (h_lo h') = order (h_lo h).
Proof.
  unfold cl_rhash_move_higher.
  pose proof (proj1 (peek_fields (h_lo h))) as Op.
  destruct (cl_rhash_table_peek (h_lo h)) as [lo [s|]]; cbn [fst] in Op;
    [|intros E; injection E as <-; hsimpl; exact Op].
  destruct (cl_rhash_table_ptr lo s) as [e|]; [|intros E; injection E as <-; hsimpl; exact Op].
  pose proof (order_remove lo (fst e)) as Or.
  destruct (cl_rhash_table_remove lo (fst e)) as [lo' [k0|]]; cbn [fst] in Or;
    [|intros E; injection E as <-; hsimpl; congruence].
  hsimpl.
  destruct (cl_rhash_table_insert (h_hi h) (cl_rhash_table_entry_copy lo e))
    as [[hi' r]|]; [|discriminate].
  intros E. injection E as <-. hsimpl. congruence.
Qed.

Lemma check_move_higher_order_lo h h' :
  cl_rhash_check_move_higher h = Some h' -> order (h_lo h') = order (h_lo h).
Proof.
  unfold cl_rhash_check_move_higher. destruct (cl_rhash_should_move_higher h).
  - apply move_higher_order_lo.
  - intros E. injection E as <-. reflexivity.
Qed.

(** An expansion makes the old high table the low table, below a high
    table of the next order; the test of [cl_rhash_should_expand] keeps
    that order at most the maximum. *)
Lemma check_expand_orders h h' :
  cl_rhash_check_expand h = Some h' -> orders_ok h -> orders_ok h'.
Proof.
  unfold cl_rhash_check_expand. destruct (cl_rhash_should_expand h) eqn:Se.
  - unfold cl_rhash_expand.
    destruct (cl_rhash_table_clone (h_lo h) (h_hi h)) as [lo|] eqn:Ec; [|discriminate].
    intros E [Hr _]. injection E as <-.
    unfold cl_rhash_table_clone in Ec.
    destruct (n_entries (h_lo h) =? 0); [|discriminate]. injection Ec as <-.
    unfold cl_rhash_should_expand in Se.
    destruct (Z.ltb_spec (order (h_hi h)) CL_HASH_MAX_ORDER) as [Hlt|]; [|discriminate].
    unfold orders_ok. cbn [h_hi h_lo]. tsimpl.
    unfold CL_HASH_MIN_ORDER, CL_HASH_MAX_ORDER in *.
    replace (u16 (order (h_hi h) + 1)) with (order (h_hi h) + 1)
      by (unfold u16; symmetry; apply Z.mod_small; lia).
    split; [lia|left; reflexivity].
  - intros E H. injection E as <-. exact H.
Qed.

(** A shrink makes the old low table the high table, above a low table of
    the order below; the test of [cl_rhash_should_shrink] lets it happen
    above the minimum order only. *)
Lemma check_shrink_orders h h' :
  cl_rhash_check_shrink h = Some h' -> orders_ok h -> orders_ok h'.
Proof.
  unfold cl_rhash_check_shrink. destruct (cl_rhash_should_shrink h) eqn:Ss.
  - unfold cl_rhash_shrink.
    destruct (cl_rhash_table_clone (h_hi h) (h_lo h)) as [hi|] eqn:Ec; [|discriminate].
    intros E [Hr Hd]. injection E as <-.
    unfold cl_rhash_table_clone in Ec.
    destruct (n_entries (h_hi h) =? 0); [|discriminate]. injection Ec as <-.
    unfold cl_rhash_should_shrink in Ss.
    destruct (Z.gtb_spec (order (h_hi h)) CL_HASH_MIN_ORDER) as [Hgt|]; [|discriminate].
    unfold orders_ok. cbn [h_hi h_lo]. tsimpl.
    unfold CL_HASH_MIN_ORDER, CL_HASH_MAX_ORDER in *.
    destruct Hd as [Hd|[Hd _]]; [|lia].
    replace (u16 (order (h_lo h) - 1)) with (order (h_lo h) - 1)
      by (unfold u16; symmetry; apply Z.mod_small; lia).
    split; [lia|left; lia].
  - intros E H. injection E as <-. exact H.
Qed.

Lemma orders_ok_same h h' :
  order (h_lo h') = order (h_lo h) -> order (h_hi h') = order (h_hi h) ->
  orders_ok h -> orders_ok h'.
Proof. unfold orders_ok. intros -> ->. tauto. Qed.

Lemma insert_orders h ent h' r :
  cl_rhash_insert h ent = Some (h', r) -> orders_ok h -> orders_ok h'.
Proof.
  intros E H. unfold cl_rhash_insert in E.
  destruct (cl_rhash_table_insert (h_hi h) ent) as [[hi1 r1]|] eqn:E1; [|discriminate].
  pose proof (order_insert _ _ _ _ E1) as O1.
  destruct r1 as [k0|].
  - injection E as <- _. apply (orders_ok_same h); hsimpl; [reflexivity|exact O1|exact H].
  - hsimpl. pose proof (order_remove (h_lo h) (fst ent)) as O2.
    destruct (cl_rhash_table_remove (h_lo h) (fst ent)) as [lo1 r2]. cbn [fst] in O2.
    destruct r2 as [k0|].
    + injection E as <- _. apply (orders_ok_same h); hsimpl; assumption.
    + destruct (cl_rhash_check_move_higher (set_lo (set_hi h hi1) lo1)) as [h3|] eqn:E3;
        [|discriminate].
      destruct (cl_rhash_check_expand h3) as [h4|] eqn:E4; [|discriminate].
      injection E as <- _.
      pose proof (check_move_higher_order _ _ E3) as O3.
      pose proof (check_move_higher_order_lo _ _ E3) as O3l. hsimpl.
      assert (orders_ok h4) as H4.
      { apply (check_expand_orders _ _ E4).
        apply (orders_ok_same h); [congruence|congruence|exact H]. }
      apply (orders_ok_same h4); hsimpl; [reflexivity|reflexivity|exact H4].
Qed.

Lemma remove_orders h k h' r :
  cl_rhash_remove h k = Some (h', r) -> orders_ok h -> orders_ok h'.
Proof.
  intros E H.
  assert (forall h1, orders_ok h1 ->
            match cl_rhash_check_move_lower h1 with
            | Some h2 =>
                match cl_rhash_check_shrink h2 with
                | Some h3 => Some (cl_rhash_edit h3, r)
                | None => None
                end
            | None => None
            end = Some (h', r) -> orders_ok h') as Tail.
  { intros h1 H1 Et.
    destruct (cl_rhash_check_move_lower h1) as [h2|] eqn:E2; [|discriminate].
    destruct (cl_rhash_check_shrink h2) as [h3|] eqn:E3; [|discriminate].
    injection Et as <-.
    apply (orders_ok_same h3); hsimpl; [reflexivity|reflexivity|].
    apply (check_shrink_orders _ _ E3).
    apply (orders_ok_same h1); [|  |exact H1].
    - exact (check_move_lower_order_lo _ _ E2).
    - exact (check_move_lower_order _ _ E2). }
  unfold cl_rhash_remove in E.
  pose proof (order_remove (h_lo h) k) as Ol.
  pose proof (order_remove (h_hi h) k) as Oh.
  destruct (cl_rhash_table_remove (h_lo h) k) as [lo1 [k0|]]; cbn [fst] in Ol.
  - apply (Tail (set_lo h lo1)).
    + apply (orders_ok_same h); hsimpl; [exact Ol|reflexivity|exact H].
    + destruct (cl_rhash_check_move_lower (set_lo h lo1)) as [h2|]; [|discriminate].
      destruct (cl_rhash_check_shrink h2) as [h3|]; [|discriminate].
      injection E as <- <-. reflexivity.
  - destruct (cl_rhash_table_remove (h_hi h) k) as [hi1 [k0|]]; cbn [fst] in Oh.
    + apply (Tail (set_hi (set_lo h lo1) hi1)).
      * apply (orders_ok_same h); hsimpl; [exact Ol|exact Oh|exact H].
      * destruct (cl_rhash_check_move_lower (set_hi (set_lo h lo1) hi1)) as [h2|];
          [|discriminate].
        destruct (cl_rhash_check_shrink h2) as [h3|]; [|discriminate].
        injection E as <- <-. reflexivity.
    + injection E as <- _. apply (orders_ok_same h); hsimpl; assumption.
Qed.

Lemma clear_orders h : orders_ok (cl_rhash_clear h).
Proof.
  unfold orders_ok, cl_rhash_clear. hsimpl. unfold cl_rhash_table_clear. tsimpl.
  unfold CL_HASH_MIN_ORDER, CL_HASH_MAX_ORDER.
  destruct (order (h_lo h) =? 6) eqn:El; destruct (order (h_hi h) =? 6) eqn:Eh;
    cbn [negb]; tsimpl;
    try (apply Z.eqb_eq in El); try (apply Z.eqb_eq in Eh);
    (split; [lia|right; split; (reflexivity || assumption)]).
Qed.

Lemma step_orders h o h' : step h o = Some h' -> orders_ok h -> orders_ok h'.
Proof.
  intros E H. destruct o as [k|k v|k| |]; cbn [step] in E.
  - unfold cl_rhash_add in E. destruct (cl_rhash_is_map h) as [[|]|]; cbn in E.
    + injection E as <-. exact H.
    + destruct (cl_rhash_insert h (k, 0)) as [[h1 r]|] eqn:Ei; [|discriminate].
      injection E as <-. exact (insert_orders _ _ _ _ Ei H).
    + discriminate.
  - unfold cl_rhash_put in E. destruct (cl_rhash_is_map h) as [[|]|]; cbn in E.
    + destruct (cl_rhash_insert h (k, v)) as [[h1 r]|] eqn:Ei; [|discriminate].
      injection E as <-. exact (insert_orders _ _ _ _ Ei H).
    + injection E as <-. exact H.
    + discriminate.
  - destruct (cl_rhash_remove h k) as [[h1 r]|] eqn:Er; [|discriminate].
    injection E as <-. exact (remove_orders _ _ _ _ Er H).
  - injection E as <-. apply clear_orders.
  - injection E as <-. unfold cl_rhash_peek.
    destruct (peek_fields (h_lo h)) as [O1 _]. destruct (peek_fields (h_hi h)) as [O2 _].
    destruct (cl_rhash_table_peek (h_lo h)) as [lo [s|]]; cbn [fst] in *.
    + hsimpl. apply (orders_ok_same h); hsimpl; [exact O1|reflexivity|exact H].
    + hsimpl. destruct (cl_rhash_table_peek (h_hi h)) as [hi r2]. cbn [fst] in *.
      hsimpl. apply (orders_ok_same h); hsimpl; [exact O1|exact O2|exact H].
Qed.

(** Every state a run of public operations returns, however long the run,
    has its orders as [orders_ok] says, and an empty low table while the
    high table has the minimum order.  The proof reads the order fields,
    the entry count of the low table and the tests of expand and shrink,
    not the contents of the slots. *)
Lemma run_orders ops :
  forall h0 h,
    orders_ok h0 ->
    (order (h_hi h0) = CL_HASH_MIN_ORDER -> n_entries (h_lo h0) = 0) ->
    run h0 ops = Some h ->
    orders_ok h /\ (order (h_hi h) = CL_HASH_MIN_ORDER -> n_entries (h_lo h) = 0).
Proof.
  induction ops as [|o ops IH]; intros h0 h H0 P0 E; cbn [run] in E.
  - injection E as <-. split; assumption.
  - destruct (step h0 o) as [h1|] eqn:Es; [|discriminate].
    apply (IH h1 h); [exact (step_orders _ _ _ Es H0)| |exact E].
    exact (step_idle h0 o h1 (proj1 (proj1 H0)) P0 Es).
Qed.

Lemma create_orders kb im :
  orders_ok (cl_rhash_create kb im) /\
  (order (h_hi (cl_rhash_create kb im)) = CL_HASH_MIN_ORDER ->
   n_entries (h_lo (cl_rhash_create kb im)) = 0).
Proof.
  split; [|reflexivity].
  unfold orders_ok. cbn. unfold CL_HASH_MIN_ORDER, CL_HASH_MAX_ORDER.
  split; [lia|right; split; reflexivity].
Qed.

(** C3 (amended): in every state between public calls, after any sequence
    of public operations on a newly created hash, the order of the high
    table is the order of the low table plus one, or, as after create and
    clear and until the first expansion, both tables have the minimum order
    and the low table is empty. *)
Theorem C3_orders (kb : Z) (im : bool) (ops : list op) (h : cl_rhash)
    (Hrun : run (cl_rhash_create kb im) ops = Some h) :
  order (h_hi h) = order (h_lo h) + 1 \/
  (order (h_hi h) = CL_HASH_MIN_ORDER /\ order (h_lo h) = CL_HASH_MIN_ORDER /\
   n_entries (h_lo h) = 0).
Proof.
  destruct (create_orders kb im) as [H0 P0].
  destruct (run_orders ops _ h H0 P0 Hrun) as [[_ [Hd|[Hh Hl]]] Hz].
  - left. exact Hd.
  - right. split; [exact Hh|]. split; [exact Hl|exact (Hz Hh)].
Qed.

Lemma C3_orders_witness :
  exists h, run (cl_rhash_create 0 false) (map OpAdd (sample_keys 50)) = Some h /\
    (order (h_hi h) = order (h_lo h) + 1 \/
     (order (h_hi h) = CL_HASH_MIN_ORDER /\ order (h_lo h) = CL_HASH_MIN_ORDER /\
      n_entries (h_lo h) = 0)).
Proof.
  eexists. split; [vm_compute; reflexivity|].
  apply (C3_orders 0 false (map OpAdd (sample_keys 50))). vm_compute. reflexivity.
Defined.

(** C8 (amended): in every state reached by public operations on a newly
    created hash, however many, the order of the high table lies between
    the minimum order 6 and the maximum order 31; the order of the low
    table lies between 5 and 30 and is one less than the order of the high
    table, so that it is 5 exactly when the high table has order 6 after a
    shrink, or both tables have the minimum order 6 (as after create and
    clear) and the low table is empty; each table has [2 ^ order] slots. *)
Theorem C8_orders (kb : Z) (im : bool) (ops : list op) (h : cl_rhash)
    (Hrun : run (cl_rhash_create kb im) ops = Some h) :
  CL_HASH_MIN_ORDER <= order (h_hi h) <= CL_HASH_MAX_ORDER /\
  ((order (h_lo h) = order (h_hi h) - 1 /\
    CL_HASH_MIN_ORDER - 1 <= order (h_lo h) <= CL_HASH_MAX_ORDER - 1) \/
   (order (h_lo h) = CL_HASH_MIN_ORDER /\ order (h_hi h) = CL_HASH_MIN_ORDER /\
    n_entries (h_lo h) = 0)) /\
  (order (h_lo h) < CL_HASH_MIN_ORDER <->
   order (h_lo h) = CL_HASH_MIN_ORDER - 1 /\ order (h_hi h) = CL_HASH_MIN_ORDER /\
   n_entries (h_lo h) = 0) /\
  cl_rhash_table_size (h_hi h) = 2 ^ order (h_hi h) /\
  cl_rhash_table_size (h_lo h) = 2 ^ order (h_lo h).
Proof.
  destruct (create_orders kb im) as [H0 P0].
  destruct (run_orders ops _ h H0 P0 Hrun) as [[Hr Hd] Hz].
  unfold CL_HASH_MIN_ORDER, CL_HASH_MAX_ORDER in *.
  split; [exact Hr|]. split; [|split; [|split]].
  - destruct Hd as [Hd|[Hh Hl]]; [left; lia|right].
    split; [exact Hl|]. split; [exact Hh|exact (Hz Hh)].
  - split.
    + intros Hlt. destruct Hd as [Hd|[Hh Hl]]; [|lia].
      assert (order (h_hi h) = 6) as Hh by lia.
      split; [lia|]. split; [exact Hh|exact (Hz Hh)].
    + intros [Hl _]. lia.
  - apply size_pow. lia.
  - apply size_pow. destruct Hd as [Hd|[Hh Hl]]; lia.
Qed.

Lemma C8_orders_witness :
  exists h,
    run (cl_rhash_create 0 false)
        (map OpAdd (sample_keys 48) ++ map OpRemove (sample_keys 16)) = Some h /\
    CL_HASH_MIN_ORDER <= order (h_hi h) <= CL_HASH_MAX_ORDER /\
    ((order (h_lo h) = order (h_hi h) - 1 /\
      CL_HASH_MIN_ORDER - 1 <= order (h_lo h) <= CL_HASH_MAX_ORDER - 1) \/
     (order (h_lo h) = CL_HASH_MIN_ORDER /\ order (h_hi h) = CL_HASH_MIN_ORDER /\
      n_entries (h_lo h) = 0)) /\
    (order (h_lo h) < CL_HASH_MIN_ORDER <->
     order (h_lo h) = CL_HASH_MIN_ORDER - 1 /\ order (h_hi h) = CL_HASH_MIN_ORDER /\
     n_entries (h_lo h) = 0) /\
    cl_rhash_table_size (h_hi h) = 2 ^ order (h_hi h) /\
    cl_rhash_table_size (h_lo h) = 2 ^ order (h_lo h).
Proof.
  eexists. split; [vm_compute; reflexivity|].
  apply (C8_orders 0 false
           (map OpAdd (sample_keys 48) ++ map OpRemove (sample_keys 16))).
  vm_compute. reflexivity.
Defined.

(** * Keys with a chosen hash code *)

Lemma byte_val_of d : 0 <= d < 256 -> byte_val (byte_of d) = d.
Proof.
  intros H. unfold byte_val, byte_of.
  destruct (Byte.of_N (Z.to_N d)) as [b|] eqn:E.
  - apply Byte.to_of_N in E. rewrite E. lia.
  - apply Byte.of_N_None_iff in E. lia.
Qed.

(** The hash of a list of bytes is the polynomial in 33 with the bytes as
    coefficients, reduced modulo [2^32] once at the end. *)
Lemma hash33_poly_gen (l : list byte) : forall a b,
  a mod 2 ^ 32 = b mod 2 ^ 32 ->
  fold_left (fun h x => (h * 33 + byte_val x) mod 2 ^ 32) l a mod 2 ^ 32 =
  fold_left (fun h x => h * 33 + byte_val x) l b mod 2 ^ 32.
Proof.
  induction l as [|x l IH]; intros a b E; cbn [fold_left]; [exact E|].
  apply IH. rewrite Z.mod_mod by lia.
  rewrite <- (Zplus_mod_idemp_l (a * 33)), <- (Zplus_mod_idemp_l (b * 33)).
  rewrite <- (Zmult_mod_idemp_l a), <- (Zmult_mod_idemp_l b), E. reflexivity.
Qed.

Lemma hash33_poly (l : list byte) :
  l <> [] ->
  hash33 l = fold_left (fun h x => h * 33 + byte_val x) l 5381 mod 2 ^ 32.
Proof.
  intros Hl. unfold hash33. rewrite <- (hash33_poly_gen l 5381 5381 eq_refl).
  symmetry. apply Z.mod_small.
  destruct l as [|x l] using rev_ind; [congruence|].
  rewrite fold_left_app. cbn [fold_left]. apply Z.mod_pos_bound. lia.
Qed.

Lemma hash33_digits v : 0 <= v < 2 ^ 32 -> hash33 (hash_digits v) = v.
Proof.
  intros Hv. rewrite hash33_poly by (unfold hash_digits; cbn; discriminate).
  unfold hash_digits.
  set (w := (v - 5381 * 33 ^ 7) mod 2 ^ 32).
  assert (Hw : 0 <= w < 2 ^ 32) by (apply Z.mod_pos_bound; lia).
  cbn [map fold_left].
  assert (Hd : forall i, 0 <= (w / 33 ^ i) mod 33 < 256).
  { intros i. pose proof (Z.mod_pos_bound (w / 33 ^ i) 33 ltac:(lia)). lia. }
  rewrite !byte_val_of by apply Hd.
  assert (D : forall i, 0 <= i -> w / 33 ^ i = 33 * (w / 33 ^ (i + 1)) + (w / 33 ^ i) mod 33).
  { intros i Hi. rewrite Z.pow_add_r, <- Z.div_div by lia.
    change (33 ^ 1) with 33. apply Z.div_mod. lia. }
  pose proof (D 0 ltac:(lia)) as D0. pose proof (D 1 ltac:(lia)) as D1.
  pose proof (D 2 ltac:(lia)) as D2. pose proof (D 3 ltac:(lia)) as D3.
  pose proof (D 4 ltac:(lia)) as D4. pose proof (D 5 ltac:(lia)) as D5.
  pose proof (D 6 ltac:(lia)) as D6.
  change (0 + 1) with 1 in *. change (1 + 1) with 2 in *. change (2 + 1) with 3 in *.
  change (3 + 1) with 4 in *. change (4 + 1) with 5 in *. change (5 + 1) with 6 in *.
  change (6 + 1) with 7 in *.
  assert (w / 33 ^ 7 = 0) as Z7 by (apply Z.div_small; lia).
  assert (w / 33 ^ 0 = w) as Z0 by (change (33 ^ 0) with 1; apply Z.div_1_r).
  rewrite Z7 in D6. rewrite Z0 in *.
  set (d6 := (w / 33 ^ 6) mod 33) in *. set (d5 := (w / 33 ^ 5) mod 33) in *.
  set (d4 := (w / 33 ^ 4) mod 33) in *. set (d3 := (w / 33 ^ 3) mod 33) in *.
  set (d2 := (w / 33 ^ 2) mod 33) in *. set (d1 := (w / 33 ^ 1) mod 33) in *.
  set (d0 := w mod 33) in *.
  set (q1 := w / 33 ^ 1) in *. set (q2 := w / 33 ^ 2) in *. set (q3 := w / 33 ^ 3) in *.
  set (q4 := w / 33 ^ 4) in *. set (q5 := w / 33 ^ 5) in *. set (q6 := w / 33 ^ 6) in *.
  replace (((((((5381 * 33 + d6) * 33 + d5) * 33 + d4) * 33 + d3) * 33 + d2) * 33 + d1) * 33 + d0)
    with (5381 * 33 ^ 7 + w) by lia.
  unfold w. rewrite Zplus_mod_idemp_r.
  replace (5381 * 33 ^ 7 + (v - 5381 * 33 ^ 7)) with v by lia.
  apply Z.mod_small. exact Hv.
Qed.

Lemma hash_key_content v : key_content 7 (hash_key v) = hash_digits v.
Proof. reflexivity. Qed.

Lemma hash_digits_inj v1 v2 :
  0 <= v1 < 2 ^ 32 -> 0 <= v2 < 2 ^ 32 -> hash_digits v1 = hash_digits v2 -> v1 = v2.
Proof.
  intros H1 H2 E. rewrite <- (hash33_digits v1 H1), <- (hash33_digits v2 H2), E.
  reflexivity.
Qed.

(** X29: keys with any chosen hash code.  For every [v] below [2^32] the
    key [hash_key v], seven bytes that are the base-33 digits of
    [(v - 5381 * 33 ^ 7) mod 2 ^ 32], has the hash code [v] in a table of
    key width 7, so that its slot in a table of order [o] is the low [o]
    bits of [v]; keys made for different codes are not equal. *)
Theorem X29_hash_key (t : cl_rhash_table) (v v' : Z)
    (Hkb : key_bytes t = 7) (Ho : 0 <= order t <= 31)
    (Hv : 0 <= v < 2 ^ 32) (Hv' : 0 <= v' < 2 ^ 32) :
  cl_rhash_table_hash t (hash_key v) = v /\
  cl_rhash_table_slot t (cl_rhash_table_hash t (hash_key v)) 0 = v mod 2 ^ order t /\
  (cl_rhash_table_key_equals t (hash_key v) (hash_key v') = true <-> v = v').
Proof.
  assert (Hh : cl_rhash_table_hash t (hash_key v) = v).
  { rewrite table_hash_content, Hkb, hash_key_content. apply hash33_digits. exact Hv. }
  split; [exact Hh|]. split.
  - rewrite Hh, (slot_sl t v 0 Ho). unfold sl.
    rewrite Z.add_0_r, (size_pow t Ho). reflexivity.
  - rewrite key_equals_content, Hkb, !hash_key_content. split.
    + apply hash_digits_inj; assumption.
    + intros ->. reflexivity.
Qed.

Lemma X29_hash_key_witness :
  cl_rhash_table_hash (cl_rhash_table_init 7 8) (hash_key 1073741808) = 1073741808 /\
  cl_rhash_table_slot (cl_rhash_table_init 7 8)
    (cl_rhash_table_hash (cl_rhash_table_init 7 8) (hash_key 1073741808)) 0 =
    1073741808 mod 2 ^ order (cl_rhash_table_init 7 8) /\
  (cl_rhash_table_key_equals (cl_rhash_table_init 7 8)
     (hash_key 1073741808) (hash_key 1610612720) = true <->
   1073741808 = 1610612720).
Proof.
  apply (X29_hash_key (cl_rhash_table_init 7 8) 1073741808 1610612720).
  - reflexivity.
  - vm_compute. split; discriminate.
  - vm_compute. split; [discriminate|reflexivity].
  - vm_compute. split; [discriminate|reflexivity].
Defined.

(** * Slots that share a byte offset *)

(** X30: where the 32-bit byte offset of [cl_rhash_table_ptr] wraps
    around.  In a table of order 30 with 8-byte entries (a set) the slots
    [s] and [s + 2^29] are both below the table size and have the same byte
    offset, and so have the slots [s] and [s + 2^28] of a table of order 29
    with 16-byte entries (a map): such a table is not [offsets_exact]. *)
Theorem X30_slot_offsets_alias (t : cl_rhash_table) (s : Z)
    (Hw : (n_bytes t = ptr_bytes /\ order t = 30) \/
          (n_bytes t = ptr_bytes * 2 /\ order t = 29))
    (Hs : 0 <= s < 2 ^ 32 / n_bytes t) :
  0 <= s < cl_rhash_table_size t /\
  0 <= s + 2 ^ 32 / n_bytes t < cl_rhash_table_size t /\
  cl_rhash_table_offset t (s + 2 ^ 32 / n_bytes t) = cl_rhash_table_offset t s /\
  ~ offsets_exact t.
Proof.
  unfold ptr_bytes in Hw.
  assert (Ho : 0 <= order t <= 31) by (destruct Hw as [[_ ->]|[_ ->]]; lia).
  unfold offsets_exact, cl_rhash_table_offset, u32. rewrite (size_pow t Ho).
  destruct Hw as [[Hn Hor]|[Hn Hor]]; rewrite Hn in *; rewrite Hor.
  - change (2 ^ 32 / 8) with (2 ^ 29) in *.
    split; [lia|]. split; [lia|]. split; [|lia].
    replace ((s + 2 ^ 29) * 8) with (s * 8 + 1 * 2 ^ 32) by lia.
    apply Z_mod_plus_full.
  - change (2 ^ 32 / (8 * 2)) with (2 ^ 28) in *. change (8 * 2) with 16.
    split; [lia|]. split; [lia|]. split; [|lia].
    replace ((s + 2 ^ 28) * 16) with (s * 16 + 1 * 2 ^ 32) by lia.
    apply Z_mod_plus_full.
Qed.

Lemma X30_slot_offsets_alias_witness :
  0 <= 5381 < cl_rhash_table_size (set_order (cl_rhash_table_init 7 8) 30) /\
  0 <= 5381 + 2 ^ 32 / n_bytes (set_order (cl_rhash_table_init 7 8) 30)
    < cl_rhash_table_size (set_order (cl_rhash_table_init 7 8) 30) /\
  cl_rhash_table_offset (set_order (cl_rhash_table_init 7 8) 30)
    (5381 + 2 ^ 32 / n_bytes (set_order (cl_rhash_table_init 7 8) 30)) =
  cl_rhash_table_offset (set_order (cl_rhash_table_init 7 8) 30) 5381 /\
  ~ offsets_exact (set_order (cl_rhash_table_init 7 8) 30).
Proof.
  apply (X30_slot_offsets_alias (set_order (cl_rhash_table_init 7 8) 30) 5381).
  - left. split; reflexivity.
  - vm_compute. split; [discriminate|reflexivity].
Defined.

(** * The load factor at the maximum order *)



Lemma hash_keys_snoc from n :
  hash_adds from (S n) = hash_adds from n ++ [OpAdd (hash_key (Z.of_nat (from + n)))].
Proof.
  unfold hash_adds, hash_keys. rewrite seq_S, !map_app. reflexivity.
Qed.


Lemma hash_key_new n h :
  Z.of_nat n < 2 ^ 32 -> holds_hash_keys n h ->
  forall x, stored h x -> kc 7 x <> kc 7 (hash_key (Z.of_nat n), 0).
Proof.
  intros Hn Hk x Hx E.
  destruct (proj1 (Hk (kc 7 x)) (ex_intro _ x (conj Hx eq_refl))) as [i [Hi Ei]].
  rewrite E in Ei. unfold kc in Ei. cbn [fst] in Ei. rewrite hash_key_content in Ei.
  apply hash_digits_inj in Ei; lia.
Qed.

Lemma holds_hash_keys_step n h h' :
  holds_hash_keys n h ->
  (forall x, stored h' x <->
             x = (hash_key (Z.of_nat n), 0) \/ stored h x) ->
  holds_hash_keys (S n) h'.
Proof.
  intros Hk St c. split.
  - intros [x [Hx Ec]]. apply St in Hx. destruct Hx as [->|Hx].
    + exists n. split; [lia|]. rewrite <- Ec. reflexivity.
    + destruct (proj1 (Hk c) (ex_intro _ x (conj Hx Ec))) as [i [Hi Ei]].
      exists i. split; [lia|exact Ei].
  - intros [i [Hi Ei]]. destruct (Nat.eq_dec i n) as [->|Hne].
    + exists (hash_key (Z.of_nat n), 0). split; [apply St; left; reflexivity|].
      rewrite Ei. reflexivity.
    + destruct (proj2 (Hk c)) as [x [Hx Ec]]; [exists i; split; [lia|exact Ei]|].
      exists x. split; [apply St; right; exact Hx|exact Ec].
Qed.

Lemma NoDup_map_on {A B : Type} (f : A -> B) (l : list A) :
  (forall x y, In x l -> In y l -> f x = f y -> x = y) ->
  NoDup l -> NoDup (map f l).
Proof.
  intros Hinj Nd. induction Nd as [|a l Ha Nd IH]; cbn [map]; constructor.
  - intros Hin. apply in_map_iff in Hin. destruct Hin as [y [Ey Hy]].
    apply Ha. rewrite (Hinj a y); [exact Hy|left; reflexivity|right; exact Hy|].
    symmetry. exact Ey.
  - apply IH. intros x y Hx Hy. apply Hinj; right; assumption.
Qed.

(** The count after [n] additions of [hash_adds] is [n]. *)
Lemma hash_keys_count n h :
  Core h -> key_bytes (h_hi h) = 7 -> Z.of_nat n < 2 ^ 32 ->
  n_entries (h_lo h) + n_entries (h_hi h) < 2 ^ 32 ->
  holds_hash_keys n h ->
  n_entries (h_lo h) + n_entries (h_hi h) = Z.of_nat n.
Proof.
  intros Hc Hkb Hn Hcnt Hk.
  destruct (count_contents h Hc Hcnt) as [cl [Nd [Hl Hin]]]. rewrite Hkb in Hin.
  unfold cl_rhash_count in Hl.
  assert (Hu : u32 (n_entries (h_lo h) + n_entries (h_hi h)) =
               n_entries (h_lo h) + n_entries (h_hi h)).
  { destruct (core_sizes h Hc) as [_ [_ [_ [S4 [S5 _]]]]].
    unfold u32. apply Z.mod_small. lia. }
  rewrite Hu in Hl. rewrite <- Hl. f_equal.
  rewrite (NoDup_same_length cl (map (fun i => hash_digits (Z.of_nat i)) (seq 0 n)) Nd).
  - rewrite length_map, length_seq. reflexivity.
  - apply NoDup_map_on; [|apply seq_NoDup].
    intros i j Hi Hj E. apply in_seq in Hi. apply in_seq in Hj.
    apply hash_digits_inj in E; lia.
  - intros c. rewrite Hin, (Hk c), in_map_iff. split.
    + intros [i [Hi Ei]]. exists i. split; [symmetry; exact Ei|apply in_seq; lia].
    + intros [i [Ei Hi]]. apply in_seq in Hi. exists i. split; [lia|symmetry; exact Ei].
Qed.

Lemma set_entry_copy h k :
  Core h -> is_map h = false ->
  cl_rhash_table_entry_copy (h_hi h) (k, 0) = (k, 0).
Proof.
  intros Hc Hm. unfold cl_rhash_table_entry_copy.
  rewrite (core_map h Hc), Hm. reflexivity.
Qed.

(** The first [3 * 2^28] additions of keys with the hash codes 0, 1, 2, ...
    to a new set of key width 7: each finds the high table below the
    maximum order. *)
Lemma grow_below n :
  Z.of_nat n <= 3 * 2 ^ 28 ->
  exists h, run (cl_rhash_create 7 false) (hash_adds 0 n) = Some h /\
    Core h /\ Load h /\ Pot (Z.of_nat n) h /\
    is_map h = false /\ key_bytes (h_hi h) = 7 /\ holds_hash_keys n h.
Proof.
  induction n as [|n IH]; intros Hn.
  - exists (cl_rhash_create 7 false). split; [reflexivity|].
    destruct (create_inv 7 false) as [Hc [Hl [Hp [_ [Hm Hk]]]]].
    splits; try assumption.
    intros c. split.
    + intros [x [Hx _]]. exfalso. exact (create_stored 7 false x Hx).
    + intros [i [Hi _]]. lia.
  - destruct IH as [h [E [Hc [Hl [Hp [Hm [Hkb Hk]]]]]]]; [lia|].
    assert (Hord : order (h_hi h) < CL_HASH_MAX_ORDER).
    { destruct Hp as [_ Hp]. unfold CL_HASH_MAX_ORDER.
      pose proof (core_hi_ord h Hc) as Ho. unfold CL_HASH_MIN_ORDER, CL_HASH_MAX_ORDER in Ho.
      destruct (Z_lt_le_dec (order (h_hi h)) 31) as [L|L]; [exact L|exfalso].
      rewrite size_pow in Hp by lia.
      assert (2 ^ 31 <= 2 ^ order (h_hi h)) by (apply Z.pow_le_mono_r; lia).
      lia. }
    destruct (hash_insert_post h (hash_key (Z.of_nat n), 0) (Z.of_nat n) Hc Hl Hp Hord)
      as [h' [r [Ei [Hc' [Hl' [Hp' [Hst [Hm' [_ [Hkb' _]]]]]]]]]].
    exists h'. rewrite hash_keys_snoc, run_app, E. cbn [run step Nat.add].
    unfold cl_rhash_add. rewrite (is_map_core h Hc), Hm, Ei. cbn [option_map fst].
    split; [reflexivity|].
    replace (Z.of_nat (S n)) with (Z.of_nat n + 1) by lia.
    splits; try assumption; try congruence.
    apply (holds_hash_keys_step n h h' Hk).
    intros x. rewrite Hst, (set_entry_copy h _ Hc Hm), Hkb. split.
    + intros [->|[Hx _]]; [left; reflexivity|right; exact Hx].
    + intros [->|Hx]; [left; reflexivity|right; split; [exact Hx|]].
      apply (hash_key_new n h); [lia|exact Hk|exact Hx].
Qed.

(** After [3 * 2^27] of these additions, all of them on tables of at most
    [2^32] bytes, the set has got a high table of order 30, of [2^33]
    bytes. *)
Lemma grow_to_order_30 :
  exists h, run (cl_rhash_create 7 false) (hash_adds 0 (Z.to_nat (3 * 2 ^ 27))) = Some h /\
    order (h_hi h) = 30 /\ order (h_lo h) = 29 /\
    n_bytes (h_hi h) = ptr_bytes /\
    n_entries (h_lo h) + n_entries (h_hi h) = 3 * 2 ^ 27.
Proof.
  destruct (grow_below (Z.to_nat (3 * 2 ^ 27))) as [h [E [Hc [Hl [Hp [Hm [Hkb Hk]]]]]]];
    [rewrite Z2Nat.id; lia|].
  exists h. split; [exact E|].
  rewrite Z2Nat.id in Hp by lia.
  assert (Hcnt : n_entries (h_lo h) + n_entries (h_hi h) = 3 * 2 ^ 27).
  { pose proof (hash_keys_count (Z.to_nat (3 * 2 ^ 27)) h Hc Hkb) as Hq.
    rewrite Z2Nat.id in Hq by lia.
    apply Hq; [lia|destruct Hp as [Hp _]; lia|exact Hk]. }
  pose proof (core_hi_ord h Hc) as Ho. unfold CL_HASH_MIN_ORDER, CL_HASH_MAX_ORDER in *.
  assert (Hhi : order (h_hi h) = 30).
  { destruct Hp as [_ Hp]. rewrite size_pow in Hp by lia.
    destruct (Z_lt_le_dec 30 (order (h_hi h))) as [L|L].
    - exfalso. assert (2 ^ 31 <= 2 ^ order (h_hi h)) by (apply Z.pow_le_mono_r; lia). lia.
    - destruct (Z_lt_le_dec (order (h_hi h)) 30) as [L'|L']; [exfalso|lia].
      pose proof (limit_eq (h_hi h) ltac:(lia)) as Le.
      rewrite size_pow in Le by lia.
      assert (2 ^ order (h_hi h) <= 2 ^ 29) by (apply Z.pow_le_mono_r; lia).
      pose proof (load_sum h Hl) as Ls. pose proof (load_lo0 h Hl) as Lz.
      destruct (core_sizes h Hc) as [_ [_ [_ [S4 [S5 _]]]]].
      assert (n_entries (h_lo h) = 0) as Z0 by lia.
      specialize (Lz Z0). lia. }
  split; [exact Hhi|]. split; [|split; [|exact Hcnt]].
  - destruct (core_ord h Hc) as [[O _]|[O _]]; [lia|unfold CL_HASH_MIN_ORDER in O; lia].
  - rewrite (core_map h Hc), Hm. reflexivity.
Qed.



